(** * Hatchet GraphFrame: a shallow embedding of [hatchet/graphframe.py]

    The development models the call graph as an arena of [Node] objects
    addressed by reference, the pandas DataFrame as a list of named columns
    whose data live in shared buffers, and Python exceptions as an error
    monad.  Part I holds the definitions, Part II the theorems. *)

From Stdlib Require Import ZArith String Ascii List Lia Bool Permutation Sorted.
From stdpp Require Import base option list strings gmap.

Local Open Scope string_scope.
Local Open Scope list_scope.
Local Open Scope nat_scope.

(* ===================================================================== *)
(** * Part I: definitions                                                 *)
(* ===================================================================== *)

(** ** Exceptions as an error monad *)

Inductive exn : Type :=
| ValueError | KeyError | TypeError | RecursionError
| InvalidFilter | EmptyFilter.

Inductive result (A : Type) : Type :=
| Ok (a : A)
| Raise (e : exn).
Arguments Ok {A} a.
Arguments Raise {A} e.

#[global] Instance result_ret : MRet result := λ A a, Ok a.
#[global] Instance result_bind : MBind result :=
  λ A B f m, match m with Ok a => f a | Raise e => Raise e end.
#[global] Instance result_fmap : FMap result :=
  λ A B f m, match m with Ok a => Ok (f a) | Raise e => Raise e end.

Definition is_Ok {A} (m : result A) : Prop := ∃ a, m = Ok a.

(** [for x in l: acc = f(acc, x)] where the body may raise. *)
Fixpoint foldM {A B : Type} (f : B → A → result B) (l : list A) (b : B)
  : result B :=
  match l with
  | [] => Ok b
  | x :: l' => b' ← f b x; foldM f l' b'
  end.

(** A dictionary lookup that raises [KeyError] on a missing key. *)
Definition getitem {A} (o : option A) : result A :=
  match o with Some a => Ok a | None => Raise KeyError end.

(** Python sets, and [unique], are kept as duplicate-free lists; iteration
    follows the order of first insertion. *)
Definition unique {A : Type} `{EqDecision A} (l : list A) : list A :=
  reverse (remove_dups (reverse l)).
Definition set_add (x : nat) (s : list nat) : list nat := unique (s ++ [x]).
Definition set_union (s t : list nat) : list nat := unique (s ++ t).

(** ** Nodes and graphs *)

Abbreviation ref := nat (only parsing).    (* identity of a Node object *)
Abbreviation gref := nat (only parsing).   (* identity of a Graph object *)
Abbreviation bref := nat (only parsing).   (* identity of a column buffer *)

(** The frame of a node: an ordered mapping of descriptive attributes. *)
Abbreviation Frame := (list (string * string)) (only parsing).

Record Node : Type := mkNode {
  frame : Frame;
  parents : list ref;
  children : list ref;
  _hatchet_nid : Z
}.

Record Graph : Type := mkGraph { roots : list ref }.

(** A metric value: a number, "no data" (NaN), or a categorical value.
    Numbers are idealised as integers without bound: the rounding of
    float64 and the wrap-around of int64 are not modelled.  Where a
    theorem speaks of a sum it names the values that are summed and their
    order, and rests on no law of arithmetic. *)
Inductive cell : Type :=
| Num (z : Z)
| NaN
| Cat (s : string).

#[global] Instance cell_eq_dec : EqDecision cell.
Proof. solve_decision. Defined.

(** The object store: the Node objects, the Graph objects and the column
    buffers DataFrames refer to. *)
Record Store : Type := mkStore {
  nodes : list Node;
  graphs : list Graph;
  buffers : list (list cell)
}.

Definition set_nodes (st : Store) (h : list Node) : Store :=
  mkStore h (graphs st) (buffers st).
Definition set_graphs (st : Store) (g : list Graph) : Store :=
  mkStore (nodes st) g (buffers st).
Definition set_buffers (st : Store) (b : list (list cell)) : Store :=
  mkStore (nodes st) (graphs st) b.

(** Modelled from the spec: the [Node] class ([hatchet/node.py]), of which
    the spec gives the attributes (frame, parent list, child list, integer
    nid) and reference identity.  [add_child] and [add_parent] append to
    the lists of the node; a node absent from the arena is left alone. *)
Definition add_child (h : list Node) (p c : ref) : list Node :=
  alter (λ nd, mkNode (frame nd) (parents nd) (children nd ++ [c])
                      (_hatchet_nid nd)) p h.
Definition add_parent (h : list Node) (c p : ref) : list Node :=
  alter (λ nd, mkNode (frame nd) (parents nd ++ [p]) (children nd)
                      (_hatchet_nid nd)) c h.
Definition set_nid (h : list Node) (n : ref) (i : Z) : list Node :=
  alter (λ nd, mkNode (frame nd) (parents nd) (children nd) i) n h.

(** Modelled from the spec: [Node.copy], a value copy of the frame with no
    parents and no children ("new nodes start as value copies"); the nid of
    a fresh node is -1 until it is assigned. *)
Definition node_copy (h : list Node) (n : ref) : result (ref * list Node) :=
  nd ← getitem (h !! n);
  Ok (length h, h ++ [mkNode (frame nd) [] [] (-1)]).

Definition children_of (h : list Node) (n : ref) : list ref :=
  match h !! n with Some nd => children nd | None => [] end.
Definition nid_of (h : list Node) (n : ref) : Z :=
  match h !! n with Some nd => _hatchet_nid nd | None => -1 end.
Definition frame_of (h : list Node) (n : ref) : Frame :=
  match h !! n with Some nd => frame nd | None => [] end.

Inductive order : Type := Pre | Post.

(** Modelled from the spec: [Node.traverse] and [Graph.traverse]
    ("traversal (pre-order and post-order, deterministic child ordering)"):
    a depth-first walk that yields every node once, children in the order
    of the child list, roots in the order of the root list.  The fuel bounds
    the recursion depth. *)
Fixpoint node_traverse (fuel : nat) (h : list Node) (o : order) (n : ref)
    (acc : list ref * list ref) : result (list ref * list ref) :=
  match fuel with
  | 0 => Raise RecursionError
  | S fuel' =>
    let '(out, visited) := acc in
    if bool_decide (n ∈ visited) then Ok acc
    else
      let out1 := match o with Pre => out ++ [n] | Post => out end in
      '(out2, visited2) ←
        foldM (λ a c, node_traverse fuel' h o c a) (children_of h n)
              (out1, n :: visited);
      Ok (match o with Pre => out2 | Post => out2 ++ [n] end, visited2)
  end.

Definition traverse_from (h : list Node) (o : order) (ns : list ref)
  : result (list ref) :=
  fst <$> foldM (λ a r, node_traverse (S (length h)) h o r a) ns ([], []).

Definition graph_traverse (h : list Node) (g : Graph) (o : order)
  : result (list ref) :=
  traverse_from h o (roots g).

(** Modelled from the spec: [Graph.is_tree] ("a tree-or-general-graph
    classification"): one root at most and no node with more than one
    incoming edge among the nodes of the graph. *)
Definition is_tree (h : list Node) (g : Graph) : result bool :=
  ns ← graph_traverse h g Pre;
  Ok (bool_decide (length (roots g) ≤ 1)
      && bool_decide (NoDup (roots g ++ concat (children_of h <$> ns)))).

(** Modelled from the spec: [Graph.enumerate_traverse] ("assign dense
    increasing nid via a deterministic traversal"). *)
Definition enumerate_traverse (h : list Node) (g : Graph)
  : result (list Node) :=
  ns ← graph_traverse h g Pre;
  Ok (fst (fold_left (λ '(h', i) n, (set_nid h' n i, (i + 1)%Z)) ns (h, 0%Z))).

(** ** The metric table *)

(** The label of a row: the node and the values of the secondary index
    levels (rank, thread, ...), empty when the index is the node alone. *)
Record Key : Type := mkKey { node : ref; dims : list Z }.

#[global] Instance Key_eq_dec : EqDecision Key.
Proof. solve_decision. Defined.

(** A DataFrame object: the names of the index levels, the row labels, and
    the columns, each a name bound to a buffer of the store.  After
    [reset_index] the index is a plain range ([index_names = []]) and the
    former levels are ordinary columns; the model keeps their values in
    [keys] either way. *)
Record DataFrame : Type := mkDF {
  index_names : list string;
  keys : list Key;
  columns : list (string * bref)
}.

Record GraphFrame : Type := mkGF {
  graph : gref;
  dataframe : DataFrame;
  exc_metrics : list string;
  inc_metrics : list string;
  default_metric : string;
  metadata : list (string * string)
}.

Definition set_dataframe (gf : GraphFrame) (df : DataFrame) : GraphFrame :=
  mkGF (graph gf) df (exc_metrics gf) (inc_metrics gf) (default_metric gf)
       (metadata gf).
Definition set_graph (gf : GraphFrame) (g : gref) : GraphFrame :=
  mkGF g (dataframe gf) (exc_metrics gf) (inc_metrics gf) (default_metric gf)
       (metadata gf).
Definition set_exc_metrics (gf : GraphFrame) (l : list string) : GraphFrame :=
  mkGF (graph gf) (dataframe gf) l (inc_metrics gf) (default_metric gf)
       (metadata gf).
Definition set_inc_metrics (gf : GraphFrame) (l : list string) : GraphFrame :=
  mkGF (graph gf) (dataframe gf) (exc_metrics gf) l (default_metric gf)
       (metadata gf).

(** [GraphFrame.__init__]: the index must have a level called "node". *)
Definition GraphFrame_init (g : gref) (df : DataFrame)
    (exc inc : list string) (dm : string) (md : list (string * string))
  : result GraphFrame :=
  if bool_decide ("node" ∈ index_names df)
  then Ok (mkGF g df exc inc dm md)
  else Raise ValueError.

Fixpoint mapM {A B : Type} (f : A → result B) (l : list A) : result (list B) :=
  match l with
  | [] => Ok []
  | x :: l' => y ← f x; ys ← mapM f l'; Ok (y :: ys)
  end.

Fixpoint assoc {A : Type} (k : string) (l : list (string * A)) : option A :=
  match l with
  | [] => None
  | (k', v) :: l' => if decide (k = k') then Some v else assoc k l'
  end.

Fixpoint assoc_set {A : Type} (k : string) (v : A) (l : list (string * A))
  : list (string * A) :=
  match l with
  | [] => [(k, v)]
  | (k', v') :: l' =>
    if decide (k = k') then (k, v) :: l' else (k', v') :: assoc_set k v l'
  end.

(** A table by value: the columns with their data. *)
Abbreviation Columns := (list (string * list cell)) (only parsing).

Definition alloc_columns (st : Store) (cols : Columns)
  : Store * list (string * bref) :=
  (set_buffers st (buffers st ++ (snd <$> cols)),
   imap (λ i p, (fst p, length (buffers st) + i)) cols).

(** A DataFrame built from fresh data. *)
Definition df_new (st : Store) (idx : list string) (ks : list Key)
    (cols : Columns) : Store * DataFrame :=
  let '(st', cs) := alloc_columns st cols in (st', mkDF idx ks cs).

(** [df[c]]: the values of a column. *)
Definition column (st : Store) (df : DataFrame) (c : string)
  : result (list cell) :=
  b ← getitem (assoc c (columns df));
  getitem (buffers st !! b).

(** The data of all the columns. *)
Definition df_cols (st : Store) (df : DataFrame) : result Columns :=
  mapM (λ '(c, b), vs ← getitem (buffers st !! b); Ok (c, vs)) (columns df).

(** [df.copy()] (deep): the same table over fresh buffers.
    [df.copy(deep=False)] is a new DataFrame object over the same buffers:
    the very same record. *)
Definition df_copy (st : Store) (df : DataFrame) : result (Store * DataFrame) :=
  cols ← df_cols st df;
  Ok (df_new st (index_names df) (keys df) cols).
Definition df_copy_shallow (df : DataFrame) : DataFrame := df.

(** [df[c] = vs]: the column is bound to a buffer of its own, appended when
    the name is new. *)
Definition setitem (st : Store) (df : DataFrame) (c : string) (vs : list cell)
  : Store * DataFrame :=
  (set_buffers st (buffers st ++ [vs]),
   mkDF (index_names df) (keys df)
        (assoc_set c (length (buffers st)) (columns df))).

Definition reset_index (df : DataFrame) : DataFrame :=
  mkDF [] (keys df) (columns df).
Definition set_index (df : DataFrame) (names : list string) : DataFrame :=
  mkDF names (keys df) (columns df).
Definition set_keys (df : DataFrame) (ks : list Key) : DataFrame :=
  mkDF (index_names df) ks (columns df).

(** [isinstance(df.index, pd.MultiIndex)] *)
Definition is_multi_index (df : DataFrame) : bool :=
  bool_decide (1 < length (index_names df)).

(** The positions of the rows that satisfy [p], in table order. *)
Fixpoint positions_from (i : nat) (p : Key → bool) (ks : list Key) : list nat :=
  match ks with
  | [] => []
  | k :: ks' =>
    if p k then i :: positions_from (S i) p ks' else positions_from (S i) p ks'
  end.
Definition positions (p : Key → bool) (ks : list Key) : list nat :=
  positions_from 0 p ks.

Definition has_node (n : ref) (k : Key) : bool := bool_decide (node k = n).
Definition has_key (n : ref) (d : list Z) (k : Key) : bool :=
  bool_decide (node k = n) && bool_decide (dims k = d).

(** [df.loc[labels]] on a node-only index: for each label in turn, the rows
    that carry it; a label without a row raises [KeyError]. *)
Definition loc_labels (ks : list Key) (labels : list ref)
  : result (list nat) :=
  @concat nat <$> mapM (λ n, match positions (has_node n) ks with
                        | [] => Raise KeyError
                        | ps => Ok ps
                        end) labels.

(** [df.loc[(labels, d)]] on a MultiIndex: the rows of the listed nodes at
    the secondary levels [d]; combinations without a row are skipped. *)
Definition loc_labels_at (ks : list Key) (labels : list ref) (d : list Z)
  : list nat :=
  concat ((λ n, positions (has_key n d) ks) <$> labels).

Definition select {A : Type} (ps : list nat) (vs : list A) : list A :=
  omap (λ i, vs !! i) ps.

(** [df.loc[rows, c] = v]: written into the buffer of the column, in place. *)
Definition write_cells (st : Store) (df : DataFrame) (c : string)
    (ps : list nat) (v : cell) : result Store :=
  b ← getitem (assoc c (columns df));
  Ok (set_buffers st
        (alter (λ vs, fold_left (λ vs i, <[i := v]> vs) ps vs) b (buffers st))).

(** Python's [+] on the values of a column. *)
Definition py_add (a b : cell) : result cell :=
  match a, b with
  | Num x, Num y => Ok (Num (x + y))
  | Cat s, Cat t => Ok (Cat (s ++ t))
  | NaN, Num _ | Num _, NaN | NaN, NaN => Ok NaN
  | _, _ => Raise TypeError
  end.
Definition py_sub (a b : cell) : result cell :=
  match a, b with
  | Num x, Num y => Ok (Num (x - y))
  | NaN, Num _ | Num _, NaN | NaN, NaN => Ok NaN
  | _, _ => Raise TypeError
  end.

Definition is_nan (c : cell) : bool :=
  match c with NaN => true | _ => false end.
Definition is_numeric (c : cell) : bool :=
  match c with Cat _ => false | _ => true end.

(** [x.sum(min_count=1)]: the sum of the values that are not NaN, and NaN
    when there is none. *)
Definition nansum (l : list cell) : result cell :=
  match filter (λ c, is_nan c = false) l with
  | [] => Ok NaN
  | x :: xs => foldM py_add xs x
  end.

(** [x.iloc[0]] *)
Definition first_value (l : list cell) : result cell :=
  match l with
  | [] => Raise KeyError
  | x :: _ => Ok x
  end.

(** ** Strings: the naming convention of metric columns *)

Definition is_space (a : ascii) : bool :=
  let n := nat_of_ascii a in
  bool_decide (n = 32) || (bool_decide (9 ≤ n) && bool_decide (n ≤ 13))
  || (bool_decide (28 ≤ n) && bool_decide (n ≤ 31)).

Fixpoint drop_while {A : Type} (p : A → bool) (l : list A) : list A :=
  match l with
  | [] => []
  | x :: l' => if p x then drop_while p l' else l
  end.

(** [s.strip()] *)
Definition strip (s : string) : string :=
  let l := list_ascii_of_string s in
  let l1 := drop_while is_space l in
  string_of_list_ascii (rev (drop_while is_space (rev l1))).

(** [s.endswith(suffix)] *)
Definition endswith (s suffix : string) : bool :=
  let n := String.length s in
  let m := String.length suffix in
  bool_decide (m ≤ n) && bool_decide (substring (n - m) m s = suffix).

(** [s[: -len(suffix)]] *)
Definition drop_suffix (s suffix : string) : string :=
  substring 0 (String.length s - String.length suffix) s.

(** ** Subtree and subgraph sums *)

(** The length check comes after the output columns were initialised, as
    in the source. *)
Definition _init_sum_columns (st : Store) (gf : GraphFrame)
    (cols : list string) (out_columns : option (list string))
  : result (Store * GraphFrame * list string) :=
  '(st1, gf1, outs) ←
    match out_columns with
    | None => Ok (st, gf, cols)
    | Some outs =>
      '(st', df') ←
        foldM (λ '(st', df') '(col, out),
                 vs ← column st' df' col;
                 Ok (setitem st' df' out vs))
              (zip cols outs) (st, dataframe gf);
      Ok (st', set_dataframe gf df', outs)
    end;
  if bool_decide (length cols ≠ length outs) then Raise ValueError
  else Ok (st1, gf1, outs).

(** [df.loc[(node), out_columns].index.unique()]: the secondary levels of
    the rows of a node. *)
Definition rank_threads (df : DataFrame) (n : ref) : result (list (list Z)) :=
  match positions (has_node n) (keys df) with
  | [] => Raise KeyError
  | ps => Ok (unique (dims <$> select ps (keys df)))
  end.

Definition subtree_sum (st : Store) (gf : GraphFrame) (cols : list string)
    (out_columns : option (list string))
    (function : list cell → result cell) : result (Store * GraphFrame) :=
  '(st1, gf1, outs) ← _init_sum_columns st gf cols out_columns;
  let df := dataframe gf1 in
  g ← getitem (graphs st1 !! graph gf1);
  ns ← graph_traverse (nodes st1) g Post;
  st2 ←
    foldM (λ st' n,
      match children_of (nodes st') n with
      | [] => Ok st'
      | cs =>
        if is_multi_index df then
          rts ← rank_threads df n;
          foldM (λ st' rt,
            foldM (λ st' col,
              vs ← column st' df col;
              v ← function (select (loc_labels_at (keys df) (n :: cs) rt) vs);
              write_cells st' df col (positions (has_key n rt) (keys df)) v)
              outs st') rts st'
        else
          foldM (λ st' col,
            ps ← loc_labels (keys df) (n :: cs);
            vs ← column st' df col;
            v ← function (select ps vs);
            write_cells st' df col (positions (has_node n) (keys df)) v)
            outs st'
      end) ns st1;
  Ok (st2, gf1).

Definition subgraph_sum (st : Store) (gf : GraphFrame) (cols : list string)
    (out_columns : option (list string))
    (function : list cell → result cell) : result (Store * GraphFrame) :=
  g0 ← getitem (graphs st !! graph gf);
  t ← is_tree (nodes st) g0;
  if (t : bool) then subtree_sum st gf cols out_columns function
  else
    '(st1, gf1, outs) ← _init_sum_columns st gf cols out_columns;
    let df := dataframe gf1 in
    g ← getitem (graphs st1 !! graph gf1);
    ns ← graph_traverse (nodes st1) g Pre;
    st2 ←
      foldM (λ st' n,
        subgraph_nodes ← traverse_from (nodes st') Pre [n];
        if is_multi_index df then
          rts ← rank_threads df n;
          foldM (λ st' rt,
            foldM (λ st' col,
              vs ← column st' df col;
              v ← function (select (loc_labels_at (keys df) subgraph_nodes rt) vs);
              write_cells st' df col (positions (has_key n rt) (keys df)) v)
              outs st') rts st'
        else
          ps ← loc_labels (keys df) subgraph_nodes;
          sums ← mapM (λ col, vs ← column st' df col; function (select ps vs))
                      cols;
          foldM (λ st' '(out, v),
                   write_cells st' df out (positions (has_node n) (keys df)) v)
                (zip outs sums) st'
      ) ns st1;
    Ok (st2, gf1).

(** ** Exclusive and inclusive metrics *)

(** [pd.api.types.is_numeric_dtype]: the column holds numbers (NaN
    included) only. *)
Definition is_numeric_dtype (vs : list cell) : bool := forallb is_numeric vs.

Definition generation_pairs (st : Store) (gf : GraphFrame)
  : result (list (string * string)) :=
  foldM (λ pairs inc,
    vs ← column st (dataframe gf) inc;
    if negb (is_numeric_dtype vs) then Ok pairs
    else if endswith inc "(inc)" then
      let possible_exc := strip (drop_suffix inc "(inc)") in
      if bool_decide (possible_exc ∈ exc_metrics gf) then Ok pairs
      else Ok (pairs ++ [(possible_exc, inc)])
    else Ok (pairs ++ [((inc ++ " (exc)")%string, inc)]))
    (inc_metrics gf) [].

(** [df.loc[label, c]] for a label that names one row; no row raises
    [KeyError].  For a label that names several rows pandas yields a
    Series, with which [generate_exclusive_columns] goes on; cells that
    hold a Series are not modelled, and the model raises there.  The
    theorems about the callers are stated for tables with one row per
    label ([unique_rows]). *)
Definition loc_scalar (st : Store) (df : DataFrame) (p : Key → bool)
    (c : string) : result cell :=
  vs ← column st df c;
  match select (positions p (keys df)) vs with
  | [] => Raise KeyError
  | [v] => Ok v
  | _ => Raise ValueError
  end.

Fixpoint dict_get {K A : Type} `{EqDecision K} (k : K) (l : list (K * A))
  : option A :=
  match l with
  | [] => None
  | (k', v) :: l' => if decide (k = k') then Some v else dict_get k l'
  end.

Fixpoint dict_set {K A : Type} `{EqDecision K} (k : K) (v : A)
    (l : list (K * A)) : list (K * A) :=
  match l with
  | [] => [(k, v)]
  | (k', v') :: l' =>
    if decide (k = k') then (k, v) :: l' else (k', v') :: dict_set k v l'
  end.

(** The data of one generated exclusive column: the inclusive value of each
    node less the inclusive values of its direct children. *)
Definition exclusive_data (st : Store) (gf : GraphFrame) (inc : string)
  : result (list (Key * cell)) :=
  let df := dataframe gf in
  g ← getitem (graphs st !! graph gf);
  ns ← graph_traverse (nodes st) g Pre;
  if is_multi_index df then
    foldM (λ new_data n,
      rts ← rank_threads df n;
      foldM (λ new_data rt,
        inc_sum ←
          foldM (λ inc_sum child,
                   v ← loc_scalar st df (has_key child rt) inc;
                   py_add inc_sum v)
                (children_of (nodes st) n) (Num 0);
        v ← loc_scalar st df (has_key n rt) inc;
        d ← py_sub v inc_sum;
        Ok (dict_set (mkKey n rt) d new_data)) rts new_data) ns []
  else
    foldM (λ new_data n,
      inc_sum ←
        foldM (λ inc_sum child,
                 v ← loc_scalar st df (has_node child) inc;
                 py_add inc_sum v)
              (children_of (nodes st) n) (Num 0);
      v ← loc_scalar st df (has_node n) inc;
      d ← py_sub v inc_sum;
      Ok (dict_set (mkKey n []) d new_data))
      ns (fold_left (λ d k, dict_set (mkKey (node k) []) (Num (-1)) d)
                    (keys df) []).

(** [pd.Series(data=new_data)] aligned on the index of the table. *)
Definition series_aligned (df : DataFrame) (new_data : list (Key * cell))
  : list cell :=
  (λ k, let k' := if is_multi_index df then k else mkKey (node k) [] in
        default NaN (dict_get k' new_data)) <$> keys df.

Definition generate_exclusive_columns (st : Store) (gf : GraphFrame)
  : result (Store * GraphFrame) :=
  pairs ← generation_pairs st gf;
  '(st', gf') ←
    foldM (λ '(st', gf') '(exc, inc),
      new_data ← exclusive_data st' gf' inc;
      '(st1, df1) ← df_copy st' (dataframe gf');
      let '(st2, df2) := setitem st1 df1 exc (series_aligned df1 new_data) in
      Ok (st2, set_dataframe gf' df2))
      pairs (st, gf);
  Ok (st', set_exc_metrics gf' (unique (exc_metrics gf' ++ (fst <$> pairs)))).

(** The name of the inclusive column derived from an exclusive one. *)
Definition inc_name (exc : string) : string :=
  if endswith exc "(exc)" then strip (drop_suffix exc "(exc)")
  else (exc ++ " (inc)")%string.

Definition update_inclusive_columns (st : Store) (gf : GraphFrame)
  : result (Store * GraphFrame) :=
  match exc_metrics gf with
  | [] => Ok (st, gf)
  | _ =>
    let old_inc_metrics := inc_metrics gf in
    let new_inc_metrics := inc_name <$> exc_metrics gf in
    let gf1 := set_inc_metrics gf new_inc_metrics in
    '(st2, gf2) ← subgraph_sum st gf1 (exc_metrics gf1)
                               (Some (inc_metrics gf1)) nansum;
    Ok (st2, set_inc_metrics gf2 (unique (inc_metrics gf2 ++ old_inc_metrics)))
  end.

(** ** Squash *)

Record RewireState : Type := mkRW {
  rw_nodes : list Node;
  connections : gmap ref (list ref);
  new_roots : list ref;
  visited : list ref
}.

(** The body of the first loop of [rewire]: connect [n] below the new
    parent, or make it a root when there is none. *)
Definition connect (new_parent : option ref) (s : RewireState) (n : ref)
  : RewireState :=
  match new_parent with
  | Some p =>
    if bool_decide (n ∈ children_of (rw_nodes s) p) then s
    else mkRW (add_parent (add_child (rw_nodes s) p n) n p)
              (connections s) (new_roots s) (visited s)
  | None =>
    if bool_decide (n ∈ new_roots s) then s
    else mkRW (rw_nodes s) (connections s) (new_roots s ++ [n]) (visited s)
  end.

(** [new_node or new_parent] *)
Definition or_else (a b : option ref) : option ref :=
  match a with Some _ => a | None => b end.

Fixpoint rewire (fuel : nat) (old_to_new : gmap ref ref) (n : ref)
    (new_parent : option ref) (s : RewireState)
  : result (list ref * RewireState) :=
  match fuel with
  | 0 => Raise RecursionError
  | S fuel' =>
    let s1 := fold_left (connect new_parent)
                        (default [] (connections s !! n)) s in
    let new_node := old_to_new !! n in
    '(transitive, s2) ←
      (if bool_decide (n ∈ visited s1) then Ok ([], s1)
       else
         foldM (λ '(tr, s') child,
                  '(r, s'') ← rewire fuel' old_to_new child
                                     (or_else new_node new_parent) s';
                  Ok (set_union tr r, s''))
               (children_of (rw_nodes s1) n)
               ([], mkRW (rw_nodes s1) (connections s1) (new_roots s1)
                         (n :: visited s1)));
    match new_node with
    | Some nn => Ok ([nn], s2)
    | None =>
      let c := set_union (default [] (connections s2 !! n)) transitive in
      Ok (c, mkRW (rw_nodes s2) (<[n := c]> (connections s2)) (new_roots s2)
                  (visited s2))
    end
  end.

(** [{n: n.copy() for n in set(df["node"])}], then the nid of every clone
    is set to the nid of its original. *)
Definition make_clones (h : list Node) (ns : list ref)
  : result (gmap ref ref * list Node) :=
  '(m, h1) ← foldM (λ '(m, h') n,
                      '(c, h'') ← node_copy h' n; Ok (<[n := c]> m, h''))
                   ns (∅, h);
  Ok (m, fold_left (λ h' n, match m !! n with
                            | Some c => set_nid h' c (nid_of h' n)
                            | None => h'
                            end) ns h1).

(** The rewiring of [squash]: the clones, the rewired arena and the roots
    of the new graph. *)
Definition squash_rewire (h : list Node) (g : Graph) (table_nodes : list ref)
  : result (gmap ref ref * list Node * list ref) :=
  '(old_to_new, h1) ← make_clones h table_nodes;
  s ← foldM (λ s root, snd <$> rewire (S (length h1)) old_to_new root None s)
            (roots g)
            (mkRW h1 ((λ v, [v]) <$> old_to_new) [] []);
  Ok (old_to_new, rw_nodes s, new_roots s).

Definition resolve (m : gmap ref ref) (n : ref) : ref := default n (m !! n).

Definition parents_of (h : list Node) (n : ref) : list ref :=
  match h !! n with Some nd => parents nd | None => [] end.

(** Modelled from the spec: [Graph.normalize] ("merging sibling nodes that
    carry identical frames, returning a map of removed→kept node").  Among
    siblings the first node with a frame is kept and every later sibling
    with that frame is merged into it; the children of merged nodes are
    siblings in turn.  The links of a kept node are those of the nodes
    merged into it. *)
Definition find_child_merges (h : list Node) (sibs : list ref)
    (m : gmap ref ref) : gmap ref ref :=
  snd (fold_left
    (λ '(seen, m') n,
       let n' := resolve m' n in
       match list_find (λ k, bool_decide (frame_of h k = frame_of h n')) seen with
       | Some (_, k) =>
         if decide (k = n') then (seen, m')
         else (seen, <[n' := k]> ((λ t, if decide (t = n') then k else t) <$> m'))
       | None => (seen ++ [n'], m')
       end) sibs ([], m)).

Definition normalize (h : list Node) (g : Graph)
  : result (list Node * Graph * gmap ref ref) :=
  ns ← graph_traverse h g Pre;
  let m :=
    fold_left (λ m' n,
      let cls := filter (λ x, resolve m' x = resolve m' n) ns in
      find_child_merges h (concat (children_of h <$> cls)) m')
      ns (find_child_merges h (roots g) ∅) in
  let kept := unique (resolve m <$> ns) in
  let h' :=
    fold_left (λ h' z,
      let cls := filter (λ x, resolve m x = z) ns in
      alter (λ nd, mkNode (frame nd)
                     (unique (resolve m <$> concat (parents_of h <$> cls)))
                     (unique (resolve m <$> concat (children_of h <$> cls)))
                     (_hatchet_nid nd)) z h') kept h in
  Ok (h', mkGraph (unique (resolve m <$> roots g)), m).

(** The aggregation of [squash]: registered metrics sum with
    [min_count=1], the other columns take the first value of the group. *)
Definition agg_dict (metrics : list string) (c : string)
  : list cell → result cell :=
  if bool_decide (c ∈ metrics) then nansum else first_value.

(** [df.groupby(index_names).agg(agg)]: one row per distinct label, in
    order of first appearance. *)
Definition groupby_agg (ks : list Key) (cols : Columns)
    (agg : string → list cell → result cell) : result (list Key * Columns) :=
  let gks := unique ks in
  cols' ← mapM (λ '(c, vs),
                  vals ← mapM (λ k, agg c (select (positions (λ k', bool_decide (k' = k)) ks) vs)) gks;
                  Ok (c, vals)) cols;
  Ok (gks, cols').

Fixpoint lex_le (a b : list Z) : bool :=
  match a, b with
  | [], _ => true
  | _ :: _, [] => false
  | x :: a', y :: b' => (x <? y)%Z || ((x =? y)%Z && lex_le a' b')
  end.

(** Modelled from the spec: the order of nodes is the order of their nids
    ("nid ... used to sort/merge"). *)
Definition key_le (h : list Node) (a b : Key) : bool :=
  (nid_of h (node a) <? nid_of h (node b))%Z
  || ((nid_of h (node a) =? nid_of h (node b))%Z && lex_le (dims a) (dims b)).

Fixpoint insert_sorted {A : Type} (le : A → A → bool) (x : A) (l : list A)
  : list A :=
  match l with
  | [] => [x]
  | y :: l' => if le x y then x :: l else y :: insert_sorted le x l'
  end.
Definition sort_by {A : Type} (le : A → A → bool) (l : list A) : list A :=
  foldr (insert_sorted le) [] l.

(** [df.sort_index()]: the permutation of the rows, then the table. *)
Definition sort_order (h : list Node) (ks : list Key) : list nat :=
  snd <$> sort_by (λ a b, key_le h (fst a) (fst b))
                  (zip ks (seq 0 (length ks))).
Definition sort_index (h : list Node) (ks : list Key) (cols : Columns)
  : list Key * Columns :=
  let ps := sort_order h ks in
  (select ps ks, (λ '(c, vs), (c, select ps vs)) <$> cols).

Definition remap_keys (f : ref → ref) (ks : list Key) : list Key :=
  (λ k, mkKey (f (node k)) (dims k)) <$> ks.

Definition squash (st : Store) (gf : GraphFrame) (update_inc_cols : bool)
  : result (Store * GraphFrame) :=
  let index_names := index_names (dataframe gf) in
  let df0 := reset_index (dataframe gf) in
  g ← getitem (graphs st !! graph gf);
  '(old_to_new, h1, roots1) ←
    squash_rewire (nodes st) g (unique (node <$> keys df0));
  let graph1 := mkGraph roots1 in
  h2 ← enumerate_traverse h1 graph1;
  (* reindex new dataframe with new nodes *)
  cols ← df_cols st df0;
  ks1 ← mapM (λ k, c ← getitem (old_to_new !! node k); Ok (mkKey c (dims k)))
             (keys df0);
  '(h3, graph2, merges) ← normalize h2 graph1;
  let ks2 := remap_keys (resolve merges) ks1 in
  (* perform a groupby to merge nodes with the same callpath *)
  '(gks, gcols) ←
    groupby_agg ks2 cols (agg_dict (exc_metrics gf ++ inc_metrics gf));
  let '(sks, scols) := sort_index h3 gks gcols in
  let st1 := set_graphs (set_nodes st h3) (graphs st ++ [graph2]) in
  let '(st2, agg_df) := df_new st1 index_names sks scols in
  new_gf ← GraphFrame_init (length (graphs st)) agg_df (exc_metrics gf)
                           (inc_metrics gf) (default_metric gf) (metadata gf);
  if update_inc_cols then update_inclusive_columns st2 new_gf
  else Ok (st2, new_gf).

(** ** Filter *)

(** A row as a predicate sees it: its label and its named values. *)
Record Row : Type := mkRow { row_key : Key; row_cells : list (string * cell) }.

Definition row_at (ks : list Key) (cols : Columns) (i : nat) : option Row :=
  k ← ks !! i;
  Some (mkRow k (omap (λ '(c, vs), v ← vs !! i; Some (c, v)) cols)).

Definition take_rows (ps : list nat) (cols : Columns) : Columns :=
  (λ '(c, vs), (c, select ps vs)) <$> cols.

(** [dataframe[dataframe.apply(filter_function, axis=1)]] on the rows at
    positions [ps]. *)
Definition apply_filter (f : Row → bool) (ks : list Key) (cols : Columns)
    (ps : list nat) : list nat :=
  List.filter (λ i, match row_at ks cols i with
                    | Some r => f r
                    | None => false
                    end) ps.

Fixpoint split_sizes {A : Type} (l : list A) (sizes : list nat)
  : list (list A) :=
  match sizes with
  | [] => []
  | n :: ss => take n l :: split_sizes (drop n l) ss
  end.

(** [np.array_split(l, n)]: [n] sections, the first [len(l) % n] of them one
    element longer. *)
Definition array_split {A : Type} (l : list A) (n : nat) : list (list A) :=
  let q := length l / n in
  let r := length l mod n in
  split_sizes l (replicate r (S q) ++ replicate (n - r) q).

(** The collaborators of [filter]: the query language with its engine, and
    the order in which the worker processes deliver their results. *)
Record Env (Q : Type) : Type := mkEnv {
  ObjectQuery : list string → string → Q;
  parse_string_dialect : string → string → Q;
  _get_new_query : Q → Q;
  query_engine_apply : Q → list Node → Graph → list Key → Columns → list ref;
  queue_order : list nat → list nat
}.
Arguments ObjectQuery {Q} _ _ _.
Arguments parse_string_dialect {Q} _ _ _.
Arguments _get_new_query {Q} _ _.
Arguments query_engine_apply {Q} _ _ _ _ _ _.
Arguments queue_order {Q} _ _.

(** The kinds of object [filter] tells apart. *)
Inductive filter_obj (Q : Type) : Type :=
| Callable (f : Row → bool)
| QueryPath (q : list string)
| QueryString (q : string)
| NewQuery (q : Q)
| OldQuery (q : Q)
| NotAFilter.
Arguments Callable {Q} f.
Arguments QueryPath {Q} q.
Arguments QueryString {Q} q.
Arguments NewQuery {Q} q.
Arguments OldQuery {Q} q.
Arguments NotAFilter {Q}.

(** [GraphFrame.filter] ([filter] names the list function).  The recursion
    limit is not modelled: recursion never runs out.  In the parallel path
    the workers return their rows through a multiprocess queue, so that the
    rows that come back, and the Node objects of their labels, are
    unpickled copies; the model keeps the references, and the object
    identity of the labels on that path is not modelled.  The theorems
    that speak of the nodes of the rows of an unsquashed result are stated
    for the other paths (a query, or [num_procs] at most 1). *)
Definition gf_filter {Q : Type} (env : Env Q) (st : Store) (gf : GraphFrame)
    (fo : filter_obj Q) (squash_ : bool) (update_inc_cols : bool)
    (num_procs : nat) (multi_index_mode : string)
  : result (Store * GraphFrame) :=
  let df := dataframe gf in
  dataframe_copy ← df_cols st df;
  let index_names := index_names df in
  let ks := keys df in
  let all := seq 0 (length ks) in
  g ← getitem (graphs st !! graph gf);
  let by_query (query : Q) :=
    let query_matches := query_engine_apply env query (nodes st) g ks dataframe_copy in
    Ok (List.filter (λ i, match ks !! i with
                          | Some k => bool_decide (node k ∈ query_matches)
                          | None => false
                          end) all) in
  ps ←
    match fo with
    | Callable f =>
      if bool_decide (1 < num_procs) then
        let subframes := array_split all num_procs in
        let results := apply_filter f ks dataframe_copy <$> subframes in
        Ok (concat (omap (λ pid, results !! pid)
                         (queue_order env (seq 0 num_procs))))
      else Ok (apply_filter f ks dataframe_copy all)
    | QueryPath q => by_query (ObjectQuery env q multi_index_mode)
    | QueryString q => by_query (parse_string_dialect env q multi_index_mode)
    | NewQuery q => by_query q
    | OldQuery q => by_query (_get_new_query env q)
    | NotAFilter => Raise InvalidFilter
    end;
  if bool_decide (length ps = 0) then Raise EmptyFilter
  else
    let '(st1, filtered_df) :=
      df_new st index_names (select ps ks) (take_rows ps dataframe_copy) in
    gf0 ← GraphFrame_init (graph gf) filtered_df [] [] "time" [];
    let filtered_gf :=
      mkGF (graph gf0) (dataframe gf0) (exc_metrics gf) (inc_metrics gf)
           (default_metric gf) (metadata gf) in
    if squash_ then squash st1 filtered_gf update_inc_cols
    else Ok (st1, filtered_gf).

(** ** Unify *)

Record UnionState : Type := mkUS {
  us_nodes : list Node;
  node_map : gmap ref ref;
  us_roots : list ref
}.

(** Modelled from the spec: [Graph.union] ("structural merge keyed by node
    frame equality along matching paths; unmatched subtrees from either side
    are preserved verbatim, producing a node-identity map from each original
    node (by object identity) to its node in the merged graph").  An old
    node is placed below the new node of its parent: on the sibling with its
    frame when there is one, on a fresh copy otherwise; a node reached again
    is only linked. *)
Definition link (parent : option ref) (s : UnionState) (n : ref) : UnionState :=
  match parent with
  | Some p =>
    if bool_decide (n ∈ children_of (us_nodes s) p) then s
    else mkUS (add_parent (add_child (us_nodes s) p n) n p)
              (node_map s) (us_roots s)
  | None =>
    if bool_decide (n ∈ us_roots s) then s
    else mkUS (us_nodes s) (node_map s) (us_roots s ++ [n])
  end.

Fixpoint place (fuel : nat) (parent : option ref) (s : UnionState) (n : ref)
  : result UnionState :=
  match fuel with
  | 0 => Raise RecursionError
  | S fuel' =>
    match node_map s !! n with
    | Some new => Ok (link parent s new)
    | None =>
      let siblings := match parent with
                      | Some p => children_of (us_nodes s) p
                      | None => us_roots s
                      end in
      match list_find (λ k, bool_decide (frame_of (us_nodes s) k
                                         = frame_of (us_nodes s) n)) siblings with
      | Some (_, k) =>
        foldM (place fuel' (Some k)) (children_of (us_nodes s) n)
              (mkUS (us_nodes s) (<[n := k]> (node_map s)) (us_roots s))
      | None =>
        '(c, h') ← node_copy (us_nodes s) n;
        foldM (place fuel' (Some c)) (children_of (us_nodes s) n)
              (link parent (mkUS h' (<[n := c]> (node_map s)) (us_roots s)) c)
      end
    end
  end.

Definition graph_union (h : list Node) (g1 g2 : Graph)
  : result (list Node * Graph * gmap ref ref) :=
  s ← foldM (place (S (length h)) None) (roots g1 ++ roots g2) (mkUS h ∅ []);
  let g := mkGraph (us_roots s) in
  h' ← enumerate_traverse (us_nodes s) g;
  Ok (h', g, node_map s).

(** Modelled from the spec: the hash of a node, a function of its identity
    ("[__hash__] on node identity in row-matching"). *)
Definition node_hash (n : ref) : nat := n.

(** Modelled from the spec: the compiled helper [fast_not_isin] ("a
    hash-based set-difference over (node-hash, row-index) pairs sorted for
    efficient lookup"): the mask, by row index, of the rows of the first
    array whose hash is absent from the second. *)
Definition fast_not_isin (arr1 arr2 : list (nat * nat)) (n1 n2 : nat)
  : list bool :=
  fold_left (λ mask '(hsh, ndx),
               if bool_decide (hsh ∈ (fst <$> take n2 arr2))
               then <[ndx := false]> mask else mask)
            (take n1 arr1) (replicate n1 true).

(** Modelled from the spec: the compiled helper
    [insert_one_for_self_nodes], which "adds 1" to the indicator of the rows
    that are in self but not in other. *)
Definition insert_one_for_self_nodes (snio_len : nat)
    (self_missing_node : list cell) (snio_indices : list nat) : list cell :=
  fold_left (λ a i, alter (λ c, match c with Num z => Num (z + 1) | _ => c end) i a)
            (take snio_len snio_indices) self_missing_node.

(** [arr[arr[:, 0].argsort()]] *)
Definition sort_by_hash (arr : list (nat * nat)) : list (nat * nat) :=
  sort_by (λ a b, bool_decide (fst a ≤ fst b)) arr.

(** [df[mask]]: the positions a boolean mask selects. *)
Definition mask_positions (mask : list bool) : list nat :=
  List.filter (λ i, default false (mask !! i)) (seq 0 (length mask)).

Definition cols_set (c : string) (vs : list cell) (cols : Columns) : Columns :=
  assoc_set c vs cols.

Fixpoint insert_string (x : string) (l : list string) : list string :=
  match l with
  | [] => [x]
  | y :: l' => if String.leb x y then x :: l else y :: insert_string x l'
  end.

(** [pd.concat([a, b], axis=0, sort=True)]: the rows of [a] then those of
    [b], over the sorted union of the column names; a column that one side
    lacks is NaN there. *)
Definition concat_sorted (na nb : nat) (a b : Columns) : Columns :=
  let names := foldr insert_string [] (unique ((fst <$> a) ++ (fst <$> b))) in
  (λ c, (c, default (replicate na NaN) (assoc c a)
            ++ default (replicate nb NaN) (assoc c b))) <$> names.

Definition all_metrics (self other : GraphFrame) : list string :=
  unique (exc_metrics self ++ inc_metrics self
          ++ exc_metrics other ++ inc_metrics other).

Definition _insert_missing_rows (st : Store) (self other : GraphFrame)
  : result (Store * GraphFrame) :=
  let metrics := all_metrics self other in
  let sks := keys (dataframe self) in
  let oks := keys (dataframe other) in
  let self_hsh_ndx := zip (node_hash ∘ node <$> sks) (seq 0 (length sks)) in
  let other_hsh_ndx := zip (node_hash ∘ node <$> oks) (seq 0 (length oks)) in
  let self_hsh_ndx_sorted := sort_by_hash self_hsh_ndx in
  let other_hsh_ndx_sorted := sort_by_hash other_hsh_ndx in
  let onis := mask_positions
                (fast_not_isin other_hsh_ndx_sorted self_hsh_ndx_sorted
                   (length other_hsh_ndx_sorted) (length self_hsh_ndx_sorted)) in
  let snio := mask_positions
                (fast_not_isin self_hsh_ndx_sorted other_hsh_ndx_sorted
                   (length self_hsh_ndx_sorted) (length other_hsh_ndx_sorted)) in
  self_cols ← df_cols st (dataframe self);
  other_cols ← df_cols st (dataframe other);
  let other_not_in_self := take_rows onis other_cols in
  let zeros := replicate (length sks) (Num 0) in
  let self_cols1 :=
    if bool_decide (snio ≠ []) then cols_set "_missing_node" zeros self_cols
    else self_cols in
  let '(self_cols2, other_not_in_self1) :=
    if bool_decide (onis ≠ [])
    then (if bool_decide (snio = [])
          then cols_set "_missing_node" zeros self_cols1 else self_cols1,
          cols_set "_missing_node" (replicate (length onis) (Num 2))
                   other_not_in_self)
    else (self_cols1, other_not_in_self) in
  let onis_len := length onis in
  let snio_len := length snio in
  self_cols3 ←
    (if bool_decide (snio_len ≠ 0) then
       self_missing_node ← getitem (assoc "_missing_node" self_cols2);
       Ok (cols_set "_missing_node"
             (insert_one_for_self_nodes snio_len self_missing_node snio)
             self_cols2)
     else Ok self_cols2);
  let other_not_in_self2 :=
    fold_left (λ cols j, cols_set j (replicate onis_len NaN) cols)
              metrics other_not_in_self1 in
  let '(st', df') :=
    df_new st (index_names (dataframe self)) (sks ++ select onis oks)
           (concat_sorted (length sks) onis_len self_cols3 other_not_in_self2) in
  Ok (st', set_dataframe self df').

Definition unify (st : Store) (self other : GraphFrame)
  : result (Store * GraphFrame * GraphFrame) :=
  if decide (graph self = graph other) then Ok (st, self, other)
  else
    g1 ← getitem (graphs st !! graph self);
    g2 ← getitem (graphs st !! graph other);
    '(h', union_graph, node_map) ← graph_union (nodes st) g1 g2;
    let self_index_names := index_names (dataframe self) in
    let other_index_names := index_names (dataframe other) in
    let remap df :=
      ks ← mapM (λ k, n ← getitem (node_map !! node k); Ok (mkKey n (dims k)))
                (keys df);
      Ok (set_keys (reset_index df) ks) in
    self_df ← remap (dataframe self);
    other_df ← remap (dataframe other);
    let st1 := set_graphs (set_nodes st h') (graphs st ++ [union_graph]) in
    '(st2, self1) ← _insert_missing_rows st1 (set_dataframe self self_df)
                                         (set_dataframe other other_df);
    let u := length (graphs st) in
    Ok (st2,
        set_graph (set_dataframe self1
                     (set_index (dataframe self1) self_index_names)) u,
        set_graph (set_dataframe other
                     (set_index other_df other_index_names)) u).

(** ** Binary operators *)

(** [GraphFrame.copy]: the graph is shared and the DataFrame is a new
    object over the same data.  A GraphFrame record has no identity of its
    own in the model: what a copy shares with its original (the graph
    reference and the column buffers) is modelled, that the two are
    distinct objects is not. *)
Definition copy (gf : GraphFrame) : GraphFrame :=
  mkGF (graph gf) (df_copy_shallow (dataframe gf)) (exc_metrics gf)
       (inc_metrics gf) (default_metric gf) (metadata gf).

Definition py_mul (a b : cell) : result cell :=
  match a, b with
  | Num x, Num y => Ok (Num (x * y))
  | NaN, Num _ | Num _, NaN | NaN, NaN => Ok NaN
  | _, _ => Raise TypeError
  end.

(** Float division is left to a parameter. *)
Definition py_div (fdiv : Z → Z → cell) (a b : cell) : result cell :=
  match a, b with
  | Num x, Num y => Ok (fdiv x y)
  | NaN, Num _ | Num _, NaN | NaN, NaN => Ok NaN
  | _, _ => Raise TypeError
  end.

(** [self.dataframe.update(op(other.dataframe[all_metrics]))]: on the rows
    whose label both tables have, every metric column of self takes the
    value of [op] unless that is NaN; the column is written in place.
    (pandas writes in place when the dtype of the column is unchanged and
    binds a new array when it changes, as for an int64 column that
    receives NaN; the model writes in place in either case, so that what
    is read through the result is as in the code, and what is read through
    another DataFrame over the same buffer is as in the code when the
    dtype is unchanged.) *)
Definition _operator (st : Store) (self other : GraphFrame)
    (op : cell → cell → result cell) : result (Store * GraphFrame) :=
  let metrics := all_metrics self other in
  let sdf := dataframe self in
  let odf := dataframe other in
  others ← mapM (λ c, vs ← column st odf c; Ok (c, vs)) metrics;
  st' ←
    foldM (λ st' '(c, b),
      match assoc c others with
      | None => Ok st'
      | Some that =>
        this ← getitem (buffers st' !! b);
        updated ←
          mapM (λ '(k, x),
                  match positions (λ k', bool_decide (k' = k)) (keys odf) with
                  | j :: _ =>
                    match that !! j with
                    | Some y => v ← op x y;
                                Ok (if is_nan v then x else v)
                    | None => Ok x
                    end
                  | [] => Ok x
                  end) (zip (keys sdf) this);
        Ok (set_buffers st' (<[b := updated]> (buffers st')))
      end) (columns sdf) st;
  Ok (st', self).

Definition add (st : Store) (self other : GraphFrame)
  : result (Store * GraphFrame) :=
  '(st1, self_copy, other_copy) ← unify st (copy self) (copy other);
  _operator st1 self_copy other_copy py_add.

Definition sub (st : Store) (self other : GraphFrame)
  : result (Store * GraphFrame) :=
  '(st1, self_copy, other_copy) ← unify st (copy self) (copy other);
  _operator st1 self_copy other_copy py_sub.

Definition div (fdiv : Z → Z → cell) (st : Store) (self other : GraphFrame)
  : result (Store * GraphFrame) :=
  '(st1, self_copy, other_copy) ← unify st (copy self) (copy other);
  _operator st1 self_copy other_copy (py_div fdiv).

Definition mul (st : Store) (self other : GraphFrame)
  : result (Store * GraphFrame) :=
  '(st1, self_copy, other_copy) ← unify st (copy self) (copy other);
  _operator st1 self_copy other_copy py_mul.

(** ** The graph of the concrete scenario *)

Definition fr (name : string) : Frame := [("name", name)].

(* 0 = main, 1 = foo, 2 = bar, 3 = baz *)
Definition scenario_nodes : list Node :=
  [ mkNode (fr "main") [] [1; 2] 0;
    mkNode (fr "foo") [0] [3] 1;
    mkNode (fr "bar") [0] [] 3;
    mkNode (fr "baz") [1] [] 2 ].

Definition scenario_store : Store :=
  mkStore scenario_nodes [mkGraph [0]]
          [ [Num 1; Num 1; Num 2; Num 3];
            [Cat "main"; Cat "foo"; Cat "bar"; Cat "baz"] ].

Definition scenario_gf : GraphFrame :=
  mkGF 0 (mkDF ["node"] [mkKey 0 []; mkKey 1 []; mkKey 2 []; mkKey 3 []]
               [("time", 0); ("name", 1)])
       ["time"] [] "time" [].

(** A query engine that matches nothing and workers that deliver in order of
    their process id. *)
Definition plain_env : Env unit :=
  mkEnv unit (λ _ _, tt) (λ _ _, tt) (λ q, q) (λ _ _ _ _ _, []) (λ pids, pids).

Definition main_or_bar (r : Row) : bool :=
  match assoc "name" (row_cells r) with
  | Some (Cat s) => bool_decide (s = "main") || bool_decide (s = "bar")
  | _ => false
  end.

(** ** Well-formed stores *)

(** Every column of the table is bound to a buffer of the store with one
    value for each row. *)
Definition wf_frame (st : Store) (df : DataFrame) : Prop :=
  Forall (λ cb, ∃ vs, buffers st !! snd cb = Some vs
                      ∧ length vs = length (keys df)) (columns df).

(** The references a GraphFrame holds are live: its graph is an object of
    the store and its table is well formed. *)
Definition gf_valid (st : Store) (gf : GraphFrame) : Prop :=
  is_Some (graphs st !! graph gf) ∧ wf_frame st (dataframe gf).

(** The rows of a table, as a predicate sees them. *)
Definition df_rows (ks : list Key) (cols : Columns) : list Row :=
  omap (row_at ks cols) (seq 0 (length ks)).

(** A filter object that matches no row of the table of [gf]. *)
Definition matches_no_row {Q : Type} (env : Env Q) (st : Store)
    (gf : GraphFrame) (fo : filter_obj Q) (mode : string) : Prop :=
  ∃ g cols, graphs st !! graph gf = Some g
    ∧ df_cols st (dataframe gf) = Ok cols
    ∧ let ks := keys (dataframe gf) in
      let no_match q :=
        ∀ k, k ∈ ks → node k ∉ query_engine_apply env q (nodes st) g ks cols in
      match fo with
      | Callable f => ∀ r, r ∈ df_rows ks cols → f r = false
      | QueryPath q => no_match (ObjectQuery env q mode)
      | QueryString q => no_match (parse_string_dialect env q mode)
      | NewQuery q => no_match q
      | OldQuery q => no_match (_get_new_query env q)
      | NotAFilter => False
      end.

(** A graph where squash merges two nodes: main → foo → bar and
    main → baz → bar, with rows for main and the two bars only. *)
Definition merge_store : Store :=
  mkStore [ mkNode (fr "main") [] [1; 3] 0;
            mkNode (fr "foo") [0] [2] 1;
            mkNode (fr "bar") [1] [] 2;
            mkNode (fr "baz") [0] [4] 3;
            mkNode (fr "bar") [3] [] 4 ]
          [mkGraph [0]]
          [ [Num 1; Num 2; Num 5]; [Cat "main"; Cat "bar"; Cat "bar"] ].

Definition merge_gf : GraphFrame :=
  mkGF 0 (mkDF ["node"] [mkKey 0 []; mkKey 2 []; mkKey 4 []]
               [("time", 0); ("name", 1)])
       ["time"] [] "time" [].

(** ** Paths in the graph *)

(** [edge h a b]: [b] is a child of [a]. *)
Definition edge (h : list Node) (a b : ref) : Prop := b ∈ children_of h a.

(** [a] is a strict ancestor of [b]: a path of one edge at least. *)
Definition ancestor (h : list Node) (a b : ref) : Prop := tc (edge h) a b.

(** The nodes of a graph: those a root reaches. *)
Definition reach (h : list Node) (rs : list ref) (n : ref) : Prop :=
  ∃ r, r ∈ rs ∧ rtc (edge h) r n.
Definition in_graph (h : list Node) (g : Graph) (n : ref) : Prop :=
  reach h (roots g) n.

(** The key-consistency invariant of a GraphFrame: every row is keyed by a
    node of its graph. *)
Definition keys_in_graph (st : Store) (gf : GraphFrame) : Prop :=
  ∃ g, graphs st !! graph gf = Some g
       ∧ ∀ k, k ∈ keys (dataframe gf) → in_graph (nodes st) g (node k).

(** The invariant of the union: every node of the map is a live node of the
    merged graph whose children are nodes of the map too, and so is every
    root. *)
Definition us_inv (s : UnionState) : Prop :=
  (∀ n v, node_map s !! n = Some v →
     v < length (us_nodes s)
     ∧ reach (us_nodes s) (us_roots s) v
     ∧ ∀ c, c ∈ children_of (us_nodes s) v → ∃ n', node_map s !! n' = Some c)
  ∧ (∀ r, r ∈ us_roots s → ∃ n', node_map s !! n' = Some r).

Definition us_le (s s' : UnionState) : Prop :=
  node_map s ⊆ node_map s'
  ∧ (∀ a b, edge (us_nodes s) a b → edge (us_nodes s') a b)
  ∧ (∀ r, r ∈ us_roots s → r ∈ us_roots s')
  ∧ length (us_nodes s) ≤ length (us_nodes s').

(** Two GraphFrames on two graphs: the scenario, and main → {foo, qux}. *)
Definition two_store : Store :=
  mkStore (scenario_nodes
           ++ [ mkNode (fr "main") [] [5; 6] 0;
                mkNode (fr "foo") [4] [] 1;
                mkNode (fr "qux") [4] [] 2 ])
          [mkGraph [0]; mkGraph [4]]
          [ [Num 1; Num 1; Num 2; Num 3];
            [Cat "main"; Cat "foo"; Cat "bar"; Cat "baz"];
            [Num 10; Num 20; Num 30] ].

Definition other_gf : GraphFrame :=
  mkGF 1 (mkDF ["node"] [mkKey 4 []; mkKey 5 []; mkKey 6 []] [("time", 2)])
       ["time"] [] "time" [].

Definition two_unified : result (Store * GraphFrame * GraphFrame) :=
  Eval vm_compute in unify two_store scenario_gf other_gf.

(** Two GraphFrames on one Graph object: the scenario, and a table with the
    rows of main and bar alone (as [filter] without squash leaves it). *)
Definition shared_store : Store :=
  mkStore scenario_nodes [mkGraph [0]]
          [ [Num 1; Num 1; Num 2; Num 3];
            [Cat "main"; Cat "foo"; Cat "bar"; Cat "baz"];
            [Num 1; Num 2]; [Cat "main"; Cat "bar"] ].

Definition part_gf : GraphFrame :=
  mkGF 0 (mkDF ["node"] [mkKey 0 []; mkKey 2 []] [("time", 2); ("name", 3)])
       ["time"] [] "time" [].

(** ** Well-formed graphs *)

(** Child references are live: every child is a node of the arena. *)
Definition wf_heap (h : list Node) : Prop :=
  ∀ n c, c ∈ children_of h n → c < length h.

(** The graph is a DAG: no node is its own strict ancestor. *)
Definition acyclic (h : list Node) : Prop := ∀ n, ¬ tc (edge h) n n.

(** The part of the arena that [rs] reaches is a DAG: no node reached from
    [rs] is its own strict ancestor. *)
Definition acyclic_from (h : list Node) (rs : list ref) : Prop :=
  ∀ n, reach h rs n → ¬ tc (edge h) n n.

(** The number of nodes of the arena that are not yet visited: the measure
    that bounds the depth of the recursion. *)
Definition unvisited (h : list Node) (vis : list nat) : nat :=
  length (filter (λ i, i ∉ vis) (seq 0 (length h))).

(** In the list every node comes after all of its children. *)
Definition ordered (h : list Node) (l : list nat) : Prop :=
  ∀ pre m suf, l = pre ++ m :: suf →
    ∀ c, c ∈ children_of h m → c ∈ pre.

(** What a traversal from the nodes [ns] adds to the output and to the
    visited set. *)
Definition traversed (h : list Node) (o : order) (ns : list nat)
    (out vis new vis' : list nat) : Prop :=
  NoDup new
  ∧ (∀ m, m ∈ new ↔ m ∈ vis' ∧ m ∉ vis)
  ∧ (∀ m, m ∈ vis → m ∈ vis')
  ∧ (∀ c, c ∈ ns → c ∈ vis')
  ∧ (∀ m, m ∈ new → ∀ c, c ∈ children_of h m → c ∈ vis')
  ∧ (∀ m, m ∈ new → ∃ c, c ∈ ns ∧ rtc (edge h) c m)
  ∧ (o = Post → acyclic_from h ns →
     (∀ c m, c ∈ ns → rtc (edge h) c m → m ∈ vis → m ∈ out) →
     ordered h out → ordered h (out ++ new)).

(** ** The invariants of the rewiring *)

(** [first_kept h otn n c]: [c] is the clone of the first retained node on
    some path from [n] (of [n] itself when it is retained). *)
Inductive first_kept (h : list Node) (otn : gmap nat nat) : nat → nat → Prop :=
| fk_here n c : otn !! n = Some c → first_kept h otn n c
| fk_step n m c :
    otn !! n = None → m ∈ children_of h n → first_kept h otn m c →
    first_kept h otn n c.

(** [c] hangs below the new parent, or is a root when there is none. *)
Definition linked (s : RewireState) (p : option nat) (c : nat) : Prop :=
  match p with
  | Some pc => c ∈ children_of (rw_nodes s) pc
  | None => c ∈ new_roots s
  end.

(** What holds of the state throughout: the old nodes are untouched, the
    arena keeps its size and its references are live, and the connections
    hold clones of first retained nodes only. *)
Definition rw_inv (h0 : list Node) (otn : gmap nat nat) (size : nat)
    (s : RewireState) : Prop :=
  length (rw_nodes s) = size
  ∧ (∀ x, x < length h0 → children_of (rw_nodes s) x = children_of h0 x)
  ∧ wf_heap (rw_nodes s)
  ∧ (∀ r, r ∈ new_roots s → r < size)
  ∧ (∀ n c, otn !! n = Some c → connections s !! n = Some [c])
  ∧ (∀ n l c, connections s !! n = Some l → c ∈ l → first_kept h0 otn n c)
  ∧ (∀ n, otn !! n = None → n ∉ visited s →
          default [] (connections s !! n) = []).

(** The old node [n] is done: it and its children are visited, its
    connections are complete, and the clones of the first retained nodes
    below it hang below its own clone. *)
Definition rw_done (h0 : list Node) (otn : gmap nat nat) (s : RewireState)
    (n : nat) : Prop :=
  n ∈ visited s
  ∧ (∀ c, c ∈ children_of h0 n → c ∈ visited s)
  ∧ (otn !! n = None →
     ∀ c, first_kept h0 otn n c → c ∈ default [] (connections s !! n))
  ∧ (∀ cn, otn !! n = Some cn →
     ∀ m c, m ∈ children_of h0 n → first_kept h0 otn m c →
            c ∈ children_of (rw_nodes s) cn).

(** A new parent is a clone. *)
Definition rw_parent_ok (h0 : list Node) (size : nat) (p : option nat) : Prop :=
  ∀ pc, p = Some pc → length h0 ≤ pc < size.

(** The state only grows. *)
Definition rw_le (h0 : list Node) (otn : gmap nat nat) (s s' : RewireState)
  : Prop :=
  (∀ m, m ∈ visited s → m ∈ visited s')
  ∧ (∀ x y, y ∈ children_of (rw_nodes s) x → y ∈ children_of (rw_nodes s') x)
  ∧ (∀ r, r ∈ new_roots s → r ∈ new_roots s')
  ∧ (∀ m, rw_done h0 otn s m → rw_done h0 otn s' m)
  ∧ (∀ m, m ∈ visited s' → m ∉ visited s → rw_done h0 otn s' m).

(** Two stores with the same nodes and the same graphs: what the
    operations on the columns of a table leave alone. *)
Definition same_graphs (st st' : Store) : Prop :=
  nodes st' = nodes st ∧ graphs st' = graphs st.

(** Decision procedures for the shape of an arena: every child is a live
    reference, and every child has a larger reference than its parent. *)
Definition wf_heapb (h : list Node) : bool :=
  forallb (λ nd, forallb (λ c, c <? length h) (children nd)) h.
Definition increasingb (h : list Node) : bool :=
  forallb (λ p, forallb (λ c, fst p <? c) (children (snd p)))
          (zip (seq 0 (length h)) h).

(** The table of [merge_gf] squashed, with the inclusive columns. *)
Definition merge_squashed_inc : result (Store * GraphFrame) :=
  Eval vm_compute in squash merge_store merge_gf true.

(** ** The sums of one column *)

(** The rows of a label: of the node [n] on a node-only index, of the node
    [n] at the secondary levels [rt] on a MultiIndex. *)
Definition lab (df : DataFrame) (n : ref) (rt : list Z) : Key → bool :=
  if is_multi_index df then has_key n rt else has_node n.
Definition label_rows (df : DataFrame) (n : ref) (rt : list Z) : list nat :=
  positions (lab df n rt) (keys df).

(** The rows of the direct children of [n], child after child. *)
Definition child_rows (h : list Node) (df : DataFrame) (n : ref) (rt : list Z)
  : list nat :=
  concat ((λ c, label_rows df c rt) <$> children_of h n).

(** [vs[qs] = v] *)
Definition write (qs : list nat) (v : cell) (vs : list cell) : list cell :=
  fold_left (λ vs i, <[i := v]> vs) qs vs.

(** What the loop of [subtree_sum] does to one output column [vs]: for a
    label, for a node, and for the nodes of the traversal. *)
Definition sum_group (function : list cell → result cell) (h : list Node)
    (df : DataFrame) (n : ref) (rt : list Z) (vs : list cell)
  : result (list cell) :=
  v ← function (select (label_rows df n rt ++ child_rows h df n rt) vs);
  Ok (write (label_rows df n rt) v vs).
Definition node_groups (h : list Node) (df : DataFrame) (n : ref)
  : result (list (list Z)) :=
  if is_multi_index df then rank_threads df n
  else (_ ← loc_labels (keys df) (n :: children_of h n); Ok [[]]).
Definition sum_node (function : list cell → result cell) (h : list Node)
    (df : DataFrame) (vs : list cell) (n : ref) : result (list cell) :=
  match children_of h n with
  | [] => Ok vs
  | _ => gs ← node_groups h df n;
         foldM (λ vs rt, sum_group function h df n rt vs) gs vs
  end.

(** The relation between an exclusive column [vexc] and the inclusive
    column [vs] at the label [(n, rt)]: the inclusive value is the
    [min_count=1] sum of the exclusive value and of the inclusive values of
    the direct children. *)
Definition sum_rel (h : list Node) (df : DataFrame) (vexc vs : list cell)
    (n : ref) (rt : list Z) : Prop :=
  ∀ q e, q ∈ label_rows df n rt → vexc !! q = Some e →
    ∃ v, vs !! q = Some v
         ∧ nansum (e :: select (child_rows h df n rt) vs) = Ok v.

(** The invariant of the loop over the nodes: the relation holds at the
    nodes already visited, the other rows hold the exclusive value. *)
Definition sum_inv (h : list Node) (df : DataFrame) (vexc : list cell)
    (done : list ref) (vs : list cell) : Prop :=
  length vs = length vexc
  ∧ (∀ n rt, n ∈ done → sum_rel h df vexc vs n rt)
  ∧ (∀ q k, keys df !! q = Some k → node k ∉ done → vs !! q = vexc !! q).

(** The effect of a piece of code on the store, column by column: the
    nodes and the graphs are as before, the buffers outside [outbufs] are
    as before, and each buffer of [outbufs] holds [F] of what it held. *)
Definition proj_ok (outbufs : list nat)
    (F : list cell → result (list cell)) (st st' : Store) : Prop :=
  same_graphs st st'
  ∧ (∀ b, b ∉ outbufs → buffers st' !! b = buffers st !! b)
  ∧ (∀ b vs, b ∈ outbufs → buffers st !! b = Some vs →
       ∃ vs', F vs = Ok vs' ∧ buffers st' !! b = Some vs').

(** Every column of the table is bound to a buffer of the store. *)
Definition live_columns (st : Store) (df : DataFrame) : Prop :=
  ∀ c b, assoc c (columns df) = Some b → b < length (buffers st).

(** The buffers of the columns [outs]. *)
Definition bufs_of (df : DataFrame) (outs : list string) : list nat :=
  omap (λ o, assoc o (columns df)) outs.

(** One row per label at most. *)
Definition unique_rows (df : DataFrame) : Prop :=
  ∀ n rt, length (label_rows df n rt) ≤ 1.

(** [exclusive + sum(inclusive(child) for child in children)] *)
Definition plain_sum (e : cell) (l : list cell) : result cell :=
  s ← foldM py_add l (Num 0); py_add e s.

(** The value of a column at a row, and the inclusive values of the direct
    children of a node. *)
Definition cell_at (st : Store) (df : DataFrame) (c : string) (q : nat)
  : option cell :=
  match column st df c with Ok vs => vs !! q | Raise _ => None end.
Definition child_cells (st : Store) (df : DataFrame) (inc : string)
    (n : ref) (rt : list Z) : list cell :=
  match column st df inc with
  | Ok vs => select (child_rows (nodes st) df n rt) vs
  | Raise _ => []
  end.

(** The round trip as the specification words it: at every row of the
    label, inclusive(node) == exclusive(node) + sum of inclusive(child). *)
Definition inclusive_is_sum (st : Store) (gf : GraphFrame) (exc inc : string)
    (n : ref) (rt : list Z) : Prop :=
  ∀ q e, q ∈ label_rows (dataframe gf) n rt →
    cell_at st (dataframe gf) exc q = Some e →
    ∃ v, cell_at st (dataframe gf) inc q = Some v
         ∧ plain_sum e (child_cells st (dataframe gf) inc n rt) = Ok v.

(** A diamond: a → {b, c}, b → d, c → d, with the inclusive time of each
    node (one unit of exclusive time in every node). *)
Definition diamond_store : Store :=
  mkStore [ mkNode (fr "a") [] [1; 2] 0;
            mkNode (fr "b") [0] [3] 1;
            mkNode (fr "c") [0] [3] 2;
            mkNode (fr "d") [1; 2] [] 3 ]
          [mkGraph [0]]
          [ [Num 4; Num 2; Num 2; Num 1] ].

Definition diamond_gf : GraphFrame :=
  mkGF 0 (mkDF ["node"] [mkKey 0 []; mkKey 1 []; mkKey 2 []; mkKey 3 []]
               [("time (inc)", 0)])
       [] ["time (inc)"] "time (inc)" [].

(** [gf.generate_exclusive_columns(); gf.update_inclusive_columns()] *)
Definition round_trip (st : Store) (gf : GraphFrame)
  : result (Store * GraphFrame) :=
  '(st1, gf1) ← generate_exclusive_columns st gf;
  update_inclusive_columns st1 gf1.

(** The tree main → {foo → baz, bar} with the inclusive time of each
    node. *)
Definition tree_store : Store :=
  mkStore scenario_nodes [mkGraph [0]] [ [Num 7; Num 4; Num 2; Num 3] ].

Definition tree_gf : GraphFrame :=
  mkGF 0 (mkDF ["node"] [mkKey 0 []; mkKey 1 []; mkKey 2 []; mkKey 3 []]
               [("time (inc)", 0)])
       [] ["time (inc)"] "time (inc)" [].

Definition tree_round_trip : result (Store * GraphFrame) :=
  Eval vm_compute in round_trip tree_store tree_gf.

Definition diamond_round_trip : result (Store * GraphFrame) :=
  Eval vm_compute in round_trip diamond_store diamond_gf.

(** The value that [DataFrame.update] leaves in a metric cell of self: the
    value [x] of self at the label [k], combined by [op] with the value of
    the first row of other that carries the label, unless that row is
    missing or the combination is NaN. *)
Definition updated_cell (op : cell → cell → result cell) (okeys : list Key)
    (that : list cell) (k : Key) (x : cell) : result cell :=
  match positions (λ k', bool_decide (k' = k)) okeys with
  | j :: _ =>
    match that !! j with
    | Some y => v ← op x y; Ok (if is_nan v then x else v)
    | None => Ok x
    end
  | [] => Ok x
  end.

(** ** The rewiring of squash makes no other link *)

(** What is known of a call [rewire(n, new_parent)]: the clones of the
    first retained nodes below [n] are clones of first retained nodes
    below a child of the node whose clone the new parent is, or below a
    root of the old graph when there is no new parent. *)
Definition rw_pre (h0 : list Node) (otn : gmap nat nat) (rs : list nat)
    (n : nat) (p : option nat) : Prop :=
  match p with
  | Some pc => ∃ a m, otn !! a = Some pc ∧ m ∈ children_of h0 a
                      ∧ ∀ c, first_kept h0 otn n c → first_kept h0 otn m c
  | None => ∃ r0, r0 ∈ rs ∧ ∀ c, first_kept h0 otn n c → first_kept h0 otn r0 c
  end.

(** Every link of the state has a reason in the old graph [h0]; [h1] is
    the arena after the clones were made. *)
Definition rw_sound (h0 h1 : list Node) (otn : gmap nat nat) (rs : list nat)
    (s : RewireState) : Prop :=
  length (rw_nodes s) = length h1
  ∧ (∀ x, x < length h0 → rw_nodes s !! x = h1 !! x)
  ∧ (∀ n l c, connections s !! n = Some l → c ∈ l → first_kept h0 otn n c)
  ∧ (∀ c, c ∈ new_roots s → ∃ r0, r0 ∈ rs ∧ first_kept h0 otn r0 c)
  ∧ (∀ p c, c ∈ children_of (rw_nodes s) p →
        c ∈ children_of h1 p
        ∨ ∃ a m, otn !! a = Some p ∧ m ∈ children_of h0 a
                 ∧ first_kept h0 otn m c).

(** ** The rewiring visits every node of the graph *)

(** What holds of the state of the rewiring on any graph, cyclic or not,
    while the nodes of [stack] are being visited: the arena keeps its size,
    the old nodes keep their children, a retained node is connected to its
    clone alone, the clone of a visited node hangs in the new graph, and
    the children of a visited node that is no longer on the stack are
    visited. *)
Definition rw_seen (h0 : list Node) (otn : gmap nat nat) (size : nat)
    (stack : list nat) (s : RewireState) : Prop :=
  length (rw_nodes s) = size
  ∧ (∀ x, x < length h0 → children_of (rw_nodes s) x = children_of h0 x)
  ∧ (∀ n c, otn !! n = Some c → connections s !! n = Some [c])
  ∧ (∀ n c, n ∈ visited s → otn !! n = Some c →
            reach (rw_nodes s) (new_roots s) c)
  ∧ (∀ m, m ∈ visited s → m ∉ stack →
          ∀ c, c ∈ children_of h0 m → c ∈ visited s).

(** The state only grows. *)
Definition rw_grow (s s' : RewireState) : Prop :=
  length (rw_nodes s') = length (rw_nodes s)
  ∧ (∀ m, m ∈ visited s → m ∈ visited s')
  ∧ (∀ x y, y ∈ children_of (rw_nodes s) x → y ∈ children_of (rw_nodes s') x)
  ∧ (∀ r, r ∈ new_roots s → r ∈ new_roots s').

(** A new parent is a clone that hangs in the new graph. *)
Definition rw_parent_seen (h0 : list Node) (size : nat) (s : RewireState)
    (p : option nat) : Prop :=
  ∀ pc, p = Some pc →
    length h0 ≤ pc < size ∧ reach (rw_nodes s) (new_roots s) pc.

(** A graph with a cycle: R → X → A → Y → B → X, with rows for R, A and B
    only. *)
Definition cyclic_store : Store :=
  mkStore [ mkNode (fr "R") [] [1] 0;
            mkNode (fr "X") [0; 4] [2] 1;
            mkNode (fr "A") [1] [3] 2;
            mkNode (fr "Y") [2] [4] 3;
            mkNode (fr "B") [3] [1] 4 ]
          [mkGraph [0]]
          [ [Num 1; Num 2; Num 3] ].

Definition cyclic_gf : GraphFrame :=
  mkGF 0 (mkDF ["node"] [mkKey 0 []; mkKey 2 []; mkKey 4 []] [("time", 0)])
       ["time"] [] "time" [].

Definition cyclic_rewired : result (gmap ref ref * list Node * list ref) :=
  Eval vm_compute in
    squash_rewire (nodes cyclic_store) (mkGraph [0]) [0; 2; 4].

Definition cyclic_squashed : result (Store * GraphFrame) :=
  Eval vm_compute in squash cyclic_store cyclic_gf true.

(** The buffers below [base] are left as they are, and no buffer is
    dropped. *)
Definition old_buffers (base : nat) (st st' : Store) : Prop :=
  length (buffers st) ≤ length (buffers st')
  ∧ ∀ b, b < base → buffers st' !! b = buffers st !! b.

(** Every column of the table is bound to a buffer at [base] or above. *)
Definition fresh_columns (base : nat) (df : DataFrame) : Prop :=
  ∀ c b, (c, b) ∈ columns df → base ≤ b.

(** The columns [outs] of the table are bound to buffers at [base] or
    above. *)
Definition fresh_outs (base : nat) (outs : list string) (df : DataFrame)
  : Prop :=
  ∀ c b, c ∈ outs → assoc c (columns df) = Some b → base ≤ b.

(** The union works on fresh nodes only: the nodes of the arena [h0] are
    left as they are, and the map, the roots and the children of the new
    nodes are new nodes. *)
Definition us_fresh (h0 : list Node) (s : UnionState) : Prop :=
  length h0 ≤ length (us_nodes s)
  ∧ (∀ x, x < length h0 → us_nodes s !! x = h0 !! x)
  ∧ (∀ n v, node_map s !! n = Some v → length h0 ≤ v)
  ∧ (∀ r, r ∈ us_roots s → length h0 ≤ r)
  ∧ (∀ p c, length h0 ≤ p → c ∈ children_of (us_nodes s) p → length h0 ≤ c).

(** The sum of the two GraphFrames on two graphs. *)
Definition two_added : result (Store * GraphFrame) :=
  Eval vm_compute in add two_store scenario_gf other_gf.



(** ** Dropping the secondary index levels *)

(** [GraphFrame.drop_index_levels]: the rows are grouped by node
    ([groupby("node")], which sorts its groups); a registered metric takes
    [function] of the values of the group and any other column the first
    of them.  [index_names.remove("node")] raises [ValueError] when there
    is no such level.  The new table replaces the table of [self]. *)
Definition drop_index_levels (st : Store) (gf : GraphFrame)
    (function : list cell → result cell) : result (Store * GraphFrame) :=
  let df := dataframe gf in
  if bool_decide ("node" ∈ index_names df) then
    cols ← df_cols st df;
    let agg c :=
      if bool_decide (c ∈ exc_metrics gf ++ inc_metrics gf) then function
      else first_value in
    let by_node := (λ k, mkKey (node k) []) <$> keys df in
    '(gks, gcols) ← groupby_agg by_node cols agg;
    let '(sks, scols) := sort_index (nodes st) gks gcols in
    let '(st', agg_df) := df_new st ["node"] sks scols in
    Ok (st', set_dataframe gf agg_df)
  else Raise ValueError.

(** A table with two ranks for each of main and foo. *)
Definition ranks_store : Store :=
  mkStore scenario_nodes [mkGraph [0]]
          [ [Num 1; Num 3; Num 2; Num 4];
            [Cat "main"; Cat "main"; Cat "foo"; Cat "foo"] ].

Definition ranks_gf : GraphFrame :=
  mkGF 0 (mkDF ["node"; "rank"]
               [mkKey 0 [0%Z]; mkKey 0 [1%Z]; mkKey 1 [0%Z]; mkKey 1 [1%Z]]
               [("time", 0); ("name", 1)])
       ["time"] [] "time" [].

Definition ranks_dropped : result (Store * GraphFrame) :=
  Eval vm_compute in drop_index_levels ranks_store ranks_gf nansum.

(** The rows of the table that carry the label [k], in table order. *)
Definition group_of (k : Key) (ks : list Key) : list nat :=
  positions (λ k', bool_decide (k' = k)) ks.

(* ===================================================================== *)
(** * Part II: theorems                                                   *)
(* ===================================================================== *)

Example scenario_traverse_pre :
  graph_traverse scenario_nodes (mkGraph [0]) Pre = Ok [0; 1; 3; 2].
Proof. vm_compute. reflexivity. Qed.

Example scenario_traverse_post :
  graph_traverse scenario_nodes (mkGraph [0]) Post = Ok [3; 1; 2; 0].
Proof. vm_compute. reflexivity. Qed.

Example scenario_is_tree :
  is_tree scenario_nodes (mkGraph [0]) = Ok true.
Proof. vm_compute. reflexivity. Qed.



(** ** Generic facts about the error monad *)

Lemma bind_Ok {A B} (m : result A) (f : A → result B) (b : B) :
  m ≫= f = Ok b ↔ ∃ a, m = Ok a ∧ f a = Ok b.
Proof.
  destruct m as [a|e]; simpl; split.
  - intros H. exists a. auto.
  - intros (a' & Ha & Hf). inversion Ha. subst. exact Hf.
  - intros H. discriminate.
  - intros (a' & Ha & _). discriminate.
Qed.

Lemma fmap_Ok {A B} (m : result A) (f : A → B) (b : B) :
  f <$> m = Ok b ↔ ∃ a, m = Ok a ∧ b = f a.
Proof.
  destruct m as [a|e]; simpl; split.
  - intros H. inversion H. eauto.
  - intros (a' & Ha & Hf). inversion Ha. subst. reflexivity.
  - discriminate.
  - intros (a' & Ha & _). discriminate.
Qed.

Lemma getitem_Ok {A} (o : option A) (a : A) : getitem o = Ok a ↔ o = Some a.
Proof. destruct o; simpl; split; intros H; inversion H; auto. Qed.

(** ** C1: the concrete scenario *)

(** C1.  On the graph main → {foo → baz, bar} with exclusive times 1, 1, 2,
    3, [update_inclusive_columns] gives the inclusive times main = 7,
    foo = 4, bar = 2, baz = 3; filtering to the rows of main and bar and
    squashing gives a tree of two nodes, main with the single child bar,
    where the inclusive time of main is recomputed as 3. *)
Theorem C1_concrete_scenario :
  match update_inclusive_columns scenario_store scenario_gf with
  | Raise _ => False
  | Ok (st1, gf1) =>
    node <$> keys (dataframe gf1) = [0; 1; 2; 3]
    ∧ frame_of (nodes st1) <$> [0; 1; 2; 3]
      = [fr "main"; fr "foo"; fr "bar"; fr "baz"]
    ∧ column st1 (dataframe gf1) "time (inc)" = Ok [Num 7; Num 4; Num 2; Num 3]
    ∧ match gf_filter plain_env st1 gf1 (Callable main_or_bar) true true 1 "off"
      with
      | Raise _ => False
      | Ok (st2, gf2) =>
        ∃ m b,
          graphs st2 !! graph gf2 = Some (mkGraph [m])
          ∧ graph_traverse (nodes st2) (mkGraph [m]) Pre = Ok [m; b]
          ∧ is_tree (nodes st2) (mkGraph [m]) = Ok true
          ∧ frame_of (nodes st2) m = fr "main"
          ∧ frame_of (nodes st2) b = fr "bar"
          ∧ children_of (nodes st2) m = [b]
          ∧ children_of (nodes st2) b = []
          ∧ parents_of (nodes st2) b = [m]
          ∧ keys (dataframe gf2) = [mkKey m []; mkKey b []]
          ∧ loc_scalar st2 (dataframe gf2) (has_node m) "time (inc)"
            = Ok (Num 3)
          ∧ loc_scalar st2 (dataframe gf2) (has_node b) "time (inc)"
            = Ok (Num 2)
      end
  end.
Proof.
  vm_compute. repeat split. exists 4, 5. repeat split.
Qed.

(** ** C7: the sum over a tree *)

(** C7.  When the graph is a tree, [subgraph_sum] is [subtree_sum]: on the
    same columns, output columns and operator the two give the same store
    and the same table. *)
Theorem C7_subgraph_sum_delegates (st : Store) (gf : GraphFrame) (g : Graph)
    (cols : list string) (out_columns : option (list string))
    (function : list cell → result cell) :
  graphs st !! graph gf = Some g →
  is_tree (nodes st) g = Ok true →
  subgraph_sum st gf cols out_columns function
  = subtree_sum st gf cols out_columns function.
Proof.
  intros Hg Ht. unfold subgraph_sum. rewrite Hg. simpl. rewrite Ht. reflexivity.
Qed.

Lemma C7_witness :
  subgraph_sum scenario_store scenario_gf ["time"] (Some ["time (inc)"]) nansum
  = subtree_sum scenario_store scenario_gf ["time"] (Some ["time (inc)"]) nansum.
Proof.
  apply (C7_subgraph_sum_delegates scenario_store scenario_gf (mkGraph [0]));
    vm_compute; reflexivity.
Defined.

(** ** C9 and C10: filter *)

Lemma filter_all_false {A} (p : A → bool) (l : list A) :
  (∀ x, x ∈ l → p x = false) → List.filter p l = [].
Proof.
  induction l as [|x l IH]; simpl; intros H; [reflexivity|].
  rewrite (H x) by left. apply IH. intros y Hy. apply H. by right.
Qed.

Lemma row_at_in_rows (ks : list Key) (cols : Columns) (i : nat) (r : Row) :
  row_at ks cols i = Some r → r ∈ df_rows ks cols.
Proof.
  intros H. unfold df_rows. apply list_elem_of_omap. exists i. split; [|exact H].
  apply elem_of_seq. split; [lia|]. simpl.
  unfold row_at in H. destruct (ks !! i) eqn:E; [|discriminate].
  apply lookup_lt_Some in E. lia.
Qed.

Lemma apply_filter_none (f : Row → bool) (ks : list Key) (cols : Columns)
    (ps : list nat) :
  (∀ r, r ∈ df_rows ks cols → f r = false) → apply_filter f ks cols ps = [].
Proof.
  intros H. unfold apply_filter. apply filter_all_false. intros i _.
  destruct (row_at ks cols i) eqn:E; [|reflexivity].
  apply H. eapply row_at_in_rows. exact E.
Qed.

Lemma concat_all_nil {A} (ls : list (list A)) :
  (∀ l, l ∈ ls → l = []) → concat ls = [].
Proof.
  induction ls as [|l ls IH]; simpl; intros H; [reflexivity|].
  rewrite (H l) by left. simpl. apply IH. intros l' Hl'. apply H. by right.
Qed.

(** C9.  A filter whose predicate (a callable, or a query in any of its
    forms) matches no row of the table raises [EmptyFilter], whatever the
    number of worker processes, the order in which they deliver, and the
    [squash] and [update_inc_cols] flags. *)
Theorem C9_filter_empty_raises {Q : Type} (env : Env Q) (st : Store)
    (gf : GraphFrame) (fo : filter_obj Q) (squash_ update_inc_cols : bool)
    (num_procs : nat) (mode : string) :
  matches_no_row env st gf fo mode →
  gf_filter env st gf fo squash_ update_inc_cols num_procs mode
  = Raise EmptyFilter.
Proof.
  intros (g & cols & Hg & Hcols & Hno). unfold gf_filter.
  rewrite Hcols, Hg. simpl.
  assert (Hq : ∀ q,
    (∀ k, k ∈ keys (dataframe gf) →
          node k ∉ query_engine_apply env q (nodes st) g (keys (dataframe gf)) cols) →
    List.filter (λ i, match keys (dataframe gf) !! i with
                      | Some k => bool_decide
                          (node k ∈ query_engine_apply env q (nodes st) g
                                      (keys (dataframe gf)) cols)
                      | None => false
                      end) (seq 0 (length (keys (dataframe gf)))) = []).
  { intros q Hq. apply filter_all_false. intros i _.
    destruct (keys (dataframe gf) !! i) as [k|] eqn:E; [|reflexivity].
    apply bool_decide_eq_false. apply Hq. eapply list_elem_of_lookup_2. exact E. }
  destruct fo as [f|q|q|q|q|]; simpl in Hno.
  - destruct (bool_decide (1 < num_procs)); simpl.
    + rewrite concat_all_nil; [reflexivity|].
      intros l Hl. apply list_elem_of_omap in Hl as (pid & _ & Hl).
      apply list_lookup_fmap_Some in Hl as (chunk & -> & _).
      apply apply_filter_none. exact Hno.
    + rewrite apply_filter_none by exact Hno. reflexivity.
  - rewrite Hq by exact Hno. reflexivity.
  - rewrite Hq by exact Hno. reflexivity.
  - rewrite Hq by exact Hno. reflexivity.
  - rewrite Hq by exact Hno. reflexivity.
  - contradiction.
Qed.

Lemma C9_witness :
  gf_filter plain_env scenario_store scenario_gf (Callable (λ _, false))
            true true 2 "off" = Raise EmptyFilter.
Proof.
  apply C9_filter_empty_raises.
  exists (mkGraph [0]), [("time", [Num 1; Num 1; Num 2; Num 3]);
                         ("name", [Cat "main"; Cat "foo"; Cat "bar"; Cat "baz"])].
  split; [reflexivity|]. split; [reflexivity|]. simpl. intros r _. reflexivity.
Defined.

Lemma concat_split_sizes {A} (sizes : list nat) (l : list A) :
  concat (split_sizes l sizes) = take (sum_list sizes) l.
Proof.
  revert l. induction sizes as [|n ss IH]; intros l; simpl.
  - by rewrite take_0.
  - rewrite IH. apply take_take_drop.
Qed.

Lemma length_split_sizes {A} (sizes : list nat) (l : list A) :
  length (split_sizes l sizes) = length sizes.
Proof.
  revert l. induction sizes as [|n ss IH]; intros l; simpl; [done|].
  by rewrite IH.
Qed.

Lemma sum_list_append (l k : list nat) :
  sum_list (l ++ k) = sum_list l + sum_list k.
Proof. induction l as [|x l IH]; simpl; [done|]. rewrite IH. lia. Qed.

Lemma concat_array_split {A} (l : list A) (n : nat) :
  0 < n → concat (array_split l n) = l.
Proof.
  intros Hn. unfold array_split. rewrite concat_split_sizes.
  apply take_ge. rewrite sum_list_append, !sum_list_replicate.
  pose proof (Nat.div_mod_eq (length l) n) as Hd.
  pose proof (Nat.mod_upper_bound (length l) n ltac:(lia)) as Hr.
  nia.
Qed.

Lemma length_array_split {A} (l : list A) (n : nat) :
  0 < n → length (array_split l n) = n.
Proof.
  intros Hn. unfold array_split.
  rewrite length_split_sizes, length_app, !length_replicate.
  pose proof (Nat.mod_upper_bound (length l) n ltac:(lia)). lia.
Qed.

Lemma elem_of_filter_bool {A} (p : A → bool) (x : A) (l : list A) :
  x ∈ List.filter p l ↔ x ∈ l ∧ p x = true.
Proof. rewrite !list_elem_of_In. apply filter_In. Qed.

Lemma elem_of_concat {A} (x : A) (ls : list (list A)) :
  x ∈ concat ls ↔ ∃ l, l ∈ ls ∧ x ∈ l.
Proof.
  rewrite list_elem_of_In, in_concat.
  split; intros (l & H1 & H2); exists l; by rewrite ?list_elem_of_In in *.
Qed.

Lemma df_cols_prefix (st st' : Store) (df : DataFrame) (cols : Columns) :
  buffers st `prefix_of` buffers st' →
  df_cols st df = Ok cols → df_cols st' df = Ok cols.
Proof.
  intros Hp. unfold df_cols. revert cols.
  induction (columns df) as [|[c b] l IH]; intros cols; simpl; [done|].
  intros H. apply bind_Ok in H as ((c' & vs) & H1 & H2).
  apply bind_Ok in H1 as (vs' & H1 & E). inversion E; subst c' vs'.
  apply bind_Ok in H2 as (ys & H2 & E2). inversion E2; subst cols.
  apply getitem_Ok in H1.
  apply bind_Ok. exists (c, vs). split.
  - apply bind_Ok. exists vs. split; [|done].
    apply getitem_Ok. eapply prefix_lookup_Some; eauto.
  - apply bind_Ok. exists ys. split; [by apply IH|done].
Qed.

(** C10.  A filter by a callable that matches some row, without squash,
    returns a GraphFrame on the very same Graph object, with the metric
    lists and the default metric of self; the nodes, the graphs and every
    buffer of the store are as before, so the table of self is unchanged. *)
Theorem C10_filter_without_squash {Q : Type} (env : Env Q) (st : Store)
    (gf : GraphFrame) (f : Row → bool) (update_inc_cols : bool)
    (num_procs : nat) (mode : string) (cols : Columns) :
  is_Some (graphs st !! graph gf) →
  "node" ∈ index_names (dataframe gf) →
  df_cols st (dataframe gf) = Ok cols →
  queue_order env (seq 0 num_procs) ≡ₚ seq 0 num_procs →
  (∃ r, r ∈ df_rows (keys (dataframe gf)) cols ∧ f r = true) →
  ∃ st' gf',
    gf_filter env st gf (Callable f) false update_inc_cols num_procs mode
    = Ok (st', gf')
    ∧ graph gf' = graph gf
    ∧ exc_metrics gf' = exc_metrics gf
    ∧ inc_metrics gf' = inc_metrics gf
    ∧ default_metric gf' = default_metric gf
    ∧ nodes st' = nodes st
    ∧ graphs st' = graphs st
    ∧ buffers st `prefix_of` buffers st'
    ∧ df_cols st' (dataframe gf) = Ok cols.
Proof.
  intros [g Hg] Hidx Hcols Hperm (r & Hr & Hf).
  unfold gf_filter. rewrite Hcols, Hg. simpl.
  set (ks := keys (dataframe gf)).
  set (all := seq 0 (length ks)).
  unfold df_rows in Hr. apply list_elem_of_omap in Hr as (i & Hi & Hrow).
  fold ks in Hrow. fold all in Hi.
  assert (Hkeep : ∀ ps, i ∈ ps → i ∈ apply_filter f ks cols ps).
  { intros ps Hps. unfold apply_filter. apply elem_of_filter_bool.
    split; [exact Hps|]. rewrite Hrow. exact Hf. }
  set (ps := if bool_decide (1 < num_procs)
             then concat (omap (λ pid, (apply_filter f ks cols
                                          <$> array_split all num_procs) !! pid)
                               (queue_order env (seq 0 num_procs)))
             else apply_filter f ks cols all).
  assert (Hps : i ∈ ps).
  { unfold ps. case_bool_decide as Hn.
    - assert (Hin : i ∈ concat (array_split all num_procs))
        by (rewrite concat_array_split by lia; exact Hi).
      apply elem_of_concat in Hin as (chunk & Hchunk & Hic).
      apply list_elem_of_lookup in Hchunk as (pid & Hpid).
      apply elem_of_concat. exists (apply_filter f ks cols chunk).
      split; [|by apply Hkeep].
      apply list_elem_of_omap. exists pid. split.
      + rewrite Hperm. apply elem_of_seq.
        apply lookup_lt_Some in Hpid.
        rewrite length_array_split in Hpid by lia. lia.
      + rewrite list_lookup_fmap, Hpid. reflexivity.
    - by apply Hkeep. }
  assert (Hne : bool_decide (length ps = 0) = false).
  { apply bool_decide_eq_false. destruct ps; [by apply elem_of_nil in Hps|done]. }
  assert (Hgoal : ∀ ps0, ps0 = ps →
    ∃ st' gf',
      (if bool_decide (length ps0 = 0) then Raise EmptyFilter
       else
         let '(st1, filtered_df) :=
           df_new st (index_names (dataframe gf)) (select ps0 ks)
                  (take_rows ps0 cols) in
         GraphFrame_init (graph gf) filtered_df [] [] "time" [] ≫= λ gf0,
           Ok (st1, mkGF (graph gf0) (dataframe gf0) (exc_metrics gf)
                         (inc_metrics gf) (default_metric gf) (metadata gf)))
      = Ok (st', gf')
      ∧ graph gf' = graph gf ∧ exc_metrics gf' = exc_metrics gf
      ∧ inc_metrics gf' = inc_metrics gf
      ∧ default_metric gf' = default_metric gf
      ∧ nodes st' = nodes st ∧ graphs st' = graphs st
      ∧ buffers st `prefix_of` buffers st'
      ∧ df_cols st' (dataframe gf) = Ok cols).
  { intros ps0 ->. rewrite Hne. unfold df_new, alloc_columns, GraphFrame_init.
    simpl. rewrite bool_decide_eq_true_2 by exact Hidx. simpl.
    eexists _, _. split; [reflexivity|]. simpl.
    repeat split; try reflexivity.
    - by apply prefix_app_r.
    - eapply df_cols_prefix; [|exact Hcols]. simpl. by apply prefix_app_r. }
  unfold ps in Hgoal.
  destruct (bool_decide (1 < num_procs)); simpl; apply Hgoal; reflexivity.
Qed.

Lemma C10_witness :
  ∃ st' gf',
    gf_filter plain_env scenario_store scenario_gf (Callable main_or_bar)
              false true 2 "off" = Ok (st', gf')
    ∧ graph gf' = graph scenario_gf
    ∧ exc_metrics gf' = exc_metrics scenario_gf
    ∧ inc_metrics gf' = inc_metrics scenario_gf
    ∧ default_metric gf' = default_metric scenario_gf
    ∧ nodes st' = nodes scenario_store
    ∧ graphs st' = graphs scenario_store
    ∧ buffers scenario_store `prefix_of` buffers st'
    ∧ df_cols st' (dataframe scenario_gf)
      = Ok [("time", [Num 1; Num 1; Num 2; Num 3]);
            ("name", [Cat "main"; Cat "foo"; Cat "bar"; Cat "baz"])].
Proof.
  apply C10_filter_without_squash.
  - eexists. reflexivity.
  - apply list_elem_of_In. simpl. auto.
  - reflexivity.
  - reflexivity.
  - exists (mkRow (mkKey 0 []) [("time", Num 1); ("name", Cat "main")]).
    split; [|reflexivity].
    apply list_elem_of_In. vm_compute. auto.
Defined.

(** ** C8: the binary operators *)

(** C8 (the code at the failing input).  When the two operands share their
    Graph object, [unify] returns at once and [_operator] updates, in place,
    the data that the shallow copy shares with self: after [add] the "time"
    column of self has changed from 1, 1, 2, 3 to 2, 2, 4, 6. *)
Theorem C8_add_on_shared_graph_changes_self :
  match add scenario_store scenario_gf (copy scenario_gf) with
  | Raise _ => False
  | Ok (st', _) =>
    column scenario_store (dataframe scenario_gf) "time"
    = Ok [Num 1; Num 1; Num 2; Num 3]
    ∧ column st' (dataframe scenario_gf) "time"
      = Ok [Num 2; Num 2; Num 4; Num 6]
  end.
Proof. vm_compute. split; reflexivity. Qed.

(** ** Tables: lookups in the columns *)

Lemma mapM_Forall2 {A B} (f : A → result B) (l : list A) (ys : list B) :
  mapM f l = Ok ys ↔ Forall2 (λ x y, f x = Ok y) l ys.
Proof.
  revert ys. induction l as [|x l IH]; intros ys; simpl.
  - split; intros H; [inversion H; constructor|inversion H; reflexivity].
  - split.
    + intros H. apply bind_Ok in H as (y & Hy & H).
      apply bind_Ok in H as (ys' & Hys & E). inversion E; subst.
      constructor; [exact Hy|by apply IH].
    + intros H. inversion H as [|? y ? ys' Hy Hys]; subst.
      apply bind_Ok. exists y. split; [exact Hy|].
      apply bind_Ok. exists ys'. split; [by apply IH|reflexivity].
Qed.

Lemma mapM_length {A B} (f : A → result B) (l : list A) (ys : list B) :
  mapM f l = Ok ys → length ys = length l.
Proof. intros H%mapM_Forall2. symmetry. eapply Forall2_length, H. Qed.

Lemma assoc_mapM_named {A B} (g : string → A → result B)
    (cols : list (string * A)) (cols' : list (string * B)) (c : string) :
  mapM (λ '(c, vs), v ← g c vs; Ok (c, v)) cols = Ok cols' →
  match assoc c cols with
  | Some vs => ∃ vs', assoc c cols' = Some vs' ∧ g c vs = Ok vs'
  | None => assoc c cols' = None
  end.
Proof.
  revert cols'. induction cols as [|[c0 vs0] cols IH]; intros cols'; simpl.
  - intros H. inversion H. reflexivity.
  - intros H. apply bind_Ok in H as ([c1 v1] & H1 & H).
    apply bind_Ok in H1 as (v & Hv & E). inversion E; subst c1 v1.
    apply bind_Ok in H as (rest & Hrest & E'). inversion E'; subst cols'.
    simpl. destruct (decide (c = c0)) as [->|Hne].
    + exists v. split; [reflexivity|exact Hv].
    + apply IH. exact Hrest.
Qed.

Lemma assoc_fmap_named {A B} (f : A → B) (cols : list (string * A)) (c : string) :
  assoc c ((λ '(c, vs), (c, f vs)) <$> cols) = f <$> assoc c cols.
Proof.
  induction cols as [|[c0 vs0] cols IH]; simpl; [reflexivity|].
  destruct (decide (c = c0)); [reflexivity|exact IH].
Qed.

Lemma column_df_cols (st : Store) (df : DataFrame) (cols : Columns) (c : string) :
  df_cols st df = Ok cols → column st df c = getitem (assoc c cols).
Proof.
  unfold df_cols, column. revert cols.
  induction (columns df) as [|[c0 b0] l IH]; intros cols; simpl.
  - intros H. inversion H. reflexivity.
  - intros H. apply bind_Ok in H as ([c1 v1] & H1 & H).
    apply bind_Ok in H1 as (v & Hv & E). inversion E; subst c1 v1.
    apply bind_Ok in H as (rest & Hrest & E'). inversion E'; subst cols.
    simpl. destruct (decide (c = c0)) as [->|Hne].
    + simpl. exact Hv.
    + apply IH. exact Hrest.
Qed.

Lemma assoc_alloc (pre : list (list cell)) (cols : Columns) (c : string)
    (base : nat) :
  base = length pre →
  match assoc c (imap (λ i p, (fst p, base + i)) cols) with
  | Some b => (pre ++ (snd <$> cols)) !! b = assoc c cols
  | None => assoc c cols = None
  end.
Proof.
  revert pre base. induction cols as [|[c0 vs0] cols IH]; intros pre base Hb;
    simpl; [reflexivity|].
  destruct (decide (c = c0)) as [->|Hne].
  - rewrite Nat.add_0_r, Hb. rewrite lookup_app_r by lia.
    by rewrite Nat.sub_diag.
  - specialize (IH (pre ++ [vs0]) (S base)).
    rewrite length_app in IH. simpl in IH.
    specialize (IH ltac:(lia)).
    rewrite <- app_assoc in IH. simpl in IH.
    erewrite imap_ext; [exact IH|].
    intros i [c1 v1] _. simpl. f_equal. lia.
Qed.

Lemma column_df_new (st st' : Store) (idx : list string) (ks : list Key)
    (cols : Columns) (df' : DataFrame) (c : string) :
  df_new st idx ks cols = (st', df') →
  column st' df' c = getitem (assoc c cols)
  ∧ keys df' = ks ∧ index_names df' = idx.
Proof.
  unfold df_new, alloc_columns. intros H. inversion H; subst st' df'. simpl.
  split; [|done]. unfold column. simpl.
  pose proof (assoc_alloc (buffers st) cols c (length (buffers st)) eq_refl) as Ha.
  destruct (assoc c _) as [b|]; simpl.
  - f_equal. exact Ha.
  - rewrite Ha. reflexivity.
Qed.

(** ** Selections and sorting *)

Lemma select_lookup {A} (ps : list nat) (vs : list A) (j : nat) :
  (∀ i, i ∈ ps → i < length vs) →
  select ps vs !! j = ps !! j ≫= (vs !!.).
Proof.
  unfold select. revert j. induction ps as [|p ps IH]; intros j Hr; simpl.
  - reflexivity.
  - destruct (lookup_lt_is_Some_2 vs p (Hr p ltac:(left))) as [v Hv].
    rewrite Hv. destruct j as [|j]; simpl.
    + by rewrite Hv.
    + apply IH. intros i Hi. apply Hr. by right.
Qed.

Lemma select_all {A} (vs : list A) : select (seq 0 (length vs)) vs = vs.
Proof.
  apply list_eq. intros j. rewrite select_lookup.
  - destruct (decide (j < length vs)) as [Hj|Hj].
    + rewrite lookup_seq_lt by exact Hj. reflexivity.
    + rewrite lookup_seq_ge by lia. simpl.
      symmetry. apply lookup_ge_None. lia.
  - intros i Hi%elem_of_seq. lia.
Qed.

Lemma insert_sorted_perm {A} (le : A → A → bool) (x : A) (l : list A) :
  insert_sorted le x l ≡ₚ x :: l.
Proof.
  induction l as [|y l IH]; simpl; [reflexivity|].
  destruct (le x y); [reflexivity|].
  rewrite IH. apply Permutation_swap.
Qed.

Lemma sort_by_perm {A} (le : A → A → bool) (l : list A) : sort_by le l ≡ₚ l.
Proof.
  unfold sort_by. induction l as [|x l IH]; simpl; [reflexivity|].
  rewrite insert_sorted_perm. by rewrite IH.
Qed.

Lemma sort_order_perm (h : list Node) (ks : list Key) :
  sort_order h ks ≡ₚ seq 0 (length ks).
Proof.
  unfold sort_order. rewrite sort_by_perm.
  rewrite snd_zip; [reflexivity|]. rewrite length_seq. lia.
Qed.

Lemma select_perm {A} (ps qs : list nat) (vs : list A) :
  ps ≡ₚ qs → select ps vs ≡ₚ select qs vs.
Proof. intros H. unfold select. by apply omap_Permutation. Qed.

(** ** Sets as duplicate-free lists *)

Lemma elem_of_unique {A} `{EqDecision A} (x : A) (l : list A) :
  x ∈ unique l ↔ x ∈ l.
Proof.
  unfold unique. by rewrite elem_of_reverse, elem_of_remove_dups, elem_of_reverse.
Qed.

Lemma NoDup_unique {A} `{EqDecision A} (l : list A) : NoDup (unique l).
Proof.
  unfold unique. rewrite reverse_Permutation. apply NoDup_remove_dups.
Qed.

(** ** The sum that keeps "no data" apart from zero *)

Lemma nansum_all_nan (l : list cell) : Forall (λ c, c = NaN) l → nansum l = Ok NaN.
Proof.
  intros H. unfold nansum.
  replace (filter (λ c, is_nan c = false) l) with (@nil cell); [reflexivity|].
  symmetry. induction H as [|x l -> _ IH]; [reflexivity|].
  rewrite filter_cons_False by (simpl; congruence). exact IH.
Qed.

(** ** The aggregation of squash: groups and relabelling *)

Lemma groupby_agg_spec (ks : list Key) (cols : Columns)
    (agg : string → list cell → result cell) (gks : list Key) (gcols : Columns) :
  groupby_agg ks cols agg = Ok (gks, gcols) →
  gks = unique ks
  ∧ ∀ c vs, assoc c cols = Some vs →
      ∃ vals, assoc c gcols = Some vals
        ∧ Forall2 (λ k v, agg c (select (group_of k ks) vs) = Ok v) gks vals.
Proof.
  unfold groupby_agg. intros H. apply bind_Ok in H as (cols' & Hm & E).
  inversion E; subst gks gcols. split; [reflexivity|].
  intros c vs Hc.
  pose proof (assoc_mapM_named
    (λ c vs, mapM (λ k, agg c (select (positions (λ k', bool_decide (k' = k)) ks) vs))
                  (unique ks)) cols cols' c Hm) as Ha.
  rewrite Hc in Ha. destruct Ha as (vals & Ha & Hv).
  exists vals. split; [exact Ha|]. by apply mapM_Forall2 in Hv.
Qed.

Lemma remap_by_clones (otn : gmap ref ref) (ks ks1 : list Key) :
  mapM (λ k, c ← getitem (otn !! node k); Ok (mkKey c (dims k))) ks = Ok ks1 →
  ks1 = remap_keys (λ n, default n (otn !! n)) ks.
Proof.
  revert ks1. induction ks as [|k ks IH]; intros ks1 H; simpl in H.
  - inversion H. reflexivity.
  - apply bind_Ok in H as (k1 & Hk & H).
    apply bind_Ok in H as (rest & Hrest & E). inversion E; subst ks1.
    apply bind_Ok in Hk as (c & Hc & E'). inversion E'; subst k1.
    apply getitem_Ok in Hc. unfold remap_keys. simpl. rewrite Hc. simpl.
    f_equal. by apply IH.
Qed.

Lemma remap_keys_compose (f g : ref → ref) (ks : list Key) :
  remap_keys f (remap_keys g ks) = remap_keys (λ n, f (g n)) ks.
Proof. unfold remap_keys. rewrite <- list_fmap_compose. reflexivity. Qed.

(** ** C6: the rows inserted by unify *)

Lemma lookup_insert_const {A} (l : list A) (i : nat) (x : A) :
  <[i := x]> l !! i = (λ _, x) <$> l !! i.
Proof.
  destruct (decide (i < length l)) as [Hi|Hi].
  - rewrite list_lookup_insert_eq by done.
    destruct (lookup_lt_is_Some_2 l i Hi) as [y ->]. reflexivity.
  - rewrite list_insert_ge by lia. rewrite (lookup_ge_None_2 l i) by lia.
    reflexivity.
Qed.

Lemma fast_not_isin_fold (H2 : list nat) (arr : list (nat * nat))
    (mask : list bool) (i : nat) :
  fold_left (λ mask '(hsh, ndx),
               if bool_decide (hsh ∈ H2) then <[ndx := false]> mask else mask)
            arr mask !! i
  = if bool_decide (Exists (λ p, snd p = i ∧ fst p ∈ H2) arr)
    then (λ _, false) <$> mask !! i else mask !! i.
Proof.
  revert mask. induction arr as [|[hsh ndx] arr IH]; intros mask;
    cbn [fold_left].
  - rewrite bool_decide_eq_false_2; [reflexivity|]. by intros H%Exists_nil.
  - rewrite IH. clear IH.
    destruct (decide (ndx = i ∧ hsh ∈ H2)) as [[-> Hh]|Hno].
    + rewrite (bool_decide_eq_true_2 (hsh ∈ H2)) by done.
      rewrite (bool_decide_eq_true_2 (Exists _ (_ :: _)))
        by (apply Exists_cons; left; done).
      rewrite lookup_insert_const.
      destruct (bool_decide _); [|reflexivity].
      by destruct (mask !! i).
    + assert (E : (if bool_decide (hsh ∈ H2) then <[ndx := false]> mask else mask)
                  !! i = mask !! i).
      { case_bool_decide; [|reflexivity].
        apply list_lookup_insert_ne. intros ->. by apply Hno. }
      rewrite E.
      assert (E2 : bool_decide (Exists (λ p, snd p = i ∧ fst p ∈ H2) ((hsh, ndx) :: arr))
                   = bool_decide (Exists (λ p, snd p = i ∧ fst p ∈ H2) arr)).
      { apply bool_decide_ext. rewrite Exists_cons. simpl. tauto. }
      rewrite E2. reflexivity.
Qed.

Lemma fast_not_isin_length_fold (H2 : list nat) (arr : list (nat * nat))
    (mask : list bool) :
  length (fold_left (λ mask '(hsh, ndx),
               if bool_decide (hsh ∈ H2) then <[ndx := false]> mask else mask)
            arr mask) = length mask.
Proof.
  revert mask. induction arr as [|[hsh ndx] arr IH]; intros mask; simpl;
    [reflexivity|].
  rewrite IH. case_bool_decide; [apply length_insert|reflexivity].
Qed.

Lemma elem_of_zip_seq {A} (l : list A) (x : A) (i : nat) :
  (x, i) ∈ zip l (seq 0 (length l)) ↔ l !! i = Some x.
Proof.
  rewrite list_elem_of_lookup. split.
  - intros (j & Hj). apply lookup_zip_with_Some in Hj as (x' & i' & E & Hx & Hi).
    inversion E; subst. apply lookup_seq in Hi as [-> _]. exact Hx.
  - intros Hx. exists i. apply lookup_zip_with_Some. exists x, i.
    split; [reflexivity|]. split; [exact Hx|].
    apply lookup_seq. split; [reflexivity|]. by apply lookup_lt_Some in Hx.
Qed.

(** The rows [fast_not_isin] keeps: those of the first table whose node has
    no row in the second. *)
Lemma not_isin_positions (ks1 ks2 : list Key) (i : nat) :
  let arr1 := sort_by_hash (zip (node_hash ∘ node <$> ks1) (seq 0 (length ks1))) in
  let arr2 := sort_by_hash (zip (node_hash ∘ node <$> ks2) (seq 0 (length ks2))) in
  i ∈ mask_positions (fast_not_isin arr1 arr2 (length arr1) (length arr2))
  ↔ ∃ k, ks1 !! i = Some k ∧ ∀ k0, k0 ∈ ks2 → node k0 ≠ node k.
Proof.
  intros arr1 arr2.
  assert (Hl1 : length arr1 = length ks1).
  { unfold arr1, sort_by_hash. rewrite sort_by_perm.
    rewrite length_zip_with, length_fmap, length_seq. lia. }
  assert (Hin1 : ∀ hsh j, (hsh, j) ∈ arr1 ↔ ∃ k, ks1 !! j = Some k ∧ hsh = node k).
  { intros hsh j. unfold arr1, sort_by_hash. rewrite sort_by_perm.
    rewrite <- (length_fmap (node_hash ∘ node) ks1) at 1.
    rewrite elem_of_zip_seq, list_lookup_fmap.
    destruct (ks1 !! j) as [k|]; simpl.
    - split; [intros E; inversion E; eauto|].
      intros (k' & E & ->). by inversion E.
    - split; [discriminate|]. intros (k' & E & _). discriminate. }
  assert (Hin2 : ∀ hsh, hsh ∈ (fst <$> take (length arr2) arr2)
                        ↔ ∃ k0, k0 ∈ ks2 ∧ hsh = node k0).
  { intros hsh. rewrite firstn_all. unfold arr2, sort_by_hash.
    rewrite sort_by_perm. rewrite fst_zip.
    - rewrite list_elem_of_fmap. unfold node_hash. simpl.
      split; intros (k0 & H1 & H2); exists k0; done.
    - rewrite length_fmap, length_seq. lia. }
  unfold mask_positions, fast_not_isin. rewrite !firstn_all.
  rewrite firstn_all in Hin2.
  rewrite elem_of_filter_bool, elem_of_seq, fast_not_isin_length_fold,
    length_replicate, fast_not_isin_fold.
  rewrite Hl1. split.
  - intros [[_ Hi] Hm]. simpl in Hi.
    destruct (lookup_lt_is_Some_2 ks1 i Hi) as [k Hk].
    exists k. split; [exact Hk|]. intros k0 Hk0 Heq.
    rewrite bool_decide_eq_true_2 in Hm.
    + rewrite lookup_replicate_2 in Hm by lia. discriminate.
    + apply Exists_exists. exists (node k, i). simpl.
      split; [apply Hin1; eauto|]. split; [reflexivity|]. apply Hin2. eauto.
  - intros (k & Hk & Hno). pose proof (lookup_lt_Some _ _ _ Hk) as Hi.
    split; [lia|].
    rewrite bool_decide_eq_false_2.
    + rewrite lookup_replicate_2 by lia. reflexivity.
    + intros ([hsh i'] & H1 & Hi' & H2)%Exists_exists. simpl in Hi', H2.
      subst i'. apply Hin1 in H1 as (k' & Hk' & ->).
      rewrite Hk in Hk'. inversion Hk'; subst k'.
      apply Hin2 in H2 as (k0 & Hk0 & Heq). by apply (Hno k0).
Qed.

Lemma assoc_set_eq {A} (c : string) (v : A) (l : list (string * A)) :
  assoc c (assoc_set c v l) = Some v.
Proof.
  induction l as [|[c0 v0] l IH]; simpl.
  - by rewrite decide_True.
  - destruct (decide (c = c0)); simpl.
    + by rewrite decide_True.
    + by rewrite decide_False.
Qed.

Lemma assoc_set_ne {A} (c c' : string) (v : A) (l : list (string * A)) :
  c ≠ c' → assoc c (assoc_set c' v l) = assoc c l.
Proof.
  intros Hne. induction l as [|[c0 v0] l IH]; simpl.
  - by rewrite decide_False.
  - destruct (decide (c' = c0)) as [->|Hne']; simpl.
    + by rewrite !decide_False.
    + destruct (decide (c = c0)); [reflexivity|exact IH].
Qed.

Lemma assoc_is_Some {A} (c : string) (l : list (string * A)) :
  is_Some (assoc c l) ↔ c ∈ fst <$> l.
Proof.
  induction l as [|[c0 v0] l IH]; simpl.
  - split; [by intros [? ?]|by intros ?%elem_of_nil].
  - rewrite elem_of_cons. destruct (decide (c = c0)) as [->|Hne].
    + split; eauto.
    + rewrite IH. simpl. tauto.
Qed.

Lemma assoc_fold_set {A} (c : string) (x : A) (names : list string)
    (l : list (string * A)) :
  assoc c (fold_left (λ cols j, assoc_set j x cols) names l)
  = if bool_decide (c ∈ names) then Some x else assoc c l.
Proof.
  revert l. induction names as [|n names IH]; intros l; simpl.
  - reflexivity.
  - rewrite IH. destruct (decide (c = n)) as [->|Hne].
    + rewrite assoc_set_eq.
      rewrite (bool_decide_eq_true_2 (n ∈ n :: names)) by left.
      by destruct (bool_decide _).
    + rewrite assoc_set_ne by done.
      assert (E : bool_decide (c ∈ n :: names) = bool_decide (c ∈ names)).
      { apply bool_decide_ext. rewrite elem_of_cons. tauto. }
      by rewrite E.
Qed.

Lemma elem_of_insert_string (x y : string) (l : list string) :
  x ∈ insert_string y l ↔ x = y ∨ x ∈ l.
Proof.
  induction l as [|z l IH]; simpl.
  - rewrite elem_of_cons. reflexivity.
  - destruct (String.leb y z).
    + rewrite elem_of_cons. reflexivity.
    + rewrite !elem_of_cons, IH. tauto.
Qed.

Lemma elem_of_sorted_names (x : string) (l : list string) :
  x ∈ foldr insert_string [] l ↔ x ∈ l.
Proof.
  induction l as [|y l IH]; simpl; [reflexivity|].
  rewrite elem_of_insert_string, IH, elem_of_cons. reflexivity.
Qed.

Lemma assoc_keyed {A} (f : string → A) (names : list string) (c : string) :
  c ∈ names → assoc c ((λ c, (c, f c)) <$> names) = Some (f c).
Proof.
  induction names as [|n names IH]; simpl.
  - by intros ?%elem_of_nil.
  - intros H. destruct (decide (c = n)) as [->|Hne]; [reflexivity|].
    apply IH. apply elem_of_cons in H as [?|?]; [contradiction|done].
Qed.

Lemma df_cols_lengths (st : Store) (df : DataFrame) (cols : Columns) :
  wf_frame st df → df_cols st df = Ok cols →
  ∀ c vs, assoc c cols = Some vs → length vs = length (keys df).
Proof.
  unfold wf_frame, df_cols. revert cols.
  induction (columns df) as [|[c0 b0] l IH]; intros cols Hwf H c vs Hc;
    simpl in H.
  - inversion H; subst. discriminate.
  - apply bind_Ok in H as ([c1 v1] & H1 & H).
    apply bind_Ok in H1 as (v & Hv%getitem_Ok & E). inversion E; subst c1 v1.
    apply bind_Ok in H as (rest & Hrest & E'). inversion E'; subst cols.
    inversion Hwf as [|? ? (vs0 & Hb & Hlen) Hwf']; subst. simpl in Hb, Hc.
    destruct (decide (c = c0)) as [->|Hne].
    + inversion Hc; subst. congruence.
    + eapply IH; eauto.
Qed.

Lemma length_insert_one (n : nat) (a : list cell) (ps : list nat) :
  length (insert_one_for_self_nodes n a ps) = length a.
Proof.
  unfold insert_one_for_self_nodes. generalize (take n ps). intros l.
  revert a. induction l as [|p l IH]; intros a; simpl; [reflexivity|].
  rewrite IH. apply length_alter.
Qed.

(** What [_insert_missing_rows] appends: a row for every row of other whose
    node has no row in self, NaN in every metric of the union, and 2 in the
    indicator column. *)
Lemma insert_missing_rows_spec (st st' : Store) (self self' other : GraphFrame) :
  wf_frame st (dataframe self) →
  _insert_missing_rows st self other = Ok (st', self') →
  let sks := keys (dataframe self) in
  take (length sks) (keys (dataframe self')) = sks
  ∧ (∀ k, k ∈ keys (dataframe self') → k ∈ sks ∨ k ∈ keys (dataframe other))
  ∧ ∀ k, k ∈ keys (dataframe other) → (∀ k0, k0 ∈ sks → node k0 ≠ node k) →
      ∃ j, keys (dataframe self') !! j = Some k
        ∧ length sks ≤ j
        ∧ (∀ m, m ∈ all_metrics self other →
             ∃ vs, column st' (dataframe self') m = Ok vs ∧ vs !! j = Some NaN)
        ∧ ("_missing_node" ∉ all_metrics self other →
             ∃ vs, column st' (dataframe self') "_missing_node" = Ok vs
                   ∧ vs !! j = Some (Num 2)).
Proof.
  intros Hwf H sks. unfold _insert_missing_rows in H.
  fold sks in H.
  set (oks := keys (dataframe other)) in *.
  set (onis := mask_positions
                 (fast_not_isin
                    (sort_by_hash (zip (node_hash ∘ node <$> oks) _)) _ _ _)) in H.
  set (snio := mask_positions
                 (fast_not_isin
                    (sort_by_hash (zip (node_hash ∘ node <$> sks) _)) _ _ _)) in H.
  apply bind_Ok in H as (self_cols & Hsc & H).
  apply bind_Ok in H as (other_cols & Hoc & H).
  set (zeros := replicate (length sks) (Num 0)) in *.
  set (self_cols1 := if bool_decide (snio ≠ []) then _ else _) in H.
  destruct (if bool_decide (onis ≠ []) then _ else _)
    as [self_cols2 onis1] eqn:Hpair.
  apply bind_Ok in H as (self_cols3 & Hsc3 & H).
  set (onis2 := fold_left _ (all_metrics self other) onis1) in H.
  destruct (df_new _ _ _ _) as [st2 df'] eqn:Hnew.
  inversion H; subst st' self'. clear H. simpl.
  pose proof (λ c, column_df_new _ _ _ _ _ _ c Hnew) as Hcolnew.
  destruct (Hcolnew "") as (_ & Hkeys & _). rewrite Hkeys.
  assert (Honis : ∀ i, i ∈ onis ↔
            ∃ k, oks !! i = Some k ∧ ∀ k0, k0 ∈ sks → node k0 ≠ node k)
    by (intros i; apply not_isin_positions).
  assert (Hrange : ∀ i, i ∈ onis → i < length oks).
  { intros i (k & Hk & _)%Honis. by apply lookup_lt_Some in Hk. }
  split; [by rewrite take_app_length|].
  split.
  { intros k [Hk|Hk]%elem_of_app; [by left|right].
    unfold select in Hk. apply list_elem_of_omap in Hk as (i & _ & Hi).
    eapply list_elem_of_lookup_2. exact Hi. }
  intros k Hk Hno.
  apply list_elem_of_lookup in Hk as (i & Hi).
  assert (Hin : i ∈ onis) by (apply Honis; eauto).
  apply list_elem_of_lookup in Hin as (t & Ht).
  pose proof (lookup_lt_Some _ _ _ Ht) as Htlen.
  exists (length sks + t).
  split.
  { rewrite lookup_app_r by lia.
    replace (length sks + t - length sks) with t by lia.
    rewrite select_lookup by exact Hrange. rewrite Ht. exact Hi. }
  split; [lia|].
  (* every column of self, as it is concatenated, has one value per row *)
  assert (Hlen3 : ∀ c vs, assoc c self_cols3 = Some vs → length vs = length sks).
  { assert (Hlen0 : ∀ c vs, assoc c self_cols = Some vs → length vs = length sks)
      by (intros c vs; eapply df_cols_lengths; eauto).
    assert (Hset : ∀ (cols : Columns) x,
              (∀ c vs, assoc c cols = Some vs → length vs = length sks) →
              length x = length sks →
              ∀ c vs, assoc c (cols_set "_missing_node" x cols) = Some vs →
                      length vs = length sks).
    { intros cols x Hc Hx c vs. unfold cols_set.
      destruct (decide (c = "_missing_node")) as [->|Hne].
      - rewrite assoc_set_eq. intros E; inversion E; by subst.
      - rewrite assoc_set_ne by done. apply Hc. }
    assert (Hz : length zeros = length sks) by apply length_replicate.
    assert (Hlen1 : ∀ c vs, assoc c self_cols1 = Some vs → length vs = length sks).
    { unfold self_cols1. destruct (bool_decide (snio ≠ [])); eauto. }
    assert (Hlen2 : ∀ c vs, assoc c self_cols2 = Some vs → length vs = length sks).
    { destruct (bool_decide (onis ≠ [])); inversion Hpair; subst; [|done].
      destruct (bool_decide (snio = [])); eauto. }
    destruct (bool_decide (length snio ≠ 0)).
    - apply bind_Ok in Hsc3 as (smn & Hsmn%getitem_Ok & E). inversion E; subst.
      apply Hset; [done|]. rewrite length_insert_one. eauto.
    - inversion Hsc3; by subst. }
  assert (Hpart : ∀ c, length (default (replicate (length sks) NaN)
                                       (assoc c self_cols3)) = length sks).
  { intros c. destruct (assoc c self_cols3) eqn:E; simpl;
      [eauto|apply length_replicate]. }
  assert (Hne : onis ≠ []) by (intros E; rewrite E in Ht; discriminate).
  assert (Honis1 : assoc "_missing_node" onis1
                   = Some (replicate (length onis) (Num 2))).
  { rewrite bool_decide_eq_true_2 in Hpair by done.
    inversion Hpair; subst. apply assoc_set_eq. }
  assert (Hcol : ∀ c x, assoc c onis2 = Some x →
            ∃ vs, column st2 df' c = Ok vs ∧ vs !! (length sks + t) = x !! t).
  { intros c x Hx. destruct (Hcolnew c) as (-> & _ & _).
    unfold concat_sorted. rewrite assoc_keyed.
    - eexists. split; [reflexivity|]. rewrite Hx. simpl.
      rewrite lookup_app_r by (rewrite Hpart; lia).
      rewrite Hpart. f_equal. lia.
    - apply elem_of_sorted_names, elem_of_unique, elem_of_app. right.
      apply assoc_is_Some. eauto. }
  assert (E2 : onis2 = fold_left (λ cols j, assoc_set j (replicate (length onis) NaN) cols)
                                  (all_metrics self other) onis1) by reflexivity.
  split.
  - intros m Hm.
    destruct (Hcol m (replicate (length onis) NaN)) as (vs & Hvs & Hj).
    { rewrite E2, assoc_fold_set.
      by rewrite bool_decide_eq_true_2. }
    exists vs. split; [exact Hvs|]. rewrite Hj.
    by apply lookup_replicate_2.
  - intros Hm.
    destruct (Hcol "_missing_node" (replicate (length onis) (Num 2)))
      as (vs & Hvs & Hj).
    { rewrite E2, assoc_fold_set.
      by rewrite bool_decide_eq_false_2. }
    exists vs. split; [exact Hvs|]. rewrite Hj.
    by apply lookup_replicate_2.
Qed.

(** ** Arena updates *)

Lemma children_of_add_child (h : list Node) (p c x : ref) :
  children_of (add_child h p c) x
  = if bool_decide (x = p ∧ p < length h) then children_of h x ++ [c]
    else children_of h x.
Proof.
  unfold children_of, add_child.
  destruct (decide (x = p)) as [->|Hne].
  - rewrite list_lookup_alter_eq.
    destruct (h !! p) as [nd|] eqn:E; simpl.
    + rewrite bool_decide_eq_true_2; [reflexivity|].
      split; [done|]. by apply lookup_lt_Some in E.
    + rewrite bool_decide_eq_false_2; [reflexivity|].
      intros [_ Hlt]. apply lookup_ge_None in E. lia.
  - rewrite list_lookup_alter_ne by done.
    rewrite bool_decide_eq_false_2; [reflexivity|]. tauto.
Qed.

Lemma children_of_add_parent (h : list Node) (c p x : ref) :
  children_of (add_parent h c p) x = children_of h x.
Proof.
  unfold children_of, add_parent.
  destruct (decide (x = c)) as [->|Hne].
  - rewrite list_lookup_alter_eq. by destruct (h !! c).
  - by rewrite list_lookup_alter_ne.
Qed.

Lemma children_of_set_nid (h : list Node) (n : ref) (i : Z) (x : ref) :
  children_of (set_nid h n i) x = children_of h x.
Proof.
  unfold children_of, set_nid.
  destruct (decide (x = n)) as [->|Hne].
  - rewrite list_lookup_alter_eq. by destruct (h !! n).
  - by rewrite list_lookup_alter_ne.
Qed.

Lemma children_of_app_l (h : list Node) (nd : Node) (x : ref) :
  x < length h → children_of (h ++ [nd]) x = children_of h x.
Proof. intros Hx. unfold children_of. by rewrite lookup_app_l. Qed.

Lemma children_of_ge (h : list Node) (x : ref) :
  length h ≤ x → children_of h x = [].
Proof. intros Hx. unfold children_of. by rewrite lookup_ge_None_2. Qed.

Lemma length_add_child (h : list Node) (p c : ref) :
  length (add_child h p c) = length h.
Proof. apply length_alter. Qed.

Lemma length_add_parent (h : list Node) (c p : ref) :
  length (add_parent h c p) = length h.
Proof. apply length_alter. Qed.

Lemma length_set_nid (h : list Node) (n : ref) (i : Z) :
  length (set_nid h n i) = length h.
Proof. apply length_alter. Qed.

Lemma enumerate_children (h h' : list Node) (g : Graph) :
  enumerate_traverse h g = Ok h' →
  length h' = length h ∧ ∀ x, children_of h' x = children_of h x.
Proof.
  unfold enumerate_traverse. intros H.
  apply bind_Ok in H as (ns & _ & E). inversion E; subst h'. clear E.
  generalize 0%Z. revert h.
  induction ns as [|n ns IH]; intros h i; simpl; [done|].
  destruct (IH (set_nid h n i) (i + 1)%Z) as [Hl Hc].
  split.
  - rewrite Hl. apply length_set_nid.
  - intros x. rewrite Hc. apply children_of_set_nid.
Qed.

Lemma rtc_edge_mono (h h' : list Node) (a b : ref) :
  (∀ x y, edge h x y → edge h' x y) → rtc (edge h) a b → rtc (edge h') a b.
Proof.
  intros Hm H. induction H as [|x y z Hxy _ IH]; [constructor|].
  econstructor; [apply Hm, Hxy|exact IH].
Qed.

Lemma reach_mono (h h' : list Node) (rs rs' : list ref) (n : ref) :
  (∀ x y, edge h x y → edge h' x y) → (∀ r, r ∈ rs → r ∈ rs') →
  reach h rs n → reach h' rs' n.
Proof.
  intros Hm Hr (r & Hin & Hp). exists r. split; [by apply Hr|].
  by eapply rtc_edge_mono.
Qed.

(** ** The union of two graphs *)

Lemma link_node_map parent s new : node_map (link parent s new) = node_map s.
Proof.
  unfold link. destruct parent as [p|]; case_bool_decide; reflexivity.
Qed.

Lemma link_length parent s new :
  length (us_nodes (link parent s new)) = length (us_nodes s).
Proof.
  unfold link. destruct parent as [p|]; case_bool_decide; simpl; try reflexivity.
  by rewrite length_add_parent, length_add_child.
Qed.

Lemma link_children parent s new x :
  children_of (us_nodes (link parent s new)) x
  = if bool_decide (parent = Some x ∧ x < length (us_nodes s)
                    ∧ new ∉ children_of (us_nodes s) x)
    then children_of (us_nodes s) x ++ [new]
    else children_of (us_nodes s) x.
Proof.
  unfold link. destruct parent as [p|].
  - case_bool_decide as Hin; simpl.
    + rewrite bool_decide_eq_false_2; [reflexivity|].
      intros (E & _ & Hn). inversion E; subst. contradiction.
    + rewrite children_of_add_parent, children_of_add_child.
      apply (f_equal (λ b : bool, if b then _ else _)).
      apply bool_decide_ext. split.
      * intros [-> Hlt]. done.
      * intros (E & Hlt & _). inversion E. done.
  - rewrite (bool_decide_eq_false_2 (None = Some x ∧ _))
      by (intros (E & _); discriminate).
    case_bool_decide; reflexivity.
Qed.

Lemma link_roots parent s new r :
  r ∈ us_roots (link parent s new)
  ↔ r ∈ us_roots s ∨ (parent = None ∧ r = new).
Proof.
  unfold link. destruct parent as [p|].
  - case_bool_decide; simpl; split; auto; intros [?|[? _]]; done.
  - case_bool_decide as Hin; simpl.
    + split; auto. intros [?|[_ ->]]; done.
    + rewrite elem_of_app, list_elem_of_singleton. split.
      * intros [?| ->]; auto.
      * intros [?|[_ ->]]; auto.
Qed.

Lemma link_edge_mono parent s new a b :
  edge (us_nodes s) a b → edge (us_nodes (link parent s new)) a b.
Proof.
  unfold edge. rewrite link_children. case_bool_decide; [|done].
  intros Hin. apply elem_of_app. by left.
Qed.

Lemma link_le parent s new : us_le s (link parent s new).
Proof.
  split; [by rewrite link_node_map|].
  split; [intros a b; apply link_edge_mono|].
  split; [intros r Hr; apply link_roots; by left|].
  by rewrite link_length.
Qed.

Lemma link_inv_gen parent s new :
  (∀ n v, node_map s !! n = Some v →
     v < length (us_nodes s)
     ∧ (v ≠ new → reach (us_nodes s) (us_roots s) v)
     ∧ ∀ c, c ∈ children_of (us_nodes s) v → ∃ n', node_map s !! n' = Some c) →
  (∀ r, r ∈ us_roots s → ∃ n', node_map s !! n' = Some r) →
  (∃ n', node_map s !! n' = Some new) →
  (∀ p, parent = Some p →
     (∃ n', node_map s !! n' = Some p) ∧ reach (us_nodes s) (us_roots s) p) →
  us_inv (link parent s new).
Proof.
  intros H1 H2 H3 H4.
  assert (Hmono : ∀ v, reach (us_nodes s) (us_roots s) v →
            reach (us_nodes (link parent s new)) (us_roots (link parent s new)) v).
  { intros v. apply reach_mono; [apply link_edge_mono|].
    intros r Hr. apply link_roots. by left. }
  assert (Hnew : reach (us_nodes (link parent s new))
                       (us_roots (link parent s new)) new).
  { destruct parent as [p|].
    - destruct (H4 p eq_refl) as [[n' Hp] Hreach].
      destruct (Hmono _ Hreach) as (r & Hr & Hpath).
      exists r. split; [exact Hr|].
      eapply rtc_r; [exact Hpath|].
      unfold edge. rewrite link_children.
      destruct (H1 _ _ Hp) as (Hlt & _ & _).
      case_bool_decide as Hc.
      + apply elem_of_app. right. by apply list_elem_of_singleton.
      + destruct (decide (new ∈ children_of (us_nodes s) p)); [done|].
        exfalso. apply Hc. done.
    - exists new. split; [|constructor]. apply link_roots. by right. }
  split.
  - intros n v Hv. rewrite link_node_map in Hv.
    destruct (H1 _ _ Hv) as (Hlt & Hreach & Hch).
    split; [by rewrite link_length|]. split.
    + destruct (decide (v = new)) as [->|Hne]; [exact Hnew|]. auto.
    + intros c. rewrite link_children, link_node_map.
      case_bool_decide; [|apply Hch].
      intros [Hc| ->%list_elem_of_singleton]%elem_of_app; [by apply Hch|done].
  - intros r [Hr|[_ ->]]%link_roots; rewrite link_node_map; auto.
Qed.

Lemma us_le_trans s1 s2 s3 : us_le s1 s2 → us_le s2 s3 → us_le s1 s3.
Proof.
  intros (A1 & A2 & A3 & A4) (B1 & B2 & B3 & B4).
  split; [by etrans|]. split; [auto|]. split; [auto|lia].
Qed.

Lemma us_le_refl s : us_le s s.
Proof. split; [done|]. split; [auto|]. split; [auto|lia]. Qed.

Lemma edge_app_fresh (h : list Node) (nd : Node) (a b : ref) :
  edge h a b → edge (h ++ [nd]) a b.
Proof.
  unfold edge. intros H.
  destruct (decide (a < length h)).
  - by rewrite children_of_app_l.
  - rewrite children_of_ge in H by lia. by apply elem_of_nil in H.
Qed.

Lemma place_inv (fuel : nat) :
  ∀ parent s n s',
    place fuel parent s n = Ok s' →
    us_inv s →
    (∀ p, parent = Some p → ∃ n', node_map s !! n' = Some p) →
    us_inv s' ∧ us_le s s'.
Proof.
  induction fuel as [|fuel IH]; intros parent s n s' H Hinv Hpar;
    [discriminate|].
  assert (Hfold : ∀ k cs s0 s1,
            foldM (place fuel (Some k)) cs s0 = Ok s1 →
            us_inv s0 → (∃ n', node_map s0 !! n' = Some k) →
            us_inv s1 ∧ us_le s0 s1).
  { intros k cs. induction cs as [|c cs IHcs]; intros s0 s1 Hf Hi Hk;
      simpl in Hf.
    - inversion Hf; subst. split; [done|apply us_le_refl].
    - apply bind_Ok in Hf as (s2 & H2 & Hf).
      destruct (IH (Some k) s0 c s2 H2 Hi) as [Hi2 Hle2].
      { intros p E. inversion E; by subst. }
      destruct (IHcs s2 s1 Hf Hi2) as [Hi1 Hle1].
      { destruct Hk as [n' Hn']. exists n'.
        destruct Hle2 as (Hm & _). eapply lookup_weaken; eauto. }
      split; [done|]. by eapply us_le_trans. }
  simpl in H. destruct Hinv as [Hmap Hroots].
  assert (Hpar' : ∀ p, parent = Some p →
            (∃ n', node_map s !! n' = Some p)
            ∧ reach (us_nodes s) (us_roots s) p).
  { intros p Hp. destruct (Hpar p Hp) as [n' Hn']. split; [eauto|].
    by destruct (Hmap _ _ Hn') as (_ & ? & _). }
  destruct (node_map s !! n) as [new|] eqn:Hn.
  - inversion H; subst s'. split; [|apply link_le].
    apply link_inv_gen; eauto.
    intros n0 v Hv. destruct (Hmap _ _ Hv) as (? & ? & ?). auto.
  - set (siblings := match parent with
                     | Some p => children_of (us_nodes s) p
                     | None => us_roots s
                     end) in H.
    destruct (list_find _ siblings) as [[i k]|] eqn:Hfind.
    + apply list_find_Some in Hfind as (Hk%list_elem_of_lookup_2 & _ & _).
      assert (Hkmap : ∃ n', node_map s !! n' = Some k).
      { unfold siblings in Hk. destruct parent as [p|]; [|by apply Hroots].
        destruct (Hpar p eq_refl) as [n' Hn'].
        destruct (Hmap _ _ Hn') as (_ & _ & Hch). by apply Hch. }
      destruct Hkmap as [nk Hnk].
      pose (s0 := mkUS (us_nodes s) (<[n := k]> (node_map s)) (us_roots s)).
      assert (Hsub : node_map s ⊆ node_map s0) by (by apply insert_subseteq).
      assert (Hi0 : us_inv s0).
      { split.
        - intros n0 v Hv. simpl in Hv.
          assert (Hex : ∃ n1, node_map s !! n1 = Some v).
          { apply lookup_insert_Some in Hv as [[_ <-]|[_ Hv]]; eauto. }
          destruct Hex as [n1 Hn1].
          destruct (Hmap _ _ Hn1) as (Hlt & Hr & Hch).
          split; [done|]. split; [done|].
          intros c Hc. destruct (Hch c Hc) as [n' Hn']. exists n'.
          eapply lookup_weaken; eauto.
        - intros r Hr. destruct (Hroots r Hr) as [n' Hn']. exists n'.
          eapply lookup_weaken; eauto. }
      destruct (Hfold k _ s0 s' H Hi0) as [Hi' Hle'].
      { exists nk. eapply lookup_weaken; eauto. }
      split; [done|]. eapply us_le_trans; [|exact Hle'].
      split; [done|]. split; [auto|]. split; [auto|simpl; lia].
    + apply bind_Ok in H as ([c h'] & Hcopy & H).
      unfold node_copy in Hcopy.
      apply bind_Ok in Hcopy as (nd & _ & E). inversion E; subst c h'. clear E.
      set (c := length (us_nodes s)) in *.
      set (nd_c := mkNode (frame nd) [] [] (-1)) in *.
      set (s0 := mkUS (us_nodes s ++ [nd_c]) (<[n := c]> (node_map s))
                      (us_roots s)) in *.
      assert (Hsub : node_map s ⊆ node_map s0) by (by apply insert_subseteq).
      assert (Hedge0 : ∀ a b, edge (us_nodes s) a b → edge (us_nodes s0) a b)
        by (intros a b; apply edge_app_fresh).
      assert (Hchc : children_of (us_nodes s0) c = []).
      { unfold children_of, s0, c. simpl.
        rewrite lookup_app_r by lia. by rewrite Nat.sub_diag. }
      assert (Hi1 : us_inv (link parent s0 c)).
      { apply link_inv_gen.
        - intros n0 v Hv. simpl in Hv.
          apply lookup_insert_Some in Hv as [[_ <-]|[_ Hv]].
          + split; [simpl; rewrite length_app; simpl; lia|].
            split; [done|]. rewrite Hchc. by intros c0 ?%elem_of_nil.
          + destruct (Hmap _ _ Hv) as (Hlt & Hr & Hch).
            split; [simpl; rewrite length_app; lia|].
            split; [intros _; eapply reach_mono; eauto|].
            intros c0 Hc0. simpl in Hc0.
            rewrite children_of_app_l in Hc0 by done.
            destruct (Hch c0 Hc0) as [n' Hn']. exists n'.
            eapply lookup_weaken; eauto.
        - intros r Hr. destruct (Hroots r Hr) as [n' Hn']. exists n'.
          eapply lookup_weaken; eauto.
        - exists n. simpl. apply lookup_insert_eq.
        - intros p Hp. destruct (Hpar' p Hp) as [[n' Hn'] Hr]. split.
          + exists n'. eapply lookup_weaken; eauto.
          + eapply reach_mono; eauto. }
      destruct (Hfold c _ _ s' H Hi1) as [Hi' Hle'].
      { exists n. rewrite link_node_map. simpl. apply lookup_insert_eq. }
      split; [done|]. eapply us_le_trans; [|exact Hle'].
      eapply us_le_trans; [|apply link_le].
      split; [done|]. split; [done|]. split; [auto|].
      simpl. rewrite length_app. lia.
Qed.

(** Every node the union maps to is a node of the merged graph. *)
Lemma graph_union_range (h h' : list Node) (g1 g2 g : Graph)
    (m : gmap nat nat) :
  graph_union h g1 g2 = Ok (h', g, m) →
  ∀ n v, m !! n = Some v → in_graph h' g v.
Proof.
  unfold graph_union. intros H.
  apply bind_Ok in H as (s & Hs & H).
  apply bind_Ok in H as (h2 & Hen & E). inversion E; subst h' g m. clear E.
  assert (Hinv : us_inv s).
  { assert (Hgen : ∀ rs s0, foldM (place (S (length h)) None) rs s0 = Ok s →
                            us_inv s0 → us_inv s).
    { induction rs as [|r rs IHrs]; intros s0 Hf Hi; cbn [foldM] in Hf.
      - by inversion Hf; subst.
      - apply bind_Ok in Hf as (s1 & H1 & Hf).
        eapply IHrs; [exact Hf|].
        eapply place_inv; [exact H1|exact Hi|]. intros p E. discriminate. }
    eapply Hgen; [exact Hs|].
    split.
    - intros n v Hv. simpl in Hv. by rewrite lookup_empty in Hv.
    - intros r Hr. simpl in Hr. by apply elem_of_nil in Hr. }
  intros n v Hv. destruct Hinv as [Hmap _].
  destruct (Hmap _ _ Hv) as (_ & Hr & _).
  destruct (enumerate_children _ _ _ Hen) as [_ Hch].
  unfold in_graph. simpl. eapply reach_mono; [| |exact Hr]; [|done].
  intros x y Hxy. unfold edge. by rewrite Hch.
Qed.

(** ** C5 and C6: unify *)

Lemma remap_in_range (m : gmap nat nat) (ks ks1 : list Key) :
  mapM (λ k, c ← getitem (m !! node k); Ok (mkKey c (dims k))) ks = Ok ks1 →
  ∀ k1, k1 ∈ ks1 → ∃ n, m !! n = Some (node k1).
Proof.
  intros H%mapM_Forall2 k1 Hk1.
  apply list_elem_of_lookup in Hk1 as (i & Hi).
  destruct (Forall2_lookup_r _ _ _ _ _ H Hi) as (k & _ & Hk).
  apply bind_Ok in Hk as (c & Hc%getitem_Ok & E). inversion E; subst k1.
  exists (node k). exact Hc.
Qed.

Lemma insert_missing_rows_frame (st st' : Store) (self self' other : GraphFrame) :
  _insert_missing_rows st self other = Ok (st', self') →
  nodes st' = nodes st ∧ graphs st' = graphs st
  ∧ graph self' = graph self
  ∧ index_names (dataframe self') = index_names (dataframe self)
  ∧ ∀ k, k ∈ keys (dataframe self') →
         k ∈ keys (dataframe self) ∨ k ∈ keys (dataframe other).
Proof.
  unfold _insert_missing_rows. intros H.
  apply bind_Ok in H as (self_cols & _ & H).
  apply bind_Ok in H as (other_cols & _ & H).
  destruct (if bool_decide _ then _ else _) as [self_cols2 onis1].
  apply bind_Ok in H as (self_cols3 & _ & H).
  destruct (df_new _ _ _ _) as [st2 df'] eqn:Hnew.
  inversion H; subst st' self'. clear H.
  unfold df_new, alloc_columns in Hnew. inversion Hnew; subst st2 df'. simpl.
  repeat (split; [reflexivity|]).
  intros k [Hk|Hk]%elem_of_app; [by left|right].
  unfold select in Hk. apply list_elem_of_omap in Hk as (i & _ & Hi).
  eapply list_elem_of_lookup_2. exact Hi.
Qed.

(** C5.  After [a.unify(b)] returns, the two GraphFrames hold the same Graph
    object and every row of either table is keyed by a node of that graph;
    when they held the same Graph object before, nothing has changed. *)
Theorem C5_unify_closure (st st' : Store) (a b a' b' : GraphFrame) :
  keys_in_graph st a → keys_in_graph st b →
  unify st a b = Ok (st', a', b') →
  graph a' = graph b'
  ∧ keys_in_graph st' a'
  ∧ keys_in_graph st' b'
  ∧ (graph a = graph b → st' = st ∧ a' = a ∧ b' = b).
Proof.
  intros Ha Hb H. unfold unify in H.
  destruct (decide (graph a = graph b)) as [Heq|Hne].
  { inversion H; subst st' a' b'. repeat split; try done. }
  apply bind_Ok in H as (g1 & _ & H).
  apply bind_Ok in H as (g2 & _ & H).
  apply bind_Ok in H as ([[h' ug] nm] & Hun & H).
  apply bind_Ok in H as (self_df & Hsdf & H).
  apply bind_Ok in H as (other_df & Hodf & H).
  apply bind_Ok in H as ([st2 self1] & Hins & H).
  inversion H; subst st' a' b'. clear H.
  apply bind_Ok in Hsdf as (sks & Hsks & E). inversion E; subst self_df. clear E.
  apply bind_Ok in Hodf as (oks & Hoks & E). inversion E; subst other_df. clear E.
  destruct (insert_missing_rows_frame _ _ _ _ _ Hins)
    as (Hn & Hg & _ & _ & Hkeys).
  simpl in Hn, Hg, Hkeys.
  pose proof (graph_union_range _ _ _ _ _ _ Hun) as Hrange.
  pose proof (remap_in_range _ _ _ Hsks) as Hrs.
  pose proof (remap_in_range _ _ _ Hoks) as Hro.
  assert (Hlook : graphs st2 !! length (graphs st) = Some ug).
  { rewrite Hg. rewrite lookup_app_r by lia. by rewrite Nat.sub_diag. }
  split; [reflexivity|]. split; [|split; [|done]].
  - exists ug. split; [exact Hlook|]. simpl. intros k Hk. rewrite Hn.
    destruct (Hkeys k Hk) as [Hk'|Hk'].
    + destruct (Hrs k Hk') as [n Hnk]. eapply Hrange, Hnk.
    + destruct (Hro k Hk') as [n Hnk]. eapply Hrange, Hnk.
  - exists ug. split; [exact Hlook|]. simpl. intros k Hk. rewrite Hn.
    destruct (Hro k Hk) as [n Hnk]. eapply Hrange, Hnk.
Qed.

(** C6.  After [a.unify(b)] on two different graphs, a row of b whose node
    (in the merged graph) has no row in a is appended to the table of a, with
    NaN in every metric column of the union of the metrics, and with 2 in
    the indicator column [_missing_node]. *)
Theorem C6_unify_missing_rows (st st' : Store) (a b a' b' : GraphFrame) :
  graph a ≠ graph b →
  wf_frame st (dataframe a) →
  "_missing_node" ∉ all_metrics a b →
  unify st a b = Ok (st', a', b') →
  ∃ g1 g2 h' union_graph node_map,
    graphs st !! graph a = Some g1 ∧ graphs st !! graph b = Some g2
    ∧ graph_union (nodes st) g1 g2 = Ok (h', union_graph, node_map)
    ∧ let to_union := remap_keys (λ n, default n (node_map !! n)) in
      let n_a := length (keys (dataframe a)) in
      keys (dataframe b') = to_union (keys (dataframe b))
      ∧ take n_a (keys (dataframe a')) = to_union (keys (dataframe a))
      ∧ ∀ k, k ∈ keys (dataframe b') →
          (∀ k0, k0 ∈ to_union (keys (dataframe a)) → node k0 ≠ node k) →
          ∃ j, keys (dataframe a') !! j = Some k
            ∧ n_a ≤ j
            ∧ (∀ m, m ∈ all_metrics a b →
                 ∃ vs, column st' (dataframe a') m = Ok vs
                       ∧ vs !! j = Some NaN)
            ∧ ∃ vs, column st' (dataframe a') "_missing_node" = Ok vs
                    ∧ vs !! j = Some (Num 2).
Proof.
  intros Hne Hwf Hmn H. unfold unify in H.
  rewrite decide_False in H by exact Hne.
  apply bind_Ok in H as (g1 & Hg1%getitem_Ok & H).
  apply bind_Ok in H as (g2 & Hg2%getitem_Ok & H).
  apply bind_Ok in H as ([[h' ug] nm] & Hun & H).
  apply bind_Ok in H as (self_df & Hsdf & H).
  apply bind_Ok in H as (other_df & Hodf & H).
  apply bind_Ok in H as ([st2 self1] & Hins & H).
  inversion H; subst st' a' b'. clear H.
  apply bind_Ok in Hsdf as (sks & Hsks & E). inversion E; subst self_df. clear E.
  apply bind_Ok in Hodf as (oks & Hoks & E). inversion E; subst other_df. clear E.
  apply remap_by_clones in Hsks, Hoks. subst sks oks.
  exists g1, g2, h', ug, nm. repeat (split; [assumption|]).
  set (to_union := remap_keys (λ n, default n (nm !! n))) in *.
  eapply insert_missing_rows_spec in Hins as (Htake & _ & Hrows).
  2:{ unfold wf_frame in *. simpl.
      unfold to_union, remap_keys. rewrite length_fmap. exact Hwf. }
  simpl in Htake, Hrows.
  assert (Hlen : length (to_union (keys (dataframe a)))
                 = length (keys (dataframe a)))
    by (unfold to_union, remap_keys; apply length_fmap).
  simpl. split; [reflexivity|]. split; [by rewrite <- Hlen|].
  intros k Hk Hno.
  destruct (Hrows k Hk Hno) as (j & Hj & Hle & Hmet & Hind).
  exists j. split; [exact Hj|]. split; [lia|]. split.
  - intros m Hm. apply Hmet. exact Hm.
  - apply Hind. exact Hmn.
Qed.

Ltac solve_elem := vm_compute; repeat constructor.
Ltac pick_elem :=
  (apply list_elem_of_here) + (apply list_elem_of_further; pick_elem).
Ltac solve_path :=
  (apply rtc_refl)
  + (eapply rtc_l; [unfold edge, children_of; simpl; pick_elem|solve_path]).
Ltac solve_in_graph r :=
  exists r; split; [solve_elem|solve_path].

Lemma scenario_keys_in_graph : keys_in_graph two_store scenario_gf.
Proof.
  exists (mkGraph [0]). split; [reflexivity|].
  intros k Hk. simpl in Hk.
  repeat (apply elem_of_cons in Hk as [->|Hk]); try (by apply elem_of_nil in Hk);
    solve_in_graph 0.
Qed.

Lemma other_keys_in_graph : keys_in_graph two_store other_gf.
Proof.
  exists (mkGraph [4]). split; [reflexivity|].
  intros k Hk. simpl in Hk.
  repeat (apply elem_of_cons in Hk as [->|Hk]); try (by apply elem_of_nil in Hk);
    solve_in_graph 4.
Qed.

Lemma C5_witness :
  ∃ st' a' b',
    unify two_store scenario_gf other_gf = Ok (st', a', b')
    ∧ graph a' = graph b'
    ∧ keys_in_graph st' a'
    ∧ keys_in_graph st' b'.
Proof.
  assert (H : unify two_store scenario_gf other_gf = two_unified)
    by (vm_compute; reflexivity).
  unfold two_unified in H.
  eexists _, _, _. split; [exact H|].
  destruct (C5_unify_closure _ _ _ _ _ _ scenario_keys_in_graph
              other_keys_in_graph H) as (H1 & H2 & H3 & _).
  auto.
Defined.

Lemma C6_witness :
  ∃ st' a' b',
    unify two_store scenario_gf other_gf = Ok (st', a', b')
    ∧ ∃ j vs, keys (dataframe a') !! j = Some (mkKey 11 [])
              ∧ column st' (dataframe a') "time" = Ok vs
              ∧ vs !! j = Some NaN.
Proof.
  assert (H : unify two_store scenario_gf other_gf = two_unified)
    by (vm_compute; reflexivity).
  unfold two_unified in H.
  eexists _, _, _. split; [exact H|].
  assert (Hne : graph scenario_gf ≠ graph other_gf) by (vm_compute; lia).
  assert (Hwf : wf_frame two_store (dataframe scenario_gf)).
  { unfold wf_frame. simpl. repeat constructor; eexists; split; reflexivity. }
  assert (Hmn : "_missing_node" ∉ all_metrics scenario_gf other_gf).
  { vm_compute. intros Hin. apply elem_of_cons in Hin as [Hin|Hin];
      [discriminate|by apply elem_of_nil in Hin]. }
  destruct (C6_unify_missing_rows _ _ _ _ _ _ Hne Hwf Hmn H)
    as (g1 & g2 & h' & ug & nm & Hg1 & Hg2 & Hun & Hb & _ & Hrows).
  destruct (Hrows (mkKey 11 [])) as (j & Hj & _ & Hmet & _).
  - solve_elem.
  - intros k0 Hk0. clear Hb Hrows.
    vm_compute in Hg1, Hg2. inversion Hg1; inversion Hg2; subst g1 g2.
    vm_compute in Hun. inversion Hun; subst nm.
    vm_compute in Hk0. clear - Hk0.
    repeat (apply elem_of_cons in Hk0 as [->|Hk0]);
      try (by apply elem_of_nil in Hk0); simpl; lia.
  - destruct (Hmet "time") as (vs & Hvs & Hnan); [solve_elem|].
    exists j, vs. auto.
Defined.

(** C6 (counterexample).  The scenario and a GraphFrame with the rows of
    main and bar alone hold the same Graph object: [unify] returns at once,
    and foo, which has a row in the second table only, has no row in the
    first one afterwards. *)
Lemma C6_counterexample :
  ∃ st' a' b',
    unify shared_store part_gf scenario_gf = Ok (st', a', b')
    ∧ mkKey 1 [] ∈ keys (dataframe scenario_gf)
    ∧ (∀ k0, k0 ∈ keys (dataframe part_gf) → node k0 ≠ 1)
    ∧ ∀ k, k ∈ keys (dataframe a') → node k ≠ 1.
Proof.
  exists shared_store, part_gf, scenario_gf.
  split; [reflexivity|]. split; [solve_elem|].
  split; intros k Hk; simpl in Hk;
    repeat (apply elem_of_cons in Hk as [->|Hk]);
    try (by apply elem_of_nil in Hk); simpl; lia.
Qed.

(** ** Traversal *)

Lemma count_unvisited_mono (l vis vis' : list nat) :
  (∀ m, m ∈ vis → m ∈ vis') →
  length (filter (λ i, i ∉ vis') l) ≤ length (filter (λ i, i ∉ vis) l).
Proof.
  intros Hsub. induction l as [|x l IH]; [done|].
  rewrite !filter_cons.
  destruct (decide (x ∉ vis')) as [Hx|Hx]; destruct (decide (x ∉ vis)) as [Hy|Hy];
    simpl; try lia.
  exfalso. apply Hx. apply Hsub. by apply dec_stable.
Qed.

Lemma count_unvisited_add (l vis : list nat) (n : nat) :
  n ∈ l → n ∉ vis →
  length (filter (λ i, i ∉ n :: vis) l) < length (filter (λ i, i ∉ vis) l).
Proof.
  intros Hin Hn. induction l as [|x l IH]; [by apply elem_of_nil in Hin|].
  rewrite !filter_cons.
  pose proof (count_unvisited_mono l vis (n :: vis)
                ltac:(intros m Hm; by right)) as Hle.
  destruct (decide (x = n)) as [->|Hne].
  - rewrite decide_False by (intros H; apply H; left).
    rewrite decide_True by done. simpl. lia.
  - apply elem_of_cons in Hin as [->|Hin]; [done|].
    specialize (IH Hin).
    destruct (decide (x ∉ n :: vis)) as [Hx|Hx];
      destruct (decide (x ∉ vis)) as [Hy|Hy]; simpl; try lia.
    exfalso. apply Hy. intros Hv. apply Hx. by right.
Qed.

Lemma unvisited_mono (h : list Node) (vis vis' : list nat) :
  (∀ m, m ∈ vis → m ∈ vis') → unvisited h vis' ≤ unvisited h vis.
Proof. apply count_unvisited_mono. Qed.

Lemma unvisited_add (h : list Node) (vis : list nat) (n : nat) :
  n < length h → n ∉ vis → unvisited h (n :: vis) < unvisited h vis.
Proof.
  intros Hn Hv. apply count_unvisited_add; [|done].
  apply elem_of_seq. lia.
Qed.

Lemma ordered_snoc (h : list Node) (l : list nat) (n : nat) :
  ordered h l → (∀ c, c ∈ children_of h n → c ∈ l) → ordered h (l ++ [n]).
Proof.
  intros Hl Hn pre m suf E c Hc.
  destruct suf as [|x suf _] using rev_ind.
  - apply app_inj_tail in E as [-> ->]. by apply Hn.
  - rewrite app_comm_cons, app_assoc in E.
    apply app_inj_tail in E as [-> ->]. eapply Hl; eauto.
Qed.

Lemma traversed_nil h o out vis : traversed h o [] out vis [] vis.
Proof.
  split; [constructor|]. split.
  { intros m. split; [by intros ?%elem_of_nil|]. intros [? ?]. done. }
  split; [done|]. split; [by intros c ?%elem_of_nil|].
  split; [by intros m ?%elem_of_nil|]. split; [by intros m ?%elem_of_nil|].
  intros _ _ _ Ho. by rewrite app_nil_r.
Qed.

Lemma acyclic_acyclic_from (h : list Node) (rs : list nat) :
  acyclic h → acyclic_from h rs.
Proof. intros H n _. apply H. Qed.

Lemma acyclic_from_reach (h : list Node) (rs rs' : list nat) :
  (∀ r, r ∈ rs' → reach h rs r) → acyclic_from h rs → acyclic_from h rs'.
Proof.
  intros Hr H n (r' & Hr' & Hp). apply H.
  destruct (Hr r' Hr') as (r & Hr0 & Hp0). exists r. split; [done|]. by etrans.
Qed.

Lemma acyclic_from_subset (h : list Node) (rs rs' : list nat) :
  (∀ r, r ∈ rs' → r ∈ rs) → acyclic_from h rs → acyclic_from h rs'.
Proof.
  intros Hr. apply acyclic_from_reach. intros r Hr'. exists r.
  split; [by apply Hr|constructor].
Qed.

Lemma acyclic_from_children (h : list Node) (n : nat) :
  acyclic_from h [n] → acyclic_from h (children_of h n).
Proof.
  apply acyclic_from_reach. intros c Hc. exists n.
  split; [apply list_elem_of_here|by apply rtc_once].
Qed.

(** The traversal of a list of nodes, given the traversal of one node. *)
Lemma traverse_list_spec (fuel : nat) (h : list Node) (o : order) :
  wf_heap h →
  (∀ n out vis, n < length h → unvisited h vis < fuel →
     ∃ new vis', node_traverse fuel h o n (out, vis) = Ok (out ++ new, vis')
                 ∧ traversed h o [n] out vis new vis') →
  ∀ ns out vis, (∀ c, c ∈ ns → c < length h) → unvisited h vis < fuel →
    ∃ new vis',
      foldM (λ a c, node_traverse fuel h o c a) ns (out, vis)
      = Ok (out ++ new, vis')
      ∧ traversed h o ns out vis new vis'.
Proof.
  intros Hwf Hnode ns. induction ns as [|n ns IH]; intros out vis Hval Hfuel.
  - exists [], vis. simpl. rewrite app_nil_r. split; [done|apply traversed_nil].
  - destruct (Hnode n out vis) as (new1 & vis1 & H1 & T1);
      [apply Hval; left|done|].
    destruct T1 as (Hnd1 & Hnew1 & Hsub1 & Hin1 & Hcl1 & Hre1 & Hord1).
    destruct (IH (out ++ new1) vis1) as (new2 & vis2 & H2 & T2).
    { intros c Hc. apply Hval. by right. }
    { pose proof (unvisited_mono h vis vis1 Hsub1). lia. }
    destruct T2 as (Hnd2 & Hnew2 & Hsub2 & Hin2 & Hcl2 & Hre2 & Hord2).
    exists (new1 ++ new2), vis2. split.
    { cbn [foldM]. rewrite H1. simpl. rewrite H2. by rewrite app_assoc. }
    split.
    { apply NoDup_app. split; [done|]. split; [|done].
      intros m Hm1 Hm2. apply Hnew1 in Hm1 as [Hv _].
      apply Hnew2 in Hm2 as [_ Hv']. done. }
    split.
    { intros m. rewrite elem_of_app, Hnew1, Hnew2. split.
      - intros [[Hv Hn]|[Hv Hn]]; split; auto.
      - intros [Hv Hn]. destruct (decide (m ∈ vis1)); auto. }
    split; [auto|]. split.
    { intros c [->|Hc]%elem_of_cons; [|by apply Hin2].
      apply Hsub2, Hin1. left. }
    split.
    { intros m [Hm|Hm]%elem_of_app; [|by eapply Hcl2].
      intros c Hc. eapply Hsub2, Hcl1; eauto. }
    split.
    { intros m [Hm|Hm]%elem_of_app.
      - destruct (Hre1 m Hm) as (c & ->%list_elem_of_singleton & Hp).
        exists n. split; [left|done].
      - destruct (Hre2 m Hm) as (c & Hc & Hp). exists c. split; [by right|done]. }
    intros Ho Hac Hpre Hout. rewrite app_assoc.
    apply Hord2; [done| | |].
    { eapply acyclic_from_subset; [|exact Hac].
      intros r Hr. by apply list_elem_of_further. }
    + intros c m Hc Hp Hm. apply elem_of_app.
      destruct (decide (m ∈ vis)) as [Hv|Hv].
      * left. eapply Hpre; [by right|done|done].
      * right. apply Hnew1. done.
    + apply Hord1; [done| | |done].
      { eapply acyclic_from_subset; [|exact Hac].
        intros r ->%list_elem_of_singleton. apply list_elem_of_here. }
      intros c m ->%list_elem_of_singleton Hp Hm. eapply Hpre; [left|done|done].
Qed.

Lemma node_traverse_S (fuel : nat) (h : list Node) (o : order) (n : nat)
    (out vis : list nat) :
  node_traverse (S fuel) h o n (out, vis)
  = if bool_decide (n ∈ vis) then Ok (out, vis)
    else
      '(out2, visited2) ←
        foldM (λ a c, node_traverse fuel h o c a) (children_of h n)
              (match o with Pre => out ++ [n] | Post => out end, n :: vis);
      Ok (match o with Pre => out2 | Post => out2 ++ [n] end, visited2).
Proof. reflexivity. Qed.

Lemma node_traverse_spec (h : list Node) (o : order) :
  wf_heap h →
  ∀ fuel n out vis, n < length h → unvisited h vis < fuel →
    ∃ new vis', node_traverse fuel h o n (out, vis) = Ok (out ++ new, vis')
                ∧ traversed h o [n] out vis new vis'.
Proof.
  intros Hwf. induction fuel as [|fuel IH]; intros n out vis Hn Hfuel; [lia|].
  rewrite node_traverse_S. case_bool_decide as Hvis.
  { exists [], vis. rewrite app_nil_r. split; [done|].
    split; [constructor|]. split.
    { intros m. split; [by intros ?%elem_of_nil|]. intros [? ?]. done. }
    split; [done|]. split; [by intros c ->%list_elem_of_singleton|].
    split; [by intros m ?%elem_of_nil|]. split; [by intros m ?%elem_of_nil|].
    intros _ _ _ Ho. by rewrite app_nil_r. }
  set (out1 := match o with Pre => out ++ [n] | Post => out end).
  destruct (traverse_list_spec fuel h o Hwf IH (children_of h n) out1 (n :: vis))
    as (new2 & vis2 & H2 & T2).
  { intros c Hc. eapply Hwf, Hc. }
  { pose proof (unvisited_add h vis n Hn Hvis). lia. }
  destruct T2 as (Hnd2 & Hnew2 & Hsub2 & Hin2 & Hcl2 & Hre2 & Hord2).
  assert (Hnv : n ∈ vis2) by (apply Hsub2; left).
  assert (Hn2 : n ∉ new2).
  { intros [_ Hx]%Hnew2. apply Hx. left. }
  exists (match o with Pre => n :: new2 | Post => new2 ++ [n] end), vis2.
  split.
  { rewrite H2. simpl. unfold out1. destruct o; simpl; f_equal; f_equal.
    - by rewrite <- app_assoc.
    - by rewrite app_assoc. }
  assert (Hmem : ∀ m, m ∈ match o with Pre => n :: new2 | Post => new2 ++ [n] end
                      ↔ m = n ∨ m ∈ new2).
  { intros m. destruct o.
    - apply elem_of_cons.
    - rewrite elem_of_app, list_elem_of_singleton. tauto. }
  split.
  { destruct o.
    - by constructor.
    - apply NoDup_app. split; [done|]. split; [|apply NoDup_singleton].
      intros m Hm ->%list_elem_of_singleton. done. }
  split.
  { intros m. rewrite Hmem, Hnew2. split.
    - intros [->|[Hv Hx]]; [done|]. split; [done|].
      intros Hm. apply Hx. by right.
    - intros [Hv Hx]. destruct (decide (m = n)) as [->|Hne]; [by left|].
      right. split; [done|]. intros [?|?]%elem_of_cons; done. }
  split.
  { intros m Hm. apply Hsub2. by right. }
  split.
  { by intros c ->%list_elem_of_singleton. }
  split.
  { intros m [->|Hm]%Hmem; [exact Hin2|by apply Hcl2]. }
  split.
  { intros m [->|Hm]%Hmem.
    - exists n. split; [left|constructor].
    - destruct (Hre2 m Hm) as (c & Hc & Hp). exists n. split; [left|].
      eapply rtc_l; [exact Hc|exact Hp]. }
  intros Ho Hac Hpre Hout. subst o. unfold out1 in *.
  assert (Hno_loop : ∀ c, c ∈ children_of h n → rtc (edge h) c n → False).
  { intros c Hc Hp. apply (Hac n).
    - exists n. split; [apply list_elem_of_here|constructor].
    - eapply tc_rtc_r; [|exact Hp]. by apply tc_once. }
  assert (Hout2 : ordered h (out ++ new2)).
  { apply Hord2; [done|by apply acyclic_from_children| |done].
    intros c m Hc Hp [->|Hm]%elem_of_cons.
    - exfalso. eauto.
    - eapply (Hpre n); [left| |done]. eapply rtc_l; [exact Hc|exact Hp]. }
  rewrite app_assoc. apply ordered_snoc; [done|].
  intros c Hc. apply elem_of_app.
  destruct (decide (c ∈ new2)) as [|Hcn]; [by right|left].
  assert (Hcv : c ∈ n :: vis).
  { destruct (decide (c ∈ n :: vis)) as [|Hx]; [done|].
    exfalso. apply Hcn. apply Hnew2. split; [by apply Hin2|done]. }
  apply elem_of_cons in Hcv as [->|Hcv].
  - exfalso. eapply Hno_loop; [exact Hc|constructor].
  - eapply (Hpre n); [left| |done]. by apply rtc_once.
Qed.

(** The traversal of a well-formed graph returns: it lists each node of the
    graph once, and in post-order, on a DAG, every node after its children. *)
Lemma graph_traverse_spec (h : list Node) (g : Graph) (o : order) :
  wf_heap h → (∀ r, r ∈ roots g → r < length h) →
  ∃ l, graph_traverse h g o = Ok l
       ∧ NoDup l
       ∧ (∀ m, m ∈ l ↔ in_graph h g m)
       ∧ (o = Post → acyclic_from h (roots g) → ordered h l).
Proof.
  intros Hwf Hroots. unfold graph_traverse, traverse_from.
  destruct (traverse_list_spec (S (length h)) h o Hwf
              (node_traverse_spec h o Hwf (S (length h))) (roots g) [] [])
    as (new & vis' & H & T); [done| |].
  { unfold unvisited. pose proof (length_filter (λ i, i ∉ []) (seq 0 (length h))) as Hl.
    rewrite length_seq in Hl. lia. }
  destruct T as (Hnd & Hnew & Hsub & Hin & Hcl & Hre & Hord).
  exists new. rewrite H. simpl. split; [done|]. split; [done|].
  assert (Hnv : ∀ m, m ∈ new ↔ m ∈ vis').
  { intros m. rewrite Hnew. split; [tauto|]. intros Hm. split; [done|].
    by intros ?%elem_of_nil. }
  split.
  - intros m. split.
    + intros Hm. destruct (Hre m Hm) as (c & Hc & Hp). by exists c.
    + intros (r & Hr & Hp). apply Hnv.
      assert (Hrv : r ∈ vis') by (by apply Hin).
      clear Hr. induction Hp as [|x y z Hxy _ IH]; [done|].
      apply IH. eapply Hcl; [|exact Hxy]. by apply Hnv.
  - intros Ho Hac. apply (Hord Ho Hac).
    + intros c m _ _ ?%elem_of_nil. done.
    + intros pre m suf E. by destruct pre.
Qed.

(** ** Squash: the rewiring *)

Lemma elem_of_set_union (x : nat) (s t : list nat) :
  x ∈ set_union s t ↔ x ∈ s ∨ x ∈ t.
Proof. unfold set_union. by rewrite elem_of_unique, elem_of_app. Qed.

Section rewiring.
Variables (h0 : list Node) (otn : gmap nat nat) (size : nat) (rs0 : list nat).
Hypothesis Hwf0 : wf_heap h0.
Hypothesis Hac : acyclic_from h0 rs0.
Hypothesis Hclone : ∀ n c, otn !! n = Some c → length h0 ≤ c < size.

Local Abbreviation inv := (rw_inv h0 otn size).
Local Abbreviation done_ := (rw_done h0 otn).
Local Abbreviation le := (rw_le h0 otn).
Local Abbreviation fk := (first_kept h0 otn).
Local Abbreviation parent_ok := (rw_parent_ok h0 size).

Lemma fk_is_clone n c : fk n c → ∃ n', otn !! n' = Some c.
Proof. induction 1; eauto. Qed.

Lemma fk_valid n c : fk n c → length h0 ≤ c < size.
Proof. intros [n' Hn']%fk_is_clone. eauto. Qed.

Lemma fk_kept n cn c : otn !! n = Some cn → fk n c ↔ c = cn.
Proof.
  intros Hn. split.
  - intros H. inversion H; subst; congruence.
  - intros ->. by constructor.
Qed.

Lemma fk_dropped n c :
  otn !! n = None → fk n c ↔ ∃ m, m ∈ children_of h0 n ∧ fk m c.
Proof.
  intros Hn. split.
  - intros H. inversion H; subst; [congruence|eauto].
  - intros (m & Hm & Hf). by eapply fk_step.
Qed.

Lemma le_refl s : le s s.
Proof.
  split; [auto|]. split; [auto|]. split; [auto|]. split; [auto|].
  intros m H1 H2. done.
Qed.

Lemma le_trans s1 s2 s3 : le s1 s2 → le s2 s3 → le s1 s3.
Proof.
  intros (A1 & A2 & A3 & A4 & A5) (B1 & B2 & B3 & B4 & B5).
  split; [auto|]. split; [auto|]. split; [auto|]. split; [auto|].
  intros m Hm Hn. destruct (decide (m ∈ visited s2)); auto.
Qed.

Lemma linked_le s s' p c : le s s' → linked s p c → linked s' p c.
Proof. intros (_ & A2 & A3 & _). destruct p; simpl; auto. Qed.

Lemma connect_visited p s c : visited (connect p s c) = visited s.
Proof. unfold connect. destruct p; case_bool_decide; reflexivity. Qed.

Lemma connect_connections p s c : connections (connect p s c) = connections s.
Proof. unfold connect. destruct p; case_bool_decide; reflexivity. Qed.

Lemma connect_children p s c x :
  children_of (rw_nodes (connect p s c)) x
  = if bool_decide (p = Some x ∧ x < length (rw_nodes s)
                    ∧ c ∉ children_of (rw_nodes s) x)
    then children_of (rw_nodes s) x ++ [c]
    else children_of (rw_nodes s) x.
Proof.
  unfold connect. destruct p as [pc|].
  - case_bool_decide as Hin; simpl.
    + rewrite bool_decide_eq_false_2; [reflexivity|].
      intros (E & _ & Hn). inversion E; subst. contradiction.
    + rewrite children_of_add_parent, children_of_add_child.
      apply (f_equal (λ b : bool, if b then _ else _)).
      apply bool_decide_ext. split.
      * intros [-> Hlt]. done.
      * intros (E & Hlt & _). inversion E. done.
  - rewrite (bool_decide_eq_false_2 (None = Some x ∧ _))
      by (intros (E & _); discriminate).
    case_bool_decide; reflexivity.
Qed.

Lemma connect_length p s c :
  length (rw_nodes (connect p s c)) = length (rw_nodes s).
Proof.
  unfold connect. destruct p; case_bool_decide; simpl; try reflexivity.
  by rewrite length_add_parent, length_add_child.
Qed.

Lemma connect_roots p s c r :
  r ∈ new_roots (connect p s c) ↔ r ∈ new_roots s ∨ (p = None ∧ r = c).
Proof.
  unfold connect. destruct p as [pc|].
  - case_bool_decide; simpl; split; auto; intros [?|[? _]]; done.
  - case_bool_decide as Hin; simpl.
    + split; auto. intros [?|[_ ->]]; done.
    + rewrite elem_of_app, list_elem_of_singleton. split.
      * intros [?| ->]; auto.
      * intros [?|[_ ->]]; auto.
Qed.

Lemma connect_children_mono p s c x y :
  y ∈ children_of (rw_nodes s) x →
  y ∈ children_of (rw_nodes (connect p s c)) x.
Proof.
  rewrite connect_children. case_bool_decide; [|done].
  intros Hin. apply elem_of_app. by left.
Qed.

Lemma connect_done p s c m : done_ s m → done_ (connect p s c) m.
Proof.
  intros (D1 & D2 & D3 & D4).
  split; [by rewrite connect_visited|].
  split; [intros x Hx; rewrite connect_visited; auto|].
  split; [rewrite connect_connections; auto|].
  intros cn Hcn m' c' Hm' Hf. apply connect_children_mono. eauto.
Qed.

Lemma connect_le p s c : le s (connect p s c).
Proof.
  split; [by rewrite connect_visited|].
  split; [intros x y; apply connect_children_mono|].
  split; [intros r Hr; apply connect_roots; by left|].
  split; [intros m; apply connect_done|].
  intros m Hm Hn. rewrite connect_visited in Hm. done.
Qed.

Lemma connect_inv p s c :
  parent_ok p → c < size → inv s → inv (connect p s c).
Proof.
  intros Hp Hc (I1 & I2 & I3 & I4 & I5 & I6 & I7).
  split; [by rewrite connect_length|].
  split.
  { intros x Hx. rewrite connect_children.
    rewrite bool_decide_eq_false_2; [by apply I2|].
    intros (E & _). specialize (Hp x E). lia. }
  split.
  { intros x y. rewrite connect_children, connect_length.
    case_bool_decide; [|by apply I3].
    intros [Hy| ->%list_elem_of_singleton]%elem_of_app; [by eapply I3|lia]. }
  split.
  { intros r [Hr|[_ ->]]%connect_roots; auto. }
  rewrite connect_connections, connect_visited. auto.
Qed.

Lemma connect_linked p s c :
  parent_ok p → inv s → linked (connect p s c) p c.
Proof.
  intros Hp (I1 & _). destruct p as [pc|]; unfold linked.
  - rewrite connect_children. specialize (Hp pc eq_refl).
    case_bool_decide as Hc.
    + apply elem_of_app. right. by apply list_elem_of_singleton.
    + destruct (decide (c ∈ children_of (rw_nodes s) pc)); [done|].
      exfalso. apply Hc. split; [done|]. split; [lia|done].
  - apply connect_roots. by right.
Qed.

Lemma fold_connect_spec p cs s :
  parent_ok p → (∀ c, c ∈ cs → c < size) → inv s →
  let s' := fold_left (connect p) cs s in
  inv s' ∧ le s s' ∧ visited s' = visited s
  ∧ connections s' = connections s
  ∧ ∀ c, c ∈ cs → linked s' p c.
Proof.
  intros Hp. revert s. induction cs as [|c cs IH]; intros s Hcs Hinv; simpl.
  - split; [done|]. split; [apply le_refl|]. split; [done|]. split; [done|].
    by intros c ?%elem_of_nil.
  - destruct (IH (connect p s c)) as (J1 & J2 & J3 & J4 & J5).
    { intros c' Hc'. apply Hcs. by right. }
    { apply connect_inv; auto. apply Hcs. left. }
    split; [done|]. split; [eapply le_trans; [apply connect_le|done]|].
    split; [by rewrite J3, connect_visited|].
    split; [by rewrite J4, connect_connections|].
    intros c' [->|Hc']%elem_of_cons; [|auto].
    eapply linked_le; [exact J2|]. by apply connect_linked.
Qed.

Lemma rewire_S fuel n p s :
  rewire (S fuel) otn n p s
  = (let s1 := fold_left (connect p) (default [] (connections s !! n)) s in
     '(transitive, s2) ←
       (if bool_decide (n ∈ visited s1) then Ok ([], s1)
        else
          foldM (λ '(tr, s') child,
                   '(r, s'') ← rewire fuel otn child (or_else (otn !! n) p) s';
                   Ok (set_union tr r, s''))
                (children_of (rw_nodes s1) n)
                ([], mkRW (rw_nodes s1) (connections s1) (new_roots s1)
                          (n :: visited s1)));
     match otn !! n with
     | Some nn => Ok ([nn], s2)
     | None =>
       let c := set_union (default [] (connections s2 !! n)) transitive in
       Ok (c, mkRW (rw_nodes s2) (<[n := c]> (connections s2)) (new_roots s2)
                   (visited s2))
     end).
Proof. reflexivity. Qed.

(** The loop over the children, given the specification of one call. *)
Lemma rewire_children_spec fuel p :
  parent_ok p →
  (∀ n s, inv s → n < length h0 → reach h0 rs0 n →
     (∀ m, rtc (edge h0) n m → m ∈ visited s → done_ s m) →
     unvisited h0 (visited s) < fuel →
     ∃ r s', rewire fuel otn n p s = Ok (r, s')
             ∧ inv s' ∧ le s s' ∧ done_ s' n
             ∧ (∀ c, c ∈ r ↔ fk n c)
             ∧ (∀ c, fk n c → linked s' p c)) →
  ∀ cs tr s, inv s → (∀ c, c ∈ cs → c < length h0) →
    (∀ c, c ∈ cs → reach h0 rs0 c) →
    (∀ c m, c ∈ cs → rtc (edge h0) c m → m ∈ visited s → done_ s m) →
    unvisited h0 (visited s) < fuel →
    ∃ tr' s',
      foldM (λ '(tr, s') child,
               '(r, s'') ← rewire fuel otn child p s';
               Ok (set_union tr r, s'')) cs (tr, s) = Ok (tr', s')
      ∧ inv s' ∧ le s s'
      ∧ (∀ c, c ∈ cs → done_ s' c)
      ∧ (∀ x, x ∈ tr' ↔ x ∈ tr ∨ ∃ c, c ∈ cs ∧ fk c x)
      ∧ (∀ c x, c ∈ cs → fk c x → linked s' p x).
Proof.
  intros Hp Hnode cs.
  induction cs as [|c cs IH]; intros tr s Hinv Hval Hgr Hcl Hfuel.
  - exists tr, s. split; [reflexivity|]. split; [done|]. split; [apply le_refl|].
    split; [by intros c ?%elem_of_nil|]. split.
    + intros x. split; [auto|]. intros [?|(c & ?%elem_of_nil & _)]; done.
    + by intros c x ?%elem_of_nil.
  - destruct (Hnode c s Hinv) as (r & s1 & H1 & I1 & L1 & D1 & R1 & K1).
    { apply Hval. left. }
    { apply Hgr. left. }
    { intros m Hm Hv. eapply Hcl; [left|done|done]. }
    { done. }
    destruct (IH (set_union tr r) s1 I1) as (tr' & s' & H2 & I2 & L2 & D2 & R2 & K2).
    { intros c' Hc'. apply Hval. by right. }
    { intros c' Hc'. apply Hgr. by right. }
    { intros c' m Hc' Hm Hv. destruct L1 as (_ & _ & _ & L14 & L15).
      destruct (decide (m ∈ visited s)) as [Hvs|Hvs].
      - apply L14. eapply Hcl; [by right|done|done].
      - by apply L15. }
    { destruct L1 as (L11 & _). pose proof (unvisited_mono h0 _ _ L11). lia. }
    exists tr', s'. split.
    { cbn [foldM]. rewrite H1. simpl. exact H2. }
    split; [done|]. split; [by eapply le_trans|]. split.
    { intros c' [->|Hc']%elem_of_cons; [|auto].
      destruct L2 as (_ & _ & _ & L24 & _). auto. }
    split.
    { intros x. rewrite R2, elem_of_set_union, R1. split.
      - intros [[?|?]|(c' & Hc' & Hf)]; eauto.
        + right. exists c. split; [left|done].
        + right. exists c'. split; [by right|done].
      - intros [?|(c' & [->|Hc']%elem_of_cons & Hf)]; eauto. }
    intros c' x [->|Hc']%elem_of_cons Hf; [|eauto].
    eapply linked_le; [exact L2|]. auto.
Qed.

Lemma linked_mono s s' p c :
  (∀ x y, y ∈ children_of (rw_nodes s) x → y ∈ children_of (rw_nodes s') x) →
  (∀ r, r ∈ new_roots s → r ∈ new_roots s') →
  linked s p c → linked s' p c.
Proof. intros A B. destruct p; simpl; auto. Qed.

Lemma mark_inv s n :
  inv s → inv (mkRW (rw_nodes s) (connections s) (new_roots s) (n :: visited s)).
Proof.
  intros (I1 & I2 & I3 & I4 & I5 & I6 & I7).
  split; [done|]. split; [done|]. split; [done|]. split; [done|].
  split; [done|]. split; [done|].
  intros n' Hn' Hv. simpl in *. apply I7; [done|]. intros ?. apply Hv. by right.
Qed.

Lemma mark_done s n m :
  done_ s m →
  done_ (mkRW (rw_nodes s) (connections s) (new_roots s) (n :: visited s)) m.
Proof.
  intros (D1 & D2 & D3 & D4).
  split; [by right|]. split; [intros c Hc; right; auto|]. split; done.
Qed.

Lemma set_conn_inv s n c :
  inv s → otn !! n = None → n ∈ visited s → (∀ x, x ∈ c → fk n x) →
  inv (mkRW (rw_nodes s) (<[n := c]> (connections s)) (new_roots s) (visited s)).
Proof.
  intros (I1 & I2 & I3 & I4 & I5 & I6 & I7) Hn Hv Hc.
  split; [done|]. split; [done|]. split; [done|]. split; [done|].
  simpl. split.
  { intros n' c' Hn'. rewrite lookup_insert_ne by congruence. auto. }
  split.
  { intros n' l x Hl Hx.
    apply lookup_insert_Some in Hl as [[<- <-]|[_ Hl]]; eauto. }
  intros n' Hn' Hv'. rewrite lookup_insert_ne by congruence. auto.
Qed.

Lemma set_conn_done s n c m :
  (∀ x, x ∈ default [] (connections s !! n) → x ∈ c) →
  done_ s m →
  done_ (mkRW (rw_nodes s) (<[n := c]> (connections s)) (new_roots s)
              (visited s)) m.
Proof.
  intros Hc (D1 & D2 & D3 & D4).
  split; [done|]. split; [done|]. split; [|done].
  intros Hm x Hx. simpl. destruct (decide (n = m)) as [->|Hne].
  - rewrite lookup_insert_eq. simpl. auto.
  - rewrite lookup_insert_ne by done. auto.
Qed.

(** One call of [rewire]: with fuel for the nodes that are not yet visited
    it returns; it leaves the node done, returns the clones of the first
    retained nodes from it, and has them linked below the new parent. *)
Lemma rewire_spec fuel :
  ∀ n p s, inv s → n < length h0 → reach h0 rs0 n → parent_ok p →
    (∀ m, rtc (edge h0) n m → m ∈ visited s → done_ s m) →
    unvisited h0 (visited s) < fuel →
    ∃ r s', rewire fuel otn n p s = Ok (r, s')
            ∧ inv s' ∧ le s s' ∧ done_ s' n
            ∧ (∀ c, c ∈ r ↔ fk n c)
            ∧ (∀ c, fk n c → linked s' p c).
Proof.
  induction fuel as [|fuel IH]; intros n p s Hinv Hn Hgn Hp Hcl Hfuel; [lia|].
  rewrite rewire_S. cbv zeta.
  set (conns := default [] (connections s !! n)).
  assert (Hconns : ∀ c, c ∈ conns → fk n c).
  { intros c Hc. unfold conns in Hc.
    destruct (connections s !! n) as [l|] eqn:E; simpl in Hc;
      [|by apply elem_of_nil in Hc].
    destruct Hinv as (_ & _ & _ & _ & _ & I6 & _). eauto. }
  destruct (fold_connect_spec p conns s Hp) as (I1 & L1 & V1 & C1 & K1).
  { intros c Hc. apply Hconns in Hc. apply fk_valid in Hc. lia. }
  { done. }
  set (s1 := fold_left (connect p) conns s) in *.
  pose proof Hinv as (_ & _ & _ & _ & J5 & J6 & J7).
  pose proof L1 as (A1 & A2 & A3 & A4 & A5).
  case_bool_decide as Hvis.
  - (* the node was visited before: it is done *)
    rewrite V1 in Hvis.
    assert (Hd : done_ s n) by (apply Hcl; [constructor|done]).
    assert (Hd1 : done_ s1 n) by (by apply A4).
    simpl. destruct (otn !! n) as [cn|] eqn:Hotn.
    + exists [cn], s1. split; [reflexivity|]. split; [done|]. split; [done|].
      split; [done|]. split.
      * intros c. rewrite (fk_kept _ _ _ Hotn).
        apply list_elem_of_singleton.
      * intros c Hc%(fk_kept _ _ _ Hotn). subst c. apply K1.
        unfold conns. rewrite (J5 _ _ Hotn). simpl. left.
    + set (c := set_union (default [] (connections s1 !! n)) []).
      assert (Hc : ∀ x, x ∈ c ↔ x ∈ conns).
      { intros x. unfold c. rewrite elem_of_set_union, C1. fold conns.
        split; [intros [?|?%elem_of_nil]; done|auto]. }
      eexists c, _. split; [reflexivity|].
      assert (Hdone_pres : ∀ m, done_ s1 m →
                done_ (mkRW (rw_nodes s1) (<[n := c]> (connections s1))
                            (new_roots s1) (visited s1)) m).
      { intros m. apply set_conn_done. intros x. rewrite C1. fold conns.
        by rewrite Hc. }
      split.
      { apply set_conn_inv; [done|done|by rewrite V1|].
        intros x Hx%Hc. auto. }
      split.
      { split; [done|]. split; [done|]. split; [done|]. split; [auto|].
        intros m Hm Hm'. simpl in Hm. auto. }
      split; [auto|]. split.
      * intros x. rewrite Hc. split; [auto|].
        destruct Hd as (_ & _ & D3 & _). intros Hf. by apply D3.
      * intros x Hf. eapply linked_mono; [| |apply K1]; [done|done|].
        destruct Hd as (_ & _ & D3 & _). by apply D3.
  - (* the node is visited now *)
    rewrite V1 in Hvis.
    set (sm := mkRW (rw_nodes s1) (connections s1) (new_roots s1)
                    (n :: visited s1)).
    assert (Hcs : children_of (rw_nodes s1) n = children_of h0 n).
    { destruct I1 as (_ & I12 & _). by apply I12. }
    rewrite Hcs.
    assert (Hp' : parent_ok (or_else (otn !! n) p)).
    { destruct (otn !! n) as [cn|] eqn:Hotn; simpl; [|done].
      intros pc E. inversion E; subst. eauto. }
    destruct (rewire_children_spec fuel (or_else (otn !! n) p) Hp'
                (λ n0 s0 A B G0 C D, IH n0 _ s0 A B G0 Hp' C D)
                (children_of h0 n) [] sm)
      as (tr & s2 & H2 & I2 & L2 & D2 & R2 & K2).
    { by apply mark_inv. }
    { intros c Hc. eapply Hwf0, Hc. }
    { intros c Hc. destruct Hgn as (r0 & Hr0 & Hp0). exists r0.
      split; [done|]. eapply rtc_r; [exact Hp0|exact Hc]. }
    { intros c m Hc Hm [->|Hv]%elem_of_cons.
      - exfalso. apply (Hac n Hgn). eapply tc_rtc_r; [|exact Hm].
        by apply tc_once.
      - apply mark_done. apply A4. apply Hcl; [|by rewrite <- V1].
        eapply rtc_l; [exact Hc|exact Hm]. }
    { simpl. rewrite V1. pose proof (unvisited_add h0 (visited s) n Hn Hvis). lia. }
    rewrite H2. simpl.
    destruct L2 as (B1 & B2 & B3 & B4 & B5).
    assert (Hnv2 : n ∈ visited s2) by (apply B1; left).
    assert (Hchv : ∀ c, c ∈ children_of h0 n → c ∈ visited s2).
    { intros c Hc. by destruct (D2 c Hc) as (? & _). }
    assert (Hpres : ∀ m, done_ s m → done_ s2 m).
    { intros m Hm. apply B4. apply mark_done. by apply A4. }
    assert (Hnew : ∀ m, m ∈ visited s2 → m ∉ visited s → m ≠ n → done_ s2 m).
    { intros m Hm Hm' Hne. apply B5; [done|]. simpl. rewrite V1.
      intros [?|?]%elem_of_cons; done. }
    assert (Hle_parts :
      (∀ m, m ∈ visited s → m ∈ visited s2)
      ∧ (∀ x y, y ∈ children_of (rw_nodes s) x → y ∈ children_of (rw_nodes s2) x)
      ∧ (∀ r, r ∈ new_roots s → r ∈ new_roots s2)).
    { split; [intros m Hm; apply B1; right; auto|].
      split; [intros x y Hy; apply B2; simpl; auto|].
      intros r Hr. apply B3. simpl. auto. }
    destruct Hle_parts as (E1 & E2 & E3).
    destruct (otn !! n) as [cn|] eqn:Hotn.
    + assert (Hdn : done_ s2 n).
      { split; [done|]. split; [done|]. split; [congruence|].
        intros cn' E m c Hm Hf. assert (cn' = cn) as -> by congruence.
        apply (K2 m c Hm Hf). }
      exists [cn], s2. split; [reflexivity|]. split; [done|]. split.
      { split; [done|]. split; [done|]. split; [done|]. split; [done|].
        intros m Hm Hm'. destruct (decide (m = n)) as [->|Hne]; auto. }
      split; [done|]. split.
      * intros c. rewrite (fk_kept _ _ _ Hotn).
        apply list_elem_of_singleton.
      * intros c Hc%(fk_kept _ _ _ Hotn). subst c.
        eapply linked_mono; [exact B2|exact B3|]. simpl.
        apply K1. unfold conns. rewrite (J5 _ _ Hotn). simpl. left.
    + simpl in K2.
      set (c := set_union (default [] (connections s2 !! n)) tr).
      assert (Hc : ∀ x, x ∈ c ↔ fk n x).
      { intros x. unfold c. rewrite elem_of_set_union, R2.
        rewrite (fk_dropped _ _ Hotn). split.
        - intros [Hx|[?%elem_of_nil|?]]; [|done|done].
          apply (fk_dropped _ _ Hotn).
          destruct (connections s2 !! n) as [l|] eqn:E; simpl in Hx;
            [|by apply elem_of_nil in Hx].
          destruct I2 as (_ & _ & _ & _ & _ & I26 & _). eauto.
        - intros Hx. right. by right. }
      set (s' := mkRW (rw_nodes s2) (<[n := c]> (connections s2))
                      (new_roots s2) (visited s2)).
      assert (Hpres' : ∀ m, done_ s2 m → done_ s' m).
      { intros m. apply set_conn_done. intros x Hx. unfold c.
        apply elem_of_set_union. by left. }
      assert (Hdn : done_ s' n).
      { split; [done|]. split; [done|]. split; [|congruence].
        intros _ x Hx. simpl. rewrite lookup_insert_eq. simpl. by apply Hc. }
      exists c, s'. split; [reflexivity|]. split.
      { apply set_conn_inv; [done|done|done|]. intros x. apply Hc. }
      split.
      { split; [done|]. split; [done|]. split; [done|]. split; [auto|].
        intros m Hm Hm'. destruct (decide (m = n)) as [->|Hne]; auto. }
      split; [done|]. split; [done|].
      intros x Hx. apply (fk_dropped _ _ Hotn) in Hx as (m & Hm & Hf).
      eapply linked_mono; [| |apply (K2 m x Hm Hf)]; done.
Qed.

(** The loop over the roots of the old graph. *)
Lemma rewire_roots_spec fuel :
  length h0 < fuel →
  ∀ rs s, inv s → (∀ r, r ∈ rs → r < length h0) →
    (∀ r, r ∈ rs → reach h0 rs0 r) →
    (∀ m, m ∈ visited s → done_ s m) →
    ∃ s', foldM (λ s root, snd <$> rewire fuel otn root None s) rs s = Ok s'
          ∧ inv s' ∧ le s s'
          ∧ (∀ m, m ∈ visited s' → done_ s' m)
          ∧ (∀ r, r ∈ rs → done_ s' r ∧ ∀ c, fk r c → c ∈ new_roots s').
Proof.
  intros Hfuel rs. induction rs as [|r rs IH]; intros s Hinv Hval Hgr Hall.
  - exists s. split; [reflexivity|]. split; [done|]. split; [apply le_refl|].
    split; [done|]. by intros r ?%elem_of_nil.
  - destruct (rewire_spec fuel r None s Hinv) as (x & s1 & H1 & I1 & L1 & D1 & _ & K1).
    { apply Hval. left. }
    { apply Hgr. left. }
    { intros pc E. discriminate. }
    { intros m _ Hm. auto. }
    { unfold unvisited.
      pose proof (length_filter (λ i, i ∉ visited s) (seq 0 (length h0))) as Hl.
      rewrite length_seq in Hl. lia. }
    pose proof L1 as (A1 & A2 & A3 & A4 & A5).
    destruct (IH s1 I1) as (s' & H2 & I2 & L2 & All2 & R2).
    { intros r' Hr'. apply Hval. by right. }
    { intros r' Hr'. apply Hgr. by right. }
    { intros m Hm. destruct (decide (m ∈ visited s)); auto. }
    pose proof L2 as (B1 & B2 & B3 & B4 & B5).
    exists s'. split.
    { cbn [foldM]. rewrite H1. simpl. exact H2. }
    split; [done|]. split; [by eapply le_trans|]. split; [done|].
    intros r' [->|Hr']%elem_of_cons; [|auto].
    split; [auto|]. intros c Hc. apply B3. by apply (K1 c Hc).
Qed.

(** Once every visited node is done, each node below a done one is done. *)
Lemma reachable_done s n m :
  (∀ x, x ∈ visited s → done_ s x) →
  done_ s n → rtc (edge h0) n m → done_ s m.
Proof.
  intros Hall Hn Hp. induction Hp as [|x y z Hxy _ IH]; [done|].
  apply IH. apply Hall. destruct Hn as (_ & D2 & _). by apply D2.
Qed.

(** The paths of the old graph between retained nodes are paths between
    their clones in the new graph. *)
Lemma kept_path s m x cx :
  rtc (edge h0) m x → otn !! x = Some cx →
  (∀ y, rtc (edge h0) m y → done_ s y) →
  ∀ p, (∀ c, fk m c → linked s p c) →
    match p with
    | Some pc => tc (edge (rw_nodes s)) pc cx
    | None => reach (rw_nodes s) (new_roots s) cx
    end.
Proof.
  intros Hp Hx. induction Hp as [x|m y x Hmy Hyx IH]; intros Hdone p Hlink.
  - specialize (Hlink cx (fk_here _ _ _ _ Hx)). destruct p as [pc|]; simpl in *.
    + by apply tc_once.
    + exists cx. split; [done|constructor].
  - assert (Hdy : ∀ z, rtc (edge h0) y z → done_ s z).
    { intros z Hz. apply Hdone. eapply rtc_l; eauto. }
    destruct (otn !! m) as [cm|] eqn:Hm.
    + specialize (Hlink cm (fk_here _ _ _ _ Hm)).
      destruct (Hdone m (rtc_refl _ _)) as (_ & _ & _ & D4).
      specialize (IH Hx Hdy (Some cm) (λ c Hc, D4 cm Hm y c Hmy Hc)).
      simpl in IH. destruct p as [pc|]; simpl in *.
      * eapply tc_l; [exact Hlink|exact IH].
      * exists cm. split; [done|]. by apply tc_rtc.
    + apply (IH Hx Hdy p). intros c Hc. apply Hlink.
      eapply fk_step; eauto.
Qed.
End rewiring.

Lemma tc_first {A} (R : relation A) (x z : A) :
  tc R x z → ∃ y, R x y ∧ rtc R y z.
Proof.
  intros H. destruct H as [x z H|x y z H1 H2].
  - exists z. split; [done|constructor].
  - exists y. split; [done|]. by apply tc_rtc.
Qed.

Lemma fold_set_nid_children (m : gmap nat nat) (ns : list nat) (h : list Node) :
  let h' := fold_left (λ h' n, match m !! n with
                               | Some c => set_nid h' c (nid_of h' n)
                               | None => h'
                               end) ns h in
  length h' = length h ∧ ∀ x, children_of h' x = children_of h x.
Proof.
  revert h. induction ns as [|n ns IH]; intros h; simpl; [done|].
  destruct (m !! n) as [c|].
  - destruct (IH (set_nid h c (nid_of h n))) as [Hl Hc].
    split; [by rewrite Hl, length_set_nid|].
    intros x. by rewrite Hc, children_of_set_nid.
  - apply IH.
Qed.

Lemma clone_loop_spec (ns : list nat) :
  ∀ (m : gmap nat nat) (h' : list Node), (∀ n, n ∈ ns → n < length h') →
    ∃ (m' : gmap nat nat) (h'' : list Node),
      foldM (λ '(m, h') n, '(c, h'') ← node_copy h' n; Ok (<[n := c]> m, h''))
            ns (m, h') = Ok (m', h'')
      ∧ length h' ≤ length h''
      ∧ (∀ x, x < length h' → children_of h'' x = children_of h' x)
      ∧ (∀ x, length h' ≤ x → children_of h'' x = [])
      ∧ (∀ n c, m' !! n = Some c →
           m !! n = Some c ∨ (length h' ≤ c < length h'' ∧ n ∈ ns))
      ∧ (∀ n, n ∈ ns ∨ is_Some (m !! n) → is_Some (m' !! n)).
Proof.
  induction ns as [|n ns IH]; intros m h' Hval.
  - exists m, h'. split; [reflexivity|]. split; [done|]. split; [done|].
    split; [intros x Hx; by apply children_of_ge|]. split; [auto|].
    intros n [?%elem_of_nil|?]; done.
  - destruct (lookup_lt_is_Some_2 h' n (Hval n ltac:(left))) as [nd Hnd].
    set (h1 := h' ++ [mkNode (frame nd) [] [] (-1)]).
    assert (Hl1 : length h1 = S (length h'))
      by (unfold h1; rewrite length_app; simpl; lia).
    destruct (IH (<[n := length h']> m) h1)
      as (m' & h'' & H & Hl & Hold & Hnew & Hm & Hin).
    { intros n' Hn'. specialize (Hval n' ltac:(by right)). lia. }
    exists m', h''. split.
    { assert (Hcp : node_copy h' n = Ok (length h', h1))
        by (unfold node_copy; by rewrite Hnd).
      cbn [foldM]. rewrite Hcp. simpl. exact H. }
    split; [lia|]. split.
    { intros x Hx. rewrite Hold by lia. unfold h1. by apply children_of_app_l. }
    split.
    { intros x Hx. destruct (decide (x = length h')) as [->|Hne].
      - rewrite Hold by lia. unfold children_of, h1.
        rewrite lookup_app_r by lia. by rewrite Nat.sub_diag.
      - apply Hnew. lia. }
    split.
    { intros n' c Hc. destruct (Hm n' c Hc) as [Hc'|[Hr Hin']].
      - apply lookup_insert_Some in Hc' as [[<- <-]|[_ Hc']]; [|by left].
        right. split; [lia|left].
      - right. split; [lia|by right]. }
    intros n' Hn'. apply Hin.
    destruct (decide (n' = n)) as [->|Hne].
    + right. rewrite lookup_insert_eq. eauto.
    + rewrite lookup_insert_ne by done.
      destruct Hn' as [[?|?]%elem_of_cons|?]; [done|by left|by right].
Qed.

Lemma make_clones_spec (h : list Node) (ns : list nat) :
  wf_heap h → (∀ n, n ∈ ns → n < length h) →
  ∃ (otn : gmap nat nat) (h1 : list Node),
    make_clones h ns = Ok (otn, h1)
    ∧ length h ≤ length h1
    ∧ (∀ x, x < length h → children_of h1 x = children_of h x)
    ∧ wf_heap h1
    ∧ (∀ n c, otn !! n = Some c → length h ≤ c < length h1 ∧ n ∈ ns)
    ∧ (∀ n, n ∈ ns → is_Some (otn !! n)).
Proof.
  intros Hwf Hval. unfold make_clones.
  destruct (clone_loop_spec ns ∅ h Hval)
    as (m' & h'' & H & Hl & Hold & Hnew & Hm & Hin).
  rewrite H. simpl.
  match goal with |- context [fold_left ?f ns h''] =>
    pose proof (fold_set_nid_children m' ns h'') as [Hl2 Hc2] end.
  eexists _, _. split; [reflexivity|].
  split; [lia|]. split.
  { intros x Hx. rewrite Hc2. by apply Hold. }
  split.
  { intros x y. rewrite Hc2, Hl2. destruct (decide (x < length h)) as [Hx|Hx].
    - rewrite Hold by done. intros Hy. apply Hwf in Hy. lia.
    - rewrite Hnew by lia. by intros ?%elem_of_nil. }
  split.
  { intros n c Hc. rewrite Hl2. destruct (Hm n c Hc) as [Hc'|?]; [|done].
    by rewrite lookup_empty in Hc'. }
  intros n Hn. apply Hin. by left.
Qed.

(** The rewiring of squash returns; the clone of a strict ancestor is a
    strict ancestor of the clone, and the clones of the nodes of the old
    graph are nodes of the new one. *)
Lemma squash_rewire_spec (h : list Node) (g : Graph) (ns : list nat) :
  wf_heap h → acyclic_from h (roots g) → (∀ r, r ∈ roots g → r < length h) →
  (∀ n, n ∈ ns → n < length h) →
  ∃ (otn : gmap nat nat) (h1 : list Node) (roots1 : list nat),
    squash_rewire h g ns = Ok (otn, h1, roots1)
    ∧ wf_heap h1
    ∧ (∀ r, r ∈ roots1 → r < length h1)
    ∧ (∀ n, n ∈ ns → is_Some (otn !! n))
    ∧ (∀ a b ca cb, in_graph h g a → otn !! a = Some ca → otn !! b = Some cb →
         ancestor h a b → ancestor h1 ca cb)
    ∧ (∀ a ca, in_graph h g a → otn !! a = Some ca → reach h1 roots1 ca).
Proof.
  intros Hwf Hac Hroots Hns. unfold squash_rewire.
  destruct (make_clones_spec h ns Hwf Hns)
    as (otn & hc & Hmk & Hlen & Hold & Hwfc & Hrange & Hdom).
  assert (Hclone : ∀ n c, otn !! n = Some c → length h ≤ c < length hc).
  { intros n c Hc. by destruct (Hrange n c Hc). }
  set (s0 := mkRW hc ((λ v, [v]) <$> otn) [] []).
  assert (Hinv0 : rw_inv h otn (length hc) s0).
  { split; [done|]. split; [done|]. split; [done|].
    split; [by intros r ?%elem_of_nil|]. simpl. split.
    { intros n c Hc. by rewrite lookup_fmap, Hc. }
    split.
    { intros n l c Hl Hc. rewrite lookup_fmap in Hl.
      destruct (otn !! n) as [c'|] eqn:E; [|discriminate].
      inversion Hl; subst l. apply list_elem_of_singleton in Hc as ->.
      by constructor. }
    intros n Hn _. by rewrite lookup_fmap, Hn. }
  destruct (rewire_roots_spec h otn (length hc) (roots g) Hwf Hac Hclone
              (S (length hc)) ltac:(lia) (roots g) s0 Hinv0 Hroots)
    as (s' & Hs' & Hinv' & Hle' & Hall & Hrs).
  { intros r Hr. exists r. split; [done|constructor]. }
  { by intros m ?%elem_of_nil. }
  destruct Hinv' as (I1 & I2 & I3 & I4 & _).
  exists otn, (rw_nodes s'), (new_roots s'). split.
  { apply bind_Ok. exists (otn, hc). split; [exact Hmk|].
    apply bind_Ok. exists s'. split; [exact Hs'|reflexivity]. }
  split; [done|]. split; [by rewrite I1|]. split; [done|].
  assert (Hdone_graph : ∀ a, in_graph h g a → ∀ y, rtc (edge h) a y →
                             rw_done h otn s' y).
  { intros a (r & Hr & Hp) y Hy.
    eapply reachable_done; [exact Hall| |]; [apply Hrs, Hr|].
    by etrans. }
  split.
  - intros a b ca cb Ha Hca Hcb Hab.
    apply tc_first in Hab as (y & Hay & Hyb).
    pose proof (Hdone_graph a Ha) as Hda.
    destruct (Hda a (rtc_refl _ _)) as (_ & _ & _ & D4).
    apply (kept_path h otn s' y b cb Hyb Hcb
             (λ z Hz, Hda z (rtc_l _ _ _ _ Hay Hz)) (Some ca)).
    intros c Hc. simpl. eapply D4; eauto.
  - intros a ca (r & Hr & Hp) Hca.
    apply (kept_path h otn s' r a ca Hp Hca
             (λ z Hz, Hdone_graph r (ex_intro _ r (conj Hr (rtc_refl _ _))) z Hz)
             None).
    intros c Hc. simpl. by apply (Hrs r Hr).
Qed.

(** ** The merge of siblings with the same frame *)

Lemma resolve_valid (size : nat) (m : gmap nat nat) (x : nat) :
  (∀ k v, m !! k = Some v → v < size) → x < size → resolve m x < size.
Proof.
  intros Hm Hx. unfold resolve. destruct (m !! x) as [v|] eqn:E; simpl; eauto.
Qed.

Lemma fold_left_inv {A B} (P : A → Prop) (f : A → B → A) (l : list B) (a : A) :
  P a → (∀ a' b, b ∈ l → P a' → P (f a' b)) → P (fold_left f l a).
Proof.
  revert a. induction l as [|b l IH]; intros a Ha Hf; simpl; [done|].
  apply IH.
  - apply Hf; [left|done].
  - intros a' b' Hb'. apply Hf. by right.
Qed.

(** The nodes kept by a merge are nodes of the arena. *)
Lemma find_child_merges_valid (h : list Node) (sibs : list nat)
    (m : gmap nat nat) :
  (∀ k v, m !! k = Some v → v < length h) →
  (∀ n, n ∈ sibs → n < length h) →
  ∀ k v, find_child_merges h sibs m !! k = Some v → v < length h.
Proof.
  intros Hm Hs. unfold find_child_merges.
  set (P := λ sm : list nat * gmap nat nat,
         (∀ k, k ∈ sm.1 → k < length h)
         ∧ (∀ k v, sm.2 !! k = Some v → v < length h)).
  match goal with |- context [fold_left ?f sibs ?a] =>
    assert (HP : P (fold_left f sibs a)) end.
  { apply fold_left_inv.
    - split; [by intros k ?%elem_of_nil|done].
    - intros [seen m'] n Hn [Hseen Hm']. simpl in Hseen, Hm'.
      assert (Hn' : resolve m' n < length h)
        by (apply resolve_valid; auto).
      destruct (list_find _ seen) as [[i k]|] eqn:Hf.
      + apply list_find_Some in Hf as (Hk & _ & _).
        apply list_elem_of_lookup_2, Hseen in Hk.
        destruct (decide (k = resolve m' n)); [by split|].
        split; [done|]. simpl. intros k' v Hv.
        apply lookup_insert_Some in Hv as [[_ <-]|[_ Hv]]; [done|].
        rewrite lookup_fmap in Hv.
        destruct (m' !! k') as [t|] eqn:Ht; [|discriminate].
        simpl in Hv. inversion Hv; subst v.
        destruct (decide (t = resolve m' n)); eauto.
      + split; [|done]. simpl. intros k [Hk| ->%list_elem_of_singleton]%elem_of_app;
          auto. }
  destruct HP as [_ HP]. exact HP.
Qed.

(** Altering each node of a duplicate-free list once. *)
Lemma fold_alter_lookup {A} (G : nat → A → A) (l : list nat) :
  NoDup l → ∀ (h : list A) (z : nat),
    fold_left (λ h' z, alter (G z) z h') l h !! z
    = if bool_decide (z ∈ l) then G z <$> h !! z else h !! z.
Proof.
  induction 1 as [|a l Ha Hl IH]; intros h z; simpl; [done|].
  rewrite IH. destruct (decide (z = a)) as [->|Hne].
  - rewrite (bool_decide_eq_false_2 (a ∈ l)) by done.
    rewrite bool_decide_eq_true_2 by left.
    by rewrite list_lookup_alter_eq.
  - rewrite list_lookup_alter_ne by done.
    destruct (decide (z ∈ l)).
    + rewrite !bool_decide_eq_true_2; [done|by right|done].
    + rewrite !bool_decide_eq_false_2; [done| |done].
      by intros [?|?]%elem_of_cons.
Qed.

Lemma fold_alter_length {A} (G : nat → A → A) (l : list nat) (h : list A) :
  length (fold_left (λ h' z, alter (G z) z h') l h) = length h.
Proof.
  revert h. induction l as [|a l IH]; intros h; simpl; [done|].
  by rewrite IH, length_alter.
Qed.

(** The merge returns on a well-formed graph: it keeps the size of the
    arena, every edge below a node of the graph is an edge between the
    kept nodes, and the roots are the kept roots. *)
Lemma normalize_spec (h : list Node) (g : Graph) :
  wf_heap h → (∀ r, r ∈ roots g → r < length h) →
  ∃ (h' : list Node) (g' : Graph) (m : gmap nat nat),
    normalize h g = Ok (h', g', m)
    ∧ length h' = length h
    ∧ (∀ r, r ∈ roots g → resolve m r ∈ roots g')
    ∧ (∀ x y, in_graph h g x → edge h x y →
              edge h' (resolve m x) (resolve m y)).
Proof.
  intros Hwf Hroots. unfold normalize.
  destruct (graph_traverse_spec h g Pre Hwf Hroots) as (ns & Hns & Hnd & Hin & _).
  rewrite Hns. unfold mbind, result_bind. cbv beta iota zeta.
  match goal with |- context [Ok (_, _, ?m0)] => set (m := m0) end.
  assert (Hval : ∀ n, n ∈ ns → n < length h).
  { intros n (r & Hr & Hp)%Hin. apply Hroots in Hr. clear - Hwf Hr Hp.
    induction Hp as [|x y z Hxy _ IH]; [auto|]. apply IH.
    by apply (Hwf x). }
  assert (Hm : ∀ k v, m !! k = Some v → v < length h).
  { unfold m. apply (fold_left_inv (λ m' : gmap nat nat,
                        ∀ k v, m' !! k = Some v → v < length h)).
    - apply find_child_merges_valid; [|done].
      intros k v Hk. by rewrite lookup_empty in Hk.
    - intros m' n Hn Hm'. apply find_child_merges_valid; [done|].
      intros c (l & Hl & Hc)%elem_of_concat.
      apply list_elem_of_fmap in Hl as (x & -> & Hx).
      by apply (Hwf x). }
  eexists _, _, m. split; [reflexivity|].
  split; [apply fold_alter_length|]. split.
  { intros r Hr. simpl. apply elem_of_unique. by apply list_elem_of_fmap_2. }
  intros x y Hx Hxy. unfold edge, children_of.
  rewrite fold_alter_lookup by apply NoDup_unique.
  apply Hin in Hx.
  rewrite bool_decide_eq_true_2
    by (apply elem_of_unique; by apply list_elem_of_fmap_2).
  destruct (lookup_lt_is_Some_2 h (resolve m x)) as [nd Hnd'].
  { apply resolve_valid; auto. }
  rewrite Hnd'. simpl. apply elem_of_unique, list_elem_of_fmap_2.
  apply elem_of_concat. exists (children_of h x). split; [|exact Hxy].
  apply list_elem_of_fmap_2, list_elem_of_filter. by split.
Qed.

Lemma in_graph_step (h : list Node) (g : Graph) (x y : nat) :
  in_graph h g x → edge h x y → in_graph h g y.
Proof.
  intros (r & Hr & Hp) Hxy. exists r. split; [done|].
  eapply rtc_r; eauto.
Qed.

(** Merging maps the paths of the graph to paths of the merged graph. *)
Lemma normalize_paths (h h' : list Node) (g g' : Graph) (m : gmap nat nat) :
  (∀ r, r ∈ roots g → resolve m r ∈ roots g') →
  (∀ x y, in_graph h g x → edge h x y → edge h' (resolve m x) (resolve m y)) →
  (∀ x y, in_graph h g x → ancestor h x y →
          ancestor h' (resolve m x) (resolve m y))
  ∧ (∀ x, in_graph h g x → in_graph h' g' (resolve m x)).
Proof.
  intros Hr He. split.
  - intros x y Hx Hxy. induction Hxy as [x y Hxy|x y z Hxy _ IH].
    + apply tc_once. by apply He.
    + eapply tc_l; [by apply He|]. apply IH. by eapply in_graph_step.
  - intros x (r & Hrr & Hp). exists (resolve m r). split; [auto|].
    assert (Hgr : in_graph h g r) by (exists r; split; [done|constructor]).
    clear Hrr. induction Hp as [|a b c Hab _ IH]; [constructor|].
    eapply rtc_l; [by apply He|]. apply IH. by eapply in_graph_step.
Qed.

(** ** The sums over the graph leave the nodes, the graphs and the labels
    of the rows alone *)

#[local] Instance same_graphs_refl : Reflexive same_graphs.
Proof. by intros st. Qed.

#[local] Instance same_graphs_trans : Transitive same_graphs.
Proof.
  intros a b c [H1 H2] [H3 H4]. split; congruence.
Qed.

Lemma foldM_rel {A B} (R : relation B) `{!Reflexive R} `{!Transitive R}
    (f : B → A → result B) (l : list A) (b b' : B) :
  (∀ a x a', f a x = Ok a' → R a a') → foldM f l b = Ok b' → R b b'.
Proof.
  intros Hf. revert b. induction l as [|x l IH]; intros b H; simpl in H.
  - inversion H. reflexivity.
  - apply bind_Ok in H as (b1 & H1 & H2). etrans; [by eapply Hf|by apply IH].
Qed.

Lemma write_cells_frame (st st' : Store) (df : DataFrame) (c : string)
    (ps : list nat) (v : cell) :
  write_cells st df c ps v = Ok st' → same_graphs st st'.
Proof.
  unfold write_cells. intros H. apply bind_Ok in H as (b & _ & E).
  inversion E. by split.
Qed.

Ltac frame_fold H :=
  refine (foldM_rel same_graphs _ _ _ _ _ H); clear H; intros ? ? ? H;
  cbv beta in H.

Lemma init_sum_columns_frame (st st1 : Store) (gf gf1 : GraphFrame)
    (cols outs : list string) (oc : option (list string)) :
  _init_sum_columns st gf cols oc = Ok (st1, gf1, outs) →
  same_graphs st st1 ∧ graph gf1 = graph gf
  ∧ keys (dataframe gf1) = keys (dataframe gf).
Proof.
  unfold _init_sum_columns. intros H.
  apply bind_Ok in H as ([[st2 gf2] outs2] & H & E).
  destruct (bool_decide _); [discriminate|]. inversion E; subst. clear E.
  destruct oc as [o|].
  - apply bind_Ok in H as ([st' df'] & H & E). inversion E; subst. clear E.
    simpl.
    enough (same_graphs st st1 ∧ keys df' = keys (dataframe gf)) by tauto.
    revert H.
    generalize (dataframe gf) as df. generalize (zip cols outs) as l.
    intros l. revert st. induction l as [|[c o'] l IH]; intros st df H; simpl in H.
    + inversion H. by split.
    + apply bind_Ok in H as ([st2 df2] & H1 & H2).
      apply bind_Ok in H1 as (vs & _ & E). inversion E; subst. clear E.
      apply IH in H2 as [[Hn Hg] Hk]. simpl in *. by repeat split.
  - inversion H. by subst.
Qed.

Lemma subtree_sum_frame (st st' : Store) (gf gf' : GraphFrame)
    (cols : list string) (oc : option (list string))
    (function : list cell → result cell) :
  subtree_sum st gf cols oc function = Ok (st', gf') →
  same_graphs st st' ∧ graph gf' = graph gf
  ∧ keys (dataframe gf') = keys (dataframe gf).
Proof.
  unfold subtree_sum. intros H.
  apply bind_Ok in H as ([[st1 gf1] outs] & Hi & H).
  apply init_sum_columns_frame in Hi as (Hs & Hg & Hk).
  apply bind_Ok in H as (g & _ & H).
  apply bind_Ok in H as (ns & _ & H).
  apply bind_Ok in H as (st2 & H & E). inversion E; subst. clear E.
  split; [|done]. etrans; [exact Hs|].
  frame_fold H.
  destruct (children_of _ _); [by inversion H|].
  destruct (is_multi_index _).
  - apply bind_Ok in H as (rts & _ & H).
    frame_fold H. frame_fold H.
    apply bind_Ok in H as (vs & _ & H). apply bind_Ok in H as (v & _ & H).
    by eapply write_cells_frame.
  - frame_fold H.
    apply bind_Ok in H as (ps & _ & H). apply bind_Ok in H as (vs & _ & H).
    apply bind_Ok in H as (v & _ & H). by eapply write_cells_frame.
Qed.

Lemma subgraph_sum_frame (st st' : Store) (gf gf' : GraphFrame)
    (cols : list string) (oc : option (list string))
    (function : list cell → result cell) :
  subgraph_sum st gf cols oc function = Ok (st', gf') →
  same_graphs st st' ∧ graph gf' = graph gf
  ∧ keys (dataframe gf') = keys (dataframe gf).
Proof.
  unfold subgraph_sum. intros H.
  apply bind_Ok in H as (g0 & _ & H).
  apply bind_Ok in H as ([] & _ & H); [by eapply subtree_sum_frame|].
  apply bind_Ok in H as ([[st1 gf1] outs] & Hi & H).
  apply init_sum_columns_frame in Hi as (Hs & Hg & Hk).
  apply bind_Ok in H as (g & _ & H).
  apply bind_Ok in H as (ns & _ & H).
  apply bind_Ok in H as (st2 & H & E). inversion E; subst. clear E.
  split; [|done]. etrans; [exact Hs|].
  frame_fold H.
  apply bind_Ok in H as (sub & _ & H).
  destruct (is_multi_index _).
  - apply bind_Ok in H as (rts & _ & H).
    frame_fold H. frame_fold H.
    apply bind_Ok in H as (vs & _ & H). apply bind_Ok in H as (v & _ & H).
    by eapply write_cells_frame.
  - apply bind_Ok in H as (ps & _ & H). apply bind_Ok in H as (sums & _ & H).
    refine (foldM_rel same_graphs _ _ _ _ _ H); clear H.
    intros sa [out v] sb H. by eapply write_cells_frame.
Qed.

Lemma update_inclusive_columns_frame (st st' : Store) (gf gf' : GraphFrame) :
  update_inclusive_columns st gf = Ok (st', gf') →
  same_graphs st st' ∧ graph gf' = graph gf
  ∧ keys (dataframe gf') = keys (dataframe gf).
Proof.
  unfold update_inclusive_columns. intros H.
  destruct (exc_metrics gf); [by inversion H|].
  apply bind_Ok in H as ([st2 gf2] & H & E). inversion E; subst. clear E.
  by apply subgraph_sum_frame in H.
Qed.

Lemma df_new_frame (st st' : Store) (idx : list string) (ks : list Key)
    (cols : Columns) (df' : DataFrame) :
  df_new st idx ks cols = (st', df') → same_graphs st st'.
Proof.
  unfold df_new, alloc_columns. intros H. inversion H. by split.
Qed.

Lemma reach_children_eq (h h' : list Node) (rs : list nat) (n : nat) :
  (∀ x, children_of h' x = children_of h x) → reach h rs n → reach h' rs n.
Proof.
  intros He (r & Hr & Hp). exists r. split; [done|]. clear Hr.
  induction Hp as [|x y z Hxy _ IH]; [constructor|].
  eapply rtc_l; [|exact IH]. unfold edge. by rewrite He.
Qed.

Lemma in_graph_valid (h : list Node) (g : Graph) (n : nat) :
  wf_heap h → (∀ r, r ∈ roots g → r < length h) → in_graph h g n →
  n < length h.
Proof.
  intros Hwf Hroots (r & Hr & Hp). apply Hroots in Hr. clear Hroots.
  induction Hp as [|x y z Hxy _ IH]; [auto|]. apply IH. by apply (Hwf x).
Qed.

Lemma ancestor_children_eq (h h' : list Node) (a b : nat) :
  (∀ x, children_of h' x = children_of h x) → ancestor h a b → ancestor h' a b.
Proof.
  intros He Hp. induction Hp as [x y Hxy|x y z Hxy _ IH].
  - apply tc_once. unfold edge. by rewrite He.
  - eapply tc_l; [|exact IH]. unfold edge. by rewrite He.
Qed.

(** A graph whose edges all go to a larger reference has no cycle. *)
Lemma increasing_acyclic (h : list Node) :
  (∀ a b, edge h a b → a < b) → acyclic h.
Proof.
  intros Hlt n Hn.
  assert (Htc : ∀ a b, tc (edge h) a b → a < b).
  { intros a b Hp. induction Hp as [x y Hxy|x y z Hxy _ IH].
    - by apply Hlt.
    - apply Hlt in Hxy. lia. }
  apply Htc in Hn. lia.
Qed.

(** ** Decidable checks of well-formedness *)

Lemma wf_heapb_spec (h : list Node) : wf_heapb h = true → wf_heap h.
Proof.
  unfold wf_heapb, wf_heap, children_of. intros H n c Hc.
  destruct (h !! n) as [nd|] eqn:Hn; [|by apply elem_of_nil in Hc].
  rewrite forallb_forall in H.
  specialize (H nd (proj1 (list_elem_of_In _ _) (list_elem_of_lookup_2 _ _ _ Hn))).
  rewrite forallb_forall in H.
  specialize (H c (proj1 (list_elem_of_In _ _) Hc)).
  by apply Nat.ltb_lt in H.
Qed.

Lemma increasingb_spec (h : list Node) : increasingb h = true → acyclic h.
Proof.
  unfold increasingb. intros H. apply increasing_acyclic.
  intros a b Hab. unfold edge, children_of in Hab.
  destruct (h !! a) as [nd|] eqn:Hn; [|by apply elem_of_nil in Hab].
  rewrite forallb_forall in H.
  assert (Hz : (a, nd) ∈ zip (seq 0 (length h)) h).
  { apply list_elem_of_lookup. exists a. apply lookup_zip_with_Some.
    exists a, nd. split; [done|]. split; [|done].
    apply lookup_seq. split; [done|]. by eapply lookup_lt_Some. }
  specialize (H _ (proj1 (list_elem_of_In _ _) Hz)). simpl in H.
  rewrite forallb_forall in H.
  specialize (H b (proj1 (list_elem_of_In _ _) Hab)).
  by apply Nat.ltb_lt in H.
Qed.

(** ** C2: the round trip of exclusive and inclusive columns *)

(** C2, counterexample.  On the diamond a → {b, c}, b → d, c → d the graph
    is not a tree: the inclusive time that [update_inclusive_columns]
    writes for a is the sum of the exclusive times over the four distinct
    nodes of its subgraph, 3, while the exclusive time of a plus the
    inclusive times of its children b and c is 0 + 2 + 2 = 4. *)
Lemma C2_counterexample :
  ∃ st2 gf2,
    round_trip diamond_store diamond_gf = Ok (st2, gf2)
    ∧ is_tree (nodes diamond_store) (mkGraph [0]) = Ok false
    ∧ "time" ∈ exc_metrics gf2
    ∧ inc_name "time" = "time (inc)"
    ∧ cell_at st2 (dataframe gf2) "time" 0 = Some (Num 0)
    ∧ cell_at st2 (dataframe gf2) "time (inc)" 0 = Some (Num 3)
    ∧ child_cells st2 (dataframe gf2) "time (inc)" 0 [] = [Num 2; Num 2]
    ∧ ¬ inclusive_is_sum st2 gf2 "time" "time (inc)" 0 [].
Proof.
  assert (H : round_trip diamond_store diamond_gf = diamond_round_trip)
    by (vm_compute; reflexivity).
  unfold diamond_round_trip in H.
  eexists _, _. split; [exact H|]. clear H.
  split; [vm_compute; reflexivity|].
  split; [solve_elem|].
  split; [vm_compute; reflexivity|].
  split; [vm_compute; reflexivity|].
  split; [vm_compute; reflexivity|].
  split; [vm_compute; reflexivity|].
  intros Hrel.
  destruct (Hrel 0 (Num 0)) as (v & Hv & Hsum).
  - solve_elem.
  - vm_compute. reflexivity.
  - vm_compute in Hv. vm_compute in Hsum. congruence.
Qed.

(** *** Rows and writes *)

Lemma elem_of_positions_from (p : Key → bool) (ks : list Key) (i q : nat) :
  q ∈ positions_from i p ks
  ↔ ∃ k, i ≤ q ∧ ks !! (q - i) = Some k ∧ p k = true.
Proof.
  revert i. induction ks as [|k ks IH]; intros i; simpl.
  - split; [by intros ?%elem_of_nil|]. by intros (k & _ & Hk & _).
  - assert (Hrest : q ∈ positions_from (S i) p ks
                    ↔ ∃ k', i < q ∧ (k :: ks) !! (q - i) = Some k' ∧ p k' = true).
    { rewrite IH. split.
      - intros (k' & Hq & Hk' & Hp). exists k'. split; [lia|]. split; [|done].
        replace (q - i) with (S (q - S i)) by lia. exact Hk'.
      - intros (k' & Hq & Hk' & Hp). exists k'. split; [lia|]. split; [|done].
        replace (q - i) with (S (q - S i)) in Hk' by lia. exact Hk'. }
    destruct (p k) eqn:Hpk.
    + rewrite elem_of_cons, Hrest. split.
      * intros [->|(k' & Hq & Hk' & Hp)].
        -- exists k. rewrite Nat.sub_diag. by split.
        -- exists k'. split; [lia|done].
      * intros (k' & Hq & Hk' & Hp).
        destruct (decide (q = i)) as [->|Hne]; [by left|].
        right. exists k'. split; [lia|done].
    + rewrite Hrest. split.
      * intros (k' & Hq & Hk' & Hp). exists k'. split; [lia|done].
      * intros (k' & Hq & Hk' & Hp).
        destruct (decide (q = i)) as [->|Hne].
        -- rewrite Nat.sub_diag in Hk'. simpl in Hk'. congruence.
        -- exists k'. split; [lia|done].
Qed.

Lemma elem_of_positions (p : Key → bool) (ks : list Key) (q : nat) :
  q ∈ positions p ks ↔ ∃ k, ks !! q = Some k ∧ p k = true.
Proof.
  unfold positions. rewrite elem_of_positions_from. split.
  - intros (k & _ & Hk & Hp). rewrite Nat.sub_0_r in Hk. eauto.
  - intros (k & Hk & Hp). exists k. rewrite Nat.sub_0_r. split; [lia|done].
Qed.

Lemma label_rows_node (df : DataFrame) (n : nat) (rt : list Z) (q : nat) :
  q ∈ label_rows df n rt →
  ∃ k, keys df !! q = Some k ∧ node k = n
       ∧ (is_multi_index df = true → dims k = rt).
Proof.
  unfold label_rows, lab. intros (k & Hk & Hp)%elem_of_positions.
  exists k. split; [done|]. destruct (is_multi_index df).
  - unfold has_key in Hp. apply andb_true_iff in Hp as [H1 H2].
    apply bool_decide_eq_true in H1, H2. by split.
  - unfold has_node in Hp. apply bool_decide_eq_true in Hp. by split.
Qed.

Lemma child_rows_node (h : list Node) (df : DataFrame) (n : nat)
    (rt : list Z) (q : nat) :
  q ∈ child_rows h df n rt →
  ∃ c k, c ∈ children_of h n ∧ keys df !! q = Some k ∧ node k = c.
Proof.
  unfold child_rows. intros (l & Hl & Hq)%elem_of_concat.
  apply list_elem_of_fmap in Hl as (c & -> & Hc).
  apply label_rows_node in Hq as (k & Hk & Hn & _). eauto.
Qed.

Lemma length_write (qs : list nat) (v : cell) (vs : list cell) :
  length (write qs v vs) = length vs.
Proof.
  unfold write. revert vs. induction qs as [|q qs IH]; intros vs; simpl; [done|].
  by rewrite IH, length_insert.
Qed.

Lemma lookup_write_notin (qs : list nat) (v : cell) (vs : list cell) (i : nat) :
  i ∉ qs → write qs v vs !! i = vs !! i.
Proof.
  unfold write. revert vs. induction qs as [|q qs IH]; intros vs Hi; simpl; [done|].
  apply not_elem_of_cons in Hi as [Hne Hi].
  rewrite IH by done. by apply list_lookup_insert_ne.
Qed.

Lemma lookup_write_in (qs : list nat) (v : cell) (vs : list cell) (i : nat) :
  i ∈ qs → i < length vs → write qs v vs !! i = Some v.
Proof.
  unfold write. revert vs. induction qs as [|q qs IH]; intros vs Hi Hl; simpl.
  - by apply elem_of_nil in Hi.
  - destruct (decide (i ∈ qs)) as [Hin|Hnin].
    + apply IH; [done|]. by rewrite length_insert.
    + apply elem_of_cons in Hi as [->|Hi]; [|done].
      pose proof (lookup_write_notin qs v (<[q:=v]> vs) q Hnin) as Hw.
      unfold write in Hw. rewrite Hw. by apply list_lookup_insert_eq.
Qed.

Lemma select_ext {A} (ps : list nat) (vs vs' : list A) :
  (∀ i, i ∈ ps → vs' !! i = vs !! i) → select ps vs' = select ps vs.
Proof.
  unfold select. induction ps as [|p ps IH]; intros H; simpl; [done|].
  rewrite (H p) by left.
  assert (E : omap (λ i, vs' !! i) ps = omap (λ i, vs !! i) ps).
  { apply IH. intros i Hi. apply H. by right. }
  destruct (vs !! p); [f_equal|]; exact E.
Qed.

Lemma select_app {A} (ps qs : list nat) (vs : list A) :
  select (ps ++ qs) vs = select ps vs ++ select qs vs.
Proof. unfold select. apply omap_app. Qed.

Lemma nansum_singleton (e : cell) : nansum [e] = Ok e.
Proof. destruct e; reflexivity. Qed.

Lemma elem_of_select {A} (ps : list nat) (vs : list A) (x : A) :
  x ∈ select ps vs ↔ ∃ i, i ∈ ps ∧ vs !! i = Some x.
Proof. unfold select. apply list_elem_of_omap. Qed.

Lemma label_rows_single (df : DataFrame) (n : nat) (rt rt' : list Z) :
  is_multi_index df = false → label_rows df n rt = label_rows df n rt'.
Proof. intros H. unfold label_rows, lab. by rewrite H. Qed.

Lemma child_rows_single (h : list Node) (df : DataFrame) (n : nat)
    (rt rt' : list Z) :
  is_multi_index df = false → child_rows h df n rt = child_rows h df n rt'.
Proof.
  intros H. unfold child_rows. f_equal. apply list_fmap_ext.
  intros i c _. by apply label_rows_single.
Qed.

Lemma rank_threads_complete (df : DataFrame) (n : nat) (gs : list (list Z))
    (rt : list Z) (q : nat) :
  is_multi_index df = true → rank_threads df n = Ok gs →
  q ∈ label_rows df n rt → rt ∈ gs.
Proof.
  intros Hmi Hgs Hq. apply label_rows_node in Hq as (k & Hk & Hn & Hd).
  specialize (Hd Hmi). unfold rank_threads in Hgs.
  assert (Hq : q ∈ positions (has_node n) (keys df)).
  { apply elem_of_positions. exists k. split; [done|].
    unfold has_node. by apply bool_decide_eq_true. }
  destruct (positions (has_node n) (keys df)) as [|p ps] eqn:Hps.
  { by apply elem_of_nil in Hq. }
  injection Hgs as <-. apply elem_of_unique.
  rewrite <- Hd. apply list_elem_of_fmap_2.
  apply (proj2 (elem_of_select (p :: ps) (keys df) k)). eauto.
Qed.

Lemma rank_threads_NoDup (df : DataFrame) (n : nat) (gs : list (list Z)) :
  rank_threads df n = Ok gs → NoDup gs.
Proof.
  unfold rank_threads. destruct (positions _ _); [discriminate|].
  intros H. inversion H. apply NoDup_unique.
Qed.

Section column_sum.
Variables (h : list Node) (df : DataFrame) (vexc : list cell).
Hypothesis Huniq : ∀ n rt, length (label_rows df n rt) ≤ 1.

Lemma rows_singleton (n : nat) (rt : list Z) (q : nat) :
  q ∈ label_rows df n rt → label_rows df n rt = [q].
Proof.
  intros Hq. pose proof (Huniq n rt) as Hl.
  destruct (label_rows df n rt) as [|x [|y l]]; simpl in Hl.
  - by apply elem_of_nil in Hq.
  - by apply list_elem_of_singleton in Hq as ->.
  - lia.
Qed.

Lemma child_rows_not_own (n : nat) (rt rt' : list Z) (q : nat) :
  n ∉ children_of h n →
  q ∈ child_rows h df n rt → q ∉ label_rows df n rt'.
Proof.
  intros Hloop (c & k & Hc & Hk & Hn)%child_rows_node
         (k' & Hk' & Hn' & _)%label_rows_node.
  assert (k' = k) as -> by congruence. subst c. rewrite Hn' in Hc.
  by apply Hloop in Hc.
Qed.

Lemma sum_group_spec (n : nat) (rt : list Z) (vs vs' : list cell) :
  n ∉ children_of h n →
  sum_group nansum h df n rt vs = Ok vs' →
  length vs' = length vs
  ∧ (∀ q, q ∉ label_rows df n rt → vs' !! q = vs !! q)
  ∧ (∀ q e, q ∈ label_rows df n rt → vs !! q = Some e →
       ∃ v, vs' !! q = Some v
            ∧ nansum (e :: select (child_rows h df n rt) vs') = Ok v).
Proof.
  unfold sum_group. intros Hloop H. apply bind_Ok in H as (v & Hv & E).
  inversion E; subst vs'. clear E.
  split; [apply length_write|]. split; [intros q Hq; by apply lookup_write_notin|].
  intros q e Hq He. exists v. split.
  { apply lookup_write_in; [done|]. by eapply lookup_lt_Some. }
  rewrite (select_ext _ vs (write _ v vs)).
  - rewrite (rows_singleton _ _ _ Hq), select_app in Hv.
    unfold select at 1 in Hv. simpl in Hv. rewrite He in Hv. exact Hv.
  - intros i Hi. apply lookup_write_notin.
    eapply child_rows_not_own; [exact Hloop|exact Hi].
Qed.

Lemma sum_groups_spec (n : nat) (gs : list (list Z)) :
  n ∉ children_of h n →
  NoDup gs →
  (∀ rt rt' q, rt ∈ gs → rt' ∈ gs → q ∈ label_rows df n rt →
               q ∈ label_rows df n rt' → rt = rt') →
  ∀ vs vs',
    foldM (λ vs rt, sum_group nansum h df n rt vs) gs vs = Ok vs' →
    length vs' = length vs
    ∧ (∀ q, (∀ rt, rt ∈ gs → q ∉ label_rows df n rt) → vs' !! q = vs !! q)
    ∧ (∀ rt q e, rt ∈ gs → q ∈ label_rows df n rt → vs !! q = Some e →
         ∃ v, vs' !! q = Some v
              ∧ nansum (e :: select (child_rows h df n rt) vs') = Ok v).
Proof.
  intros Hloop.
  induction 1 as [|rt0 gs Hnin Hnd IH]; intros Hdisj vs vs' H; simpl in H.
  - inversion H; subst vs'. split; [done|]. split; [done|].
    intros rt q e Hrt. by apply elem_of_nil in Hrt.
  - apply bind_Ok in H as (vs1 & H1 & H2).
    apply (sum_group_spec _ _ _ _ Hloop) in H1 as (L1 & U1 & R1).
    apply IH in H2 as (L2 & U2 & R2).
    2:{ intros rt rt' q Hrt Hrt'. apply Hdisj; by right. }
    split; [congruence|]. split.
    { intros q Hq. rewrite U2, U1; [done| |].
      - apply Hq. left.
      - intros rt Hrt. apply Hq. by right. }
    assert (Hother : ∀ q, q ∈ label_rows df n rt0 →
                          ∀ rt, rt ∈ gs → q ∉ label_rows df n rt).
    { intros q Hq rt Hrt Hq'. apply Hnin.
      rewrite (Hdisj rt0 rt q); [done|left|by right|done|done]. }
    intros rt q e [->|Hrt]%elem_of_cons Hq He.
    + destruct (R1 q e Hq He) as (v & Hv & Hsum). exists v. split.
      * rewrite U2; [done|]. by apply Hother.
      * rewrite (select_ext _ vs1 vs'); [done|].
        intros i Hi. apply U2. intros rt _.
        eapply child_rows_not_own; [exact Hloop|exact Hi].
    + apply (R2 rt q e Hrt Hq). rewrite U1; [done|].
      intros Hq'. by apply (Hother q Hq' rt Hrt).
Qed.

Lemma sum_node_spec (done : list nat) (vs vs' : list cell) (n : nat) :
  sum_inv h df vexc done vs → n ∉ done → n ∉ children_of h n →
  sum_node nansum h df vs n = Ok vs' →
  length vs' = length vs
  ∧ (∀ q k, keys df !! q = Some k → node k ≠ n → vs' !! q = vs !! q)
  ∧ ∀ rt, sum_rel h df vexc vs' n rt.
Proof.
  intros (IL & IR & IU) Hn Hloop H. unfold sum_node in H.
  assert (Hown : ∀ rt q e, q ∈ label_rows df n rt → vexc !! q = Some e →
                           vs !! q = Some e).
  { intros rt q e (k & Hk & Hkn & _)%label_rows_node He.
    rewrite (IU q k Hk); [done|]. by rewrite Hkn. }
  destruct (children_of h n) as [|c cs] eqn:Hcs.
  { inversion H; subst vs'. split; [done|]. split; [done|].
    intros rt q e Hq He. exists e. split; [by eapply Hown|].
    unfold child_rows. rewrite Hcs. simpl. apply nansum_singleton. }
  rewrite <- Hcs in Hloop.
  apply bind_Ok in H as (gs & Hgs & H). unfold node_groups in Hgs.
  destruct (is_multi_index df) eqn:Hmi.
  - apply (sum_groups_spec _ _ Hloop) in H as (L & U & R).
    2:{ by eapply rank_threads_NoDup. }
    2:{ intros rt rt' q _ _ (k & Hk & _ & Hd)%label_rows_node
               (k' & Hk' & _ & Hd')%label_rows_node.
        rewrite <- (Hd Hmi), <- (Hd' Hmi). congruence. }
    split; [done|]. split.
    { intros q k Hk Hne. apply U. intros rt _ (k' & Hk' & Hkn & _)%label_rows_node.
      congruence. }
    intros rt q e Hq He. apply (R rt q e); [|done|by eapply Hown].
    by eapply rank_threads_complete.
  - apply bind_Ok in Hgs as (ps & _ & E). inversion E; subst gs. clear E.
    apply (sum_groups_spec _ _ Hloop) in H as (L & U & R).
    2:{ apply NoDup_singleton. }
    2:{ intros rt rt' q ->%list_elem_of_singleton ->%list_elem_of_singleton.
        done. }
    split; [done|]. split.
    { intros q k Hk Hne. apply U. intros rt _ (k' & Hk' & Hkn & _)%label_rows_node.
      congruence. }
    intros rt q e Hq He.
    rewrite (label_rows_single df n rt [] Hmi) in Hq.
    rewrite (child_rows_single h df n rt [] Hmi).
    apply (R [] q e); [by left|done|].
    eapply Hown; [|done]. exact Hq.
Qed.

(** The loop over the nodes, in an order that visits children first. *)
Lemma sum_column_spec (ns : list nat) :
  ∀ done vs vs',
    sum_inv h df vexc done vs →
    (∀ n, n ∈ ns → n ∉ done) → NoDup ns →
    (∀ m c, m ∈ done → c ∈ children_of h m → c ∈ done) →
    (∀ pre m suf, ns = pre ++ m :: suf →
       ∀ c, c ∈ children_of h m → c ∈ done ∨ c ∈ pre) →
    foldM (sum_node nansum h df) ns vs = Ok vs' →
    sum_inv h df vexc (done ++ ns) vs'.
Proof.
  induction ns as [|n ns IH]; intros done vs vs' Hinv Hfresh Hnd Hclosed Hord H;
    simpl in H.
  - inversion H; subst vs'. by rewrite app_nil_r.
  - apply bind_Ok in H as (vs1 & H1 & H2).
    apply NoDup_cons in Hnd as [Hn Hnd].
    assert (Hch : ∀ c, c ∈ children_of h n → c ∈ done).
    { intros c Hc. destruct (Hord [] n ns eq_refl c Hc) as [?|?%elem_of_nil];
        done. }
    assert (Hloop : n ∉ children_of h n).
    { intros Hc. apply (Hfresh n ltac:(left)). by apply Hch. }
    pose proof (sum_node_spec done vs vs1 n Hinv (Hfresh n ltac:(left)) Hloop H1)
      as (L & U & R).
    destruct Hinv as (IL & IR & IU).
    replace (done ++ n :: ns) with ((done ++ [n]) ++ ns)
      by (by rewrite <- app_assoc).
    apply (IH (done ++ [n]) vs1 vs'); [| | | | |exact H2].
    + split; [congruence|]. split.
      * intros m rt [Hm| ->%list_elem_of_singleton]%elem_of_app; [|apply R].
        assert (Hmn : m ≠ n) by (intros ->; by apply (Hfresh n ltac:(left))).
        intros q e Hq He. destruct (IR m rt Hm q e Hq He) as (v & Hv & Hsum).
        exists v. split.
        -- apply label_rows_node in Hq as (k & Hk & Hkn & _).
           rewrite (U q k Hk); [done|congruence].
        -- rewrite (select_ext _ vs vs1); [done|].
           intros i (c & k & Hc & Hk & Hkc)%child_rows_node.
           apply (U i k Hk). intros Hkn.
           apply (Hfresh n ltac:(left)).
           assert (c = n) as <- by congruence. by apply (Hclosed m c Hm).
      * intros q k Hk Hnk. rewrite (U q k Hk).
        -- apply (IU q k Hk). intros ?. apply Hnk. apply elem_of_app. by left.
        -- intros Hkn. apply Hnk. apply elem_of_app. right. rewrite Hkn. left.
    + intros m Hm [Hd| ->%list_elem_of_singleton]%elem_of_app.
      * apply (Hfresh m); [by right|done].
      * done.
    + done.
    + intros m c [Hm| ->%list_elem_of_singleton]%elem_of_app Hc.
      * apply elem_of_app. left. by eapply Hclosed.
      * apply elem_of_app. left. by apply Hch.
    + intros pre m suf -> c Hc.
      destruct (Hord (n :: pre) m suf eq_refl c Hc) as [Hd|[->|Hp]%elem_of_cons].
      * left. apply elem_of_app. by left.
      * left. apply elem_of_app. right. left.
      * by right.
Qed.
End column_sum.

(** *** From the store to one column *)

Lemma proj_ok_ext (outbufs : list nat) (F F' : list cell → result (list cell))
    (st st' : Store) :
  (∀ vs, F vs = F' vs) → proj_ok outbufs F st st' → proj_ok outbufs F' st st'.
Proof.
  intros He (H1 & H2 & H3). split; [done|]. split; [done|].
  intros b vs Hb Hvs. destruct (H3 b vs Hb Hvs) as (vs' & Hf & Hl).
  exists vs'. by rewrite <- He.
Qed.

Lemma proj_ok_id (outbufs : list nat) (st : Store) :
  proj_ok outbufs Ok st st.
Proof.
  split; [reflexivity|]. split; [done|]. intros b vs _ Hvs. by exists vs.
Qed.

Lemma proj_foldM {A} (h : list Node) (outbufs : list nat)
    (F : A → list cell → result (list cell))
    (f : Store → A → result Store) (l : list A) :
  (∀ st x st', nodes st = h → x ∈ l → f st x = Ok st' →
               proj_ok outbufs (F x) st st') →
  ∀ st st', nodes st = h → foldM f l st = Ok st' →
    proj_ok outbufs (λ vs, foldM (λ vs x, F x vs) l vs) st st'.
Proof.
  induction l as [|x l IH]; intros Hf st st' Hh H; simpl in H.
  - inversion H; subst st'. apply proj_ok_id.
  - apply bind_Ok in H as (st1 & H1 & H2).
    apply Hf in H1 as ([Hn1 Hg1] & U1 & P1); [|done|left].
    apply IH in H2 as ([Hn2 Hg2] & U2 & P2); [| |congruence].
    2:{ intros st0 y st0' Hh0 Hy. apply Hf; [done|by right]. }
    split; [split; congruence|]. split.
    + intros b Hb. by rewrite U2, U1.
    + intros b vs Hb Hvs. destruct (P1 b vs Hb Hvs) as (vs1 & Hv1 & Hl1).
      destruct (P2 b vs1 Hb Hl1) as (vs2 & Hv2 & Hl2).
      exists vs2. split; [|done]. simpl. by rewrite Hv1.
Qed.

(** The loop over the output columns: each column is written once. *)
Lemma proj_outs (df : DataFrame) (G : list cell → result (list cell))
    (f : Store → string → result Store) :
  (∀ st col st', f st col = Ok st' →
     ∃ b vs vs', assoc col (columns df) = Some b ∧ buffers st !! b = Some vs
                 ∧ G vs = Ok vs'
                 ∧ st' = set_buffers st (<[b := vs']> (buffers st))) →
  ∀ outs st st', NoDup (bufs_of df outs) → foldM f outs st = Ok st' →
    proj_ok (bufs_of df outs) G st st'.
Proof.
  intros Hf. induction outs as [|o outs IH]; intros st st' Hnd H; simpl in H.
  - inversion H; subst st'. split; [reflexivity|]. split; [done|].
    intros b vs Hb. by apply elem_of_nil in Hb.
  - apply bind_Ok in H as (st1 & H1 & H2).
    apply Hf in H1 as (b & vs & vs1 & Hb & Hvs & HG & ->).
    unfold bufs_of in *. simpl in Hnd |- *. rewrite Hb in Hnd |- *.
    apply NoDup_cons in Hnd as [Hnin Hnd].
    apply IH in H2 as ([Hn2 Hg2] & U2 & P2); [|done].
    simpl in Hn2, Hg2, U2, P2.
    split; [by split|]. split.
    + intros b' [Hne Hb']%not_elem_of_cons. rewrite U2 by done.
      by apply list_lookup_insert_ne.
    + intros b' vs0 [->|Hb']%elem_of_cons Hvs0.
      * assert (vs0 = vs) as -> by congruence.
        exists vs1. split; [done|]. rewrite U2 by done.
        apply list_lookup_insert_eq. by eapply lookup_lt_Some.
      * apply P2; [done|]. rewrite list_lookup_insert_ne; [done|].
        intros ->. done.
Qed.

Lemma alter_as_insert {A} (f : A → A) (l : list A) (i : nat) (x : A) :
  l !! i = Some x → alter f i l = <[i := f x]> l.
Proof.
  intros Hx. apply list_eq. intros j.
  destruct (decide (i = j)) as [->|Hne].
  - rewrite list_lookup_alter_eq, Hx. simpl.
    symmetry. apply list_lookup_insert_eq. by eapply lookup_lt_Some.
  - rewrite list_lookup_alter_ne by done. by rewrite list_lookup_insert_ne.
Qed.

(** One assignment [df.loc[qs, col] = function(df.loc[ps, col])]. *)
Lemma write_step (st st' : Store) (df : DataFrame) (col : string)
    (function : list cell → result cell) (ps qs : list nat) :
  (vs ← column st df col; v ← function (select ps vs);
   write_cells st df col qs v) = Ok st' →
  ∃ b vs vs', assoc col (columns df) = Some b ∧ buffers st !! b = Some vs
              ∧ (v ← function (select ps vs); Ok (write qs v vs)) = Ok vs'
              ∧ st' = set_buffers st (<[b := vs']> (buffers st)).
Proof.
  intros H. apply bind_Ok in H as (vs & Hc & H).
  apply bind_Ok in H as (v & Hv & H).
  unfold column in Hc. apply bind_Ok in Hc as (b & Hb%getitem_Ok & Hvs%getitem_Ok).
  unfold write_cells in H. rewrite Hb in H. simpl in H.
  exists b, vs, (write qs v vs). split; [done|]. split; [done|]. split.
  { by rewrite Hv. }
  inversion H. f_equal.
  by apply (alter_as_insert (λ vs, fold_left (λ vs i, <[i:=v]> vs) qs vs)).
Qed.

Lemma loc_labels_Ok (ks : list Key) (labels : list nat) (ps : list nat) :
  loc_labels ks labels = Ok ps →
  ps = concat ((λ n, positions (has_node n) ks) <$> labels).
Proof.
  unfold loc_labels. intros H. apply fmap_Ok in H as (pss & H & ->). f_equal.
  revert pss H. induction labels as [|n labels IH]; intros pss H; simpl in H.
  - by inversion H.
  - apply bind_Ok in H as (p & Hp & H). apply bind_Ok in H as (rest & Hr & E).
    inversion E; subst pss. simpl. f_equal; [|by apply IH].
    destruct (positions (has_node n) ks); [discriminate|]. by inversion Hp.
Qed.

Lemma label_rows_multi (df : DataFrame) (n : nat) (rt : list Z) :
  is_multi_index df = true →
  label_rows df n rt = positions (has_key n rt) (keys df).
Proof. intros H. unfold label_rows, lab. by rewrite H. Qed.

Lemma label_rows_node_only (df : DataFrame) (n : nat) (rt : list Z) :
  is_multi_index df = false →
  label_rows df n rt = positions (has_node n) (keys df).
Proof. intros H. unfold label_rows, lab. by rewrite H. Qed.

Lemma bind_ret {A} (m : result A) : m ≫= Ok = m.
Proof. by destruct m. Qed.

(** The loop of [subtree_sum] acts on each output column as [sum_node]
    does, node after node. *)
Lemma subtree_sum_proj (st st' : Store) (gf gf' : GraphFrame)
    (cols : list string) (outs0 : option (list string))
    (function : list cell → result cell) :
  subtree_sum st gf cols outs0 function = Ok (st', gf') →
  ∃ st1 outs g ns,
    _init_sum_columns st gf cols outs0 = Ok (st1, gf', outs)
    ∧ graphs st1 !! graph gf' = Some g
    ∧ graph_traverse (nodes st1) g Post = Ok ns
    ∧ (NoDup (bufs_of (dataframe gf') outs) →
       proj_ok (bufs_of (dataframe gf') outs)
               (λ vs, foldM (sum_node function (nodes st1) (dataframe gf')) ns vs)
               st1 st').
Proof.
  unfold subtree_sum. intros H.
  apply bind_Ok in H as ([[st1 gf1] outs] & Hi & H).
  apply bind_Ok in H as (g & Hg%getitem_Ok & H).
  apply bind_Ok in H as (ns & Hns & H).
  apply bind_Ok in H as (st2 & H & E). inversion E; subst st2 gf1. clear E.
  exists st1, outs, g, ns. repeat (split; [done|]). intros Hnd.
  set (df := dataframe gf') in *. set (h := nodes st1) in *.
  refine (proj_foldM h _ (λ n vs, sum_node function h df vs n) _ ns _
                     st1 st' eq_refl H).
  clear H. intros st0 n st0' Hh _ Hb. cbv beta in Hb. rewrite Hh in Hb.
  unfold sum_node, node_groups.
  destruct (children_of h n) as [|c cs] eqn:Hcs.
  { inversion Hb; subst st0'. apply proj_ok_id. }
  destruct (is_multi_index df) eqn:Hmi.
  - apply bind_Ok in Hb as (rts & Hrts & Hb).
    eapply proj_ok_ext;
      [|refine (proj_foldM h _ (λ rt vs, sum_group function h df n rt vs) _
                           rts _ st0 st0' Hh Hb)].
    { intros vs. rewrite Hrts. reflexivity. }
    clear Hb. intros st2 rt st2' Hh2 _ Hb.
    eapply proj_ok_ext; [|eapply (proj_outs df); [|exact Hnd|exact Hb]].
    2:{ intros st3 col st3' Hs. apply write_step in Hs. exact Hs. }
    intros vs. unfold sum_group, child_rows. rewrite Hcs.
    rewrite !(label_rows_multi df n rt Hmi).
    unfold loc_labels_at. simpl.
    unfold label_rows, lab. rewrite Hmi. reflexivity.
  - eapply proj_ok_ext;
      [|eapply (proj_outs df
           (λ vs, ps ← loc_labels (keys df) (n :: c :: cs);
                  v ← function (select ps vs);
                  Ok (write (positions (has_node n) (keys df)) v vs)));
        [|exact Hnd|exact Hb]].
    2:{ intros st3 col st3' Hs. apply bind_Ok in Hs as (ps & Hps & Hs).
        apply write_step in Hs as (b & vs & vs' & Hb1 & Hb2 & Hb3 & Hb4).
        exists b, vs, vs'. repeat (split; [done|]). split; [|done].
        rewrite Hps. exact Hb3. }
    intros vs. destruct (loc_labels (keys df) (n :: c :: cs)) as [ps|e] eqn:Hps;
      [|reflexivity].
    apply loc_labels_Ok in Hps. simpl. rewrite bind_ret.
    unfold sum_group, child_rows. rewrite Hcs.
    rewrite !(label_rows_node_only df n [] Hmi).
    subst ps. simpl. unfold label_rows, lab. rewrite Hmi. reflexivity.
Qed.

(** *** The output columns start as copies of the input columns *)

Lemma setitem_live (st : Store) (df : DataFrame) (c : string) (vs : list cell) :
  live_columns st df → live_columns (setitem st df c vs).1 (setitem st df c vs).2.
Proof.
  intros Hl c' b. unfold setitem. simpl. rewrite length_app. simpl.
  destruct (decide (c' = c)) as [->|Hne].
  - rewrite assoc_set_eq. intros E. inversion E. lia.
  - rewrite assoc_set_ne by done. intros E%Hl. lia.
Qed.

Lemma init_fold_spec (pairs : list (string * string)) :
  ∀ st df st' df',
    live_columns st df →
    NoDup (snd <$> pairs) →
    (∀ c, c ∈ fst <$> pairs → c ∉ snd <$> pairs) →
    foldM (λ '(st', df') '(col, out),
             vs ← column st' df' col; Ok (setitem st' df' out vs))
          pairs (st, df) = Ok (st', df') →
    same_graphs st st' ∧ keys df' = keys df
    ∧ index_names df' = index_names df
    ∧ live_columns st' df'
    ∧ (∃ new, buffers st' = buffers st ++ new ∧ length new = length pairs)
    ∧ (∀ c, c ∉ snd <$> pairs → assoc c (columns df') = assoc c (columns df))
    ∧ (∀ i c o, pairs !! i = Some (c, o) →
         assoc o (columns df') = Some (length (buffers st) + i)
         ∧ ∃ vs, column st df c = Ok vs
                 ∧ buffers st' !! (length (buffers st) + i) = Some vs).
Proof.
  induction pairs as [|[c o] pairs IH]; intros st df st' df' Hlive Hnd Hdisj H;
    simpl in H.
  - inversion H; subst st' df'. split; [reflexivity|].
    repeat (split; [done|]). split; [exists []; by rewrite app_nil_r|].
    split; [done|]. intros i c o Hi. by rewrite lookup_nil in Hi.
  - apply bind_Ok in H as ([st1 df1] & H1 & H2).
    apply bind_Ok in H1 as (vs & Hvs & E). inversion E; subst st1 df1. clear E.
    simpl in Hnd. apply NoDup_cons in Hnd as [Ho Hnd].
    apply IH in H2 as ([Hn Hg] & Hk & Hidx & Hlive' & (new & Hnew & Hlen) & Hold & Hout).
    2:{ apply (setitem_live st df o vs Hlive). }
    2:{ done. }
    2:{ intros c' Hc' Ho'. apply (Hdisj c'); simpl; by right. }
    simpl in Hn, Hg, Hk, Hidx, Hnew, Hold, Hout.
    split; [by split|]. split; [done|]. split; [done|]. split; [done|].
    split.
    { exists (vs :: new). rewrite Hnew, <- app_assoc. simpl. by rewrite Hlen. }
    split.
    { intros c' Hc'. simpl in Hc'. apply not_elem_of_cons in Hc' as [Hne Hc'].
      rewrite Hold by done. by apply assoc_set_ne. }
    intros i c' o' Hi. destruct i as [|i]; simpl in Hi.
    + inversion Hi; subst c' o'. split.
      * rewrite Hold by done. rewrite assoc_set_eq. f_equal. lia.
      * exists vs. split; [done|]. rewrite Hnew, <- app_assoc.
        rewrite lookup_app_r by lia.
        replace (length (buffers st) + 0 - length (buffers st)) with 0 by lia.
        done.
    + destruct (Hout i c' o' Hi) as (Ha & vs' & Hc' & Hb').
      rewrite length_app in Ha, Hb'. simpl in Ha, Hb'.
      replace (length (buffers st) + 1 + i) with (length (buffers st) + S i)
        in Ha, Hb' by lia.
      split; [done|]. exists vs'. split; [|done].
      assert (Hne : c' ≠ o).
      { intros ->. apply (Hdisj o); simpl.
        - right. apply list_elem_of_fmap. exists (o, o'). split; [done|].
          by eapply list_elem_of_lookup_2.
        - left. }
      unfold column in Hc' |- *. simpl in Hc'.
      rewrite assoc_set_ne in Hc' by done.
      destruct (assoc c' (columns df)) as [b|] eqn:Hb; [|done]. simpl in *.
      apply Hlive in Hb. by rewrite lookup_app_l in Hc' by done.
Qed.

Lemma omap_indexed {A B} (f : A → option B) (l : list A) :
  ∀ g : nat → B, (∀ i x, l !! i = Some x → f x = Some (g i)) →
    omap f l = g <$> seq 0 (length l).
Proof.
  induction l as [|x l IH]; intros g Hg; simpl; [done|].
  rewrite (Hg 0 x eq_refl). f_equal.
  rewrite <- fmap_S_seq, <- list_fmap_compose.
  change (omap f l = (g ∘ S) <$> seq 0 (length l)).
  apply IH. intros i y Hy. apply (Hg (S i) y Hy).
Qed.

Lemma label_rows_eq (df df' : DataFrame) (n : nat) (rt : list Z) :
  keys df' = keys df → index_names df' = index_names df →
  label_rows df' n rt = label_rows df n rt.
Proof.
  intros Hk Hi. unfold label_rows, lab, is_multi_index. by rewrite Hk, Hi.
Qed.

Lemma tc_last {A} (R : relation A) (x z : A) :
  tc R x z → ∃ y, rtc R x y ∧ R y z.
Proof.
  induction 1 as [x z Hxz|x y z Hxy _ (y' & Hyy' & Hy'z)].
  - exists x. split; [constructor|done].
  - exists y'. split; [by eapply rtc_l|done].
Qed.

Lemma NoDup_concat_lookup {A} (ls : list (list A)) :
  NoDup (concat ls) →
  ∀ i j a b x, ls !! i = Some a → ls !! j = Some b → x ∈ a → x ∈ b → i = j.
Proof.
  induction ls as [|l ls IH]; intros Hnd i j a b x Hi Hj Ha Hb;
    [by rewrite lookup_nil in Hi|].
  simpl in Hnd. apply NoDup_app in Hnd as (_ & Hdisj & Hnd).
  assert (Hin : ∀ k c, ls !! k = Some c → x ∈ c → x ∈ concat ls).
  { intros k c Hk Hc. apply elem_of_concat. exists c. split; [|done].
    by eapply list_elem_of_lookup_2. }
  destruct i as [|i], j as [|j]; simpl in Hi, Hj.
  - done.
  - injection Hi as <-. exfalso. apply (Hdisj x Ha). by eapply Hin.
  - injection Hj as <-. exfalso. apply (Hdisj x Hb). by eapply Hin.
  - f_equal. by eapply IH.
Qed.

(** A graph that [is_tree] accepts has no cycle: no edge of the graph
    leads to a root, and no two edges of the graph lead to the same node. *)
Lemma is_tree_acyclic (h : list Node) (g : Graph) :
  wf_heap h → (∀ r, r ∈ roots g → r < length h) →
  is_tree h g = Ok true → acyclic_from h (roots g).
Proof.
  intros Hwf Hroots H. unfold is_tree in H.
  apply bind_Ok in H as (ns & Hns & E). injection E as E.
  apply andb_true_iff in E as [_ Hnd]. apply bool_decide_eq_true in Hnd.
  destruct (graph_traverse_spec h g Pre Hwf Hroots) as (l & Hl & _ & Hin & _).
  assert (l = ns) as -> by congruence.
  apply NoDup_app in Hnd as (_ & Hdisj & Hnd).
  assert (Hpar : ∀ m1 m2 n, in_graph h g m1 → in_graph h g m2 →
                            edge h m1 n → edge h m2 n → m1 = m2).
  { intros m1 m2 n (i & Hi)%Hin%list_elem_of_lookup
           (j & Hj)%Hin%list_elem_of_lookup H1 H2.
    assert (i = j) as ->; [|congruence].
    apply (NoDup_concat_lookup _ Hnd i j (children_of h m1) (children_of h m2) n);
      [by rewrite list_lookup_fmap, Hi|by rewrite list_lookup_fmap, Hj|done..]. }
  assert (Hroot : ∀ r m, r ∈ roots g → in_graph h g m → ¬ edge h m r).
  { intros r m Hr Hm%Hin Hmr. apply (Hdisj r Hr). apply elem_of_concat.
    exists (children_of h m). split; [by apply list_elem_of_fmap_2|done]. }
  intros n (r & Hr & Hp) Hcyc. apply rtc_nsteps in Hp as [k Hp].
  revert n Hp Hcyc. induction k as [|k IH]; intros n Hp Hcyc.
  - inversion Hp; subst.
    apply tc_last in Hcyc as (m & Hnm & Hmn).
    apply (Hroot n m Hr); [by exists n|done].
  - apply nsteps_inv_r in Hp as (m & Hp & Hmn).
    pose proof Hcyc as (m' & Hnm' & Hm'n)%tc_last.
    assert (Hgm : in_graph h g m).
    { exists r. split; [done|]. by eapply rtc_nsteps_2. }
    assert (Hgm' : in_graph h g m').
    { exists r. split; [done|]. etrans; [by eapply rtc_nsteps_2|].
      by eapply rtc_l. }
    assert (m' = m) as -> by (by eapply Hpar).
    apply (IH m Hp). eapply tc_rtc_r; [by apply tc_once|done].
Qed.

(** [subtree_sum] into separate output columns: each output column holds,
    at every node of the graph, the sum of the input value of the node and
    of the output values of its direct children. *)
Lemma subtree_sum_rel (st st' : Store) (gf gf' : GraphFrame)
    (cols outs : list string) (g : Graph) :
  wf_heap (nodes st) → acyclic_from (nodes st) (roots g) →
  graphs st !! graph gf = Some g →
  (∀ r, r ∈ roots g → r < length (nodes st)) →
  live_columns st (dataframe gf) →
  (∀ n rt, length (label_rows (dataframe gf) n rt) ≤ 1) →
  NoDup outs → (∀ c, c ∈ cols → c ∉ outs) →
  subtree_sum st gf cols (Some outs) nansum = Ok (st', gf') →
  same_graphs st st' ∧ graph gf' = graph gf
  ∧ keys (dataframe gf') = keys (dataframe gf)
  ∧ index_names (dataframe gf') = index_names (dataframe gf)
  ∧ exc_metrics gf' = exc_metrics gf ∧ inc_metrics gf' = inc_metrics gf
  ∧ ∀ i c o, cols !! i = Some c → outs !! i = Some o →
      ∃ vexc vinc,
        column st' (dataframe gf') c = Ok vexc
        ∧ column st' (dataframe gf') o = Ok vinc
        ∧ ∀ n rt, in_graph (nodes st) g n →
            sum_rel (nodes st) (dataframe gf') vexc vinc n rt.
Proof.
  intros Hwf Hac Hg Hroots Hlive Huniq Hnd Hdisj H.
  apply subtree_sum_proj in H as (st1 & outs' & g' & ns & Hinit & Hg' & Hns & Hproj).
  unfold _init_sum_columns in Hinit.
  apply bind_Ok in Hinit as ([[st1' gf1] outs1] & Hfold & Hchk).
  apply bind_Ok in Hfold as ([st1'' df'] & Hfold & E).
  inversion E; subst st1'' gf1 outs1. clear E.
  destruct (bool_decide (length cols ≠ length outs)) eqn:Hlen; [discriminate|].
  apply bool_decide_eq_false in Hlen. apply dec_stable in Hlen.
  inversion Hchk; subst st1' gf' outs'. clear Hchk.
  simpl in Hg', Hproj |- *.
  apply init_fold_spec in Hfold
    as ([Hn1 Hg1] & Hk & Hidx & Hlive1 & (new & Hnew & Hnewlen) & Hold & Hout);
    [|done|rewrite snd_zip by lia; done|].
  2:{ rewrite fst_zip, snd_zip by lia. exact Hdisj. }
  rewrite Hn1 in Hns, Hproj. rewrite Hg1, Hg in Hg'.
  assert (g' = g) as -> by congruence.
  destruct (graph_traverse_spec (nodes st) g Post Hwf Hroots)
    as (ns' & Hns' & Hndn & Hin & Hord).
  assert (ns' = ns) as -> by congruence.
  set (base := length (buffers st)) in *.
  assert (Hpair : ∀ i c o, cols !! i = Some c → outs !! i = Some o →
                           zip cols outs !! i = Some (c, o)).
  { intros i c o Hc Ho. apply lookup_zip_with_Some. eauto. }
  assert (Hbufs : bufs_of df' outs = (λ i, base + i) <$> seq 0 (length outs)).
  { unfold bufs_of. apply omap_indexed. intros i o Ho.
    destruct (lookup_lt_is_Some_2 cols i) as [c Hc].
    { rewrite Hlen. by eapply lookup_lt_Some. }
    by destruct (Hout i c o (Hpair i c o Hc Ho)). }
  assert (Hnb : NoDup (bufs_of df' outs)).
  { rewrite Hbufs. apply NoDup_fmap_2; [|apply NoDup_seq].
    intros x y ?. lia. }
  destruct (Hproj Hnb) as ([Hn2 Hg2] & Hunch & Hwr).
  split; [split; congruence|]. repeat (split; [done|]).
  intros i c o Hc Ho.
  destruct (Hout i c o (Hpair i c o Hc Ho)) as (Hbo & vexc & Hvexc & Hb1).
  destruct (Hwr (base + i) vexc) as (vinc & Hsum & Hb2); [|done|].
  { rewrite Hbufs. apply list_elem_of_fmap_2, elem_of_seq.
    apply lookup_lt_Some in Ho. lia. }
  exists vexc, vinc. split; [|split].
  - unfold column in Hvexc |- *. simpl.
    rewrite Hold
      by (rewrite snd_zip by lia; apply Hdisj; by eapply list_elem_of_lookup_2).
    destruct (assoc c (columns (dataframe gf))) as [b|] eqn:Hb; [|done].
    simpl in *. apply Hlive in Hb.
    rewrite Hunch.
    + rewrite Hnew, lookup_app_l by done. done.
    + rewrite Hbufs. intros (j & -> & _)%list_elem_of_fmap. unfold base in Hb. lia.
  - unfold column. simpl. rewrite Hbo. simpl. by rewrite Hb2.
  - intros n rt Hn.
    assert (Huniq' : ∀ n rt, length (label_rows df' n rt) ≤ 1).
    { intros m rt'. rewrite (label_rows_eq (dataframe gf) df') by done.
      apply Huniq. }
    pose proof (sum_column_spec (nodes st) df' vexc Huniq'
                  ns [] vexc vinc) as Hspec.
    destruct Hspec as (_ & Hrel & _).
    + split; [done|]. split; [|done]. by intros m rt' ?%elem_of_nil.
    + intros m _ ?%elem_of_nil. done.
    + done.
    + by intros m c' ?%elem_of_nil.
    + intros pre m suf -> c' Hc'. right.
      by apply (Hord eq_refl Hac pre m suf eq_refl c').
    + done.
    + apply Hrel. simpl. by apply Hin.
Qed.

(** [update_inclusive_columns] on a tree. *)
Lemma update_inclusive_rel (st st' : Store) (gf gf' : GraphFrame) (g : Graph) :
  wf_heap (nodes st) →
  graphs st !! graph gf = Some g →
  (∀ r, r ∈ roots g → r < length (nodes st)) →
  is_tree (nodes st) g = Ok true →
  live_columns st (dataframe gf) →
  (∀ n rt, length (label_rows (dataframe gf) n rt) ≤ 1) →
  NoDup (inc_name <$> exc_metrics gf) →
  (∀ c, c ∈ exc_metrics gf → c ∉ inc_name <$> exc_metrics gf) →
  update_inclusive_columns st gf = Ok (st', gf') →
  same_graphs st st' ∧ graph gf' = graph gf
  ∧ keys (dataframe gf') = keys (dataframe gf)
  ∧ index_names (dataframe gf') = index_names (dataframe gf)
  ∧ exc_metrics gf' = exc_metrics gf
  ∧ ∀ exc, exc ∈ exc_metrics gf →
      ∃ vexc vinc,
        column st' (dataframe gf') exc = Ok vexc
        ∧ column st' (dataframe gf') (inc_name exc) = Ok vinc
        ∧ ∀ n rt, in_graph (nodes st) g n →
            sum_rel (nodes st) (dataframe gf') vexc vinc n rt.
Proof.
  intros Hwf Hg Hroots Htree Hlive Huniq Hnd Hdisj H.
  pose proof (is_tree_acyclic _ _ Hwf Hroots Htree) as Hac.
  unfold update_inclusive_columns in H.
  destruct (exc_metrics gf) as [|e0 es] eqn:Hexc.
  { inversion H; subst st' gf'. split; [reflexivity|].
    repeat (split; [done|]). intros exc Hin. by apply elem_of_nil in Hin. }
  rewrite <- Hexc in *.
  apply bind_Ok in H as ([st2 gf2] & H & E). inversion E; subst st' gf'. clear E.
  unfold subgraph_sum in H. simpl in H. rewrite Hg in H. simpl in H.
  rewrite Htree in H. simpl in H.
  apply (subtree_sum_rel _ _ _ _ _ _ g) in H
    as (Hs & Hgr & Hk & Hidx & Hex & Hinc & Hrel); try done.
  simpl in *.
  split; [done|]. repeat (split; [done|]).
  intros exc (i & Hi)%list_elem_of_lookup.
  apply (Hrel i exc (inc_name exc) Hi).
  by rewrite list_lookup_fmap, Hi.
Qed.

(** *** [generate_exclusive_columns] leaves the graph and the index alone *)

Lemma assoc_imap_range (cols : Columns) (c : string) :
  ∀ base b, assoc c (imap (λ i p, (fst p, base + i)) cols) = Some b →
            base ≤ b < base + length cols.
Proof.
  induction cols as [|[c0 vs0] cols IH]; intros base b H; simpl in H;
    [discriminate|].
  destruct (decide (c = c0)) as [->|Hne].
  - inversion H. simpl. lia.
  - erewrite imap_ext in H.
    + apply (IH (S base)) in H. simpl. lia.
    + intros i [c1 v1] _. simpl. f_equal. lia.
Qed.

Lemma df_new_live (st st' : Store) (idx : list string) (ks : list Key)
    (cols : Columns) (df' : DataFrame) :
  df_new st idx ks cols = (st', df') → live_columns st' df'.
Proof.
  unfold df_new, alloc_columns. intros H. inversion H; subst st' df'.
  intros c b Hb. simpl in *. apply assoc_imap_range in Hb.
  rewrite length_app, length_fmap. lia.
Qed.

Lemma generate_exclusive_frame (st st' : Store) (gf gf' : GraphFrame) :
  live_columns st (dataframe gf) →
  generate_exclusive_columns st gf = Ok (st', gf') →
  same_graphs st st' ∧ graph gf' = graph gf
  ∧ keys (dataframe gf') = keys (dataframe gf)
  ∧ index_names (dataframe gf') = index_names (dataframe gf)
  ∧ live_columns st' (dataframe gf').
Proof.
  intros Hlive H. unfold generate_exclusive_columns in H.
  apply bind_Ok in H as (pairs & _ & H).
  apply bind_Ok in H as ([st1 gf1] & H & E). inversion E; subst st' gf'. clear E.
  simpl.
  revert st gf Hlive H. induction pairs as [|[exc inc] pairs IH];
    intros st gf Hlive H; simpl in H.
  - inversion H; subst st1 gf1. split; [reflexivity|]. by repeat split.
  - apply bind_Ok in H as ([st2 gf2] & Hstep & H).
    apply bind_Ok in Hstep as (new_data & _ & Hstep).
    apply bind_Ok in Hstep as ([st3 df3] & Hcopy & Hstep).
    unfold df_copy in Hcopy. apply bind_Ok in Hcopy as (cols & _ & Hnew).
    assert (Hnew' : df_new st (index_names (dataframe gf))
                      (keys (dataframe gf)) cols = (st3, df3)) by congruence.
    clear Hnew.
    pose proof (df_new_frame _ _ _ _ _ _ Hnew') as [Hn3 Hg3].
    pose proof (df_new_live _ _ _ _ _ _ Hnew') as Hl3.
    destruct (column_df_new _ _ _ _ _ _ "" Hnew') as (_ & Hk3 & Hi3).
    pose proof (setitem_live st3 df3 exc
                  (series_aligned df3 new_data) Hl3) as Hl4.
    unfold setitem in Hstep, Hl4. simpl in Hl4.
    inversion Hstep; subst st2 gf2. clear Hstep.
    apply IH in H as ([Hn Hg] & Hgr & Hk & Hi & Hl); [|exact Hl4].
    simpl in *. split; [split; congruence|].
    split; [done|]. split; [congruence|]. split; [congruence|done].
Qed.

Lemma wf_frame_live (st : Store) (df : DataFrame) :
  wf_frame st df → live_columns st df.
Proof.
  unfold wf_frame, live_columns. intros Hwf c b Hb.
  induction (columns df) as [|[c0 b0] l IH]; simpl in Hb; [discriminate|].
  apply Forall_cons in Hwf as [(vs & Hvs & _) Hwf]. simpl in Hvs.
  destruct (decide (c = c0)).
  - inversion Hb; subst b0. by eapply lookup_lt_Some.
  - by apply IH.
Qed.

Lemma positions_unique {K} (f : Key → K) (x : K) (p : Key → bool)
    (ks : list Key) (i : nat) :
  (∀ k, p k = true → f k = x) → NoDup (f <$> ks) →
  length (positions_from i p ks) ≤ 1.
Proof.
  intros Hp. revert i. induction ks as [|k ks IH]; intros i Hnd; simpl; [lia|].
  simpl in Hnd. apply NoDup_cons in Hnd as [Hk Hnd].
  destruct (p k) eqn:Hpk; [|by apply IH].
  assert (Hnone : ∀ j, positions_from j p ks = []).
  { intros j. destruct (positions_from j p ks) as [|q l] eqn:E; [done|].
    exfalso. assert (Hq : q ∈ positions_from j p ks) by (rewrite E; left).
    apply elem_of_positions_from in Hq as (k' & _ & Hk' & Hpk').
    apply Hk. rewrite (Hp k Hpk), <- (Hp k' Hpk').
    apply list_elem_of_fmap_2. by eapply list_elem_of_lookup_2. }
  rewrite Hnone. simpl. lia.
Qed.

(** Distinct labels give one row per label. *)
Lemma NoDup_unique_rows (df : DataFrame) :
  (if is_multi_index df then NoDup ((λ k, (node k, dims k)) <$> keys df)
   else NoDup (node <$> keys df)) →
  unique_rows df.
Proof.
  intros H n rt. unfold label_rows, lab, positions.
  destruct (is_multi_index df).
  - apply (positions_unique (λ k, (node k, dims k)) (n, rt)); [|done].
    intros k [H1 H2]%andb_true_iff.
    apply bool_decide_eq_true in H1, H2. by rewrite H1, H2.
  - apply (positions_unique node n); [|done].
    intros k Hk. by apply bool_decide_eq_true in Hk.
Qed.

Lemma init_sum_columns_exc (st st1 : Store) (gf gf1 : GraphFrame)
    (cols outs : list string) (oc : option (list string)) :
  _init_sum_columns st gf cols oc = Ok (st1, gf1, outs) →
  exc_metrics gf1 = exc_metrics gf.
Proof.
  unfold _init_sum_columns. intros H.
  apply bind_Ok in H as ([[st2 gf2] outs2] & H & E).
  destruct (bool_decide _); [discriminate|]. inversion E; subst. clear E.
  destruct oc as [o|].
  - apply bind_Ok in H as ([st' df'] & _ & E). by inversion E.
  - by inversion H.
Qed.

Lemma update_inclusive_exc (st st' : Store) (gf gf' : GraphFrame) :
  update_inclusive_columns st gf = Ok (st', gf') →
  exc_metrics gf' = exc_metrics gf.
Proof.
  unfold update_inclusive_columns. intros H.
  destruct (exc_metrics gf) eqn:Hexc; [inversion H; by subst|].
  apply bind_Ok in H as ([st2 gf2] & H & E). injection E as _ <-.
  simpl. rewrite <- Hexc in *. clear Hexc.
  unfold subgraph_sum, subtree_sum in H.
  apply bind_Ok in H as (g0 & _ & H). apply bind_Ok in H as (t & _ & H).
  assert (Hboth : ∀ body : Store → GraphFrame → list string → result (Store * GraphFrame),
            (∀ a b c r, body a b c = Ok r → r.2 = b) →
            (_init_sum_columns st
               (set_inc_metrics gf (inc_name <$> exc_metrics gf))
               (exc_metrics gf) (Some (inc_name <$> exc_metrics gf))
             ≫= λ '(st1, gf1, outs), body st1 gf1 outs) = Ok (st2, gf2) →
            exc_metrics gf2 = exc_metrics gf).
  { intros body Hbody Hb. apply bind_Ok in Hb as ([[st1 gf1] outs] & Hi & Hb).
    apply init_sum_columns_exc in Hi. apply Hbody in Hb. simpl in Hb.
    by subst gf1. }
  destruct t; simpl in H; (eapply Hboth; [|exact H]);
    intros a b c r Hr; simpl in Hr;
    apply bind_Ok in Hr as (? & _ & Hr); apply bind_Ok in Hr as (? & _ & Hr);
    apply bind_Ok in Hr as (? & _ & Hr); by inversion Hr.
Qed.

(** C2.  Let the graph be a tree ([is_tree] holds) and the table have one
    row per label at most.  When [generate_exclusive_columns] and then
    [update_inclusive_columns] return, and the names of the inclusive
    columns derived from the exclusive metrics are distinct and are not
    names of exclusive metrics, then the graph is as before and, for every
    exclusive metric, every node of the graph and every row of the node
    (one for each tuple of secondary index levels): the inclusive value is
    what the sum of the code, [x.sum(min_count=1)], returns on the
    exclusive value of the row followed by the inclusive values of the rows
    of the direct children (at the same tuple), child after child. *)
Theorem C2_round_trip_on_trees (st st2 : Store) (gf gf2 : GraphFrame)
    (g : Graph) :
  wf_heap (nodes st) →
  graphs st !! graph gf = Some g →
  (∀ r, r ∈ roots g → r < length (nodes st)) →
  is_tree (nodes st) g = Ok true →
  wf_frame st (dataframe gf) →
  unique_rows (dataframe gf) →
  round_trip st gf = Ok (st2, gf2) →
  NoDup (inc_name <$> exc_metrics gf2) →
  (∀ c, c ∈ exc_metrics gf2 → c ∉ inc_name <$> exc_metrics gf2) →
  (nodes st2 = nodes st ∧ graphs st2 = graphs st ∧ graph gf2 = graph gf)
  ∧ ∀ exc n rt q e,
      exc ∈ exc_metrics gf2 → in_graph (nodes st) g n →
      q ∈ label_rows (dataframe gf2) n rt →
      cell_at st2 (dataframe gf2) exc q = Some e →
      ∃ v, cell_at st2 (dataframe gf2) (inc_name exc) q = Some v
           ∧ nansum (e :: child_cells st2 (dataframe gf2) (inc_name exc) n rt)
             = Ok v.
Proof.
  intros Hwf Hg Hroots Htree Hframe Huniq H Hnd Hdisj.
  unfold round_trip in H. apply bind_Ok in H as ([st1 gf1] & Hgen & Hupd).
  apply generate_exclusive_frame in Hgen
    as ([Hn1 Hg1] & Hgr1 & Hk1 & Hi1 & Hlive1); [|by apply wf_frame_live].
  assert (Hex : exc_metrics gf2 = exc_metrics gf1 →
    (nodes st2 = nodes st1 ∧ graphs st2 = graphs st1 ∧ graph gf2 = graph gf1)
    ∧ ∀ exc, exc ∈ exc_metrics gf1 →
        ∃ vexc vinc,
          column st2 (dataframe gf2) exc = Ok vexc
          ∧ column st2 (dataframe gf2) (inc_name exc) = Ok vinc
          ∧ ∀ n rt, in_graph (nodes st1) g n →
              sum_rel (nodes st1) (dataframe gf2) vexc vinc n rt).
  { intros Hexc. rewrite Hexc in Hnd, Hdisj.
    apply (update_inclusive_rel _ _ _ _ g) in Hupd
      as ([Hn2 Hg2] & Hgr2 & _ & _ & _ & Hrel); try done.
    - by rewrite Hn1.
    - by rewrite Hg1, Hgr1.
    - by rewrite Hn1.
    - by rewrite Hn1.
    - intros n rt. rewrite (label_rows_eq (dataframe gf)); [apply Huniq|done..]. }
  assert (Hexc : exc_metrics gf2 = exc_metrics gf1)
    by (by apply update_inclusive_exc in Hupd).
  destruct (Hex Hexc) as ((Hn2 & Hg2 & Hgr2) & Hrel).
  split; [repeat split; congruence|].
  intros exc n rt q e Hin Hn Hq He.
  rewrite Hexc in Hin. destruct (Hrel exc Hin) as (vexc & vinc & Hce & Hci & Hsum).
  unfold cell_at in He |- *. rewrite Hce in He. rewrite Hci.
  unfold child_cells. rewrite Hci, Hn2.
  rewrite <- Hn1 in Hn.
  destruct (Hsum n rt Hn q e Hq He) as (v & Hv & Hnan).
  by exists v.
Qed.

Lemma C2_witness :
  ∃ st2 gf2 v,
    round_trip tree_store tree_gf = Ok (st2, gf2)
    ∧ cell_at st2 (dataframe gf2) "time" 0 = Some (Num 1)
    ∧ cell_at st2 (dataframe gf2) (inc_name "time") 0 = Some v
    ∧ nansum (Num 1 :: child_cells st2 (dataframe gf2) (inc_name "time") 0 [])
      = Ok v
    ∧ v = Num 7.
Proof.
  assert (H : round_trip tree_store tree_gf = tree_round_trip)
    by (vm_compute; reflexivity).
  unfold tree_round_trip in H.
  match type of H with
  | _ = Ok (?s, ?g0) =>
    exists s, g0;
    destruct (C2_round_trip_on_trees tree_store s tree_gf g0 (mkGraph [0]))
      as [_ Hrel]; [..|exact H| | |]
  end.
  - apply wf_heapb_spec. reflexivity.
  - reflexivity.
  - intros r Hr. apply list_elem_of_singleton in Hr as ->. simpl. lia.
  - vm_compute. reflexivity.
  - clear H. repeat constructor. eexists. split; reflexivity.
  - clear H. apply NoDup_unique_rows. simpl.
    apply (bool_decide_unpack _). reflexivity.
  - clear H. apply (bool_decide_unpack _). vm_compute. reflexivity.
  - clear H. intros c Hc. simpl in Hc.
    apply list_elem_of_singleton in Hc as ->.
    apply (bool_decide_unpack _). vm_compute. reflexivity.
  - destruct (Hrel "time" 0 [] 0 (Num 1)) as (v & Hv & Hn).
    + clear. solve_elem.
    + clear. solve_in_graph 0.
    + clear. solve_elem.
    + clear. vm_compute. reflexivity.
    + exists v. split; [exact H|]. split; [clear; vm_compute; reflexivity|].
      split; [exact Hv|]. split; [exact Hn|].
      clear - Hv. vm_compute in Hv. by inversion Hv.
Defined.

(** * Further properties of the code *)

(** ** Filter: the rows of the result *)

Lemma concat_perm {A} (l1 l2 : list (list A)) :
  l1 ≡ₚ l2 → concat l1 ≡ₚ concat l2.
Proof.
  induction 1 as [|x l l' _ IH|x y l|l l' l'' _ IH1 _ IH2]; simpl.
  - done.
  - by rewrite IH.
  - rewrite !app_assoc. f_equiv. apply Permutation_app_comm.
  - by etrans.
Qed.

Lemma omap_lookup_seq {A} (l : list A) :
  omap (λ i, l !! i) (seq 0 (length l)) = l.
Proof. apply (select_all l). Qed.

Lemma apply_filter_concat (f : Row → bool) (ks : list Key) (cols : Columns)
    (chunks : list (list nat)) :
  concat (apply_filter f ks cols <$> chunks)
  = apply_filter f ks cols (concat chunks).
Proof. unfold apply_filter. apply concat_filter_map. Qed.

(** The positions that the workers return: those of the sequential filter,
    up to the order in which the workers deliver. *)
Lemma parallel_positions {Q : Type} (env : Env Q) (f : Row → bool)
    (ks : list Key) (cols : Columns) (num_procs : nat) :
  0 < num_procs →
  queue_order env (seq 0 num_procs) ≡ₚ seq 0 num_procs →
  let all := seq 0 (length ks) in
  let par := concat (omap (λ pid, (apply_filter f ks cols
                                     <$> array_split all num_procs) !! pid)
                          (queue_order env (seq 0 num_procs))) in
  par ≡ₚ apply_filter f ks cols all
  ∧ (queue_order env (seq 0 num_procs) = seq 0 num_procs →
     par = apply_filter f ks cols all).
Proof.
  intros Hn Hperm all par.
  set (results := apply_filter f ks cols <$> array_split all num_procs).
  assert (Hlen : length results = num_procs).
  { unfold results. rewrite length_fmap. by apply length_array_split. }
  assert (Hseq : concat (omap (λ pid, results !! pid) (seq 0 num_procs))
                 = apply_filter f ks cols all).
  { rewrite <- Hlen, omap_lookup_seq. unfold results.
    rewrite apply_filter_concat. by rewrite concat_array_split. }
  split.
  - rewrite <- Hseq. apply concat_perm. by apply omap_Permutation.
  - intros Heq. unfold par. fold results. by rewrite Heq.
Qed.

Lemma sorted_filter_seq (p : nat → bool) (n : nat) :
  ∀ a, StronglySorted lt (List.filter p (seq a n)).
Proof.
  induction n as [|n IH]; intros a; simpl; [constructor|].
  destruct (p a); [|apply IH].
  constructor; [apply IH|].
  apply Forall_forall. intros x Hx. apply list_elem_of_In in Hx.
  apply filter_In in Hx as [Hx _]. apply in_seq in Hx. lia.
Qed.

(** X1 ([GraphFrame.filter], lines 411-515, the sequential path of a
    callable): a filter by a callable, without squash and with one process
    ([num_procs] at most 1, so that no row goes through the queue of the
    worker processes), returns exactly the rows of the table on which the
    callable holds, in the order of the table, each with the label and the
    values it had. *)
Theorem X1_filter_keeps_matching_rows {Q : Type} (env : Env Q)
    (st st' : Store) (gf gf' : GraphFrame) (f : Row → bool)
    (update_inc_cols : bool) (num_procs : nat) (mode : string)
    (cols : Columns) :
  df_cols st (dataframe gf) = Ok cols →
  num_procs ≤ 1 →
  gf_filter env st gf (Callable f) false update_inc_cols num_procs mode
  = Ok (st', gf') →
  let ks := keys (dataframe gf) in
  ∃ ps : list nat,
    StronglySorted lt ps
    ∧ (∀ i, i ∈ ps ↔ ∃ r, row_at ks cols i = Some r ∧ f r = true)
    ∧ keys (dataframe gf') = select ps ks
    ∧ ∀ c vs, assoc c cols = Some vs →
        column st' (dataframe gf') c = Ok (select ps vs).
Proof.
  intros Hcols Hnp H ks.
  exists (apply_filter f ks cols (seq 0 (length ks))).
  split; [apply sorted_filter_seq|]. split.
  { intros i. unfold apply_filter. rewrite elem_of_filter_bool. split.
    - intros [_ Hi]. destruct (row_at ks cols i) as [r|]; [eauto|discriminate].
    - intros (r & Hr & Hf). rewrite Hr. split; [|done].
      apply elem_of_seq. unfold row_at in Hr.
      destruct (ks !! i) eqn:E; [|discriminate].
      apply lookup_lt_Some in E. lia. }
  unfold gf_filter in H.
  apply bind_Ok in H as (cols0 & Hc0 & H).
  assert (cols0 = cols) as -> by congruence.
  apply bind_Ok in H as (g & _ & H). apply bind_Ok in H as (ps0 & Hps0 & H).
  fold ks in Hps0, H.
  rewrite bool_decide_eq_false_2 in Hps0 by lia. injection Hps0 as <-.
  destruct (bool_decide (length _ = 0)); [discriminate|].
  destruct (df_new _ _ _ _) as [st1 fdf] eqn:Hnew.
  apply bind_Ok in H as (gf0 & Hinit & E). inversion E; subst st' gf'. clear E.
  unfold GraphFrame_init in Hinit.
  destruct (bool_decide (_ ∈ _)); [|discriminate]. inversion Hinit; subst gf0.
  simpl.
  pose proof (λ c, column_df_new _ _ _ _ _ _ c Hnew) as Hcn.
  destruct (Hcn "") as (_ & Hk & _). split; [exact Hk|].
  intros c vs Hc. destruct (Hcn c) as (-> & _ & _).
  unfold take_rows. by rewrite assoc_fmap_named, Hc.
Qed.

Lemma X1_witness :
  ∃ st' gf',
    gf_filter plain_env scenario_store scenario_gf (Callable main_or_bar)
              false true 1 "off" = Ok (st', gf')
    ∧ keys (dataframe gf') = [mkKey 0 []; mkKey 2 []]
    ∧ column st' (dataframe gf') "time" = Ok [Num 1; Num 2].
Proof.
  destruct (gf_filter plain_env scenario_store scenario_gf
              (Callable main_or_bar) false true 1 "off")
    as [[st' gf']|e] eqn:H; [|vm_compute in H; discriminate].
  exists st', gf'. split; [reflexivity|].
  destruct (X1_filter_keeps_matching_rows plain_env scenario_store st'
              scenario_gf gf' main_or_bar true 1 "off"
              [("time", [Num 1; Num 1; Num 2; Num 3]);
               ("name", [Cat "main"; Cat "foo"; Cat "bar"; Cat "baz"])]
              eq_refl (le_n 1) H) as (ps & _ & _ & Hk & Hc).
  pose proof (Hc "time" _ eq_refl) as Ht.
  vm_compute in H. injection H as <- <-.
  vm_compute in Ht. vm_compute in Hk.
  split; [reflexivity|reflexivity].
Defined.

(** X2.  A filter by a query, in any of its forms (a query path, a query
    string, a query object of the new or of the old style), without squash,
    returns the rows of the table whose node is among the nodes the query
    engine matched, in the order of the table and with the values they
    had; the query engine is applied to the graph and the table of self. *)
Theorem X2_filter_by_query_rows {Q : Type} (env : Env Q)
    (st st' : Store) (gf gf' : GraphFrame) (fo : filter_obj Q) (query : Q)
    (update_inc_cols : bool) (num_procs : nat) (mode : string)
    (cols : Columns) (g : Graph) :
  match fo with
  | QueryPath q => query = ObjectQuery env q mode
  | QueryString q => query = parse_string_dialect env q mode
  | NewQuery q => query = q
  | OldQuery q => query = _get_new_query env q
  | _ => False
  end →
  df_cols st (dataframe gf) = Ok cols →
  graphs st !! graph gf = Some g →
  gf_filter env st gf fo false update_inc_cols num_procs mode = Ok (st', gf') →
  let ks := keys (dataframe gf) in
  let matches := query_engine_apply env query (nodes st) g ks cols in
  let ps := positions (λ k, bool_decide (node k ∈ matches)) ks in
  keys (dataframe gf') = select ps ks
  ∧ (∀ k, k ∈ keys (dataframe gf') ↔ k ∈ ks ∧ node k ∈ matches)
  ∧ ∀ c vs, assoc c cols = Some vs →
      column st' (dataframe gf') c = Ok (select ps vs).
Proof.
  intros Hq Hcols Hg H ks matches ps.
  unfold gf_filter in H.
  apply bind_Ok in H as (cols0 & Hc0 & H).
  assert (cols0 = cols) as -> by congruence.
  apply bind_Ok in H as (g0 & Hg0%getitem_Ok & H).
  assert (g0 = g) as -> by congruence.
  apply bind_Ok in H as (ps0 & Hps0 & H). fold ks in Hps0, H.
  assert (Hps : ps0 = ps).
  { assert (Hgen : ∀ pre l,
      ks = pre ++ l →
      List.filter (λ i, match ks !! i with
                        | Some k => bool_decide (node k ∈ matches)
                        | None => false
                        end) (seq (length pre) (length l))
      = positions_from (length pre) (λ k, bool_decide (node k ∈ matches)) l).
    { intros pre l. revert pre. induction l as [|k l IH]; intros pre Hks; simpl;
        [done|].
      assert (Hk : ks !! length pre = Some k).
      { rewrite Hks. by rewrite list_lookup_middle. }
      rewrite Hk.
      specialize (IH (pre ++ [k])). rewrite length_app in IH. simpl in IH.
      replace (length pre + 1) with (S (length pre)) in IH by lia.
      rewrite IH; [done|]. by rewrite <- app_assoc. }
    specialize (Hgen [] ks eq_refl). simpl in Hgen.
    destruct fo as [f|q|q|q|q|]; try done; subst query;
      inversion Hps0; exact Hgen. }
  subst ps0.
  destruct (bool_decide (length ps = 0)); [discriminate|].
  destruct (df_new _ _ _ _) as [st1 fdf] eqn:Hnew.
  apply bind_Ok in H as (gf0 & Hinit & E). inversion E; subst st' gf'. clear E.
  unfold GraphFrame_init in Hinit.
  destruct (bool_decide (_ ∈ _)); [|discriminate]. inversion Hinit; subst gf0.
  simpl.
  pose proof (λ c, column_df_new _ _ _ _ _ _ c Hnew) as Hcn.
  destruct (Hcn "") as (_ & Hk & _). rewrite Hk.
  split; [done|]. split.
  - intros k. rewrite elem_of_select. split.
    + intros (i & (k' & Hk' & Hp)%elem_of_positions & Hi).
      assert (k' = k) as -> by congruence.
      apply bool_decide_eq_true in Hp. split; [|done].
      by eapply list_elem_of_lookup_2.
    + intros [(i & Hi)%list_elem_of_lookup Hm]. exists i. split; [|done].
      apply elem_of_positions. exists k. split; [done|].
      by apply bool_decide_eq_true.
  - intros c vs Hc. destruct (Hcn c) as (-> & _ & _).
    unfold take_rows. by rewrite assoc_fmap_named, Hc.
Qed.

Lemma X2_witness :
  ∃ st' gf',
    gf_filter (mkEnv unit (λ _ _, tt) (λ _ _, tt) (λ q, q)
                     (λ _ _ _ _ _, [1; 3]) (λ pids, pids))
              scenario_store scenario_gf (QueryString "foo") false true 1 "off"
    = Ok (st', gf')
    ∧ keys (dataframe gf') = [mkKey 1 []; mkKey 3 []]
    ∧ column st' (dataframe gf') "name" = Ok [Cat "foo"; Cat "baz"].
Proof.
  set (env := mkEnv unit (λ _ _, tt) (λ _ _, tt) (λ q, q)
                    (λ _ _ _ _ _, [1; 3]) (λ pids, pids)).
  destruct (gf_filter env scenario_store scenario_gf (QueryString "foo")
              false true 1 "off")
    as [[st' gf']|e] eqn:H; [|vm_compute in H; discriminate].
  exists st', gf'. split; [reflexivity|].
  destruct (X2_filter_by_query_rows env scenario_store st'
              scenario_gf gf' (QueryString "foo") tt true 1 "off"
              [("time", [Num 1; Num 1; Num 2; Num 3]);
               ("name", [Cat "main"; Cat "foo"; Cat "bar"; Cat "baz"])]
              (mkGraph [0]) eq_refl eq_refl eq_refl H) as (Hk & _ & Hc).
  split; [exact Hk|]. exact (Hc "name" _ eq_refl).
Defined.

(** ** Unify: what a second call does *)

(** X3.  After [a.unify(b)] returns, the two GraphFrames hold the same
    Graph object, the index levels and the metric lists of both are as they
    were, and unifying them once more changes nothing: neither the store
    nor the two GraphFrames. *)
Theorem X3_unify_idempotent (st st' : Store) (a b a' b' : GraphFrame) :
  unify st a b = Ok (st', a', b') →
  graph a' = graph b'
  ∧ index_names (dataframe a') = index_names (dataframe a)
  ∧ index_names (dataframe b') = index_names (dataframe b)
  ∧ exc_metrics a' = exc_metrics a ∧ inc_metrics a' = inc_metrics a
  ∧ exc_metrics b' = exc_metrics b ∧ inc_metrics b' = inc_metrics b
  ∧ unify st' a' b' = Ok (st', a', b').
Proof.
  intros H. unfold unify in H.
  destruct (decide (graph a = graph b)) as [Heq|Hne].
  { inversion H; subst st' a' b'. repeat (split; [done|]).
    unfold unify. by rewrite decide_True. }
  apply bind_Ok in H as (g1 & _ & H).
  apply bind_Ok in H as (g2 & _ & H).
  apply bind_Ok in H as ([[h' ug] nm] & _ & H).
  apply bind_Ok in H as (self_df & Hsdf & H).
  apply bind_Ok in H as (other_df & Hodf & H).
  apply bind_Ok in H as ([st2 self1] & Hins & H).
  inversion H; subst st' a' b'. clear H. simpl.
  unfold _insert_missing_rows in Hins.
  apply bind_Ok in Hins as (sc & _ & Hins).
  apply bind_Ok in Hins as (oc & _ & Hins).
  destruct (if bool_decide _ then _ else _) as [sc2 onis1].
  apply bind_Ok in Hins as (sc3 & _ & Hins).
  destruct (df_new _ _ _ _) as [st3 df'].
  inversion Hins; subst st2 self1. simpl.
  repeat (split; [done|]).
  unfold unify. simpl. by rewrite decide_True.
Qed.

Lemma X3_witness :
  ∃ st' a' b',
    unify two_store scenario_gf other_gf = Ok (st', a', b')
    ∧ graph a' = graph b'
    ∧ unify st' a' b' = Ok (st', a', b').
Proof.
  destruct (unify two_store scenario_gf other_gf) as [[[st' a'] b']|e] eqn:H;
    [|vm_compute in H; discriminate].
  exists st', a', b'. split; [reflexivity|].
  destruct (X3_unify_idempotent _ _ _ _ _ _ H) as (Hg & _ & _ & _ & _ & _ & _ & Hu).
  by split.
Defined.

(** ** The binary operators: what each cell becomes *)

(** The loop of [DataFrame.update] over the columns of self, when no two
    columns share a buffer. *)
Lemma operator_fold (op : cell → cell → result cell) (ks okeys : list Key)
    (others : list (string * list cell)) (l : list (string * nat)) :
  ∀ st0 st',
    NoDup (snd <$> l) →
    foldM (λ st' '(c, b),
      match assoc c others with
      | None => Ok st'
      | Some that =>
        this ← getitem (buffers st' !! b);
        updated ←
          mapM (λ '(k, x),
                  match positions (λ k', bool_decide (k' = k)) okeys with
                  | j :: _ =>
                    match that !! j with
                    | Some y => v ← op x y;
                                Ok (if is_nan v then x else v)
                    | None => Ok x
                    end
                  | [] => Ok x
                  end) (zip ks this);
        Ok (set_buffers st' (<[b := updated]> (buffers st')))
      end) l st0 = Ok st' →
    same_graphs st0 st'
    ∧ length (buffers st') = length (buffers st0)
    ∧ (∀ b, b ∉ snd <$> l → buffers st' !! b = buffers st0 !! b)
    ∧ (∀ c b this, (c, b) ∈ l → buffers st0 !! b = Some this →
         match assoc c others with
         | None => buffers st' !! b = Some this
         | Some that =>
           ∃ upd, mapM (λ '(k, x), updated_cell op okeys that k x) (zip ks this)
                  = Ok upd
                  ∧ buffers st' !! b = Some upd
         end).
Proof.
  induction l as [|[c0 b0] l IH]; intros st0 st' Hnd H; simpl in H.
  - inversion H; subst st'. split; [reflexivity|]. split; [done|].
    split; [done|]. intros c b this Hin. by apply elem_of_nil in Hin.
  - simpl in Hnd. apply NoDup_cons in Hnd as [Hb0 Hnd].
    apply bind_Ok in H as (st1 & H1 & H2).
    apply IH in H2 as ([Hn2 Hg2] & Hl2 & Hu2 & Hc2); [|done].
    assert (Hstep : same_graphs st0 st1
              ∧ length (buffers st1) = length (buffers st0)
              ∧ (∀ b, b ≠ b0 → buffers st1 !! b = buffers st0 !! b)
              ∧ (∀ this, buffers st0 !! b0 = Some this →
                   match assoc c0 others with
                   | None => buffers st1 !! b0 = Some this
                   | Some that =>
                     ∃ upd, mapM (λ '(k, x), updated_cell op okeys that k x)
                                 (zip ks this) = Ok upd
                            ∧ buffers st1 !! b0 = Some upd
                   end)).
    { destruct (assoc c0 others) as [that|].
      - apply bind_Ok in H1 as (this & Hthis%getitem_Ok & H1).
        apply bind_Ok in H1 as (upd & Hupd & E). inversion E; subst st1. clear E.
        simpl. split; [by split|]. split; [by rewrite length_insert|].
        split; [intros b Hb; by apply list_lookup_insert_ne|].
        intros this' Ht. assert (this' = this) as -> by congruence.
        exists upd. split; [exact Hupd|].
        apply list_lookup_insert_eq. by eapply lookup_lt_Some.
      - inversion H1; subst st1. split; [reflexivity|]. by repeat split. }
    destruct Hstep as ([Hn1 Hg1] & Hl1 & Hu1 & Hc1).
    split; [split; congruence|]. split; [congruence|]. split.
    { intros b Hb. simpl in Hb. apply not_elem_of_cons in Hb as [Hne Hb].
      rewrite Hu2 by done. by apply Hu1. }
    intros c b this [E|Hin]%elem_of_cons Ht.
    + inversion E; subst c b. specialize (Hc1 this Ht).
      destruct (assoc c0 others) as [that|].
      * destruct Hc1 as (upd & Hupd & Hb). exists upd. split; [done|].
        by rewrite Hu2.
      * by rewrite Hu2.
    + apply (Hc2 c b this Hin). rewrite Hu1; [done|].
      intros ->. apply Hb0. apply list_elem_of_fmap. by exists (c, b0).
Qed.

Lemma assoc_elem_of {A} (c : string) (b : A) (l : list (string * A)) :
  assoc c l = Some b → (c, b) ∈ l.
Proof.
  induction l as [|[c1 b1] l IH]; simpl; [discriminate|].
  destruct (decide (c = c1)) as [->|Hne].
  - intros E. inversion E. left.
  - intros E. right. by apply IH.
Qed.

(** [other.dataframe[all_metrics]]: the metric columns of other. *)
Lemma operator_others (st : Store) (odf : DataFrame) (metrics : list string)
    (others : list (string * list cell)) (c : string) :
  mapM (λ c, vs ← column st odf c; Ok (c, vs)) metrics = Ok others →
  match assoc c others with
  | Some that => c ∈ metrics ∧ column st odf c = Ok that
  | None => c ∉ metrics
  end.
Proof.
  revert others. induction metrics as [|m ms IH]; intros others H; simpl in H.
  - inversion H. simpl. by intros ?%elem_of_nil.
  - apply bind_Ok in H as ([m' vs] & Hm & H).
    apply bind_Ok in Hm as (vs' & Hvs' & E). inversion E; subst m' vs'.
    apply bind_Ok in H as (rest & Hrest & E'). inversion E'; subst others.
    simpl. destruct (decide (c = m)) as [->|Hne].
    + split; [left|done].
    + specialize (IH rest Hrest). destruct (assoc c rest).
      * destruct IH. split; [by right|done].
      * by intros [?|?]%elem_of_cons.
Qed.

(** A metric column of self after [_operator]. *)
Lemma operator_column (st st' : Store) (self other self' : GraphFrame)
    (op : cell → cell → result cell) (c : string) (vs : list cell) :
  NoDup (snd <$> columns (dataframe self)) →
  _operator st self other op = Ok (st', self') →
  c ∈ all_metrics self other →
  column st (dataframe self) c = Ok vs →
  self' = self
  ∧ ∃ that upd,
      column st (dataframe other) c = Ok that
      ∧ column st' (dataframe self) c = Ok upd
      ∧ mapM (λ '(k, x), updated_cell op (keys (dataframe other)) that k x)
             (zip (keys (dataframe self)) vs) = Ok upd.
Proof.
  intros Hnd H Hm Hcol. unfold _operator in H.
  apply bind_Ok in H as (others & Hothers & H).
  apply bind_Ok in H as (st1 & Hfold & E). inversion E; subst st' self'. clear E.
  apply operator_fold in Hfold as (_ & _ & _ & Hc); [|done].
  split; [done|]. unfold column in Hcol.
  apply bind_Ok in Hcol as (b & Hb%getitem_Ok & Hvs%getitem_Ok).
  specialize (Hc c b vs (assoc_elem_of _ _ _ Hb) Hvs).
  pose proof (operator_others _ _ _ _ c Hothers) as Hassoc.
  destruct (assoc c others) as [that|]; [|done].
  destruct Hassoc as [_ Hthat]. destruct Hc as (upd & Hupd & Hbuf).
  exists that, upd. split; [done|]. split; [|done].
  unfold column. rewrite Hb. simpl. by rewrite Hbuf.
Qed.

(** X4.  [_operator] combines the tables cell by cell and stores the result
    in self.  When no two columns of self share a buffer: a column of self
    that is not a metric of either GraphFrame is left as it is; in a metric
    column, the cell of a row becomes [op] of its value and of the value of
    the row of other with the same label, and keeps its value when other
    has no such row or when the result of [op] is NaN.  The graph, the
    labels of the rows and the GraphFrame record of self are unchanged. *)
Theorem X4_operator_cells (st st' : Store) (self other self' : GraphFrame)
    (op : cell → cell → result cell) :
  NoDup (snd <$> columns (dataframe self)) →
  _operator st self other op = Ok (st', self') →
  self' = self ∧ nodes st' = nodes st ∧ graphs st' = graphs st
  ∧ ∀ c vs, column st (dataframe self) c = Ok vs →
      if bool_decide (c ∈ all_metrics self other) then
        ∃ that vs',
          column st (dataframe other) c = Ok that
          ∧ column st' (dataframe self) c = Ok vs'
          ∧ ∀ i k x, keys (dataframe self) !! i = Some k → vs !! i = Some x →
              ∃ x', vs' !! i = Some x'
                    ∧ updated_cell op (keys (dataframe other)) that k x = Ok x'
      else column st' (dataframe self) c = Ok vs.
Proof.
  intros Hnd H. unfold _operator in H.
  apply bind_Ok in H as (others & Hothers & H).
  apply bind_Ok in H as (st1 & Hfold & E). inversion E; subst st' self'. clear E.
  apply operator_fold in Hfold as ([Hn Hg] & Hl & Hu & Hc); [|done].
  split; [done|]. split; [done|]. split; [done|].
  intros c vs Hcol. unfold column in Hcol.
  apply bind_Ok in Hcol as (b & Hb%getitem_Ok & Hvs%getitem_Ok).
  specialize (Hc c b vs (assoc_elem_of _ _ _ Hb) Hvs).
  pose proof (operator_others _ _ _ _ c Hothers) as Hassoc.
  destruct (assoc c others) as [that|].
  - destruct Hassoc as [Hm Hthat]. rewrite bool_decide_eq_true_2 by done.
    destruct Hc as (upd & Hupd & Hbuf). exists that, upd.
    split; [done|]. split.
    { unfold column. rewrite Hb. simpl. by rewrite Hbuf. }
    intros i k x Hk Hx. apply mapM_Forall2 in Hupd.
    assert (Hz : zip (keys (dataframe self)) vs !! i = Some (k, x)).
    { apply lookup_zip_with_Some. eauto. }
    destruct (Forall2_lookup_l _ _ _ _ _ Hupd Hz) as (x' & Hx' & Hcell).
    eauto.
  - rewrite bool_decide_eq_false_2 by done.
    unfold column. rewrite Hb. simpl. by rewrite Hc.
Qed.

Lemma X4_witness :
  ∃ st' vs',
    _operator shared_store scenario_gf part_gf py_add = Ok (st', scenario_gf)
    ∧ column st' (dataframe scenario_gf) "name"
      = Ok [Cat "main"; Cat "foo"; Cat "bar"; Cat "baz"]
    ∧ column st' (dataframe scenario_gf) "time" = Ok vs'
    ∧ vs' !! 0 = Some (Num 2) ∧ vs' !! 1 = Some (Num 1).
Proof.
  destruct (_operator shared_store scenario_gf part_gf py_add)
    as [[st' gf']|e] eqn:H; [|vm_compute in H; discriminate].
  destruct (X4_operator_cells shared_store st' scenario_gf part_gf gf' py_add)
    as (-> & _ & _ & Hcells); [|exact H|].
  { apply (bool_decide_unpack _). vm_compute. reflexivity. }
  pose proof (Hcells "name" _ eq_refl) as Hname.
  pose proof (Hcells "time" _ eq_refl) as Htime.
  rewrite bool_decide_eq_false_2 in Hname
    by (apply (bool_decide_unpack _); vm_compute; reflexivity).
  rewrite bool_decide_eq_true_2 in Htime
    by (apply (bool_decide_unpack _); vm_compute; reflexivity).
  destruct Htime as (that & vs' & Hthat & Hvs' & Hrow).
  exists st', vs'. split; [reflexivity|]. split; [exact Hname|].
  split; [exact Hvs'|].
  vm_compute in Hthat. inversion Hthat; subst that.
  destruct (Hrow 0 (mkKey 0 []) (Num 1) eq_refl eq_refl) as (x0 & Hx0 & Hc0).
  destruct (Hrow 1 (mkKey 1 []) (Num 1) eq_refl eq_refl) as (x1 & Hx1 & Hc1).
  vm_compute in Hc0. vm_compute in Hc1.
  inversion Hc0; subst x0. inversion Hc1; subst x1. by split.
Defined.

Lemma copy_same (gf : GraphFrame) : copy gf = gf.
Proof. by destruct gf. Qed.

(** A column that is no metric of either GraphFrame is left as it is. *)
Lemma operator_column_kept (st st' : Store) (self other self' : GraphFrame)
    (op : cell → cell → result cell) (c : string) (vs : list cell) :
  NoDup (snd <$> columns (dataframe self)) →
  _operator st self other op = Ok (st', self') →
  c ∉ all_metrics self other →
  column st (dataframe self) c = Ok vs →
  same_graphs st st' ∧ column st' (dataframe self) c = Ok vs.
Proof.
  intros Hnd H Hm Hcol. unfold _operator in H.
  apply bind_Ok in H as (others & Hothers & H).
  apply bind_Ok in H as (st1 & Hfold & E). inversion E; subst st' self'. clear E.
  apply operator_fold in Hfold as (Hs & _ & _ & Hc); [|done].
  split; [done|]. unfold column in Hcol.
  apply bind_Ok in Hcol as (b & Hb%getitem_Ok & Hvs%getitem_Ok).
  specialize (Hc c b vs (assoc_elem_of _ _ _ Hb) Hvs).
  pose proof (operator_others _ _ _ _ c Hothers) as Hassoc.
  destruct (assoc c others) as [that|]; [by destruct Hassoc|].
  unfold column. rewrite Hb. simpl. by rewrite Hc.
Qed.

Lemma operator_graphs (st st' : Store) (self other self' : GraphFrame)
    (op : cell → cell → result cell) :
  NoDup (snd <$> columns (dataframe self)) →
  _operator st self other op = Ok (st', self') →
  same_graphs st st' ∧ self' = self.
Proof.
  intros Hnd H. unfold _operator in H.
  apply bind_Ok in H as (others & Hothers & H).
  apply bind_Ok in H as (st1 & Hfold & E). inversion E; subst st' self'. clear E.
  by apply operator_fold in Hfold as (Hs & _).
Qed.

(** X5 ([GraphFrame.add], [sub], [mul], [div], lines 1412-1483, through
    [copy], the guard of [unify] and [_operator]): the operators on two
    GraphFrames that hold the same Graph object.  No row is inserted and
    the graph is left alone: the result has the graph and the row labels of
    self.  In the result, a column that is no metric of either operand
    reads as in self; in a metric column, the cell of a row is [op] of the
    cell of self and of the cell of the row of other with the same label,
    and the cell of self where other has no such row or where [op] gives
    NaN.  ([op] is Python's [+], [-], [*] or [/] on the values.) *)
Theorem X5_operators_on_shared_graph (st st' : Store) (a b r : GraphFrame)
    (f : Store → GraphFrame → GraphFrame → result (Store * GraphFrame))
    (op : cell → cell → result cell) :
  (f = add ∧ op = py_add) ∨ (f = sub ∧ op = py_sub) ∨ (f = mul ∧ op = py_mul)
  ∨ (∃ fdiv, f = div fdiv ∧ op = py_div fdiv) →
  graph a = graph b →
  NoDup (snd <$> columns (dataframe a)) →
  f st a b = Ok (st', r) →
  graph r = graph a
  ∧ keys (dataframe r) = keys (dataframe a)
  ∧ nodes st' = nodes st ∧ graphs st' = graphs st
  ∧ ∀ c vs, column st (dataframe a) c = Ok vs →
      if bool_decide (c ∈ all_metrics a b) then
        ∃ that vs',
          column st (dataframe b) c = Ok that
          ∧ column st' (dataframe r) c = Ok vs'
          ∧ ∀ i k x, keys (dataframe a) !! i = Some k → vs !! i = Some x →
              ∃ x', vs' !! i = Some x'
                    ∧ updated_cell op (keys (dataframe b)) that k x = Ok x'
      else column st' (dataframe r) c = Ok vs.
Proof.
  intros Hf Hg Hnd H.
  assert (Hop : _operator st a b op = Ok (st', r)).
  { destruct Hf as [[-> ->]|[[-> ->]|[[-> ->]|(fdiv & -> & ->)]]];
      unfold add, sub, mul, div, unify in H; rewrite !copy_same in H;
      rewrite decide_True in H by done; exact H. }
  destruct (operator_graphs st st' a b r op Hnd Hop) as [[Hn Hgs] ->].
  split; [done|]. split; [done|]. split; [done|]. split; [done|].
  intros c vs Hvs. case_bool_decide as Hc.
  - destruct (operator_column st st' a b a op c vs Hnd Hop Hc Hvs)
      as (_ & that & vs' & Hthat & Hvs' & Hupd).
    exists that, vs'. split; [done|]. split; [done|].
    intros i k x Hk Hx. apply mapM_Forall2 in Hupd.
    assert (Hz : zip (keys (dataframe a)) vs !! i = Some (k, x)).
    { apply lookup_zip_with_Some. eauto. }
    destruct (Forall2_lookup_l _ _ _ _ _ Hupd Hz) as (x' & Hx' & Hcell).
    eauto.
  - by destruct (operator_column_kept st st' a b a op c vs Hnd Hop Hc Hvs).
Qed.

Lemma X5_witness :
  ∃ st' r vs',
    add shared_store scenario_gf part_gf = Ok (st', r)
    ∧ keys (dataframe r) = keys (dataframe scenario_gf)
    ∧ column st' (dataframe r) "time" = Ok vs'
    ∧ vs' !! 0 = Some (Num 2) ∧ vs' !! 1 = Some (Num 1).
Proof.
  destruct (add shared_store scenario_gf part_gf) as [[st' r]|e] eqn:H;
    [|vm_compute in H; discriminate].
  destruct (X5_operators_on_shared_graph shared_store st' scenario_gf
              part_gf r add py_add (or_introl (conj eq_refl eq_refl)) eq_refl)
    as (_ & Hkeys & _ & _ & Hcells); [|exact H|].
  { apply (bool_decide_unpack _). vm_compute. reflexivity. }
  pose proof (Hcells "time" [Num 1; Num 1; Num 2; Num 3] eq_refl) as Htime.
  rewrite bool_decide_eq_true_2 in Htime
    by (apply (bool_decide_unpack _); vm_compute; reflexivity).
  destruct Htime as (that & vs' & Hthat & Hvs' & Hrow).
  exists st', r, vs'. split; [reflexivity|]. split; [exact Hkeys|].
  split; [exact Hvs'|].
  vm_compute in Hthat. injection Hthat as <-.
  destruct (Hrow 0 (mkKey 0 []) (Num 1) eq_refl eq_refl) as (x0 & Hx0 & Hc0).
  destruct (Hrow 1 (mkKey 1 []) (Num 1) eq_refl eq_refl) as (x1 & Hx1 & Hc1).
  vm_compute in Hc0. vm_compute in Hc1.
  injection Hc0 as <-. injection Hc1 as <-. by split.
Defined.

(** ** The sums over the graph: columns and output columns *)

Lemma column_setitem (st : Store) (df : DataFrame) (o c : string)
    (vs : list cell) :
  live_columns st df →
  column (setitem st df o vs).1 (setitem st df o vs).2 c
  = if decide (c = o) then Ok vs else column st df c.
Proof.
  intros Hlive. unfold column, setitem. simpl.
  destruct (decide (c = o)) as [->|Hne].
  - rewrite assoc_set_eq. simpl. rewrite lookup_app_r by lia.
    by rewrite Nat.sub_diag.
  - rewrite assoc_set_ne by done.
    destruct (assoc c (columns df)) as [b|] eqn:Hb; [|done]. simpl.
    apply Hlive in Hb. by rewrite lookup_app_l.
Qed.

(** The copies of the input columns into the output columns succeed when
    the input columns exist. *)
Lemma init_fold_total (pairs : list (string * string)) :
  ∀ st df,
    live_columns st df →
    (∀ c, c ∈ fst <$> pairs → is_Ok (column st df c)) →
    is_Ok (foldM (λ '(st', df') '(col, out),
                    vs ← column st' df' col; Ok (setitem st' df' out vs))
                 pairs (st, df)).
Proof.
  induction pairs as [|[c o] pairs IH]; intros st df Hlive Hcols; simpl.
  - by eexists.
  - destruct (Hcols c ltac:(left)) as [vs Hvs]. rewrite Hvs. simpl.
    apply (IH (setitem st df o vs).1 (setitem st df o vs).2).
    + by apply setitem_live.
    + intros c' Hc'. rewrite column_setitem by done.
      destruct (decide (c' = o)); [by eexists|].
      apply Hcols. simpl. by right.
Qed.

(** X6.  [subtree_sum] and [_init_sum_columns] with output columns whose
    number differs from the number of input columns raise [ValueError],
    when the input columns that are paired with an output column exist;
    the test comes after the output columns have been initialised.  Without
    output columns, [_init_sum_columns] returns the input columns and
    leaves the store and the GraphFrame as they are. *)
Theorem X6_sum_columns_length_mismatch (st : Store) (gf : GraphFrame)
    (cols outs : list string) (function : list cell → result cell) :
  live_columns st (dataframe gf) →
  (∀ c, c ∈ take (length outs) cols → is_Ok (column st (dataframe gf) c)) →
  length cols ≠ length outs →
  _init_sum_columns st gf cols (Some outs) = Raise ValueError
  ∧ subtree_sum st gf cols (Some outs) function = Raise ValueError
  ∧ _init_sum_columns st gf cols None = Ok (st, gf, cols).
Proof.
  intros Hlive Hcols Hlen.
  assert (Hinit : _init_sum_columns st gf cols (Some outs) = Raise ValueError).
  { unfold _init_sum_columns.
    destruct (init_fold_total (zip cols outs) st (dataframe gf) Hlive)
      as [[st' df'] Hfold].
    { intros c Hc. apply Hcols. clear - Hc.
      revert outs Hc. induction cols as [|x cols IH]; intros [|o outs] Hc;
        simpl in *; try by apply elem_of_nil in Hc.
      apply elem_of_cons in Hc as [->|Hc]; [left|right; by eapply IH]. }
    rewrite Hfold. simpl. by rewrite bool_decide_eq_true_2. }
  split; [exact Hinit|]. split.
  - unfold subtree_sum. by rewrite Hinit.
  - unfold _init_sum_columns. simpl.
    rewrite bool_decide_eq_false_2; [done|]. by intros H.
Qed.

Lemma X6_witness :
  subtree_sum scenario_store scenario_gf ["time"; "name"] (Some ["sum"]) nansum
  = Raise ValueError.
Proof.
  apply (X6_sum_columns_length_mismatch scenario_store scenario_gf
           ["time"; "name"] ["sum"] nansum).
  - intros c b Hb. simpl in Hb.
    repeat (destruct (decide _) in Hb; [inversion Hb; simpl; lia|]).
    discriminate.
  - intros c Hc. simpl in Hc. apply list_elem_of_singleton in Hc as ->.
    eexists. reflexivity.
  - simpl. lia.
Defined.

(** ** The sum over the subgraphs of a general graph *)

Lemma foldM_ext {A B} (f g : B → A → result B) (l : list A) (b : B) :
  (∀ s x, f s x = g s x) → foldM f l b = foldM g l b.
Proof.
  intros H. revert b. induction l as [|x l IH]; intros b; simpl; [done|].
  rewrite H. destruct (g b x); simpl; [apply IH|done].
Qed.

Section subgraph_columns.
Variables (h : list Node) (df : DataFrame) (cols outs : list string).
Variables (base : nat) (st1 : Store) (function : list cell → result cell).
Hypothesis Hbind : ∀ i o, outs !! i = Some o →
                          assoc o (columns df) = Some (base + i).
Hypothesis Hexc : ∀ c, c ∈ cols → ∃ b, assoc c (columns df) = Some b ∧ b < base.

(** The assignment of the sums of one node to the output columns. *)
Lemma write_sums (qs : list nat) (sums : list cell) :
  ∀ (i0 : nat) (os : list string) (ss : list cell) (st st' : Store),
    (∀ i o, os !! i = Some o → assoc o (columns df) = Some (base + i0 + i)) →
    foldM (λ st' '(out, v), write_cells st' df out qs v) (zip os ss) st = Ok st' →
    same_graphs st st'
    ∧ (∀ b, b < base + i0 → buffers st' !! b = buffers st !! b)
    ∧ (∀ b, base + i0 + length (zip os ss) ≤ b → buffers st' !! b = buffers st !! b)
    ∧ ∀ i v vs, ss !! i = Some v → i < length os →
        buffers st !! (base + i0 + i) = Some vs →
        buffers st' !! (base + i0 + i) = Some (write qs v vs).
Proof.
  clear Hbind Hexc.
  intros i0 os. revert i0. induction os as [|o os IH];
    intros i0 ss st st' Hb H.
  - simpl in H. inversion H; subst st'. split; [reflexivity|].
    split; [done|]. split; [done|]. intros i v vs _ Hi. simpl in Hi. lia.
  - destruct ss as [|s ss].
    { simpl in H. inversion H; subst st'. split; [reflexivity|].
      split; [done|]. split; [done|]. intros i v vs Hi. by rewrite lookup_nil in Hi. }
    simpl in H. apply bind_Ok in H as (st0 & H0 & H).
    unfold write_cells in H0. rewrite (Hb 0 o eq_refl) in H0. simpl in H0.
    inversion H0; subst st0. clear H0.
    apply (IH (S i0)) in H as ([Hn Hg] & Hlo & Hhi & Hw).
    2:{ intros i o' Ho'. rewrite (Hb (S i) o' Ho'). f_equal. lia. }
    simpl in Hn, Hg, Hlo, Hhi, Hw. rewrite Nat.add_0_r in *.
    split; [by split|]. split.
    { intros b Hb'. rewrite Hlo by lia. apply list_lookup_alter_ne. lia. }
    split.
    { intros b Hb'. simpl in Hb'. rewrite Hhi by lia.
      apply list_lookup_alter_ne. lia. }
    intros i v vs Hi Hlt Hvs. destruct i as [|i]; simpl in Hi.
    + inversion Hi; subst s. rewrite Nat.add_0_r in *.
      rewrite Hlo by lia. rewrite list_lookup_alter_eq, Hvs. reflexivity.
    + simpl in Hlt.
      replace (base + i0 + S i) with (base + S i0 + i) in * by lia.
      apply Hw; [done|lia|].
      rewrite list_lookup_alter_ne by lia. done.
Qed.

(** What the loop over the nodes leaves in the output column [i]. *)
Lemma subgraph_loop (i : nat) (c : string) (vexc : list cell) :
  cols !! i = Some c → i < length outs →
  column st1 df c = Ok vexc →
  ∀ (ns : list nat) (st st' : Store),
    nodes st = h →
    (∀ b, b < base → buffers st !! b = buffers st1 !! b) →
    foldM (λ st' n,
      subgraph_nodes ← traverse_from (nodes st') Pre [n];
      ps ← loc_labels (keys df) subgraph_nodes;
      sums ← mapM (λ col, vs ← column st' df col; function (select ps vs)) cols;
      foldM (λ st' '(out, v),
               write_cells st' df out (positions (has_node n) (keys df)) v)
            (zip outs sums) st') ns st = Ok st' →
    same_graphs st st'
    ∧ (∀ b, b < base → buffers st' !! b = buffers st1 !! b)
    ∧ ∀ vs, buffers st !! (base + i) = Some vs →
        ∃ vs', buffers st' !! (base + i) = Some vs'
          ∧ length vs' = length vs
          ∧ (∀ q k, keys df !! q = Some k → node k ∉ ns → vs' !! q = vs !! q)
          ∧ (NoDup ns → ∀ n q, n ∈ ns →
               q ∈ positions (has_node n) (keys df) → q < length vs →
               ∃ sub ps v,
                 traverse_from h Pre [n] = Ok sub
                 ∧ loc_labels (keys df) sub = Ok ps
                 ∧ function (select ps vexc) = Ok v
                 ∧ vs' !! q = Some v).
Proof.
  intros Hc Hi Hvexc ns. induction ns as [|n ns IH]; intros st st' Hh Hlow H;
    simpl in H.
  - inversion H; subst st'. split; [reflexivity|]. split; [done|].
    intros vs Hvs. exists vs. split; [done|]. split; [done|]. split; [done|].
    intros _ n q Hn. by apply elem_of_nil in Hn.
  - apply bind_Ok in H as (st0 & Hbody & H).
    apply bind_Ok in Hbody as (sub & Hsub & Hbody).
    apply bind_Ok in Hbody as (ps & Hps & Hbody).
    apply bind_Ok in Hbody as (sums & Hsums & Hbody).
    rewrite Hh in Hsub.
    apply (write_sums _ sums 0) in Hbody as ([Hn0 Hg0] & Hlo0 & _ & Hw0).
    2:{ intros j o Ho. rewrite (Hbind j o Ho). f_equal. lia. }
    rewrite Nat.add_0_r in *.
    apply IH in H as ([Hn' Hg'] & Hlow' & Hcol); [|congruence|].
    2:{ intros b Hb. rewrite Hlo0 by done. by apply Hlow. }
    split; [split; congruence|]. split; [done|].
    intros vs Hvs.
    (* the sum of the node *)
    apply mapM_Forall2 in Hsums.
    destruct (Forall2_lookup_l _ _ _ _ _ Hsums Hc) as (v & Hv & Hfun).
    assert (Hcol_c : column st df c = Ok vexc).
    { destruct (Hexc c (list_elem_of_lookup_2 _ _ _ Hc)) as (b & Hb & Hlt).
      unfold column in Hvexc |- *. rewrite Hb in Hvexc |- *. simpl in *.
      by rewrite Hlow. }
    rewrite Hcol_c in Hfun. simpl in Hfun.
    specialize (Hw0 i v vs Hv Hi Hvs).
    destruct (Hcol _ Hw0) as (vs' & Hvs' & Hlen & Hun & Hdone).
    rewrite length_write in Hlen.
    exists vs'. split; [done|]. split; [done|]. split.
    { intros q k Hk Hnk. apply not_elem_of_cons in Hnk as [Hne Hnk].
      rewrite (Hun q k Hk Hnk). apply lookup_write_notin.
      intros (k' & Hk' & Hp)%elem_of_positions.
      apply bool_decide_eq_true in Hp. congruence. }
    intros Hnd m q Hm Hq Hlt. apply NoDup_cons in Hnd as [Hnin Hnd].
    apply elem_of_cons in Hm as [->|Hm].
    + exists sub, ps, v. repeat (split; [done|]).
      pose proof Hq as (k & Hk & Hp)%elem_of_positions.
      apply bool_decide_eq_true in Hp.
      rewrite (Hun q k Hk) by (by rewrite Hp).
      by apply lookup_write_in.
    + apply (Hdone Hnd m q Hm Hq). by rewrite length_write.
Qed.
End subgraph_columns.

(** The output columns after [_init_sum_columns]: fresh buffers, in the
    order of the output columns, that hold the values of the input
    columns. *)
Lemma init_sum_columns_spec (st st1 : Store) (gf gf1 : GraphFrame)
    (cols outs outs' : list string) :
  live_columns st (dataframe gf) →
  NoDup outs → (∀ c, c ∈ cols → c ∉ outs) →
  _init_sum_columns st gf cols (Some outs) = Ok (st1, gf1, outs') →
  outs' = outs ∧ length cols = length outs
  ∧ same_graphs st st1 ∧ graph gf1 = graph gf
  ∧ keys (dataframe gf1) = keys (dataframe gf)
  ∧ index_names (dataframe gf1) = index_names (dataframe gf)
  ∧ (∃ new, buffers st1 = buffers st ++ new)
  ∧ (∀ c, c ∉ outs → assoc c (columns (dataframe gf1))
                     = assoc c (columns (dataframe gf)))
  ∧ (∀ i c o, cols !! i = Some c → outs !! i = Some o →
       assoc o (columns (dataframe gf1)) = Some (length (buffers st) + i)
       ∧ ∃ vs, column st (dataframe gf) c = Ok vs
               ∧ buffers st1 !! (length (buffers st) + i) = Some vs).
Proof.
  intros Hlive Hnd Hdisj Hinit. unfold _init_sum_columns in Hinit.
  apply bind_Ok in Hinit as ([[st1' gf1'] outs1] & Hfold & Hchk).
  apply bind_Ok in Hfold as ([st1'' df'] & Hfold & E).
  inversion E; subst st1'' gf1' outs1. clear E.
  destruct (bool_decide (length cols ≠ length outs)) eqn:Hlen; [discriminate|].
  apply bool_decide_eq_false in Hlen. apply dec_stable in Hlen.
  inversion Hchk; subst st1' gf1 outs'. clear Hchk. simpl.
  apply init_fold_spec in Hfold
    as (Hs & Hk & Hidx & _ & (new & Hnew & _) & Hold & Hout);
    [|done|rewrite snd_zip by lia; done|].
  2:{ rewrite fst_zip, snd_zip by lia. exact Hdisj. }
  rewrite snd_zip in Hold by lia.
  repeat (split; [done|]). split; [by exists new|]. split; [done|].
  intros i c o Hc Ho. apply Hout. apply lookup_zip_with_Some. eauto.
Qed.

(** X7.  On a graph that is not a tree, with a node-only index,
    [update_inclusive_columns] writes into the inclusive column of every
    exclusive metric, at every row of every node of the graph, the
    [min_count=1] sum of the exclusive column over the rows of the nodes of
    the subgraph of the node: the node and its descendants, each node
    counted once however many paths lead to it. *)
Theorem X7_inclusive_on_general_graph (st st' : Store) (gf gf' : GraphFrame)
    (g : Graph) :
  wf_heap (nodes st) →
  graphs st !! graph gf = Some g →
  (∀ r, r ∈ roots g → r < length (nodes st)) →
  is_tree (nodes st) g = Ok false →
  is_multi_index (dataframe gf) = false →
  wf_frame st (dataframe gf) →
  NoDup (inc_name <$> exc_metrics gf) →
  (∀ c, c ∈ exc_metrics gf → c ∉ inc_name <$> exc_metrics gf) →
  update_inclusive_columns st gf = Ok (st', gf') →
  ∀ exc n q,
    exc ∈ exc_metrics gf → in_graph (nodes st) g n →
    q ∈ positions (has_node n) (keys (dataframe gf)) →
    ∃ vexc vinc sub ps v,
      column st (dataframe gf) exc = Ok vexc
      ∧ column st' (dataframe gf') (inc_name exc) = Ok vinc
      ∧ NoDup sub ∧ (∀ m, m ∈ sub ↔ rtc (edge (nodes st)) n m)
      ∧ loc_labels (keys (dataframe gf)) sub = Ok ps
      ∧ nansum (select ps vexc) = Ok v
      ∧ vinc !! q = Some v.
Proof.
  intros Hwf Hg Hroots Htree Hmi Hframe Hnd Hdisj H exc n q Hexc Hn Hq.
  pose proof (wf_frame_live _ _ Hframe) as Hlive.
  unfold update_inclusive_columns in H.
  destruct (exc_metrics gf) as [|e0 es] eqn:Hem; [by apply elem_of_nil in Hexc|].
  rewrite <- Hem in *. clear Hem e0 es.
  apply bind_Ok in H as ([st2 gf2] & H & E). inversion E; subst st' gf'. clear E.
  unfold subgraph_sum in H. simpl in H. rewrite Hg in H. simpl in H.
  rewrite Htree in H. simpl in H.
  apply bind_Ok in H as ([[st1 gf1] outs'] & Hinit & H).
  apply init_sum_columns_spec in Hinit
    as (-> & Hlen & [Hn1 Hg1] & Hgr & Hk & Hidx & (new & Hnew) & Hold & Hout);
    try done.
  simpl in Hgr, Hout, Hold, Hk, Hidx.
  apply bind_Ok in H as (g' & Hg'%getitem_Ok & H).
  rewrite Hg1, Hgr, Hg in Hg'. assert (g' = g) as -> by congruence.
  apply bind_Ok in H as (ns & Hns & H).
  apply bind_Ok in H as (st3 & H & E). inversion E; subst st3 gf2. clear E.
  simpl.
  set (df' := dataframe gf1) in *.
  assert (Hmi' : is_multi_index df' = false).
  { unfold is_multi_index in *. by rewrite Hidx. }
  erewrite foldM_ext in H.
  2:{ intros s x. rewrite Hmi'. reflexivity. }
  rewrite Hn1 in Hns.
  destruct (graph_traverse_spec (nodes st) g Pre Hwf Hroots)
    as (ns' & Hns' & Hndn & Hin & _).
  assert (ns' = ns) as -> by congruence.
  apply list_elem_of_lookup in Hexc as (i & Hi).
  assert (Ho : (inc_name <$> exc_metrics gf) !! i = Some (inc_name exc))
    by (by rewrite list_lookup_fmap, Hi).
  destruct (Hout i exc _ Hi Ho) as (Hbo & vexc & Hvexc & Hb1).
  assert (Hcol1 : column st1 df' exc = Ok vexc).
  { unfold column in Hvexc |- *.
    rewrite Hold by (apply Hdisj; by eapply list_elem_of_lookup_2).
    destruct (assoc exc (columns (dataframe gf))) as [b|] eqn:Hb; [|done].
    simpl in *. apply Hlive in Hb. by rewrite Hnew, lookup_app_l. }
  assert (Hbind : ∀ j o, (inc_name <$> exc_metrics gf) !! j = Some o →
            assoc o (columns df') = Some (length (buffers st) + j)).
  { intros j o Hj. destruct (lookup_lt_is_Some_2 (exc_metrics gf) j) as [c Hc].
    { rewrite Hlen. by eapply lookup_lt_Some. }
    by destruct (Hout j c o Hc Hj). }
  assert (Hexcs : ∀ c, c ∈ exc_metrics gf →
            ∃ b, assoc c (columns df') = Some b ∧ b < length (buffers st)).
  { intros c Hc. rewrite Hold by (by apply Hdisj).
    destruct (assoc c (columns (dataframe gf))) as [b|] eqn:Hb.
    - exists b. split; [done|]. by apply Hlive in Hb.
    - exfalso. apply list_elem_of_lookup in Hc as (j & Hj).
      destruct (lookup_lt_is_Some_2 (inc_name <$> exc_metrics gf) j) as [o Ho'].
      { rewrite <- Hlen. by eapply lookup_lt_Some. }
      destruct (Hout j c o Hj Ho') as (_ & vs & Hvs & _).
      unfold column in Hvs. by rewrite Hb in Hvs. }
  pose proof (subgraph_loop (nodes st1) df' (exc_metrics gf)
                (inc_name <$> exc_metrics gf) (length (buffers st)) st1 nansum
                Hbind Hexcs i exc vexc Hi (lookup_lt_Some _ _ _ Ho) Hcol1
                ns st1 st2 eq_refl (λ b _, eq_refl) H)
    as (_ & _ & Hcolumn).
  destruct (Hcolumn vexc Hb1) as (vinc & Hvinc & Hlen' & _ & Hdone).
  assert (Hqlt : q < length vexc).
  { unfold column in Hvexc.
    apply bind_Ok in Hvexc as (b & Hb%getitem_Ok & Hvs%getitem_Ok).
    pose proof (assoc_elem_of _ _ _ Hb) as Hel.
    unfold wf_frame in Hframe. rewrite Forall_forall in Hframe.
    destruct (Hframe _ Hel) as (vs & Hvs' & Hl). simpl in Hvs'.
    assert (vs = vexc) as -> by congruence. rewrite Hl.
    apply elem_of_positions in Hq as (k & Hk' & _). by eapply lookup_lt_Some. }
  rewrite <- Hk in Hq.
  destruct (Hdone Hndn n q (proj2 (Hin n) Hn) Hq Hqlt)
    as (sub & ps & v & Hsub & Hps & Hv & Hcell).
  rewrite Hn1 in Hsub. rewrite Hk in Hps.
  exists vexc, vinc, sub, ps, v. split; [done|]. split.
  { unfold column. fold df'. rewrite Hbo. simpl. by rewrite Hvinc. }
  destruct (graph_traverse_spec (nodes st) (mkGraph [n]) Pre Hwf)
    as (sub' & Hsub' & Hnds & Hins & _).
  { simpl. intros r ->%list_elem_of_singleton.
    by eapply in_graph_valid. }
  unfold graph_traverse in Hsub'. simpl in Hsub'.
  assert (sub' = sub) as -> by congruence.
  split; [done|]. split.
  { intros m. rewrite Hins. unfold in_graph, reach. simpl. split.
    - intros (r & ->%list_elem_of_singleton & Hp). done.
    - intros Hp. exists n. split; [left|done]. }
  done.
Qed.

Lemma X7_witness :
  ∃ st' gf' vinc,
    update_inclusive_columns
      (mkStore (nodes diamond_store) [mkGraph [0]]
               [[Num 1; Num 1; Num 1; Num 1]])
      (mkGF 0 (mkDF ["node"] (keys (dataframe diamond_gf)) [("time", 0)])
            ["time"] [] "time" []) = Ok (st', gf')
    ∧ column st' (dataframe gf') "time (inc)" = Ok vinc
    ∧ vinc !! 0 = Some (Num 4).
Proof.
  set (st := mkStore (nodes diamond_store) [mkGraph [0]]
                     [[Num 1; Num 1; Num 1; Num 1]]).
  set (gf := mkGF 0 (mkDF ["node"] (keys (dataframe diamond_gf)) [("time", 0)])
                  ["time"] [] "time" []).
  destruct (update_inclusive_columns st gf) as [[st' gf']|e] eqn:H;
    [|vm_compute in H; discriminate].
  destruct (X7_inclusive_on_general_graph st st' gf gf' (mkGraph [0]))
    with (exc := "time") (n := 0) (q := 0)
    as (vexc & vinc & sub & ps & v & Hvexc & Hvinc & Hnd & Hsub & Hps & Hv & Hq);
    try exact H.
  - apply wf_heapb_spec. reflexivity.
  - reflexivity.
  - intros r Hr. apply list_elem_of_singleton in Hr as ->. simpl. lia.
  - vm_compute. reflexivity.
  - reflexivity.
  - repeat constructor. eexists. split; reflexivity.
  - apply (bool_decide_unpack _). vm_compute. reflexivity.
  - intros c Hc. simpl in Hc. apply list_elem_of_singleton in Hc as ->.
    apply (bool_decide_unpack _). vm_compute. reflexivity.
  - solve_elem.
  - solve_in_graph 0.
  - solve_elem.
  - exists st', gf', vinc. split; [reflexivity|]. split; [exact Hvinc|].
    rewrite Hq. f_equal.
    clear - H Hvinc Hq. vm_compute in H. inversion H; subst st' gf'.
    vm_compute in Hvinc. inversion Hvinc; subst vinc.
    vm_compute in Hq. by inversion Hq.
Defined.

(** ** Squash: the links of the new graph *)

Section rewiring_sound.
Variables (h0 h1 : list Node) (otn : gmap nat nat) (rs : list nat).
Hypothesis Hwf0 : wf_heap h0.
Hypothesis Hclone : ∀ n c, otn !! n = Some c → length h0 ≤ c.
Hypothesis Hold1 : ∀ x, x < length h0 → children_of h1 x = children_of h0 x.

Local Abbreviation sound := (rw_sound h0 h1 otn rs).
Local Abbreviation pre := (rw_pre h0 otn rs).
Local Abbreviation fk' := (first_kept h0 otn).

Lemma fk_clone_ge (n c : nat) : fk' n c → length h0 ≤ c.
Proof. induction 1; eauto. Qed.

Lemma connect_sound (n : nat) (p : option nat) (s : RewireState) (c : nat) :
  sound s → pre n p → fk' n c → sound (connect p s c).
Proof.
  intros (L & O & S1 & S2 & S3) Hpre Hc. unfold connect.
  destruct p as [pc|].
  - case_bool_decide; [by repeat split|].
    destruct Hpre as (a & m & Ha & Hm & Himp).
    pose proof (Hclone a pc Ha) as Hpc. pose proof (fk_clone_ge n c Hc) as Hcc.
    split; [simpl; by rewrite length_add_parent, length_add_child|].
    split.
    { intros x Hx. simpl. unfold add_parent, add_child.
      rewrite !list_lookup_alter_ne by lia. by apply O. }
    split; [done|]. split; [done|].
    intros q d. simpl. rewrite children_of_add_parent, children_of_add_child.
    case_bool_decide as Hq.
    + destruct Hq as [-> _]. intros [Hd| ->%list_elem_of_singleton]%elem_of_app.
      * by apply S3.
      * right. exists a, m. split; [done|]. split; [done|]. by apply Himp.
    + apply S3.
  - case_bool_decide; [by repeat split|].
    destruct Hpre as (r0 & Hr0 & Himp).
    split; [done|]. split; [done|]. split; [done|]. split; [|done].
    intros d [Hd| ->%list_elem_of_singleton]%elem_of_app; simpl in *.
    + by apply S2.
    + exists r0. split; [done|]. by apply Himp.
Qed.

Lemma fold_connect_sound (n : nat) (p : option nat) (cs : list nat) :
  ∀ s, sound s → pre n p → (∀ c, c ∈ cs → fk' n c) →
       sound (fold_left (connect p) cs s)
       ∧ connections (fold_left (connect p) cs s) = connections s
       ∧ visited (fold_left (connect p) cs s) = visited s.
Proof.
  induction cs as [|c cs IH]; intros s Hs Hpre Hcs; simpl; [done|].
  destruct (IH (connect p s c)) as (H1 & H2 & H3).
  - apply (connect_sound n); [done..|]. apply Hcs. left.
  - done.
  - intros d Hd. apply Hcs. by right.
  - split; [done|]. split.
    + rewrite H2. unfold connect. destruct p; case_bool_decide; reflexivity.
    + rewrite H3. unfold connect. destruct p; case_bool_decide; reflexivity.
Qed.

Lemma sound_children_old (s : RewireState) (n : nat) :
  sound s → n < length h0 →
  children_of (rw_nodes s) n = children_of h0 n.
Proof.
  intros (_ & O & _) Hn. rewrite <- (Hold1 n Hn).
  unfold children_of. by rewrite O.
Qed.

Lemma rewire_children_sound (fuel : nat) (p' : option nat) (Q : nat → Prop) :
  (∀ n p s r s',
     sound s → pre n p → n < length h0 →
     rewire fuel otn n p s = Ok (r, s') →
     sound s' ∧ ∀ c, c ∈ r → fk' n c) →
  ∀ ms tr s0 tr' s',
    sound s0 →
    (∀ m, m ∈ ms → pre m p' ∧ m < length h0 ∧ ∀ c, fk' m c → Q c) →
    (∀ c, c ∈ tr → Q c) →
    foldM (λ '(tr, s') child,
             '(r, s'') ← rewire fuel otn child p' s';
             Ok (set_union tr r, s''))
          ms (tr, s0) = Ok (tr', s') →
    sound s' ∧ ∀ c, c ∈ tr' → Q c.
Proof.
  intros IHf ms. induction ms as [|m ms IHms];
    intros tr s0 tr' s' Hs0 Hms Htr Hfold; simpl in Hfold.
  - inversion Hfold; subst tr' s'. by split.
  - apply bind_Ok in Hfold as ([tr1 s3] & Hstep & Hfold).
    apply bind_Ok in Hstep as ([r1 s4] & Hr1 & E).
    inversion E; subst tr1 s3. clear E.
    destruct (Hms m ltac:(left)) as (Hpm & Hvm & HQm).
    apply IHf in Hr1 as [Hs4 Hr1fk]; [|done..].
    apply (IHms _ _ _ _ Hs4) in Hfold; [done| |].
    + intros x Hx. apply Hms. by right.
    + intros c [Hc|Hc]%elem_of_set_union; [by apply Htr|].
      apply HQm. by apply Hr1fk.
Qed.

(** [rewire] links clones of first retained nodes only, and returns such
    clones. *)
Lemma rewire_sound (fuel : nat) :
  ∀ n p s r s',
    sound s → pre n p → n < length h0 →
    rewire fuel otn n p s = Ok (r, s') →
    sound s' ∧ ∀ c, c ∈ r → fk' n c.
Proof.
  induction fuel as [|fuel IH]; intros n p s r s' Hs Hpre Hn H;
    [discriminate|].
  simpl in H.
  apply bind_Ok in H as ([transitive s2] & Hmid & H).
  set (cs := default [] (connections s !! n)) in *.
  assert (Hcs : ∀ c, c ∈ cs → fk' n c).
  { intros c Hc. unfold cs in Hc. destruct Hs as (_ & _ & S1 & _).
    destruct (connections s !! n) as [l|] eqn:E; simpl in Hc.
    - by eapply S1.
    - by apply elem_of_nil in Hc. }
  destruct (fold_connect_sound n p cs s Hs Hpre Hcs) as (Hs1 & Hconn1 & Hvis1).
  set (s1 := fold_left (connect p) cs s) in *.
  assert (Hmid' : sound s2
                  ∧ ∀ c, c ∈ transitive →
                         ∃ m, m ∈ children_of h0 n ∧ fk' m c).
  { case_bool_decide as Hv.
    - inversion Hmid; subst transitive s2. split; [done|].
      intros c Hc. by apply elem_of_nil in Hc.
    - rewrite (sound_children_old s1 n Hs1 Hn) in Hmid.
      assert (Hpre' : ∀ m, m ∈ children_of h0 n →
                           pre m (or_else (otn !! n) p)).
      { intros m Hm. destruct (otn !! n) as [nn|] eqn:Hnn; simpl.
        - exists n, m. by repeat split.
        - destruct p as [pc|]; simpl in *.
          + destruct Hpre as (a & m0 & Ha & Hm0 & Himp).
            exists a, m0. split; [done|]. split; [done|].
            intros c Hc. apply Himp. by eapply fk_step.
          + destruct Hpre as (r0 & Hr0 & Himp). exists r0. split; [done|].
            intros c Hc. apply Himp. by eapply fk_step. }
      apply (rewire_children_sound fuel _
               (λ c, ∃ m, m ∈ children_of h0 n ∧ fk' m c) IH) in Hmid;
        [done|done| |].
      + intros m Hm. split; [by apply Hpre'|]. split; [by apply (Hwf0 n)|].
        intros c Hc. by exists m.
      + intros c Hc. by apply elem_of_nil in Hc. }
  destruct Hmid' as [Hs2 Htr].
  destruct (otn !! n) as [nn|] eqn:Hnn.
  - inversion H; subst r s'. split; [done|].
    intros c ->%list_elem_of_singleton. by constructor.
  - inversion H; subst r s'. clear H.
    assert (Hall : ∀ c, c ∈ set_union (default [] (connections s2 !! n))
                                      transitive → fk' n c).
    { intros c [Hc|Hc]%elem_of_set_union.
      - destruct Hs2 as (_ & _ & S1 & _).
        destruct (connections s2 !! n) as [l|] eqn:E; simpl in Hc.
        + by eapply S1.
        + by apply elem_of_nil in Hc.
      - destruct (Htr c Hc) as (m & Hm & Hf). by eapply fk_step. }
    split; [|done].
    destruct Hs2 as (L & O & S1 & S2 & S3).
    split; [done|]. split; [done|]. split; [|by split].
    intros n' l c. simpl. destruct (decide (n' = n)) as [->|Hne].
    + rewrite lookup_insert_eq. intros E. inversion E; subst l. apply Hall.
    + rewrite lookup_insert_ne by done. apply S1.
Qed.

(** The loop over the roots of the old graph. *)
Lemma rewire_roots_sound (fuel : nat) (roots0 : list nat) :
  ∀ s s',
    sound s → (∀ r, r ∈ roots0 → r ∈ rs ∧ r < length h0) →
    foldM (λ s root, snd <$> rewire fuel otn root None s) roots0 s = Ok s' →
    sound s'.
Proof.
  induction roots0 as [|r roots0 IH]; intros s s' Hs Hr H; simpl in H.
  - by inversion H; subst.
  - apply bind_Ok in H as (s1 & H1 & H).
    apply fmap_Ok in H1 as ([r1 s1'] & H1 & ->). simpl in H.
    destruct (Hr r ltac:(left)) as [Hrs Hrv].
    apply rewire_sound in H1 as [Hs1 _]; [|done| |done].
    + apply (IH _ _ Hs1); [|done]. intros x Hx. apply Hr. by right.
    + exists r. by split.
Qed.
End rewiring_sound.

(** The clones are fresh nodes, one for each node of the table, and the
    nodes that were there are left as they are. *)
Lemma clone_loop_fresh (ns : list nat) :
  ∀ (m m' : gmap nat nat) (h' h'' : list Node),
    foldM (λ '(m, h') n, '(c, h'') ← node_copy h' n; Ok (<[n := c]> m, h''))
          ns (m, h') = Ok (m', h'') →
    (∀ n c, m !! n = Some c → c < length h') →
    (∀ a a' c, m !! a = Some c → m !! a' = Some c → a = a') →
    h' `prefix_of` h''
    ∧ (∀ n c, m' !! n = Some c → c < length h'')
    ∧ (∀ a a' c, m' !! a = Some c → m' !! a' = Some c → a = a')
    ∧ (∀ n c, m' !! n = Some c → m !! n = Some c ∨ length h' ≤ c).
Proof.
  induction ns as [|n ns IH]; intros m m' h' h'' H Hr Hinj; simpl in H.
  - inversion H; subst m' h''. repeat split; auto.
  - apply bind_Ok in H as ([m1 h1] & Hstep & H).
    apply bind_Ok in Hstep as ([c hc] & Hcopy & E). inversion E; subst m1 h1.
    unfold node_copy in Hcopy. apply bind_Ok in Hcopy as (nd & _ & E').
    inversion E'; subst c hc. clear E E'.
    apply IH in H as (Hp & Hr' & Hinj' & Hnew).
    + split; [etrans; [|exact Hp]; by apply prefix_app_r|].
      split; [done|]. split; [done|].
      intros a c Hc. destruct (Hnew a c Hc) as [Hc'|Hc'].
      * apply lookup_insert_Some in Hc' as [[_ <-]|[_ Hc']]; [by right|by left].
      * right. rewrite length_app in Hc'. simpl in Hc'. lia.
    + intros a c Hc. rewrite length_app. simpl.
      apply lookup_insert_Some in Hc as [[_ <-]|[_ Hc]]; [lia|].
      apply Hr in Hc. lia.
    + intros a a' c Ha Ha'.
      apply lookup_insert_Some in Ha as [[<- <-]|[Hne Ha]];
        apply lookup_insert_Some in Ha' as [[<- Hc]|[Hne' Ha']]; try done.
      * apply Hr in Ha'. lia.
      * subst c. apply Hr in Ha. lia.
      * by eapply Hinj.
Qed.

Lemma fold_set_nid_old (m : gmap nat nat) (base : nat) (ns : list nat) :
  (∀ n c, m !! n = Some c → base ≤ c) →
  ∀ (h : list Node) (x : nat), x < base →
    fold_left (λ h' n, match m !! n with
                       | Some c => set_nid h' c (nid_of h' n)
                       | None => h'
                       end) ns h !! x = h !! x.
Proof.
  intros Hm. induction ns as [|n ns IH]; intros h x Hx; simpl; [done|].
  rewrite IH by done. destruct (m !! n) as [c|] eqn:Hc; [|done].
  unfold set_nid. apply list_lookup_alter_ne. apply Hm in Hc. lia.
Qed.

Lemma make_clones_fresh (h h1 : list Node) (ns : list nat) (otn : gmap nat nat) :
  make_clones h ns = Ok (otn, h1) →
  (∀ x, x < length h → h1 !! x = h !! x)
  ∧ (∀ a c, otn !! a = Some c → length h ≤ c)
  ∧ (∀ a a' c, otn !! a = Some c → otn !! a' = Some c → a = a').
Proof.
  unfold make_clones. intros H.
  apply bind_Ok in H as ([m hc] & Hloop & E). inversion E; subst otn h1.
  apply clone_loop_fresh in Hloop as (Hp & _ & Hinj & Hnew).
  - assert (Hge : ∀ a c, m !! a = Some c → length h ≤ c).
    { intros a c Hc. destruct (Hnew a c Hc) as [Hc'|]; [|done].
      by rewrite lookup_empty in Hc'. }
    split; [|by split].
    intros x Hx. rewrite (fold_set_nid_old m (length h)) by done.
    destruct (lookup_lt_is_Some_2 h x Hx) as [nd Hnd]. rewrite Hnd.
    by eapply prefix_lookup_Some.
  - intros n c Hc. by rewrite lookup_empty in Hc.
  - intros a a' c Hc. by rewrite lookup_empty in Hc.
Qed.

Lemma make_clones_children_new (h h1 : list Node) (ns : list nat)
    (otn : gmap nat nat) :
  (∀ n, n ∈ ns → n < length h) →
  make_clones h ns = Ok (otn, h1) →
  ∀ x, length h ≤ x → children_of h1 x = [].
Proof.
  intros Hns H x Hx. unfold make_clones in H.
  destruct (clone_loop_spec ns ∅ h Hns) as (m' & h'' & Hloop & _ & _ & Hnew & _).
  rewrite Hloop in H. injection H as <- <-.
  destruct (fold_set_nid_children m' ns h'') as [_ Hch]. rewrite Hch.
  by apply Hnew.
Qed.

(** What the rewiring of [squash] builds: the roots of the new graph are
    the clones of the first retained nodes at or below the old roots, and
    the children of the clone of a node are the clones of the first
    retained nodes at or below the children of that node. *)
Lemma squash_rewire_links (h : list Node) (g : Graph) (ns : list nat)
    (otn : gmap nat nat) (h1 : list Node) (roots1 : list nat) :
  wf_heap h → acyclic_from h (roots g) → (∀ r, r ∈ roots g → r < length h) →
  (∀ n, n ∈ ns → n < length h) →
  squash_rewire h g ns = Ok (otn, h1, roots1) →
  (∀ x, x < length h → h1 !! x = h !! x)
  ∧ (∀ a c, otn !! a = Some c → length h ≤ c ∧ a ∈ ns)
  ∧ (∀ a a' c, otn !! a = Some c → otn !! a' = Some c → a = a')
  ∧ (∀ c, c ∈ roots1 ↔ ∃ r, r ∈ roots g ∧ first_kept h otn r c)
  ∧ (∀ a ca c, otn !! a = Some ca → c ∈ children_of h1 ca →
       ∃ m, m ∈ children_of h a ∧ first_kept h otn m c)
  ∧ (∀ a ca m c, in_graph h g a → otn !! a = Some ca →
       m ∈ children_of h a → first_kept h otn m c → c ∈ children_of h1 ca).
Proof.
  intros Hwf Hac Hroots Hns H. unfold squash_rewire in H.
  apply bind_Ok in H as ([otn' hc] & Hmk & H).
  apply bind_Ok in H as (s & Hs & E). injection E as -> <- <-.
  destruct (make_clones_spec h ns Hwf Hns)
    as (otn1 & hc1 & Hmk1 & Hlen & Hold & Hwfc & Hrange & Hdom).
  rewrite Hmk in Hmk1. injection Hmk1 as <- <-.
  destruct (make_clones_fresh h hc ns otn Hmk) as (Hpre & Hge & Hinj).
  pose proof (make_clones_children_new h hc ns otn Hns Hmk) as Hnew.
  set (s0 := mkRW hc ((λ v, [v]) <$> otn) [] []) in Hs.
  assert (Hsound0 : rw_sound h hc otn (roots g) s0).
  { split; [done|]. split; [done|]. split.
    { intros n l c Hl Hc. simpl in Hl. rewrite lookup_fmap in Hl.
      destruct (otn !! n) as [c'|] eqn:E; [|discriminate].
      injection Hl as <-. apply list_elem_of_singleton in Hc as ->.
      by constructor. }
    split; [by intros c ?%elem_of_nil|].
    intros p c Hc. by left. }
  pose proof (rewire_roots_sound h hc otn (roots g) Hwf Hge Hold
                (S (length hc)) (roots g) s0 s Hsound0
                (λ r Hr, conj Hr (Hroots r Hr)) Hs)
    as (S1 & S2 & _ & S4 & S5).
  assert (Hclone : ∀ n c, otn !! n = Some c → length h ≤ c < length hc).
  { intros n c Hc. by destruct (Hrange n c Hc). }
  assert (Hinv0 : rw_inv h otn (length hc) s0).
  { split; [done|]. split; [done|]. split; [done|].
    split; [by intros r ?%elem_of_nil|]. simpl. split.
    { intros n c Hc. by rewrite lookup_fmap, Hc. }
    split.
    { intros n l c Hl Hc. rewrite lookup_fmap in Hl.
      destruct (otn !! n) as [c'|] eqn:E; [|discriminate].
      injection Hl as <-. apply list_elem_of_singleton in Hc as ->.
      by constructor. }
    intros n Hn _. by rewrite lookup_fmap, Hn. }
  destruct (rewire_roots_spec h otn (length hc) (roots g) Hwf Hac Hclone
              (S (length hc)) ltac:(lia) (roots g) s0 Hinv0 Hroots)
    as (s' & Hs' & _ & _ & Hall & Hrs).
  { intros r Hr. exists r. split; [done|constructor]. }
  { by intros m ?%elem_of_nil. }
  rewrite Hs in Hs'. injection Hs' as <-.
  split.
  { intros x Hx. rewrite S2 by done. by apply Hpre. }
  split.
  { intros a c Hc. destruct (Hrange a c Hc). split; [lia|done]. }
  split; [exact Hinj|].
  split.
  { intros c. split; [apply S4|].
    intros (r & Hr & Hfk). by apply (Hrs r Hr). }
  split.
  - intros a ca c Hca Hc. destruct (S5 ca c Hc) as [Hc'|(a' & m & Ha' & Hm & Hfk)].
    + rewrite (Hnew ca) in Hc'; [by apply elem_of_nil in Hc'|by apply Hge in Hca].
    + rewrite (Hinj a a' ca Hca Ha'). by exists m.
  - intros a ca m c (r & Hr & Hp) Hca Hm Hfk.
    assert (Hd : rw_done h otn s a).
    { eapply reachable_done; [exact Hall|apply Hrs, Hr|exact Hp]. }
    destruct Hd as (_ & _ & _ & D4). by eapply D4.
Qed.

(** ** The rewiring on any graph: every node of the graph is visited *)

Lemma rw_grow_refl s : rw_grow s s.
Proof. split; [done|]. split; [done|]. split; done. Qed.

Lemma rw_grow_trans s1 s2 s3 : rw_grow s1 s2 → rw_grow s2 s3 → rw_grow s1 s3.
Proof.
  intros (A1 & A2 & A3 & A4) (B1 & B2 & B3 & B4).
  split; [congruence|]. split; [auto|]. split; auto.
Qed.

Lemma reach_grow s s' c :
  rw_grow s s' →
  reach (rw_nodes s) (new_roots s) c → reach (rw_nodes s') (new_roots s') c.
Proof. intros (_ & _ & A3 & A4). apply reach_mono; [exact A3|exact A4]. Qed.

Lemma connect_grow p s c : rw_grow s (connect p s c).
Proof.
  split; [apply connect_length|]. split; [by rewrite connect_visited|].
  split; [intros x y; apply connect_children_mono|].
  intros r Hr. apply connect_roots. by left.
Qed.

Lemma connect_links p s c :
  (∀ pc, p = Some pc → pc < length (rw_nodes s)) → linked (connect p s c) p c.
Proof.
  intros Hp. destruct p as [pc|]; unfold linked.
  - rewrite connect_children. case_bool_decide as Hc.
    + apply elem_of_app. right. apply list_elem_of_here.
    + destruct (decide (c ∈ children_of (rw_nodes s) pc)); [done|].
      exfalso. apply Hc. split; [done|]. split; [by apply Hp|done].
  - apply connect_roots. by right.
Qed.

Lemma linked_grow s s' p c : rw_grow s s' → linked s p c → linked s' p c.
Proof. intros (_ & _ & A3 & A4). destruct p; simpl; auto. Qed.

Lemma fold_connect_seen (h0 : list Node) p (l : list nat) :
  ∀ s,
    (∀ pc, p = Some pc → length h0 ≤ pc < length (rw_nodes s)) →
    let s1 := fold_left (connect p) l s in
    rw_grow s s1
    ∧ visited s1 = visited s
    ∧ connections s1 = connections s
    ∧ (∀ x, x < length h0 →
            children_of (rw_nodes s1) x = children_of (rw_nodes s) x)
    ∧ (∀ c, c ∈ l → linked s1 p c).
Proof.
  induction l as [|c l IH]; intros s Hp; simpl.
  - split; [apply rw_grow_refl|]. repeat (split; [done|]).
    by intros c ?%elem_of_nil.
  - destruct (IH (connect p s c)) as (G & V & C & O & L).
    { intros pc E. rewrite connect_length. by apply Hp. }
    split; [eapply rw_grow_trans; [apply connect_grow|exact G]|].
    split; [by rewrite V, connect_visited|].
    split; [by rewrite C, connect_connections|].
    split.
    { intros x Hx. rewrite O by done. rewrite connect_children.
      rewrite bool_decide_eq_false_2; [done|].
      intros (E & _). apply Hp in E. lia. }
    intros c' [->|Hc']%elem_of_cons; [|by apply L].
    eapply linked_grow; [exact G|]. apply connect_links.
    intros pc E. by apply Hp.
Qed.

Section rewiring_visits.
Variables (h0 : list Node) (otn : gmap nat nat) (size : nat).
Hypothesis Hwf0 : wf_heap h0.
Hypothesis Hclone : ∀ n c, otn !! n = Some c → length h0 ≤ c < size.

Local Abbreviation seen := (rw_seen h0 otn size).
Local Abbreviation par := (rw_parent_seen h0 size).

Lemma par_grow s s' p : rw_grow s s' → par s p → par s' p.
Proof.
  intros G Hp pc E. destruct (Hp pc E) as [Hr Hc].
  split; [done|by eapply reach_grow].
Qed.

Lemma rewire_children_seen fuel p stack :
  (∀ n s r s', rewire fuel otn n p s = Ok (r, s') →
     seen stack s → n < length h0 → par s p →
     seen stack s' ∧ rw_grow s s' ∧ n ∈ visited s') →
  ∀ cs tr s tr' s',
    foldM (λ '(tr, s') child,
             '(r, s'') ← rewire fuel otn child p s';
             Ok (set_union tr r, s'')) cs (tr, s) = Ok (tr', s') →
    seen stack s → (∀ c, c ∈ cs → c < length h0) → par s p →
    seen stack s' ∧ rw_grow s s' ∧ ∀ c, c ∈ cs → c ∈ visited s'.
Proof.
  intros Hnode cs.
  induction cs as [|c cs IH]; intros tr s tr' s' H Hs Hval Hp; simpl in H.
  - injection H as <- <-. split; [done|]. split; [apply rw_grow_refl|].
    by intros c ?%elem_of_nil.
  - apply bind_Ok in H as ([tr1 s1] & H1 & H).
    apply bind_Ok in H1 as ([r s1'] & H1 & E). injection E as <- <-.
    destruct (Hnode c s r s1' H1 Hs) as (Hs1 & G1 & V1).
    { apply Hval, list_elem_of_here. }
    { done. }
    destruct (IH _ _ _ _ H Hs1) as (Hs' & G' & V').
    { intros c' Hc'. by apply Hval, list_elem_of_further. }
    { by eapply par_grow. }
    split; [done|]. split; [by eapply rw_grow_trans|].
    intros c' [->|Hc']%elem_of_cons; [|by apply V'].
    destruct G' as (_ & A2 & _). by apply A2.
Qed.

Lemma rewire_seen fuel :
  ∀ p stack n s r s',
    rewire fuel otn n p s = Ok (r, s') →
    seen stack s → n < length h0 → par s p →
    seen stack s' ∧ rw_grow s s' ∧ n ∈ visited s'.
Proof.
  induction fuel as [|fuel IH]; intros p stack n s r s' H Hs Hn Hp;
    [discriminate|].
  rewrite rewire_S in H. cbv zeta in H.
  pose proof Hs as (S0 & S1 & S2 & S3 & S4).
  destruct (fold_connect_seen h0 p (default [] (connections s !! n)) s)
    as (G1 & V1 & C1 & O1 & L1).
  { intros pc E. rewrite S0. by destruct (Hp pc E). }
  set (s1 := fold_left (connect p) (default [] (connections s !! n)) s) in *.
  assert (Hp1 : par s1 p) by (by eapply par_grow).
  assert (L0 : length (rw_nodes s1) = size).
  { destruct G1 as (L & _). by rewrite L. }
  (* the clone of a retained node hangs in the new graph now *)
  assert (Hcn : ∀ cn, otn !! n = Some cn →
                      reach (rw_nodes s1) (new_roots s1) cn).
  { intros cn Hcn. assert (Hl : linked s1 p cn).
    { apply L1. rewrite (S2 n cn Hcn). simpl. apply list_elem_of_here. }
    destruct p as [pc|]; simpl in Hl.
    - destruct (Hp1 pc eq_refl) as [_ (r0 & Hr0 & Hpath)].
      exists r0. split; [done|]. eapply rtc_r; [exact Hpath|exact Hl].
    - exists cn. split; [done|constructor]. }
  assert (Hs1 : seen stack s1).
  { split; [done|]. split; [intros x Hx; by rewrite O1, S1|].
    split; [intros n0 c Hc; rewrite C1; by apply S2|].
    split.
    { intros n0 c Hv Hc. rewrite V1 in Hv. eapply reach_grow; [exact G1|].
      by eapply S3. }
    intros m Hv Hst c Hc. rewrite V1 in Hv |- *. by eapply S4. }
  pose proof Hs1 as (_ & T1 & T2 & T3 & T4).
  (* the connections of a dropped node may be set at the end *)
  assert (Hend : ∀ stk s2 (tr : list nat),
            seen stk s2 →
            ∀ r0 s0,
              match otn !! n with
              | Some nn => Ok ([nn], s2)
              | None =>
                let c := set_union (default [] (connections s2 !! n)) tr in
                Ok (c, mkRW (rw_nodes s2) (<[n := c]> (connections s2))
                            (new_roots s2) (visited s2))
              end = Ok (r0, s0) →
              seen stk s0 ∧ rw_grow s2 s0 ∧ visited s0 = visited s2).
  { intros stk s2 tr Hs2 r0 s0 E. destruct (otn !! n) as [cn|] eqn:Hotn.
    - injection E as _ <-. split; [done|]. split; [apply rw_grow_refl|done].
    - cbv zeta in E. injection E as _ <-.
      destruct Hs2 as (U0 & U1 & U2 & U3 & U4).
      split; [|split; [split; [done|]; split; [done|]; split; done|done]].
      split; [done|]. split; [done|]. split; [|split; done].
      simpl. intros n0 c Hc. rewrite lookup_insert_ne; [by apply U2|].
      intros <-. congruence. }
  case_bool_decide as Hvis.
  - (* visited before *)
    simpl in H. destruct (Hend stack s1 [] Hs1 r s' H) as (F1 & F2 & F3).
    split; [done|]. split; [eapply rw_grow_trans; [exact G1|exact F2]|].
    by rewrite F3.
  - (* the node is visited now *)
    apply bind_Ok in H as ([tr s2] & H2 & H).
    set (sm := mkRW (rw_nodes s1) (connections s1) (new_roots s1)
                    (n :: visited s1)) in *.
    assert (Gm : rw_grow s1 sm).
    { split; [done|]. split; [|split; done].
      intros m Hm. by apply list_elem_of_further. }
    assert (Hsm : seen (n :: stack) sm).
    { split; [done|]. split; [done|]. split; [done|]. split.
      - simpl. intros n0 c [->|Hv]%elem_of_cons Hc; [by apply Hcn|].
        by eapply T3.
      - simpl. intros m [->|Hv]%elem_of_cons Hst c Hc.
        + exfalso. apply Hst, list_elem_of_here.
        + apply list_elem_of_further. eapply T4; [done| |done].
          intros Hm. apply Hst. by apply list_elem_of_further. }
    assert (Hpm : par sm (or_else (otn !! n) p)).
    { destruct (otn !! n) as [cn|] eqn:Hotn; simpl; [|exact Hp1].
      intros pc E. injection E as <-. split; [by eapply Hclone|].
      by apply Hcn. }
    rewrite (T1 n Hn) in H2.
    destruct (rewire_children_seen fuel (or_else (otn !! n) p) (n :: stack)
                (λ n0 s0 r0 s0' A B C D, IH _ _ n0 s0 r0 s0' A B C D)
                (children_of h0 n) [] sm tr s2 H2 Hsm)
      as (Hs2 & G2 & V2).
    { intros c Hc. eapply Hwf0, Hc. }
    { exact Hpm. }
    assert (Hs2' : seen stack s2).
    { destruct Hs2 as (U0 & U1 & U2 & U3 & U4).
      split; [done|]. split; [done|]. split; [done|]. split; [done|].
      intros m Hv Hst c Hc. destruct (decide (m = n)) as [->|Hne].
      - by apply V2.
      - eapply U4; [done| |done]. intros [?|?]%elem_of_cons; done. }
    destruct (Hend stack s2 tr Hs2' r s' H) as (F1 & F2 & F3).
    split; [done|]. split.
    + eapply rw_grow_trans; [exact G1|]. eapply rw_grow_trans; [exact Gm|].
      eapply rw_grow_trans; [exact G2|exact F2].
    + rewrite F3. destruct G2 as (_ & A2 & _). apply A2. simpl.
      apply list_elem_of_here.
Qed.

Lemma rewire_roots_seen fuel :
  ∀ rs s s',
    foldM (λ s root, snd <$> rewire fuel otn root None s) rs s = Ok s' →
    seen [] s → (∀ r, r ∈ rs → r < length h0) →
    seen [] s' ∧ rw_grow s s' ∧ ∀ r, r ∈ rs → r ∈ visited s'.
Proof.
  induction rs as [|r rs IH]; intros s s' H Hs Hval; simpl in H.
  - injection H as <-. split; [done|]. split; [apply rw_grow_refl|].
    by intros r ?%elem_of_nil.
  - apply bind_Ok in H as (s1 & H1 & H).
    apply fmap_Ok in H1 as ([tr s1'] & H1 & E). simpl in E. subst s1'.
    destruct (rewire_seen fuel None [] r s tr s1 H1 Hs) as (Hs1 & G1 & V1).
    { apply Hval, list_elem_of_here. }
    { intros pc E. discriminate. }
    destruct (IH s1 s' H Hs1) as (Hs' & G' & V').
    { intros r' Hr'. by apply Hval, list_elem_of_further. }
    split; [done|]. split; [by eapply rw_grow_trans|].
    intros r' [->|Hr']%elem_of_cons; [|by apply V'].
    destruct G' as (_ & A2 & _). by apply A2.
Qed.

End rewiring_visits.

(** The clone of every node of the graph that has a row hangs in the new
    graph, on any graph. *)
Lemma squash_rewire_reach (h : list Node) (g : Graph) (ns : list nat)
    (otn : gmap nat nat) (h1 : list Node) (roots1 : list nat) :
  wf_heap h → (∀ r, r ∈ roots g → r < length h) →
  squash_rewire h g ns = Ok (otn, h1, roots1) →
  ∀ a ca, in_graph h g a → otn !! a = Some ca → reach h1 roots1 ca.
Proof.
  intros Hwf Hroots H. unfold squash_rewire in H.
  apply bind_Ok in H as ([otn' hc] & Hmk & H).
  apply bind_Ok in H as (s & Hs & E). injection E as -> <- <-.
  destruct (make_clones_fresh h hc ns otn Hmk) as (Hpre & Hge & _).
  assert (Hlen : length h ≤ length hc ∧ ∀ n c, otn !! n = Some c → c < length hc).
  { unfold make_clones in Hmk.
    apply bind_Ok in Hmk as ([m hc'] & Hloop & E). injection E as <- <-.
    match goal with |- context [fold_left ?f ns hc'] =>
      pose proof (fold_set_nid_children m ns hc') as [Hl2 _] end.
    rewrite Hl2.
    apply clone_loop_fresh in Hloop as (Hp & Hr & _ & _).
    - split; [by apply prefix_length|done].
    - intros n c Hc. by rewrite lookup_empty in Hc.
    - intros a a' c Hc. by rewrite lookup_empty in Hc. }
  destruct Hlen as [Hlen Hlt].
  assert (Hclone : ∀ n c, otn !! n = Some c → length h ≤ c < length hc).
  { intros n c Hc. split; [by eapply Hge|by eapply Hlt]. }
  set (s0 := mkRW hc ((λ v, [v]) <$> otn) [] []) in Hs.
  assert (Hs0 : rw_seen h otn (length hc) [] s0).
  { split; [done|]. split.
    { intros x Hx. unfold children_of. simpl. by rewrite Hpre. }
    split.
    { simpl. intros n c Hc. by rewrite lookup_fmap, Hc. }
    split; [by intros n c ?%elem_of_nil|].
    by intros m ?%elem_of_nil. }
  destruct (rewire_roots_seen h otn (length hc) Hwf Hclone (S (length hc))
              (roots g) s0 s Hs Hs0 Hroots)
    as ((_ & S1 & _ & S3 & S4) & _ & V).
  intros a ca (r & Hr & Hp) Hca. apply (S3 a ca); [|done].
  assert (Hrv : r ∈ visited s) by (by apply V).
  clear Hr Hca. induction Hp as [|x y z Hxy _ IHp]; [done|].
  apply IHp. eapply S4; [exact Hrv|by intros ?%elem_of_nil|exact Hxy].
Qed.

(** ** What the merge of [normalize] keeps *)

Lemma resolve_pred (P : nat → Prop) (m : gmap nat nat) (x : nat) :
  (∀ k v, m !! k = Some v → P v) → P x → P (resolve m x).
Proof.
  intros Hm Hx. unfold resolve. destruct (m !! x) as [v|] eqn:E; simpl; eauto.
Qed.

Lemma find_child_merges_pred (P : nat → Prop) (h : list Node)
    (sibs : list nat) (m : gmap nat nat) :
  (∀ k v, m !! k = Some v → P v) →
  (∀ n, n ∈ sibs → P n) →
  ∀ k v, find_child_merges h sibs m !! k = Some v → P v.
Proof.
  intros Hm Hs. unfold find_child_merges.
  set (Q := λ sm : list nat * gmap nat nat,
         (∀ k, k ∈ sm.1 → P k) ∧ (∀ k v, sm.2 !! k = Some v → P v)).
  match goal with |- context [fold_left ?f sibs ?a] =>
    assert (HQ : Q (fold_left f sibs a)) end.
  { apply fold_left_inv.
    - split; [by intros k ?%elem_of_nil|done].
    - intros [seen m'] n Hn [Hseen Hm']. simpl in Hseen, Hm'.
      assert (Hn' : P (resolve m' n)) by (apply resolve_pred; auto).
      destruct (list_find _ seen) as [[i k]|] eqn:Hf.
      + apply list_find_Some in Hf as (Hk & _ & _).
        apply list_elem_of_lookup_2, Hseen in Hk.
        destruct (decide (k = resolve m' n)); [by split|].
        split; [done|]. simpl. intros k' v Hv.
        apply lookup_insert_Some in Hv as [[_ <-]|[_ Hv]]; [done|].
        rewrite lookup_fmap in Hv.
        destruct (m' !! k') as [t|] eqn:Ht; [|discriminate].
        simpl in Hv. injection Hv as <-.
        destruct (decide (t = resolve m' n)); eauto.
      + split; [|done]. simpl.
        intros k [Hk| ->%list_elem_of_singleton]%elem_of_app; auto. }
  destruct HQ as [_ HQ]. exact HQ.
Qed.

(** [normalize] rewrites the nodes of the graph only, and every node, root
    and edge of the graph it returns is the image of one of the graph it
    was given. *)
Lemma normalize_sound (P : nat → Prop) (h h' : list Node) (g g' : Graph)
    (m : gmap nat nat) :
  wf_heap h → (∀ r, r ∈ roots g → r < length h) →
  (∀ x, in_graph h g x → P x) →
  normalize h g = Ok (h', g', m) →
  (∀ x, ¬ P x → h' !! x = h !! x)
  ∧ (∀ k v, m !! k = Some v → P v)
  ∧ (∀ r', r' ∈ roots g' → ∃ r, r ∈ roots g ∧ r' = resolve m r)
  ∧ (∀ y', in_graph h' g' y' → ∃ y, in_graph h g y ∧ y' = resolve m y).
Proof.
  intros Hwf Hroots HP H. unfold normalize in H.
  destruct (graph_traverse_spec h g Pre Hwf Hroots) as (ns & Hns & Hnd & Hin & _).
  rewrite Hns in H. unfold mbind, result_bind in H. cbv beta iota zeta in H.
  injection H as <- <- Hm.
  assert (Hch : ∀ x c, x ∈ ns → c ∈ children_of h x → in_graph h g c).
  { intros x c (r & Hr & Hp)%Hin Hc. exists r. split; [done|].
    eapply rtc_r; [exact Hp|exact Hc]. }
  assert (HmP : ∀ k v, m !! k = Some v → P v).
  { rewrite <- Hm. apply (fold_left_inv (λ m' : gmap nat nat,
                        ∀ k v, m' !! k = Some v → P v)).
    - apply find_child_merges_pred.
      + intros k v Hk. by rewrite lookup_empty in Hk.
      + intros r Hr. apply HP. exists r. by split.
    - intros m' n Hn Hm'. apply find_child_merges_pred; [done|].
      intros c (l & Hl & Hc)%elem_of_concat.
      apply list_elem_of_fmap in Hl as (x & -> & Hx).
      apply list_elem_of_filter in Hx as [_ Hx].
      apply HP. by eapply Hch. }
  rewrite Hm.
  assert (Hroots' : ∀ r', r' ∈ unique (resolve m <$> roots g) →
                          ∃ r, r ∈ roots g ∧ r' = resolve m r).
  { intros r' Hr'. apply (proj1 (elem_of_unique _ _)) in Hr'.
    apply list_elem_of_fmap in Hr' as (r & -> & Hr). by exists r. }
  assert (Hedge : ∀ x y', x ∈ ns →
            y' ∈ children_of
                   (fold_left (λ h' z,
                      let cls := filter (λ x, resolve m x = z) ns in
                      alter (λ nd, mkNode (frame nd)
                        (unique (resolve m <$> concat (parents_of h <$> cls)))
                        (unique (resolve m <$> concat (children_of h <$> cls)))
                        (_hatchet_nid nd)) z h')
                      (unique (resolve m <$> ns)) h) (resolve m x) →
            ∃ y, in_graph h g y ∧ y' = resolve m y).
  { intros x y' Hx. unfold children_of at 1.
    rewrite (fold_alter_lookup
               (λ z nd, mkNode (frame nd)
                  (unique (resolve m <$> concat (parents_of h <$>
                     filter (λ x, resolve m x = z) ns)))
                  (unique (resolve m <$> concat (children_of h <$>
                     filter (λ x, resolve m x = z) ns)))
                  (_hatchet_nid nd))) by apply NoDup_unique.
    rewrite bool_decide_eq_true_2
      by (apply elem_of_unique; by apply list_elem_of_fmap_2).
    destruct (h !! resolve m x) as [nd|]; simpl; [|by intros ?%elem_of_nil].
    intros Hy. apply (proj1 (elem_of_unique _ _)) in Hy.
    apply list_elem_of_fmap in Hy as (y & -> & Hy).
    apply elem_of_concat in Hy as (l & Hl & Hy).
    apply list_elem_of_fmap in Hl as (x0 & -> & Hx0).
    apply list_elem_of_filter in Hx0 as [_ Hx0].
    exists y. split; [by eapply Hch|done]. }
  split.
  { intros x Hx.
    rewrite (fold_alter_lookup
               (λ z nd, mkNode (frame nd)
                  (unique (resolve m <$> concat (parents_of h <$>
                     filter (λ x, resolve m x = z) ns)))
                  (unique (resolve m <$> concat (children_of h <$>
                     filter (λ x, resolve m x = z) ns)))
                  (_hatchet_nid nd))) by apply NoDup_unique.
    rewrite bool_decide_eq_false_2; [done|].
    intros Hk. apply (proj1 (elem_of_unique _ _)) in Hk.
    apply list_elem_of_fmap in Hk as (n & -> & Hn).
    apply Hx, resolve_pred; [done|]. by apply HP, Hin. }
  split; [exact HmP|]. split; [exact Hroots'|].
  intros y' (r' & Hr' & Hp). simpl in Hr'.
  apply Hroots' in Hr' as (r & Hr & ->).
  assert (Hstart : ∃ y, in_graph h g y ∧ resolve m r = resolve m y).
  { exists r. split; [|done]. exists r. by split. }
  clear Hr. revert Hp Hstart.
  generalize (resolve m r). intros x' Hp Hstart.
  induction Hp as [x1|x1 y1 z1 Hxy _ IH]; [exact Hstart|].
  apply IH. destruct Hstart as (x & Hx & ->).
  apply (Hedge x y1); [by apply Hin|exact Hxy].
Qed.

(** ** The buffers the column sums write *)

Lemma elem_of_assoc_set {A} (c c' : string) (v b : A) (l : list (string * A)) :
  (c', b) ∈ assoc_set c v l → (c' = c ∧ b = v) ∨ (c', b) ∈ l.
Proof.
  induction l as [|[k w] l IH]; simpl.
  - intros E%list_elem_of_singleton. injection E as -> ->. by left.
  - destruct (decide (c = k)) as [->|Hne].
    + intros [E|H]%elem_of_cons.
      * injection E as -> ->. by left.
      * right. by apply list_elem_of_further.
    + intros [E|H]%elem_of_cons.
      * right. rewrite E. apply list_elem_of_here.
      * destruct (IH H) as [?|?]; [by left|right].
        by apply list_elem_of_further.
Qed.

#[local] Instance old_buffers_refl base : Reflexive (old_buffers base).
Proof. by split. Qed.
#[local] Instance old_buffers_trans base : Transitive (old_buffers base).
Proof.
  intros a b c [L1 H1] [L2 H2]. split; [lia|].
  intros x Hx. by rewrite H2, H1.
Qed.

Lemma write_cells_old (base : nat) (st st' : Store) (df : DataFrame)
    (c : string) (ps : list nat) (v : cell) :
  fresh_columns base df →
  write_cells st df c ps v = Ok st' → old_buffers base st st'.
Proof.
  intros Hf H. unfold write_cells in H.
  apply bind_Ok in H as (b & Hb%getitem_Ok & E). injection E as <-.
  apply assoc_elem_of, Hf in Hb. split; simpl.
  - by rewrite length_alter.
  - intros x Hx. apply list_lookup_alter_ne. lia.
Qed.

Lemma init_sum_columns_old (base : nat) (st st1 : Store) (gf gf1 : GraphFrame)
    (cols outs : list string) (oc : option (list string)) :
  base ≤ length (buffers st) → fresh_columns base (dataframe gf) →
  _init_sum_columns st gf cols oc = Ok (st1, gf1, outs) →
  old_buffers base st st1 ∧ fresh_columns base (dataframe gf1).
Proof.
  unfold _init_sum_columns. intros Hb Hf H.
  apply bind_Ok in H as ([[st2 gf2] outs2] & H & E).
  destruct (bool_decide _); [discriminate|]. injection E as <- <- <-.
  destruct oc as [o|].
  - apply bind_Ok in H as ([st' df'] & H & E). injection E as <- <- <-.
    simpl. revert H Hb Hf.
    generalize (dataframe gf) as df. generalize (zip cols o) as l.
    intros l. revert st. induction l as [|[c o'] l IH]; intros st df H Hb Hf;
      simpl in H.
    + injection H as <- <-. by split.
    + apply bind_Ok in H as ([st3 df3] & H1 & H2).
      apply bind_Ok in H1 as (vs & _ & E). injection E as <- <-.
      apply IH in H2 as [[L Ho] Hf'].
      * split; [|done]. simpl in L, Ho. rewrite length_app in L.
        split; [lia|]. intros b Hlt. rewrite Ho by done.
        apply lookup_app_l. lia.
      * simpl. rewrite length_app. lia.
      * intros c' b Hc'. simpl in Hc'.
        apply elem_of_assoc_set in Hc' as [[_ ->]|Hc']; [done|by eapply Hf].
  - injection H as <- <- <-. by split.
Qed.

Lemma subtree_sum_old (base : nat) (st st' : Store) (gf gf' : GraphFrame)
    (cols : list string) (oc : option (list string))
    (function : list cell → result cell) :
  base ≤ length (buffers st) → fresh_columns base (dataframe gf) →
  subtree_sum st gf cols oc function = Ok (st', gf') →
  old_buffers base st st'.
Proof.
  unfold subtree_sum. intros Hb Hf H.
  apply bind_Ok in H as ([[st1 gf1] outs] & Hi & H).
  apply (init_sum_columns_old base) in Hi as [Ho Hf1]; [|done..].
  apply bind_Ok in H as (g & _ & H).
  apply bind_Ok in H as (ns & _ & H).
  apply bind_Ok in H as (st2 & H & E). injection E as <- <-.
  etrans; [exact Ho|].
  refine (foldM_rel (old_buffers base) _ _ _ _ _ H); clear H.
  intros sa n sb H. cbv beta in H.
  destruct (children_of _ _); [by injection H as <-|].
  destruct (is_multi_index _).
  - apply bind_Ok in H as (rts & _ & H).
    refine (foldM_rel (old_buffers base) _ _ _ _ _ H); clear H.
    intros sc rt sd H. cbv beta in H.
    refine (foldM_rel (old_buffers base) _ _ _ _ _ H); clear H.
    intros se col sf H. cbv beta in H.
    apply bind_Ok in H as (vs & _ & H). apply bind_Ok in H as (v & _ & H).
    by eapply write_cells_old.
  - refine (foldM_rel (old_buffers base) _ _ _ _ _ H); clear H.
    intros se col sf H. cbv beta in H.
    apply bind_Ok in H as (ps & _ & H). apply bind_Ok in H as (vs & _ & H).
    apply bind_Ok in H as (v & _ & H). by eapply write_cells_old.
Qed.

Lemma subgraph_sum_old (base : nat) (st st' : Store) (gf gf' : GraphFrame)
    (cols : list string) (oc : option (list string))
    (function : list cell → result cell) :
  base ≤ length (buffers st) → fresh_columns base (dataframe gf) →
  subgraph_sum st gf cols oc function = Ok (st', gf') →
  old_buffers base st st'.
Proof.
  unfold subgraph_sum. intros Hb Hf H.
  apply bind_Ok in H as (g0 & _ & H).
  apply bind_Ok in H as ([] & _ & H); [by eapply subtree_sum_old|].
  apply bind_Ok in H as ([[st1 gf1] outs] & Hi & H).
  apply (init_sum_columns_old base) in Hi as [Ho Hf1]; [|done..].
  apply bind_Ok in H as (g & _ & H).
  apply bind_Ok in H as (ns & _ & H).
  apply bind_Ok in H as (st2 & H & E). injection E as <- <-.
  etrans; [exact Ho|].
  refine (foldM_rel (old_buffers base) _ _ _ _ _ H); clear H.
  intros sa n sb H. cbv beta in H.
  apply bind_Ok in H as (sub & _ & H).
  destruct (is_multi_index _).
  - apply bind_Ok in H as (rts & _ & H).
    refine (foldM_rel (old_buffers base) _ _ _ _ _ H); clear H.
    intros sc rt sd H. cbv beta in H.
    refine (foldM_rel (old_buffers base) _ _ _ _ _ H); clear H.
    intros se col sf H. cbv beta in H.
    apply bind_Ok in H as (vs & _ & H). apply bind_Ok in H as (v & _ & H).
    by eapply write_cells_old.
  - apply bind_Ok in H as (ps & _ & H). apply bind_Ok in H as (sums & _ & H).
    refine (foldM_rel (old_buffers base) _ _ _ _ _ H); clear H.
    intros sc [out v] sd H. by eapply write_cells_old.
Qed.

Lemma update_inclusive_columns_old (base : nat) (st st' : Store)
    (gf gf' : GraphFrame) :
  base ≤ length (buffers st) → fresh_columns base (dataframe gf) →
  update_inclusive_columns st gf = Ok (st', gf') →
  old_buffers base st st'.
Proof.
  unfold update_inclusive_columns. intros Hb Hf H.
  destruct (exc_metrics gf); [by injection H as <- <-|].
  apply bind_Ok in H as ([st2 gf2] & H & E). injection E as <- <-.
  by apply (subgraph_sum_old base) in H.
Qed.

Lemma df_new_old (st st' : Store) (idx : list string) (ks : list Key)
    (cols : Columns) (df' : DataFrame) :
  df_new st idx ks cols = (st', df') →
  old_buffers (length (buffers st)) st st'
  ∧ fresh_columns (length (buffers st)) df'.
Proof.
  unfold df_new, alloc_columns. intros E. injection E as <- <-.
  split; [split|]; simpl.
  - rewrite length_app. lia.
  - intros b Hb. by apply lookup_app_l.
  - intros c b Hc. simpl in Hc. apply list_elem_of_lookup in Hc as [i Hi].
    rewrite list_lookup_imap in Hi.
    destruct (cols !! i) as [x|]; [|discriminate]. simpl in Hi.
    injection Hi as _ <-. lia.
Qed.

(** ** The columns the sums leave alone *)

Lemma foldM_rel_in {A B} (R : relation B) `{!Reflexive R} `{!Transitive R}
    (f : B → A → result B) (l : list A) (b b' : B) :
  (∀ a x a', x ∈ l → f a x = Ok a' → R a a') → foldM f l b = Ok b' → R b b'.
Proof.
  revert b. induction l as [|x l IH]; intros b Hf H; simpl in H.
  - inversion H. reflexivity.
  - apply bind_Ok in H as (b1 & H1 & H2). etrans.
    + eapply Hf; [apply list_elem_of_here|exact H1].
    + apply IH; [|exact H2]. intros a y a' Hy. apply Hf.
      by apply list_elem_of_further.
Qed.

Lemma write_cells_out (base : nat) (outs : list string) (st st' : Store)
    (df : DataFrame) (c : string) (ps : list nat) (v : cell) :
  fresh_outs base outs df → c ∈ outs →
  write_cells st df c ps v = Ok st' → old_buffers base st st'.
Proof.
  intros Hf Hc H. unfold write_cells in H.
  apply bind_Ok in H as (b & Hb%getitem_Ok & E). injection E as <-.
  apply (Hf c b Hc) in Hb. split; simpl.
  - by rewrite length_alter.
  - intros x Hx. apply list_lookup_alter_ne. lia.
Qed.

(** [df[out] = df[col]] for the pairs of columns: the outputs are bound to
    new buffers, the other columns and the buffers that existed are as
    before. *)
Lemma init_fold_others (pairs : list (string * string)) :
  ∀ st df st' df',
    foldM (λ '(st', df') '(col, out),
             vs ← column st' df' col; Ok (setitem st' df' out vs))
          pairs (st, df) = Ok (st', df') →
    old_buffers (length (buffers st)) st st'
    ∧ (∀ c, c ∉ snd <$> pairs → assoc c (columns df') = assoc c (columns df))
    ∧ fresh_outs (length (buffers st)) (snd <$> pairs) df'.
Proof.
  induction pairs as [|[c o] pairs IH]; intros st df st' df' H; simpl in H.
  - injection H as <- <-. split; [reflexivity|]. split; [done|].
    by intros c b ?%elem_of_nil.
  - apply bind_Ok in H as ([st1 df1] & H1 & H2).
    apply bind_Ok in H1 as (vs & _ & E). injection E as <- <-.
    apply IH in H2 as ([L Hold] & Hoth & Hfresh). simpl in L, Hold, Hoth, Hfresh.
    rewrite length_app in L, Hold, Hfresh. simpl in L, Hold, Hfresh.
    split; [|split].
    + split; [lia|]. intros b Hb. rewrite Hold by lia. by apply lookup_app_l.
    + intros c' Hc'. simpl in Hc'. apply not_elem_of_cons in Hc' as [Hne Hc'].
      rewrite Hoth by done. by apply assoc_set_ne.
    + intros c' b Hc' Hb. simpl in Hc'.
      destruct (decide (c' ∈ snd <$> pairs)) as [Hin|Hnin].
      * apply (Hfresh c' b Hin) in Hb. lia.
      * apply elem_of_cons in Hc' as [->|?]; [|done].
        rewrite Hoth, assoc_set_eq in Hb by done. injection Hb as <-. lia.
Qed.

Lemma init_sum_columns_others (st st1 : Store) (gf gf1 : GraphFrame)
    (cols outs outs1 : list string) :
  _init_sum_columns st gf cols (Some outs) = Ok (st1, gf1, outs1) →
  outs1 = outs
  ∧ old_buffers (length (buffers st)) st st1
  ∧ (∀ c, c ∉ outs →
       assoc c (columns (dataframe gf1)) = assoc c (columns (dataframe gf)))
  ∧ fresh_outs (length (buffers st)) outs (dataframe gf1).
Proof.
  unfold _init_sum_columns. intros H.
  apply bind_Ok in H as ([[st2 gf2] outs2] & H & E).
  destruct (bool_decide (length cols ≠ length outs2)) eqn:Hlen; [discriminate|].
  apply bool_decide_eq_false in Hlen. apply dec_stable in Hlen.
  injection E as <- <- <-.
  apply bind_Ok in H as ([st' df'] & H & E). injection E as <- <- <-.
  apply init_fold_others in H as (Hold & Hoth & Hfresh).
  rewrite snd_zip in Hoth, Hfresh by lia. by simpl.
Qed.

Lemma subtree_sum_others (st st' : Store) (gf gf' : GraphFrame)
    (cols outs : list string) (function : list cell → result cell) :
  subtree_sum st gf cols (Some outs) function = Ok (st', gf') →
  old_buffers (length (buffers st)) st st'
  ∧ ∀ c, c ∉ outs →
      assoc c (columns (dataframe gf')) = assoc c (columns (dataframe gf)).
Proof.
  unfold subtree_sum. intros H.
  apply bind_Ok in H as ([[st1 gf1] outs1] & Hi & H).
  apply init_sum_columns_others in Hi as (-> & Ho & Hoth & Hf).
  apply bind_Ok in H as (g & _ & H).
  apply bind_Ok in H as (ns & _ & H).
  apply bind_Ok in H as (st2 & H & E). injection E as <- <-.
  split; [|done]. etrans; [exact Ho|].
  set (base := length (buffers st)) in *.
  refine (foldM_rel (old_buffers base) _ _ _ _ _ H); clear H.
  intros sa n sb H. cbv beta in H.
  destruct (children_of _ _); [by injection H as <-|].
  destruct (is_multi_index _).
  - apply bind_Ok in H as (rts & _ & H).
    refine (foldM_rel (old_buffers base) _ _ _ _ _ H); clear H.
    intros sc rt sd H. cbv beta in H.
    refine (foldM_rel_in (old_buffers base) _ _ _ _ _ H); clear H.
    intros se col sf Hcol H. cbv beta in H.
    apply bind_Ok in H as (vs & _ & H). apply bind_Ok in H as (v & _ & H).
    by eapply write_cells_out.
  - refine (foldM_rel_in (old_buffers base) _ _ _ _ _ H); clear H.
    intros se col sf Hcol H. cbv beta in H.
    apply bind_Ok in H as (ps & _ & H). apply bind_Ok in H as (vs & _ & H).
    apply bind_Ok in H as (v & _ & H). by eapply write_cells_out.
Qed.

Lemma subgraph_sum_others (st st' : Store) (gf gf' : GraphFrame)
    (cols outs : list string) (function : list cell → result cell) :
  subgraph_sum st gf cols (Some outs) function = Ok (st', gf') →
  old_buffers (length (buffers st)) st st'
  ∧ ∀ c, c ∉ outs →
      assoc c (columns (dataframe gf')) = assoc c (columns (dataframe gf)).
Proof.
  unfold subgraph_sum. intros H.
  apply bind_Ok in H as (g0 & _ & H).
  apply bind_Ok in H as ([] & _ & H); [by eapply subtree_sum_others|].
  apply bind_Ok in H as ([[st1 gf1] outs1] & Hi & H).
  apply init_sum_columns_others in Hi as (-> & Ho & Hoth & Hf).
  apply bind_Ok in H as (g & _ & H).
  apply bind_Ok in H as (ns & _ & H).
  apply bind_Ok in H as (st2 & H & E). injection E as <- <-.
  split; [|done]. etrans; [exact Ho|].
  set (base := length (buffers st)) in *.
  refine (foldM_rel (old_buffers base) _ _ _ _ _ H); clear H.
  intros sa n sb H. cbv beta in H.
  apply bind_Ok in H as (sub & _ & H).
  destruct (is_multi_index _).
  - apply bind_Ok in H as (rts & _ & H).
    refine (foldM_rel (old_buffers base) _ _ _ _ _ H); clear H.
    intros sc rt sd H. cbv beta in H.
    refine (foldM_rel_in (old_buffers base) _ _ _ _ _ H); clear H.
    intros se col sf Hcol H. cbv beta in H.
    apply bind_Ok in H as (vs & _ & H). apply bind_Ok in H as (v & _ & H).
    by eapply write_cells_out.
  - apply bind_Ok in H as (ps & _ & H). apply bind_Ok in H as (sums & _ & H).
    refine (foldM_rel_in (old_buffers base) _ _ _ _ _ H); clear H.
    intros sc [out v] sd Hin H.
    eapply write_cells_out; [exact Hf| |exact H].
    apply elem_of_zip_l in Hin. exact Hin.
Qed.

(** [update_inclusive_columns] writes the inclusive columns derived from
    the exclusive metrics and no other column. *)
Lemma update_inclusive_columns_others (st st' : Store) (gf gf' : GraphFrame)
    (c : string) :
  live_columns st (dataframe gf) →
  update_inclusive_columns st gf = Ok (st', gf') →
  c ∉ inc_name <$> exc_metrics gf →
  column st' (dataframe gf') c = column st (dataframe gf) c.
Proof.
  unfold update_inclusive_columns. intros Hlive H Hc.
  destruct (exc_metrics gf) as [|e es] eqn:Hexc; [by injection H as <- <-|].
  rewrite <- Hexc in *. clear Hexc.
  apply bind_Ok in H as ([st2 gf2] & H & E). injection E as <- <-.
  apply subgraph_sum_others in H as [[_ Hold] Hoth]. simpl in Hoth |- *.
  unfold column. rewrite (Hoth c Hc).
  destruct (assoc c (columns (dataframe gf))) as [b|] eqn:Hb; [|done].
  simpl. by rewrite (Hold b (Hlive c b Hb)).
Qed.

(** ** C3: the aggregation of squash *)

(** C3.  In [squash], the rows that land on the same final label (the node
    after rewiring and normalization, with the secondary index levels) are
    merged into one row of the aggregated table.  In a registered metric
    column the merged value is what [x.sum(min_count=1)] returns on the
    values of the group, and NaN when every value of the group is NaN.  In
    any other column it is the first value of the group in the row order of
    the table.  The table that [squash] returns is the aggregated table;
    with [update_inc_cols] the inclusive columns derived from the exclusive
    metrics are recomputed afterwards, and every other column still holds
    the merged values. *)
Theorem C3_squash_aggregates_groups (st st' : Store) (gf gf' : GraphFrame)
    (update_inc_cols : bool) :
  squash st gf update_inc_cols = Ok (st', gf') →
  ∃ g old_to_new h1 roots1 h2 h3 g2 merges st2 agg,
    graphs st !! graph gf = Some g
    ∧ squash_rewire (nodes st) g (unique (node <$> keys (dataframe gf)))
      = Ok (old_to_new, h1, roots1)
    ∧ enumerate_traverse h1 (mkGraph roots1) = Ok h2
    ∧ normalize h2 (mkGraph roots1) = Ok (h3, g2, merges)
    ∧ (if update_inc_cols then update_inclusive_columns st2 agg
       else Ok (st2, agg)) = Ok (st', gf')
    ∧ keys (dataframe gf') = keys (dataframe agg)
    ∧ let final := λ n, resolve merges (default n (old_to_new !! n)) in
      let landed := remap_keys final (keys (dataframe gf)) in
      keys (dataframe agg) ≡ₚ unique landed
      ∧ ∀ j k c vs,
          keys (dataframe agg) !! j = Some k →
          column st (dataframe gf) c = Ok vs →
          let group := select (group_of k landed) vs in
          ∃ merged v,
            column st2 (dataframe agg) c = Ok merged
            ∧ merged !! j = Some v
            ∧ (c ∈ exc_metrics gf ++ inc_metrics gf →
               nansum group = Ok v
               ∧ (Forall (λ x, x = NaN) group → v = NaN))
            ∧ (c ∉ exc_metrics gf ++ inc_metrics gf → head group = Some v)
            ∧ (update_inc_cols = false ∨ c ∉ inc_name <$> exc_metrics gf →
               column st' (dataframe gf') c = Ok merged).
Proof.
  unfold squash. intros H.
  apply bind_Ok in H as (g & Hg%getitem_Ok & H).
  apply bind_Ok in H as ([[otn h1] roots1] & Hrw & H).
  apply bind_Ok in H as (h2 & Hen & H).
  apply bind_Ok in H as (cols & Hcols & H).
  apply bind_Ok in H as (ks1 & Hks1 & H).
  apply bind_Ok in H as ([[h3 g2] merges] & Hnorm & H).
  apply bind_Ok in H as ([gks gcols] & Hgrp & H).
  simpl in Hcols, Hks1, Hrw.
  change (df_cols st (reset_index (dataframe gf)))
    with (df_cols st (dataframe gf)) in Hcols.
  apply remap_by_clones in Hks1. subst ks1.
  rewrite remap_keys_compose in Hgrp.
  set (landed := remap_keys (λ n, resolve merges (default n (otn !! n)))
                            (keys (dataframe gf))) in *.
  apply groupby_agg_spec in Hgrp as [-> Hagg].
  unfold sort_index in H.
  set (ps := sort_order h3 (unique landed)) in *.
  destruct (df_new _ _ _ _) as [st2 agg_df] eqn:Hnew.
  apply bind_Ok in H as (new_gf & Hinit & H).
  unfold GraphFrame_init in Hinit.
  destruct (bool_decide _); [|discriminate]. injection Hinit as <-.
  assert (Hps : ps ≡ₚ seq 0 (length (unique landed))) by apply sort_order_perm.
  assert (Hrange : ∀ i, i ∈ ps → i < length (unique landed)).
  { intros i Hi. rewrite Hps in Hi. apply elem_of_seq in Hi. lia. }
  eexists g, otn, h1, roots1, h2, h3, g2, merges, st2, _.
  repeat (split; [eassumption|]).
  pose proof (λ c, column_df_new _ _ _ _ _ _ c Hnew) as Hcolnew.
  pose proof (df_new_live _ _ _ _ _ _ Hnew) as Hlive.
  destruct (Hcolnew "") as (_ & Hkeys & _).
  split.
  { destruct update_inc_cols.
    - by apply update_inclusive_columns_frame in H as (_ & _ & ->).
    - by injection H as <- <-. }
  simpl. split.
  - rewrite Hkeys. rewrite (select_perm _ _ _ Hps). by rewrite select_all.
  - intros j k c vs Hj Hc. rewrite Hkeys in Hj.
    rewrite (column_df_cols _ _ _ _ Hcols) in Hc. apply getitem_Ok in Hc.
    destruct (Hagg c vs Hc) as (vals & Hvals & Hall).
    rewrite select_lookup in Hj by exact Hrange.
    destruct (ps !! j) as [i|] eqn:Hpj; [|discriminate]. simpl in Hj.
    destruct (Forall2_lookup_l _ _ _ _ _ Hall Hj) as (v & Hv & Hagg_v).
    exists (select ps vals), v.
    assert (Hmerged : column st2 agg_df c = Ok (select ps vals)).
    { destruct (Hcolnew c) as (-> & _ & _).
      rewrite assoc_fmap_named, Hvals. reflexivity. }
    split; [exact Hmerged|].
    split.
    { rewrite select_lookup.
      - rewrite Hpj. simpl. exact Hv.
      - intros i' Hi'. rewrite <- (Forall2_length _ _ _ Hall). by apply Hrange. }
    unfold agg_dict in Hagg_v. fold landed. unfold group_of in *. split; [|split].
    + intros Hm. rewrite bool_decide_eq_true_2 in Hagg_v by exact Hm.
      split; [exact Hagg_v|].
      intros Hnan. apply nansum_all_nan in Hnan.
      assert (E' : Ok v = Ok NaN) by (rewrite <- Hagg_v; exact Hnan).
      by inversion E'.
    + intros Hm. rewrite bool_decide_eq_false_2 in Hagg_v by exact Hm.
      unfold first_value in Hagg_v.
      destruct (select _ vs) as [|x xs]; [discriminate|].
      inversion Hagg_v. reflexivity.
    + intros Hflag. destruct update_inc_cols.
      * destruct Hflag as [?|Hout]; [done|].
        pose proof (λ L, update_inclusive_columns_others _ _ _ _ c L H Hout)
          as Hoth.
        simpl in Hoth. by rewrite Hoth.
      * by injection H as <- <-.
Qed.

Lemma C3_witness :
  ∃ st' gf',
    squash merge_store merge_gf true = Ok (st', gf')
    ∧ ∃ merged v, column st' (dataframe gf') "time" = Ok merged
                  ∧ merged !! 1 = Some v
                  ∧ v = Num 7.
Proof.
  assert (H : squash merge_store merge_gf true = merge_squashed_inc)
    by (vm_compute; reflexivity).
  unfold merge_squashed_inc in H.
  eexists _, _. split; [exact H|].
  destruct (C3_squash_aggregates_groups _ _ _ _ _ H)
    as (g & otn & h1 & roots1 & h2 & h3 & g2 & merges & st2 & agg
        & _ & _ & _ & _ & _ & Hk & _ & Hrows).
  destruct (Hrows 1 (mkKey 6 []) "time" [Num 1; Num 2; Num 5])
    as (merged & v & _ & Hv & _ & _ & Hc).
  - by rewrite <- Hk.
  - reflexivity.
  - exists merged, v.
    assert (Hout : true = false ∨ "time" ∉ inc_name <$> exc_metrics merge_gf).
    { right. vm_compute. intros Hin.
      apply list_elem_of_singleton in Hin. discriminate. }
    pose proof (Hc Hout) as Hcol.
    split; [exact Hcol|]. split; [exact Hv|].
    vm_compute in Hcol. injection Hcol as <-. vm_compute in Hv.
    by injection Hv as <-.
Defined.

(** ** The graph [squash] returns *)

Lemma first_kept_clone (h : list Node) (otn : gmap nat nat) (n c : nat) :
  first_kept h otn n c → ∃ a, otn !! a = Some c.
Proof. induction 1; eauto. Qed.

(** A traversal yields nodes that the roots reach only. *)
Lemma node_traverse_sound (P : nat → Prop) (h : list Node) (o : order) :
  (∀ a b, P a → b ∈ children_of h a → P b) →
  ∀ fuel n out vis out' vis',
    P n → Forall P out →
    node_traverse fuel h o n (out, vis) = Ok (out', vis') → Forall P out'.
Proof.
  intros Hcl. induction fuel as [|fuel IH];
    intros n out vis out' vis' Hn Hout H; [discriminate|].
  rewrite node_traverse_S in H. case_bool_decide; [by injection H as <- <-|].
  apply bind_Ok in H as ([out2 vis2] & Hf & E).
  assert (Hfold : ∀ cs a a', (∀ c, c ∈ cs → P c) → Forall P a.1 →
            foldM (λ a c, node_traverse fuel h o c a) cs a = Ok a' →
            Forall P a'.1).
  { induction cs as [|c cs IHcs]; intros [o1 v1] a' Hcs Ha Hfd; simpl in Hfd.
    - by injection Hfd as <-.
    - apply bind_Ok in Hfd as ([o2 v2] & H1 & Hfd).
      eapply IHcs; [| |exact Hfd].
      + intros c' Hc'. apply Hcs. by apply list_elem_of_further.
      + simpl. eapply IH; [| |exact H1]; [|exact Ha].
        apply Hcs, list_elem_of_here. }
  apply Hfold in Hf; simpl in Hf |- *.
  - destruct o; injection E as <- <-; [done|].
    apply Forall_app. split; [done|]. by constructor.
  - intros c Hc. by eapply Hcl.
  - destruct o; [|done]. apply Forall_app. split; [done|]. by constructor.
Qed.

Lemma graph_traverse_sound (P : nat → Prop) (h : list Node) (g : Graph)
    (o : order) (l : list nat) :
  (∀ a b, P a → b ∈ children_of h a → P b) →
  (∀ r, r ∈ roots g → P r) →
  graph_traverse h g o = Ok l → Forall P l.
Proof.
  intros Hcl Hr H. unfold graph_traverse, traverse_from in H.
  apply fmap_Ok in H as ([out vis] & H & ->). simpl.
  assert (Hgen : ∀ fuel rs a a', Forall P a.1 → (∀ r, r ∈ rs → P r) →
            foldM (λ a r, node_traverse fuel h o r a) rs a = Ok a' →
            Forall P a'.1).
  { intros fuel rs. induction rs as [|r rs IH]; intros a a' Ha Hrs Hf;
      simpl in Hf.
    - by injection Hf as <-.
    - apply bind_Ok in Hf as ([o2 v2] & H1 & Hf).
      eapply IH; [| |exact Hf].
      + simpl. destruct a as [o1 v1].
        eapply node_traverse_sound; [exact Hcl| | |exact H1]; [|exact Ha].
        apply Hrs, list_elem_of_here.
      + intros r' Hr'. apply Hrs. by apply list_elem_of_further. }
  apply (Hgen (S (length h)) (roots g) ([], []) (out, vis));
    [constructor|exact Hr|exact H].
Qed.

Lemma enumerate_fresh (P : nat → Prop) (h h' : list Node) (g : Graph) :
  (∀ a b, P a → b ∈ children_of h a → P b) →
  (∀ r, r ∈ roots g → P r) →
  enumerate_traverse h g = Ok h' →
  ∀ x, ¬ P x → h' !! x = h !! x.
Proof.
  intros Hcl Hr H x Hx. unfold enumerate_traverse in H.
  apply bind_Ok in H as (ns & Hns & E). injection E as <-.
  apply (graph_traverse_sound P) in Hns; [|done..].
  clear Hcl Hr. generalize 0%Z. revert h.
  induction Hns as [|n ns Hn _ IH]; intros h i; simpl; [done|].
  rewrite IH. unfold set_nid. apply list_lookup_alter_ne.
  intros ->. done.
Qed.

(** ** The frames of the nodes of a squashed graph *)

Lemma frame_of_alter (G : Node → Node) (i : nat) (h : list Node) (x : nat) :
  (∀ nd, frame (G nd) = frame nd) →
  frame_of (alter G i h) x = frame_of h x.
Proof.
  intros HG. unfold frame_of. destruct (decide (x = i)) as [->|Hne].
  - rewrite list_lookup_alter_eq. destruct (h !! i); simpl; [apply HG|done].
  - by rewrite list_lookup_alter_ne.
Qed.

Lemma frame_of_set_nid (h : list Node) (n : nat) (i : Z) (x : nat) :
  frame_of (set_nid h n i) x = frame_of h x.
Proof. by apply frame_of_alter. Qed.

Lemma frame_of_connect p s c x :
  frame_of (rw_nodes (connect p s c)) x = frame_of (rw_nodes s) x.
Proof.
  unfold connect. destruct p as [pc|]; case_bool_decide; simpl; try done.
  unfold add_parent, add_child. by rewrite !frame_of_alter.
Qed.

Lemma frame_of_fold_connect p (l : list nat) s x :
  frame_of (rw_nodes (fold_left (connect p) l s)) x = frame_of (rw_nodes s) x.
Proof.
  revert s. induction l as [|c l IH]; intros s; simpl; [done|].
  by rewrite IH, frame_of_connect.
Qed.

Lemma rewire_children_frames (otn : gmap nat nat) (fuel : nat) (p : option nat) :
  (∀ n s r s', rewire fuel otn n p s = Ok (r, s') →
     ∀ x, frame_of (rw_nodes s') x = frame_of (rw_nodes s) x) →
  ∀ cs tr s tr' s',
    foldM (λ '(tr, s') child,
             '(r, s'') ← rewire fuel otn child p s';
             Ok (set_union tr r, s'')) cs (tr, s) = Ok (tr', s') →
    ∀ x, frame_of (rw_nodes s') x = frame_of (rw_nodes s) x.
Proof.
  intros Hnode cs. induction cs as [|c cs IH]; intros tr s tr' s' H x;
    simpl in H.
  - by injection H as _ <-.
  - apply bind_Ok in H as ([tr1 s1] & H1 & H).
    apply bind_Ok in H1 as ([r s1'] & H1 & E). injection E as <- <-.
    rewrite (IH _ _ _ _ H). by eapply Hnode.
Qed.

(** The rewiring links nodes and leaves their frames alone. *)
Lemma rewire_frames (otn : gmap nat nat) (fuel : nat) :
  ∀ n p s r s', rewire fuel otn n p s = Ok (r, s') →
    ∀ x, frame_of (rw_nodes s') x = frame_of (rw_nodes s) x.
Proof.
  induction fuel as [|fuel IH]; intros n p s r s' H x; [discriminate|].
  rewrite rewire_S in H. cbv zeta in H.
  set (s1 := fold_left (connect p) (default [] (connections s !! n)) s) in *.
  apply bind_Ok in H as ([tr s2] & H2 & H).
  assert (H12 : frame_of (rw_nodes s2) x = frame_of (rw_nodes s1) x).
  { case_bool_decide; [by injection H2 as _ <-|].
    by rewrite (rewire_children_frames otn fuel _ (λ n0 s0 r0 s0', IH n0 _ s0 r0 s0')
                  _ _ _ _ _ H2 x). }
  assert (H2' : frame_of (rw_nodes s') x = frame_of (rw_nodes s2) x).
  { destruct (otn !! n); by injection H as _ <-. }
  rewrite H2', H12. apply frame_of_fold_connect.
Qed.

Lemma clone_loop_frames (F : nat → Frame) (ns : list nat) :
  ∀ (m m' : gmap nat nat) (h' h'' : list Node),
    foldM (λ '(m, h') n, '(c, h'') ← node_copy h' n; Ok (<[n := c]> m, h''))
          ns (m, h') = Ok (m', h'') →
    (∀ a c, m !! a = Some c → c < length h' ∧ frame_of h' c = F a) →
    (∀ n, n ∈ ns → n < length h' ∧ frame_of h' n = F n) →
    ∀ a c, m' !! a = Some c → frame_of h'' c = F a.
Proof.
  induction ns as [|n ns IH]; intros m m' h' h'' H Hm Hns; simpl in H.
  - injection H as <- <-. intros a c Hc. by destruct (Hm a c Hc).
  - apply bind_Ok in H as ([m1 h1] & Hstep & H).
    apply bind_Ok in Hstep as ([c hc] & Hcopy & E). injection E as <- <-.
    unfold node_copy in Hcopy. apply bind_Ok in Hcopy as (nd & Hnd%getitem_Ok & E').
    injection E' as <- <-.
    assert (Hold : ∀ x, x < length h' →
              frame_of (h' ++ [mkNode (frame nd) [] [] (-1)]) x = frame_of h' x).
    { intros x Hx. unfold frame_of. by rewrite lookup_app_l. }
    apply (IH _ _ _ _ H).
    + intros a c Hc. rewrite length_app. simpl.
      apply lookup_insert_Some in Hc as [[<- <-]|[_ Hc]].
      * split; [lia|]. unfold frame_of at 1.
        rewrite lookup_app_r, Nat.sub_diag by lia. simpl.
        destruct (Hns n ltac:(left)) as [_ <-]. unfold frame_of. by rewrite Hnd.
      * destruct (Hm a c Hc) as [Hlt <-]. split; [lia|by apply Hold].
    + intros n' Hn'. destruct (Hns n' ltac:(by right)) as [Hlt <-].
      rewrite length_app. simpl. split; [lia|by apply Hold].
Qed.

Lemma fold_set_nid_frames (m : gmap nat nat) (ns : list nat) :
  ∀ (h : list Node) (x : nat),
    frame_of (fold_left (λ h' n, match m !! n with
                                 | Some c => set_nid h' c (nid_of h' n)
                                 | None => h'
                                 end) ns h) x = frame_of h x.
Proof.
  induction ns as [|n ns IH]; intros h x; simpl; [done|].
  rewrite IH. destruct (m !! n); [apply frame_of_set_nid|done].
Qed.

Lemma rewire_roots_frames (otn : gmap nat nat) (fuel : nat) (rs : list nat) :
  ∀ s s',
    foldM (λ s root, snd <$> rewire fuel otn root None s) rs s = Ok s' →
    ∀ x, frame_of (rw_nodes s') x = frame_of (rw_nodes s) x.
Proof.
  induction rs as [|r rs IH]; intros s s' H x; simpl in H.
  - by injection H as <-.
  - apply bind_Ok in H as (s1 & H1 & H).
    apply fmap_Ok in H1 as ([tr s1'] & H1 & E). simpl in E. subst s1'.
    rewrite (IH _ _ H). by eapply rewire_frames.
Qed.

(** A clone carries the frame of its original. *)
Lemma squash_rewire_frames (h : list Node) (g : Graph) (ns : list nat)
    (otn : gmap nat nat) (h1 : list Node) (roots1 : list nat) :
  (∀ n, n ∈ ns → n < length h) →
  squash_rewire h g ns = Ok (otn, h1, roots1) →
  ∀ a c, otn !! a = Some c → frame_of h1 c = frame_of h a.
Proof.
  intros Hns H a c Hc. unfold squash_rewire in H.
  apply bind_Ok in H as ([otn' hc] & Hmk & H).
  apply bind_Ok in H as (s & Hs & E). injection E as -> <- <-.
  rewrite (rewire_roots_frames _ _ _ _ _ Hs c). simpl.
  unfold make_clones in Hmk.
  apply bind_Ok in Hmk as ([m hc0] & Hloop & E). injection E as <- <-.
  rewrite fold_set_nid_frames.
  apply (clone_loop_frames (frame_of h) ns ∅ m h hc0 Hloop); [| |done].
  - intros a' c' Hc'. by rewrite lookup_empty in Hc'.
  - intros n Hn. split; [by apply Hns|done].
Qed.

Lemma enumerate_frames (h h' : list Node) (g : Graph) :
  enumerate_traverse h g = Ok h' → ∀ x, frame_of h' x = frame_of h x.
Proof.
  unfold enumerate_traverse. intros H x.
  apply bind_Ok in H as (ns & _ & E). injection E as <-.
  generalize 0%Z. revert h. induction ns as [|n ns IH]; intros h i; simpl;
    [done|].
  by rewrite IH, frame_of_set_nid.
Qed.

Lemma find_child_merges_frames (h : list Node) (sibs : list nat)
    (m : gmap nat nat) :
  (∀ k v, m !! k = Some v → frame_of h v = frame_of h k) →
  ∀ k v, find_child_merges h sibs m !! k = Some v →
         frame_of h v = frame_of h k.
Proof.
  intros Hm. unfold find_child_merges.
  set (Q := λ sm : list nat * gmap nat nat,
         ∀ k v, sm.2 !! k = Some v → frame_of h v = frame_of h k).
  match goal with |- context [fold_left ?f sibs ?a] =>
    assert (HQ : Q (fold_left f sibs a)) end.
  { apply fold_left_inv; [done|].
    intros [seen m'] n Hn Hm'. unfold Q in Hm' |- *. simpl in Hm'.
    assert (Hres : frame_of h (resolve m' n) = frame_of h n).
    { unfold resolve. destruct (m' !! n) as [v|] eqn:E; simpl; [eauto|done]. }
    destruct (list_find _ seen) as [[i k]|] eqn:Hf; [|done].
    apply list_find_Some in Hf as (_ & Hk%bool_decide_unpack & _).
    destruct (decide (k = resolve m' n)); [done|].
    simpl. intros k' v Hv.
    apply lookup_insert_Some in Hv as [[<- <-]|[_ Hv]]; [done|].
    rewrite lookup_fmap in Hv.
    destruct (m' !! k') as [t|] eqn:Ht; [|discriminate].
    simpl in Hv. injection Hv as <-.
    destruct (decide (t = resolve m' n)) as [->|_]; [|eauto].
    rewrite Hk. eauto. }
  exact HQ.
Qed.

Lemma fold_alter_frames (G : nat → Node → Node) (l : list nat) :
  (∀ z nd, frame (G z nd) = frame nd) →
  ∀ (h : list Node) (x : nat),
    frame_of (fold_left (λ h' z, alter (G z) z h') l h) x = frame_of h x.
Proof.
  intros HG. induction l as [|z l IH]; intros h x; simpl; [done|].
  rewrite IH. apply frame_of_alter, HG.
Qed.

(** [normalize] leaves the frames alone and merges nodes of one frame. *)
Lemma normalize_frames (h h' : list Node) (g g' : Graph) (m : gmap nat nat) :
  normalize h g = Ok (h', g', m) →
  (∀ x, frame_of h' x = frame_of h x)
  ∧ (∀ k v, m !! k = Some v → frame_of h v = frame_of h k).
Proof.
  intros H. unfold normalize in H.
  apply bind_Ok in H as (ns & _ & E). injection E as <- <- Hm.
  split.
  - intros x. rewrite Hm.
    apply (fold_alter_frames
             (λ z nd, mkNode (frame nd)
                (unique (resolve m <$> concat (parents_of h <$>
                   filter (λ x, resolve m x = z) ns)))
                (unique (resolve m <$> concat (children_of h <$>
                   filter (λ x, resolve m x = z) ns)))
                (_hatchet_nid nd))).
    by intros z nd.
  - rewrite <- Hm. apply (fold_left_inv (λ m' : gmap nat nat,
                        ∀ k v, m' !! k = Some v → frame_of h v = frame_of h k)).
    + apply find_child_merges_frames.
      intros k v Hk. by rewrite lookup_empty in Hk.
    + intros m' n _ Hm'. by apply find_child_merges_frames.
Qed.

(** The node that stands for a node of the table in the squashed graph
    carries its frame. *)
Lemma squash_frames (h : list Node) (g : Graph) (ns : list nat)
    (otn : gmap nat nat) (h1 : list Node) (roots1 : list nat)
    (h2 h3 : list Node) (g' : Graph) (merges : gmap nat nat) :
  (∀ n, n ∈ ns → n < length h) →
  squash_rewire h g ns = Ok (otn, h1, roots1) →
  enumerate_traverse h1 (mkGraph roots1) = Ok h2 →
  normalize h2 (mkGraph roots1) = Ok (h3, g', merges) →
  ∀ a c, otn !! a = Some c →
    frame_of h3 (resolve merges c) = frame_of h a.
Proof.
  intros Hns Hrw Hen Hnorm a c Hc.
  destruct (normalize_frames _ _ _ _ _ Hnorm) as [H3 Hm].
  rewrite H3.
  assert (Hres : frame_of h2 (resolve merges c) = frame_of h2 c).
  { unfold resolve. destruct (merges !! c) as [v|] eqn:E; simpl; [eauto|done]. }
  rewrite Hres, (enumerate_frames _ _ _ Hen).
  by eapply squash_rewire_frames.
Qed.

(** The stages of [squash] and what they leave in the store. *)
Lemma squash_stages (st st' : Store) (gf gf' : GraphFrame)
    (update_inc_cols : bool) (g : Graph) :
  graphs st !! graph gf = Some g →
  squash st gf update_inc_cols = Ok (st', gf') →
  ∃ (otn : gmap nat nat) (h1 : list Node) (roots1 : list nat)
    (h2 h3 : list Node) (g2 : Graph) (merges : gmap nat nat),
    squash_rewire (nodes st) g (unique (node <$> keys (dataframe gf)))
      = Ok (otn, h1, roots1)
    ∧ enumerate_traverse h1 (mkGraph roots1) = Ok h2
    ∧ normalize h2 (mkGraph roots1) = Ok (h3, g2, merges)
    ∧ nodes st' = h3
    ∧ graphs st' = graphs st ++ [g2]
    ∧ graph gf' = length (graphs st)
    ∧ keys (dataframe gf')
        ≡ₚ unique (remap_keys (λ n, resolve merges (default n (otn !! n)))
                              (keys (dataframe gf)))
    ∧ (∀ b, b < length (buffers st) → buffers st' !! b = buffers st !! b).
Proof.
  intros Hg H. unfold squash in H.
  apply bind_Ok in H as (g0 & Hg0%getitem_Ok & H).
  assert (g0 = g) as -> by congruence.
  apply bind_Ok in H as ([[otn h1] roots1] & Hrw & H).
  apply bind_Ok in H as (h2 & Hen & H).
  apply bind_Ok in H as (cols & Hcols & H).
  apply bind_Ok in H as (ks1 & Hks1 & H).
  apply bind_Ok in H as ([[h3 g2] merges] & Hnorm & H).
  apply bind_Ok in H as ([gks gcols] & Hgrp & H).
  simpl in Hks1, Hrw.
  apply remap_by_clones in Hks1. subst ks1.
  rewrite remap_keys_compose in Hgrp.
  apply groupby_agg_spec in Hgrp as [-> _].
  unfold sort_index in H.
  set (ps := sort_order h3 _) in *.
  destruct (df_new _ _ _ _) as [st2 agg_df] eqn:Hnew.
  apply bind_Ok in H as (new_gf & Hinit & H).
  unfold GraphFrame_init in Hinit.
  destruct (bool_decide _); [|discriminate]. inversion Hinit; subst new_gf.
  clear Hinit.
  destruct (column_df_new _ _ _ _ _ _ "" Hnew) as (_ & Hkeys & _).
  pose proof (df_new_frame _ _ _ _ _ _ Hnew) as [Hn2 Hg2]. simpl in Hn2, Hg2.
  assert (Hfin : same_graphs st2 st' ∧ graph gf' = length (graphs st)
                 ∧ keys (dataframe gf') = keys agg_df).
  { destruct update_inc_cols.
    - by apply update_inclusive_columns_frame in H.
    - inversion H. by subst. }
  destruct Hfin as ([Hn3 Hg3] & Hgr & Hk3).
  pose proof (df_new_old _ _ _ _ _ _ Hnew) as [[Hlb Hob] Hfc].
  simpl in Hlb, Hob, Hfc.
  assert (Hbuf : old_buffers (length (buffers st)) st2 st').
  { destruct update_inc_cols.
    - by apply (update_inclusive_columns_old (length (buffers st))) in H.
    - injection H as <- _. reflexivity. }
  exists otn, h1, roots1, h2, h3, g2, merges.
  split; [done|]. split; [done|]. split; [done|].
  split; [by rewrite Hn3, Hn2|]. split; [by rewrite Hg3, Hg2|].
  split; [done|]. split.
  { rewrite Hk3, Hkeys. unfold ps.
    rewrite (select_perm _ _ _ (sort_order_perm _ _)). by rewrite select_all. }
  intros b Hb. destruct Hbuf as [_ Hbuf]. rewrite Hbuf by done. by apply Hob.
Qed.

(** What the rewiring of [squash] builds on any graph, cyclic or not: the
    old nodes are left alone, the clones are fresh nodes of the table,
    every root and every link of the new graph has a reason in the old
    graph, and the clone of every node of the old graph hangs in the new
    graph. *)
Lemma squash_rewire_shape (h : list Node) (g : Graph) (ns : list nat)
    (otn : gmap nat nat) (h1 : list Node) (roots1 : list nat) :
  wf_heap h → (∀ r, r ∈ roots g → r < length h) →
  (∀ n, n ∈ ns → n < length h) →
  squash_rewire h g ns = Ok (otn, h1, roots1) →
  (∀ x, x < length h → h1 !! x = h !! x)
  ∧ (∀ a c, otn !! a = Some c → length h ≤ c < length h1 ∧ a ∈ ns)
  ∧ (∀ n, n ∈ ns → is_Some (otn !! n))
  ∧ (∀ a a' c, otn !! a = Some c → otn !! a' = Some c → a = a')
  ∧ (∀ c, c ∈ roots1 → ∃ r, r ∈ roots g ∧ first_kept h otn r c)
  ∧ (∀ a ca c, otn !! a = Some ca → c ∈ children_of h1 ca →
       ∃ m, m ∈ children_of h a ∧ first_kept h otn m c)
  ∧ wf_heap h1
  ∧ (∀ a ca, in_graph h g a → otn !! a = Some ca → reach h1 roots1 ca).
Proof.
  intros Hwf Hroots Hns H.
  pose proof (squash_rewire_reach h g ns otn h1 roots1 Hwf Hroots H) as Hreach.
  unfold squash_rewire in H.
  apply bind_Ok in H as ([otn' hc] & Hmk & H).
  apply bind_Ok in H as (s & Hs & E). injection E as -> <- <-.
  destruct (make_clones_spec h ns Hwf Hns)
    as (otn1 & hc1 & Hmk1 & Hlen & Hold & Hwfc & Hrange & Hdom).
  rewrite Hmk in Hmk1. injection Hmk1 as <- <-.
  destruct (make_clones_fresh h hc ns otn Hmk) as (Hpre & Hge & Hinj).
  pose proof (make_clones_children_new h hc ns otn Hns Hmk) as Hnew.
  set (s0 := mkRW hc ((λ v, [v]) <$> otn) [] []) in Hs.
  assert (Hsound0 : rw_sound h hc otn (roots g) s0).
  { split; [done|]. split; [done|]. split.
    { intros n l c Hl Hc. simpl in Hl. rewrite lookup_fmap in Hl.
      destruct (otn !! n) as [c'|] eqn:E; [|discriminate].
      injection Hl as <-. apply list_elem_of_singleton in Hc as ->.
      by constructor. }
    split; [by intros c ?%elem_of_nil|].
    intros p c Hc. by left. }
  pose proof (rewire_roots_sound h hc otn (roots g) Hwf Hge Hold
                (S (length hc)) (roots g) s0 s Hsound0
                (λ r Hr, conj Hr (Hroots r Hr)) Hs)
    as (S1 & S2 & _ & S4 & S5).
  split.
  { intros x Hx. rewrite S2 by done. by apply Hpre. }
  split.
  { intros a c Hc. destruct (Hrange a c Hc) as [[? ?] ?].
    split; [|done]. rewrite S1. lia. }
  split; [exact Hdom|]. split; [exact Hinj|]. split; [exact S4|].
  split.
  { intros a ca c Hca Hc.
    destruct (S5 ca c Hc) as [Hc'|(a' & m & Ha' & Hm & Hfk)].
    - rewrite (Hnew ca) in Hc'; [by apply elem_of_nil in Hc'|by apply Hge in Hca].
    - rewrite (Hinj a a' ca Hca Ha'). by exists m. }
  split; [|exact Hreach].
  intros n c Hc. rewrite S1.
  destruct (S5 n c Hc) as [Hc'|(a & m & _ & _ & Hfk)].
  - by eapply Hwfc.
  - apply first_kept_clone in Hfk as (a' & Ha').
    by destruct (Hrange a' c Ha') as [[? ?] ?].
Qed.

(** The graph of a squashed GraphFrame, on any graph: it is made of fresh
    nodes, the clones of nodes of the table after the merge, and of nothing
    else; the clone of every node of the old graph that has a row is a node
    of it; and what was in the arena before is left as it was. *)
Lemma squash_graph (st st' : Store) (gf gf' : GraphFrame)
    (update_inc_cols : bool) (g : Graph) :
  wf_heap (nodes st) →
  graphs st !! graph gf = Some g →
  (∀ r, r ∈ roots g → r < length (nodes st)) →
  (∀ k, k ∈ keys (dataframe gf) → node k < length (nodes st)) →
  squash st gf update_inc_cols = Ok (st', gf') →
  ∃ (otn : gmap nat nat) (h1 : list Node) (roots1 : list nat)
    (h2 : list Node) (g' : Graph) (merges : gmap nat nat),
    squash_rewire (nodes st) g (unique (node <$> keys (dataframe gf)))
      = Ok (otn, h1, roots1)
    ∧ enumerate_traverse h1 (mkGraph roots1) = Ok h2
    ∧ normalize h2 (mkGraph roots1) = Ok (nodes st', g', merges)
    ∧ graphs st' = graphs st ++ [g']
    ∧ graph gf' = length (graphs st)
    ∧ keys (dataframe gf')
        ≡ₚ unique (remap_keys (λ n, resolve merges (default n (otn !! n)))
                              (keys (dataframe gf)))
    ∧ (∀ x, x < length (nodes st) → nodes st' !! x = nodes st !! x)
    ∧ (∀ b, b < length (buffers st) → buffers st' !! b = buffers st !! b)
    ∧ (∀ y, in_graph (nodes st') g' y →
            length (nodes st) ≤ y
            ∧ ∃ k, k ∈ keys (dataframe gf)
                   ∧ y = resolve merges (default (node k) (otn !! node k)))
    ∧ (∀ k, k ∈ keys (dataframe gf) → in_graph (nodes st) g (node k) →
            in_graph (nodes st') g'
                     (resolve merges (default (node k) (otn !! node k))))
    ∧ (∀ k, k ∈ keys (dataframe gf) →
            frame_of (nodes st')
                     (resolve merges (default (node k) (otn !! node k)))
            = frame_of (nodes st) (node k)).
Proof.
  intros Hwf Hg Hroots Hlive H.
  destruct (squash_stages _ _ _ _ _ _ Hg H)
    as (otn & h1 & roots1 & h2 & h3 & g2 & merges
        & Hrw & Hen & Hnorm & Hn & Hgs & Hgr & Hks & Hbufs).
  set (tn := unique (node <$> keys (dataframe gf))) in *.
  assert (Htn : ∀ n, n ∈ tn → n < length (nodes st)).
  { intros n Hn'. apply (proj1 (elem_of_unique _ _)) in Hn'.
    apply list_elem_of_fmap in Hn' as (k & -> & Hk). by apply Hlive. }
  destruct (squash_rewire_shape (nodes st) g tn otn h1 roots1
              Hwf Hroots Htn Hrw)
    as (Hold1 & Hrange & Hdom & _ & Hroots1 & Hch1 & Hwf1 & Hreach).
  destruct (enumerate_children _ _ _ Hen) as [Hl2 Hc2].
  assert (Hwf2 : wf_heap h2).
  { intros n c. rewrite Hc2, Hl2. apply Hwf1. }
  (* the nodes of the rewired graph are clones *)
  assert (Hcl : ∀ y, reach h1 roots1 y → ∃ a, otn !! a = Some y).
  { intros y (r & Hr & Hp).
    assert (Hs : ∃ a, otn !! a = Some r).
    { apply Hroots1 in Hr as (r0 & _ & Hfk). by eapply first_kept_clone. }
    clear Hr. induction Hp as [x|x y z Hxy _ IH]; [done|].
    apply IH. destruct Hs as (a & Ha).
    destruct (Hch1 a x y Ha Hxy) as (m & _ & Hfk).
    by eapply first_kept_clone. }
  assert (Hr2 : ∀ r, r ∈ roots (mkGraph roots1) → r < length h2).
  { simpl. intros r Hr. rewrite Hl2.
    destruct (Hcl r) as (a & Ha); [exists r; split; [done|constructor]|].
    by destruct (Hrange a r Ha) as [[? ?] ?]. }
  assert (Hcl2 : ∀ y, in_graph h2 (mkGraph roots1) y →
                      ∃ a, otn !! a = Some y ∧ a ∈ tn
                           ∧ length (nodes st) ≤ y).
  { intros y Hy. apply (reach_children_eq h2 h1) in Hy; [|by intros; rewrite Hc2].
    destruct (Hcl y Hy) as (a & Ha). exists a.
    destruct (Hrange a y Ha) as [[? ?] ?]. by repeat split. }
  destruct (normalize_spec h2 (mkGraph roots1) Hwf2 Hr2)
    as (h3' & g2' & m' & Hnorm' & Hl3 & Hroots3 & Hedges).
  rewrite Hnorm in Hnorm'. injection Hnorm' as <- <- <-.
  destruct (normalize_paths _ _ _ _ _ Hroots3 Hedges) as [_ Hnodes].
  destruct (normalize_sound (λ x, length (nodes st) ≤ x) h2 h3
              (mkGraph roots1) g2 merges Hwf2 Hr2) as (Hold3 & Hmg & _ & Hrev);
    [|exact Hnorm|].
  { intros x Hx. by destruct (Hcl2 x Hx) as (a & _ & _ & Hge). }
  exists otn, h1, roots1, h2, g2, merges. rewrite Hn.
  split; [done|]. split; [done|]. split; [done|]. split; [done|].
  split; [done|]. split; [done|].
  split.
  { intros x Hx. rewrite Hold3 by lia.
    rewrite (enumerate_fresh (λ y, ∃ a, otn !! a = Some y) h1 h2
               (mkGraph roots1)); [by apply Hold1| | |done|].
    - intros a b [a0 Ha0] Hb.
      destruct (Hch1 a0 a b Ha0 Hb) as (m & _ & Hfk).
      by eapply first_kept_clone.
    - simpl. intros r Hr. apply Hcl. exists r. split; [done|constructor].
    - intros [a Ha]. destruct (Hrange a x Ha) as [[? ?] ?]. lia. }
  split; [exact Hbufs|]. split.
  - intros y Hy. destruct (Hrev y Hy) as (y0 & Hy0 & ->).
    destruct (Hcl2 y0 Hy0) as (a & Ha & Hatn & Hge). split.
    + by apply (resolve_pred (λ x, length (nodes st) ≤ x)).
    + apply (proj1 (elem_of_unique _ _)) in Hatn.
      apply list_elem_of_fmap in Hatn as (k & -> & Hk).
      exists k. split; [done|]. by rewrite Ha.
  - split.
    + intros k Hk Hkg.
      assert (Hktn : node k ∈ tn).
      { apply elem_of_unique. by apply list_elem_of_fmap_2. }
      destruct (Hdom _ Hktn) as [c Hc]. rewrite Hc. simpl.
      apply Hnodes. eapply reach_children_eq; [exact Hc2|].
      by eapply Hreach.
    + intros k Hk.
      assert (Hktn : node k ∈ tn).
      { apply elem_of_unique. by apply list_elem_of_fmap_2. }
      destruct (Hdom _ Hktn) as [c Hc]. rewrite Hc. simpl.
      by apply (squash_frames (nodes st) g tn otn h1 roots1 h2 h3 g2 merges
                  Htn Hrw Hen Hnorm (node k) c).
Qed.

(** X8 ([GraphFrame.squash], lines 517-618): the graph and the table of a
    squashed GraphFrame agree, on any graph (a tree, a DAG or a graph with
    cycles).  When every row of the table is keyed by a node of the graph,
    the GraphFrame that [squash] returns has a row for every node of its
    graph, every row of its table is keyed by a node of its graph, and no
    two of its rows carry the same label.  (The references of the store
    are live: children and roots are nodes of the arena.) *)
Theorem X8_squash_graph_matches_table (st st' : Store) (gf gf' : GraphFrame)
    (update_inc_cols : bool) (g : Graph) :
  wf_heap (nodes st) →
  graphs st !! graph gf = Some g →
  (∀ r, r ∈ roots g → r < length (nodes st)) →
  (∀ k, k ∈ keys (dataframe gf) → in_graph (nodes st) g (node k)) →
  squash st gf update_inc_cols = Ok (st', gf') →
  ∃ g', graphs st' !! graph gf' = Some g'
    ∧ NoDup (keys (dataframe gf'))
    ∧ (∀ k, k ∈ keys (dataframe gf') → in_graph (nodes st') g' (node k))
    ∧ (∀ y, in_graph (nodes st') g' y →
            ∃ k, k ∈ keys (dataframe gf') ∧ node k = y).
Proof.
  intros Hwf Hg Hroots Hkg H.
  assert (Hlive : ∀ k, k ∈ keys (dataframe gf) → node k < length (nodes st)).
  { intros k Hk. by apply (in_graph_valid (nodes st) g _ Hwf Hroots), Hkg. }
  destruct (squash_graph st st' gf gf' update_inc_cols g Hwf Hg Hroots Hlive H)
    as (otn & h1 & roots1 & h2 & g' & merges
        & _ & _ & _ & Hgs & Hgr & Hks & _ & _ & Hsound & Hcomplete & _).
  exists g'. split.
  { rewrite Hgr, Hgs. by rewrite lookup_app_r, Nat.sub_diag. }
  split; [rewrite Hks; apply NoDup_unique|].
  split.
  - intros k Hk. rewrite Hks in Hk.
    apply (proj1 (elem_of_unique _ _)) in Hk.
    apply list_elem_of_fmap in Hk as (k0 & -> & Hk0). simpl.
    apply Hcomplete; [done|by apply Hkg].
  - intros y Hy. apply Hsound in Hy as (_ & k0 & Hk0 & ->).
    exists (mkKey (resolve merges (default (node k0) (otn !! node k0)))
                  (dims k0)).
    split; [|done].
    rewrite Hks. apply elem_of_unique.
    apply list_elem_of_fmap. by exists k0.
Qed.

Lemma X8_witness :
  ∃ st' gf' g',
    squash cyclic_store cyclic_gf true = Ok (st', gf')
    ∧ graphs st' !! graph gf' = Some g'
    ∧ NoDup (keys (dataframe gf'))
    ∧ (∀ k, k ∈ keys (dataframe gf') → in_graph (nodes st') g' (node k))
    ∧ (∀ y, in_graph (nodes st') g' y →
            ∃ k, k ∈ keys (dataframe gf') ∧ node k = y).
Proof.
  assert (H : squash cyclic_store cyclic_gf true = cyclic_squashed)
    by (vm_compute; reflexivity).
  unfold cyclic_squashed in H.
  match type of H with
  | _ = Ok (?s, ?g0) =>
    exists s, g0;
    destruct (X8_squash_graph_matches_table cyclic_store s cyclic_gf g0 true
                (mkGraph [0])) as (g' & Hg & Hnd & Hk & Hn);
      [..|exact H|]
  end.
  - apply wf_heapb_spec. reflexivity.
  - reflexivity.
  - intros r Hr. apply list_elem_of_singleton in Hr as ->. simpl. lia.
  - clear H. intros k Hk. simpl in Hk.
    repeat (apply elem_of_cons in Hk as [->|Hk]); try (by apply elem_of_nil in Hk);
      solve_in_graph 0.
  - exists g'. split; [exact H|]. split; [exact Hg|]. split; [exact Hnd|].
    split; [exact Hk|exact Hn].
Defined.

(** X9 ([GraphFrame.squash], lines 529-577, the clones and [rewire]): what
    the rewiring builds.  Every node of the table, and no other, gets a
    clone.  On any graph, every root of the new graph is the clone of a
    first retained node on a path from an old root, every child of the
    clone of a node is the clone of a first retained node on a path from a
    child of that node (a chain of dropped nodes is contracted to one edge
    and nothing else is linked), and the clone of every node of the old
    graph hangs in the new graph.  When the old graph has no cycle, the
    links are exactly these: the clone of every first retained node on a
    path from an old root is a root, and the clone of every first retained
    node on a path from a child of a node is a child of the clone of that
    node. *)
Theorem X9_rewire_links (h : list Node) (g : Graph) (ns : list nat)
    (otn : gmap nat nat) (h1 : list Node) (roots1 : list nat) :
  wf_heap h → (∀ r, r ∈ roots g → r < length h) →
  (∀ n, n ∈ ns → n < length h) →
  squash_rewire h g ns = Ok (otn, h1, roots1) →
  (∀ n, is_Some (otn !! n) ↔ n ∈ ns)
  ∧ (∀ c, c ∈ roots1 → ∃ r, r ∈ roots g ∧ first_kept h otn r c)
  ∧ (∀ a ca c, otn !! a = Some ca → c ∈ children_of h1 ca →
       ∃ m, m ∈ children_of h a ∧ first_kept h otn m c)
  ∧ (∀ a ca, in_graph h g a → otn !! a = Some ca → reach h1 roots1 ca)
  ∧ (acyclic_from h (roots g) →
     (∀ r c, r ∈ roots g → first_kept h otn r c → c ∈ roots1)
     ∧ (∀ a ca m c, in_graph h g a → otn !! a = Some ca →
          m ∈ children_of h a → first_kept h otn m c →
          c ∈ children_of h1 ca)).
Proof.
  intros Hwf Hroots Hns H.
  destruct (squash_rewire_shape h g ns otn h1 roots1 Hwf Hroots Hns H)
    as (_ & Hrange & Hdom & _ & Hr & Hsound & _ & Hreach).
  split.
  { intros n. split; [|apply Hdom]. intros [c Hc]. by destruct (Hrange n c Hc). }
  split; [exact Hr|]. split; [exact Hsound|]. split; [exact Hreach|].
  intros Hac.
  destruct (squash_rewire_links h g ns otn h1 roots1 Hwf Hac Hroots Hns H)
    as (_ & _ & _ & Hr' & _ & Hcomplete).
  split; [|exact Hcomplete].
  intros r c Hrr Hfk. apply Hr'. by exists r.
Qed.

Lemma X9_witness :
  ∃ otn h1 roots1,
    squash_rewire (nodes cyclic_store) (mkGraph [0]) [0; 2; 4]
      = Ok (otn, h1, roots1)
    ∧ (∀ n, is_Some (otn !! n) ↔ n ∈ [0; 2; 4])
    ∧ (∀ c, c ∈ roots1 →
            ∃ r, r ∈ [0] ∧ first_kept (nodes cyclic_store) otn r c)
    ∧ (∀ a ca c, otn !! a = Some ca → c ∈ children_of h1 ca →
          ∃ m, m ∈ children_of (nodes cyclic_store) a
               ∧ first_kept (nodes cyclic_store) otn m c)
    ∧ (∀ a ca, in_graph (nodes cyclic_store) (mkGraph [0]) a →
               otn !! a = Some ca → reach h1 roots1 ca).
Proof.
  assert (H : squash_rewire (nodes cyclic_store) (mkGraph [0]) [0; 2; 4]
              = cyclic_rewired) by (vm_compute; reflexivity).
  unfold cyclic_rewired in H.
  match type of H with
  | _ = Ok (?m, ?h1, ?rs) =>
    exists m, h1, rs; split; [exact H|];
    destruct (X9_rewire_links (nodes cyclic_store) (mkGraph [0]) [0; 2; 4]
                m h1 rs) as (A1 & A2 & A3 & A4 & _); [..|exact H|]
  end.
  - apply wf_heapb_spec. reflexivity.
  - intros r Hr. apply list_elem_of_singleton in Hr as ->. simpl. lia.
  - clear H. intros n Hn.
    repeat (apply elem_of_cons in Hn as [->|Hn]); try (by apply elem_of_nil in Hn);
      simpl; lia.
  - split; [exact A1|]. split; [exact A2|]. split; [exact A3|exact A4].
Defined.

(** X10 ([GraphFrame.squash], lines 517-618): [squash] leaves the
    GraphFrame it is called on as it was, on any graph.  Every node, graph
    and column buffer that existed before the call is unchanged after it,
    the returned GraphFrame has a graph object of its own, and no node of
    that graph is a node that existed before.  (The references of the
    store are live: children, roots and the nodes of the rows are nodes of
    the arena.) *)
Theorem X10_squash_leaves_original (st st' : Store) (gf gf' : GraphFrame)
    (update_inc_cols : bool) (g : Graph) :
  wf_heap (nodes st) →
  graphs st !! graph gf = Some g →
  (∀ r, r ∈ roots g → r < length (nodes st)) →
  (∀ k, k ∈ keys (dataframe gf) → node k < length (nodes st)) →
  squash st gf update_inc_cols = Ok (st', gf') →
  (∀ x, x < length (nodes st) → nodes st' !! x = nodes st !! x)
  ∧ graphs st `prefix_of` graphs st'
  ∧ (∀ b, b < length (buffers st) → buffers st' !! b = buffers st !! b)
  ∧ graph gf' ≠ graph gf
  ∧ ∃ g', graphs st' !! graph gf' = Some g'
          ∧ ∀ y, in_graph (nodes st') g' y → length (nodes st) ≤ y.
Proof.
  intros Hwf Hg Hroots Hlive H.
  destruct (squash_graph st st' gf gf' update_inc_cols g Hwf Hg Hroots Hlive H)
    as (otn & h1 & roots1 & h2 & g' & merges
        & _ & _ & _ & Hgs & Hgr & _ & Hnodes & Hbufs & Hfresh & _).
  split; [exact Hnodes|]. split; [rewrite Hgs; by apply prefix_app_r|].
  split; [exact Hbufs|]. split.
  { apply lookup_lt_Some in Hg. lia. }
  exists g'. split; [|intros y Hy; by destruct (Hfresh y Hy)].
  rewrite Hgr, Hgs. by rewrite lookup_app_r, Nat.sub_diag.
Qed.

Lemma X10_witness :
  ∃ st' gf',
    squash cyclic_store cyclic_gf true = Ok (st', gf')
    ∧ (∀ x, x < length (nodes cyclic_store) →
            nodes st' !! x = nodes cyclic_store !! x)
    ∧ graphs cyclic_store `prefix_of` graphs st'
    ∧ (∀ b, b < length (buffers cyclic_store) →
            buffers st' !! b = buffers cyclic_store !! b)
    ∧ graph gf' ≠ graph cyclic_gf
    ∧ ∃ g', graphs st' !! graph gf' = Some g'
            ∧ ∀ y, in_graph (nodes st') g' y → length (nodes cyclic_store) ≤ y.
Proof.
  assert (H : squash cyclic_store cyclic_gf true = cyclic_squashed)
    by (vm_compute; reflexivity).
  unfold cyclic_squashed in H.
  match type of H with
  | _ = Ok (?s, ?g0) =>
    exists s, g0; split; [exact H|];
    apply (X10_squash_leaves_original cyclic_store s cyclic_gf g0 true
             (mkGraph [0])); [..|exact H]
  end.
  - apply wf_heapb_spec. reflexivity.
  - reflexivity.
  - intros r Hr. apply list_elem_of_singleton in Hr as ->. simpl. lia.
  - clear H. intros k Hk. simpl in Hk.
    repeat (apply elem_of_cons in Hk as [->|Hk]); try (by apply elem_of_nil in Hk);
      simpl; lia.
Defined.

(** ** C4: squash preserves ancestry *)

Lemma no_children_no_descendant (h : list Node) (a b : nat) :
  children_of h a = [] → ¬ ancestor h a b.
Proof.
  intros Ha Hab. apply tc_first in Hab as (y & Hy & _).
  unfold edge in Hy. rewrite Ha in Hy. by apply elem_of_nil in Hy.
Qed.

(** C4 fails on a graph with a cycle.  On R → X → A → Y → B → X with rows
    for R, A and B, the node B is a strict ancestor of A (B → X → A), and
    [squash] returns the chain R' → A' → B': the clone of B has no child,
    so that it is an ancestor of no node. *)
Lemma C4_counterexample :
  ∃ st' gf' (old_to_new : gmap nat nat) h1 roots1 h2 g'
    (merges : gmap nat nat),
    squash cyclic_store cyclic_gf true = Ok (st', gf')
    ∧ squash_rewire (nodes cyclic_store) (mkGraph [0])
                    (unique (node <$> keys (dataframe cyclic_gf)))
      = Ok (old_to_new, h1, roots1)
    ∧ enumerate_traverse h1 (mkGraph roots1) = Ok h2
    ∧ normalize h2 (mkGraph roots1) = Ok (nodes st', g', merges)
    ∧ graphs st' !! graph gf' = Some g'
    ∧ let final := λ n, resolve merges (default n (old_to_new !! n)) in
      4 ∈ node <$> keys (dataframe cyclic_gf)
      ∧ 2 ∈ node <$> keys (dataframe cyclic_gf)
      ∧ in_graph (nodes cyclic_store) (mkGraph [0]) 4
      ∧ ancestor (nodes cyclic_store) 4 2
      ∧ keys (dataframe gf')
        = [mkKey (final 0) []; mkKey (final 2) []; mkKey (final 4) []]
      ∧ ¬ ancestor (nodes st') (final 4) (final 2)
      ∧ ∀ y, ¬ ancestor (nodes st') (final 4) y.
Proof.
  assert (H : squash cyclic_store cyclic_gf true = cyclic_squashed)
    by (vm_compute; reflexivity).
  assert (Hrw : squash_rewire (nodes cyclic_store) (mkGraph [0])
                  (unique (node <$> keys (dataframe cyclic_gf)))
                = cyclic_rewired) by (vm_compute; reflexivity).
  unfold cyclic_squashed in H. unfold cyclic_rewired in Hrw.
  destruct (squash_stages cyclic_store _ cyclic_gf _ true (mkGraph [0])
              eq_refl H)
    as (otn & h1 & roots1 & h2 & h3 & g2 & merges
        & Hrw' & Hen & Hnorm & Hn & Hgs & Hgr & _).
  rewrite Hrw in Hrw'. injection Hrw' as <- <- <-.
  vm_compute in Hen. injection Hen as <-.
  vm_compute in Hnorm. injection Hnorm as <- <- <-.
  eexists _, _, _, _, _, _, _, _.
  split; [exact H|]. split; [exact Hrw|].
  split; [vm_compute; reflexivity|]. split; [vm_compute; reflexivity|].
  split; [reflexivity|].
  split; [solve_elem|]. split; [solve_elem|].
  split; [solve_in_graph 0|].
  split.
  { eapply tc_l; [|apply tc_once]; unfold edge, children_of; simpl; pick_elem. }
  split; [vm_compute; reflexivity|].
  split; [|intros y]; apply no_children_no_descendant; vm_compute; reflexivity.
Qed.

(** C4.  Let the graph of the GraphFrame have no cycle.  [squash] clones
    the nodes of the table ([old_to_new], made by the rewiring) and
    [normalize] merges clones ([merges]); a node [A] with a row stands in
    the new graph as [final A = merges(old_to_new(A))], a node with the
    frame of A, and the rows of the new table are labelled by these nodes.
    For all nodes A and B with rows in the table, A a node of the old
    graph: if A was a strict ancestor of B in the old graph, then [final A]
    is an ancestor of [final B] (by a path of one edge at least) in the new
    graph, and both are nodes of the new graph.  (The references of the
    store are live: children, roots and the nodes of the rows are nodes of
    the arena.) *)
Theorem C4_squash_preserves_ancestors (st st' : Store) (gf gf' : GraphFrame)
    (update_inc_cols : bool) (g : Graph) :
  wf_heap (nodes st) →
  graphs st !! graph gf = Some g →
  (∀ r, r ∈ roots g → r < length (nodes st)) →
  (∀ k, k ∈ keys (dataframe gf) → node k < length (nodes st)) →
  acyclic_from (nodes st) (roots g) →
  squash st gf update_inc_cols = Ok (st', gf') →
  ∃ (old_to_new : gmap nat nat) (h1 : list Node) (roots1 : list nat)
    (h2 : list Node) (g' : Graph) (merges : gmap nat nat),
    squash_rewire (nodes st) g (unique (node <$> keys (dataframe gf)))
      = Ok (old_to_new, h1, roots1)
    ∧ enumerate_traverse h1 (mkGraph roots1) = Ok h2
    ∧ normalize h2 (mkGraph roots1) = Ok (nodes st', g', merges)
    ∧ graphs st' !! graph gf' = Some g'
    ∧ let final := λ n, resolve merges (default n (old_to_new !! n)) in
      keys (dataframe gf') ≡ₚ unique (remap_keys final (keys (dataframe gf)))
      ∧ (∀ a, a ∈ node <$> keys (dataframe gf) →
              frame_of (nodes st') (final a) = frame_of (nodes st) a)
      ∧ ∀ a b, a ∈ node <$> keys (dataframe gf) →
               b ∈ node <$> keys (dataframe gf) →
               in_graph (nodes st) g a →
               ancestor (nodes st) a b →
               ancestor (nodes st') (final a) (final b)
               ∧ in_graph (nodes st') g' (final a)
               ∧ in_graph (nodes st') g' (final b).
Proof.
  intros Hwf Hg Hroots Hlive Hac H.
  destruct (squash_stages _ _ _ _ _ _ Hg H)
    as (otn & h1 & roots1 & h2 & h3 & g2 & merges
        & Hrw & Hen & Hnorm & Hn & Hgs & Hgr & Hks & _).
  set (tn := unique (node <$> keys (dataframe gf))) in *.
  assert (Htn : ∀ n, n ∈ tn → n < length (nodes st)).
  { intros n Hn'. apply (proj1 (elem_of_unique _ _)) in Hn'.
    apply list_elem_of_fmap in Hn' as (k & -> & Hk). by apply Hlive. }
  destruct (squash_rewire_spec (nodes st) g tn Hwf Hac Hroots Htn)
    as (otn' & h1' & roots1' & Hrw' & Hwf1 & Hr1 & Hdom & Hanc & Hreach).
  rewrite Hrw in Hrw'. injection Hrw' as <- <- <-.
  destruct (enumerate_children _ _ _ Hen) as [Hl2 Hc2].
  assert (Hwf2 : wf_heap h2).
  { intros n c. rewrite Hc2, Hl2. apply Hwf1. }
  destruct (normalize_spec h2 (mkGraph roots1) Hwf2)
    as (h3' & g2' & m' & Hnorm' & Hl3 & Hroots3 & Hedges).
  { simpl. intros r Hr. rewrite Hl2. by apply Hr1. }
  rewrite Hnorm in Hnorm'. injection Hnorm' as <- <- <-.
  destruct (normalize_paths _ _ _ _ _ Hroots3 Hedges) as [Hpaths Hnodes].
  exists otn, h1, roots1, h2, g2, merges. rewrite Hn.
  split; [done|]. split; [done|]. split; [done|]. split.
  { rewrite Hgr, Hgs. by rewrite lookup_app_r, Nat.sub_diag. }
  split; [exact Hks|].
  split.
  { intros a Ha. apply (proj2 (elem_of_unique a _)) in Ha.
    destruct (Hdom a Ha) as [ca Hca]. rewrite Hca. simpl.
    by apply (squash_frames (nodes st) g tn otn h1 roots1 h2 h3 g2 merges
                Htn Hrw Hen Hnorm a ca). }
  intros a b Ha Hb Hga Hab.
  assert (Hgb : in_graph (nodes st) g b).
  { destruct Hga as (r & Hr & Hp). exists r. split; [done|].
    etrans; [exact Hp|by apply tc_rtc]. }
  apply (proj2 (elem_of_unique a _)) in Ha.
  apply (proj2 (elem_of_unique b _)) in Hb.
  destruct (Hdom a Ha) as [ca Hca]. destruct (Hdom b Hb) as [cb Hcb].
  rewrite Hca, Hcb. simpl.
  assert (Hin2 : ∀ x cx, in_graph (nodes st) g x → otn !! x = Some cx →
                         in_graph h2 (mkGraph roots1) cx).
  { intros x cx Hx Hcx. eapply reach_children_eq; [exact Hc2|].
    by eapply Hreach. }
  split; [|split].
  - apply Hpaths; [exact (Hin2 a ca Hga Hca)|].
    eapply ancestor_children_eq; [exact Hc2|].
    exact (Hanc a b ca cb Hga Hca Hcb Hab).
  - apply Hnodes. exact (Hin2 a ca Hga Hca).
  - apply Hnodes. exact (Hin2 b cb Hgb Hcb).
Qed.

Lemma C4_witness :
  ∃ st' gf' (old_to_new merges : gmap nat nat) g',
    squash merge_store merge_gf true = Ok (st', gf')
    ∧ graphs st' !! graph gf' = Some g'
    ∧ let final := λ n, resolve merges (default n (old_to_new !! n)) in
      keys (dataframe gf')
        ≡ₚ unique (remap_keys final (keys (dataframe merge_gf)))
      ∧ ancestor (nodes st') (final 0) (final 2)
      ∧ in_graph (nodes st') g' (final 0)
      ∧ in_graph (nodes st') g' (final 2).
Proof.
  assert (H : squash merge_store merge_gf true = merge_squashed_inc)
    by (vm_compute; reflexivity).
  unfold merge_squashed_inc in H.
  match type of H with
  | _ = Ok (?s, ?g0) =>
    exists s, g0;
    destruct (C4_squash_preserves_ancestors merge_store s merge_gf g0 true
                (mkGraph [0]))
      as (otn & h1 & roots1 & h2 & g' & merges & _ & _ & _ & Hg & Hk & _
          & Hanc);
      [..|exact H|]
  end.
  - apply wf_heapb_spec. reflexivity.
  - reflexivity.
  - intros r Hr. apply list_elem_of_singleton in Hr as ->. simpl. lia.
  - clear H. intros k Hk. simpl in Hk.
    repeat (apply elem_of_cons in Hk as [->|Hk]); try (by apply elem_of_nil in Hk);
      simpl; lia.
  - apply acyclic_acyclic_from, increasingb_spec. reflexivity.
  - exists otn, merges, g'. split; [exact H|]. split; [exact Hg|].
    split; [exact Hk|].
    apply Hanc.
    + solve_elem.
    + solve_elem.
    + solve_in_graph 0.
    + eapply tc_l; [|apply tc_once]; unfold edge, children_of; simpl; pick_elem.
Defined.

(** ** The union builds fresh nodes *)

Lemma link_fresh (h0 : list Node) parent s new :
  us_fresh h0 s → length h0 ≤ new → (∀ p, parent = Some p → length h0 ≤ p) →
  us_fresh h0 (link parent s new).
Proof.
  intros (F1 & F2 & F3 & F4 & F5) Hnew Hpar.
  split; [by rewrite link_length|]. split.
  { intros x Hx. rewrite <- F2 by done. unfold link.
    destruct parent as [p|].
    - case_bool_decide; [done|]. simpl. unfold add_parent, add_child.
      specialize (Hpar p eq_refl).
      rewrite list_lookup_alter_ne by lia.
      by rewrite list_lookup_alter_ne by lia.
    - by case_bool_decide. }
  split; [by rewrite link_node_map|]. split.
  { intros r [Hr|[_ ->]]%link_roots; auto. }
  intros p c Hp. rewrite link_children. case_bool_decide.
  - intros [Hc| ->%list_elem_of_singleton]%elem_of_app; eauto.
  - eauto.
Qed.

Lemma place_fresh (h0 : list Node) (fuel : nat) :
  ∀ parent s n s',
    place fuel parent s n = Ok s' →
    us_fresh h0 s → (∀ p, parent = Some p → length h0 ≤ p) →
    us_fresh h0 s'.
Proof.
  induction fuel as [|fuel IH]; intros parent s n s' H Hf Hpar; [discriminate|].
  assert (Hfold : ∀ k cs s0 s1,
            foldM (place fuel (Some k)) cs s0 = Ok s1 →
            us_fresh h0 s0 → length h0 ≤ k → us_fresh h0 s1).
  { intros k cs. induction cs as [|c cs IHcs]; intros s0 s1 Hfd Hi Hk;
      simpl in Hfd.
    - by injection Hfd as <-.
    - apply bind_Ok in Hfd as (s2 & H2 & Hfd).
      eapply IHcs; [exact Hfd| |done].
      eapply IH; [exact H2|done|]. intros p E. by injection E as <-. }
  simpl in H. pose proof Hf as (F1 & F2 & F3 & F4 & F5).
  destruct (node_map s !! n) as [new|] eqn:Hn.
  - injection H as <-. apply link_fresh; eauto.
  - set (siblings := match parent with
                     | Some p => children_of (us_nodes s) p
                     | None => us_roots s
                     end) in H.
    destruct (list_find _ siblings) as [[i k]|] eqn:Hfind.
    + apply list_find_Some in Hfind as (Hk%list_elem_of_lookup_2 & _ & _).
      assert (Hkge : length h0 ≤ k).
      { unfold siblings in Hk. destruct parent as [p|]; [|by apply F4].
        eapply F5; [|exact Hk]. by apply Hpar. }
      eapply Hfold; [exact H| |exact Hkge].
      split; [done|]. split; [done|]. split; [|by split].
      simpl. intros n0 v Hv.
      apply lookup_insert_Some in Hv as [[_ <-]|[_ Hv]]; eauto.
    + apply bind_Ok in H as ([c h'] & Hcopy & H).
      unfold node_copy in Hcopy.
      apply bind_Ok in Hcopy as (nd & _ & E). injection E as <- <-.
      eapply Hfold; [exact H| |exact F1].
      apply link_fresh; [|exact F1|exact Hpar].
      split; [simpl; rewrite length_app; lia|]. split.
      { simpl. intros x Hx. rewrite lookup_app_l by lia. by apply F2. }
      split.
      { simpl. intros n0 v Hv.
        apply lookup_insert_Some in Hv as [[_ <-]|[_ Hv]]; eauto. }
      split; [done|]. simpl. intros p c Hp Hc.
      destruct (decide (p < length (us_nodes s))) as [Hlt|Hge].
      * rewrite children_of_app_l in Hc by done. by eapply F5.
      * unfold children_of in Hc.
        destruct (decide (p = length (us_nodes s))) as [->|Hne].
        -- rewrite lookup_app_r, Nat.sub_diag in Hc by lia. simpl in Hc.
           by apply elem_of_nil in Hc.
        -- rewrite lookup_ge_None_2 in Hc; [by apply elem_of_nil in Hc|].
           rewrite length_app. simpl. lia.
Qed.

(** [Graph.union] leaves the nodes of its operands as they are: the merged
    graph is made of fresh nodes. *)
Lemma graph_union_fresh (h h' : list Node) (g1 g2 g : Graph)
    (m : gmap nat nat) :
  graph_union h g1 g2 = Ok (h', g, m) →
  ∀ x, x < length h → h' !! x = h !! x.
Proof.
  unfold graph_union. intros H x Hx.
  apply bind_Ok in H as (s & Hs & H).
  apply bind_Ok in H as (h2 & Hen & E). injection E as <- _ _.
  assert (Hf : us_fresh h s).
  { assert (Hgen : ∀ rs s0, foldM (place (S (length h)) None) rs s0 = Ok s →
                            us_fresh h s0 → us_fresh h s).
    { induction rs as [|r rs IHrs]; intros s0 Hf Hi; cbn [foldM] in Hf.
      - by injection Hf as <-.
      - apply bind_Ok in Hf as (s1 & H1 & Hf).
        eapply IHrs; [exact Hf|].
        eapply place_fresh; [exact H1|exact Hi|]. intros p E. discriminate. }
    eapply Hgen; [exact Hs|].
    split; [done|]. split; [done|]. split.
    { simpl. intros n v Hv. by rewrite lookup_empty in Hv. }
    split; [by intros r ?%elem_of_nil|].
    simpl. intros p c Hp Hc. rewrite children_of_ge in Hc by done.
    by apply elem_of_nil in Hc. }
  destruct Hf as (F1 & F2 & F3 & F4 & F5).
  rewrite (enumerate_fresh (λ y, length h ≤ y) (us_nodes s) h2
             (mkGraph (us_roots s))); [by apply F2|exact F5|exact F4|exact Hen|lia].
Qed.

(** ** The operators on two graphs work on fresh data *)

Lemma insert_missing_rows_fresh (st st' : Store)
    (self self' other : GraphFrame) :
  _insert_missing_rows st self other = Ok (st', self') →
  old_buffers (length (buffers st)) st st'
  ∧ fresh_columns (length (buffers st)) (dataframe self').
Proof.
  unfold _insert_missing_rows. intros H.
  apply bind_Ok in H as (self_cols & _ & H).
  apply bind_Ok in H as (other_cols & _ & H).
  destruct (if bool_decide _ then _ else _) as [self_cols2 onis1].
  apply bind_Ok in H as (self_cols3 & _ & H).
  destruct (df_new _ _ _ _) as [st2 df'] eqn:Hnew.
  injection H as <- <-. simpl. by apply df_new_old in Hnew.
Qed.

Lemma unify_fresh (st st' : Store) (a b a' b' : GraphFrame) :
  graph a ≠ graph b → unify st a b = Ok (st', a', b') →
  (∀ x, x < length (nodes st) → nodes st' !! x = nodes st !! x)
  ∧ (∃ g', graphs st' = graphs st ++ [g'])
  ∧ old_buffers (length (buffers st)) st st'
  ∧ graph a' = length (graphs st)
  ∧ fresh_columns (length (buffers st)) (dataframe a').
Proof.
  intros Hne H. unfold unify in H. rewrite decide_False in H by done.
  apply bind_Ok in H as (g1 & _ & H).
  apply bind_Ok in H as (g2 & _ & H).
  apply bind_Ok in H as ([[h' ug] nm] & Hun & H).
  apply bind_Ok in H as (self_df & Hsdf & H).
  apply bind_Ok in H as (other_df & Hodf & H).
  apply bind_Ok in H as ([st2 self1] & Hins & H).
  injection H as <- <- <-. simpl.
  pose proof (insert_missing_rows_frame _ _ _ _ _ Hins) as (Hn & Hg & _).
  apply insert_missing_rows_fresh in Hins as [Hob Hfc]. simpl in Hn, Hg, Hob, Hfc.
  split.
  { intros x Hx. rewrite Hn. eapply graph_union_fresh; [exact Hun|exact Hx]. }
  split; [by exists ug|]. split; [exact Hob|]. split; [done|exact Hfc].
Qed.

Lemma operator_old (base : nat) (st st' : Store) (self other self' : GraphFrame)
    (op : cell → cell → result cell) :
  fresh_columns base (dataframe self) →
  _operator st self other op = Ok (st', self') →
  same_graphs st st' ∧ old_buffers base st st' ∧ self' = self.
Proof.
  intros Hf H. unfold _operator in H.
  apply bind_Ok in H as (others & _ & H).
  apply bind_Ok in H as (st1 & H & E). injection E as <- <-.
  enough (same_graphs st st1 ∧ old_buffers base st st1) by tauto.
  unfold fresh_columns in Hf. revert H Hf.
  generalize (columns (dataframe self)). intros l. revert st.
  induction l as [|[c b] l IH]; intros st H Hf; simpl in H.
  - injection H as <-. by split.
  - apply bind_Ok in H as (st2 & Hstep & H).
    apply IH in H as [Hs Ho].
    2:{ intros c' b' Hc'. eapply Hf. by apply list_elem_of_further. }
    assert (Hb : base ≤ b) by (eapply Hf; apply list_elem_of_here).
    assert (Hst : same_graphs st st2 ∧ old_buffers base st st2).
    { destruct (assoc c others) as [that|].
      - apply bind_Ok in Hstep as (this & _ & Hstep).
        apply bind_Ok in Hstep as (upd & _ & E). injection E as <-.
        split; [by split|]. split; simpl.
        + by rewrite length_insert.
        + intros x Hx. apply list_lookup_insert_ne. lia.
      - injection Hstep as <-. by split. }
    destruct Hst as [Hs2 Ho2]. split; by etrans.
Qed.

Lemma operator_after_unify_fresh (st st' : Store) (a b r : GraphFrame)
    (op : cell → cell → result cell) :
  graph a ≠ graph b →
  ('(st1, self_copy, other_copy) ← unify st (copy a) (copy b);
   _operator st1 self_copy other_copy op) = Ok (st', r) →
  (∀ x, x < length (nodes st) → nodes st' !! x = nodes st !! x)
  ∧ graphs st `prefix_of` graphs st'
  ∧ (∀ i, i < length (buffers st) → buffers st' !! i = buffers st !! i)
  ∧ graph r = length (graphs st)
  ∧ fresh_columns (length (buffers st)) (dataframe r).
Proof.
  intros Hne H. apply bind_Ok in H as ([[st1 sc] oc] & Hun & H).
  apply unify_fresh in Hun as (Hn & [g' Hg] & [_ Hob] & Hgr & Hfc);
    [|by rewrite !copy_same].
  apply (operator_old (length (buffers st))) in H as ([Hn' Hg'] & [_ Hob'] & ->);
    [|done].
  split; [intros x Hx; rewrite Hn'; by apply Hn|].
  split; [rewrite Hg', Hg; by apply prefix_app_r|].
  split; [intros i Hi; rewrite Hob' by done; by apply Hob|].
  by split.
Qed.

(** X11 ([GraphFrame.add], [sub], [mul], [div], lines 1412-1483, through
    [unify], [_insert_missing_rows] and [_operator]): on two GraphFrames
    over different graph objects the operators change nothing that
    existed.  Every node, graph and column buffer of the store is after
    the call what it was before, so that every column of either operand
    reads as before; the result has the union graph, a new graph object,
    and a table over buffers of its own. *)
Theorem X11_operators_on_distinct_graphs (st st' : Store) (a b r : GraphFrame)
    (f : Store → GraphFrame → GraphFrame → result (Store * GraphFrame)) :
  f = add ∨ f = sub ∨ f = mul ∨ (∃ fdiv, f = div fdiv) →
  graph a ≠ graph b →
  f st a b = Ok (st', r) →
  (∀ x, x < length (nodes st) → nodes st' !! x = nodes st !! x)
  ∧ graphs st `prefix_of` graphs st'
  ∧ (∀ i, i < length (buffers st) → buffers st' !! i = buffers st !! i)
  ∧ graph r = length (graphs st)
  ∧ fresh_columns (length (buffers st)) (dataframe r)
  ∧ (∀ gf c, live_columns st (dataframe gf) →
       column st' (dataframe gf) c = column st (dataframe gf) c).
Proof.
  intros Hf Hne H.
  assert (Hop : ∃ op, ('(st1, self_copy, other_copy) ← unify st (copy a) (copy b);
                       _operator st1 self_copy other_copy op) = Ok (st', r)).
  { destruct Hf as [->|[->|[->|[fdiv ->]]]]; eexists; exact H. }
  destruct Hop as [op Hop].
  destruct (operator_after_unify_fresh st st' a b r op Hne Hop)
    as (Hn & Hg & Hb & Hgr & Hfc).
  repeat (split; [done|]).
  intros gf c Hl. unfold column.
  destruct (assoc c (columns (dataframe gf))) as [i|] eqn:Hc; [|done].
  simpl. by rewrite (Hb i (Hl c i Hc)).
Qed.

Lemma X11_witness :
  ∃ st' r,
    add two_store scenario_gf other_gf = Ok (st', r)
    ∧ (∀ x, x < length (nodes two_store) →
            nodes st' !! x = nodes two_store !! x)
    ∧ graphs two_store `prefix_of` graphs st'
    ∧ (∀ i, i < length (buffers two_store) →
            buffers st' !! i = buffers two_store !! i)
    ∧ graph r = length (graphs two_store)
    ∧ fresh_columns (length (buffers two_store)) (dataframe r)
    ∧ (∀ gf c, live_columns two_store (dataframe gf) →
         column st' (dataframe gf) c = column two_store (dataframe gf) c).
Proof.
  assert (H : add two_store scenario_gf other_gf = two_added)
    by (vm_compute; reflexivity).
  unfold two_added in H.
  match type of H with
  | _ = Ok (?s, ?g0) =>
    exists s, g0; split; [exact H|];
    apply (X11_operators_on_distinct_graphs two_store s scenario_gf other_gf
             g0 add); [by left| |exact H]
  end.
  simpl. lia.
Defined.

(** X12 ([GraphFrame.filter] with [squash=True], lines 411-515, through
    [squash], lines 517-618): a filter by a callable followed by the squash,
    on any graph.  The rows kept are the rows on which the callable holds;
    [squash] clones their nodes ([old_to_new]) and [normalize] merges
    clones ([merges]).  The graph of the GraphFrame returned holds exactly
    the nodes [merges(old_to_new(n))] for the nodes [n] of the rows kept,
    each with the frame of [n], its table is keyed by those nodes, and the
    nodes, graphs and column buffers of the GraphFrame that was filtered
    are left as they were. *)
Theorem X12_filter_then_squash {Q : Type} (env : Env Q)
    (st st' : Store) (gf gf' : GraphFrame) (f : Row → bool)
    (update_inc_cols : bool) (num_procs : nat) (mode : string)
    (cols : Columns) (g : Graph) :
  wf_heap (nodes st) →
  graphs st !! graph gf = Some g →
  (∀ r, r ∈ roots g → r < length (nodes st)) →
  (∀ k, k ∈ keys (dataframe gf) → in_graph (nodes st) g (node k)) →
  df_cols st (dataframe gf) = Ok cols →
  queue_order env (seq 0 num_procs) ≡ₚ seq 0 num_procs →
  gf_filter env st gf (Callable f) true update_inc_cols num_procs mode
  = Ok (st', gf') →
  let ks := keys (dataframe gf) in
  ∃ (kept : list Key) (old_to_new : gmap nat nat) (h1 : list Node)
    (roots1 : list nat) (h2 : list Node) (g' : Graph) (merges : gmap nat nat),
    (∀ k, k ∈ kept ↔
          ∃ i r, row_at ks cols i = Some r ∧ f r = true ∧ row_key r = k)
    ∧ squash_rewire (nodes st) g (unique (node <$> kept))
      = Ok (old_to_new, h1, roots1)
    ∧ enumerate_traverse h1 (mkGraph roots1) = Ok h2
    ∧ normalize h2 (mkGraph roots1) = Ok (nodes st', g', merges)
    ∧ graphs st' !! graph gf' = Some g'
    ∧ let final := λ n, resolve merges (default n (old_to_new !! n)) in
      (∀ y, in_graph (nodes st') g' y ↔
            ∃ i r, row_at ks cols i = Some r ∧ f r = true
                   ∧ y = final (node (row_key r)))
      ∧ (∀ k, k ∈ keys (dataframe gf') ↔
              ∃ i r, row_at ks cols i = Some r ∧ f r = true
                     ∧ k = mkKey (final (node (row_key r)))
                                 (dims (row_key r)))
      ∧ (∀ i r, row_at ks cols i = Some r → f r = true →
            frame_of (nodes st') (final (node (row_key r)))
            = frame_of (nodes st) (node (row_key r)))
      ∧ (∀ x, x < length (nodes st) → nodes st' !! x = nodes st !! x)
      ∧ graphs st `prefix_of` graphs st'
      ∧ (∀ b, b < length (buffers st) → buffers st' !! b = buffers st !! b).
Proof.
  intros Hwf Hg Hroots Hkg Hcols Hperm H ks.
  set (ps := apply_filter f ks cols (seq 0 (length ks))).
  assert (Hps : ∀ i, i ∈ ps ↔ ∃ r, row_at ks cols i = Some r ∧ f r = true).
  { intros i. unfold ps, apply_filter. rewrite elem_of_filter_bool. split.
    - intros [_ Hi]. destruct (row_at ks cols i) as [r|]; [eauto|discriminate].
    - intros (r & Hr & Hf). rewrite Hr. split; [|done].
      apply elem_of_seq. unfold row_at in Hr.
      destruct (ks !! i) eqn:E; [|discriminate].
      apply lookup_lt_Some in E. lia. }
  unfold gf_filter in H.
  apply bind_Ok in H as (cols0 & Hc0 & H).
  assert (cols0 = cols) as -> by congruence.
  apply bind_Ok in H as (g0 & _ & H). apply bind_Ok in H as (ps0 & Hps0 & H).
  fold ks in Hps0, H.
  destruct (bool_decide (length ps0 = 0)); [discriminate|].
  destruct (df_new _ _ _ _) as [st1 fdf] eqn:Hnew.
  apply bind_Ok in H as (gf0 & Hinit & H).
  unfold GraphFrame_init in Hinit.
  destruct (bool_decide (_ ∈ _)); [|discriminate]. injection Hinit as <-.
  simpl in H.
  destruct (column_df_new _ _ _ _ _ _ "" Hnew) as (_ & Hk & _).
  pose proof (df_new_frame _ _ _ _ _ _ Hnew) as [Hn1 Hg1].
  pose proof (df_new_old _ _ _ _ _ _ Hnew) as [[Hl1 Hb1] _].
  assert (Hp : ps0 ≡ₚ ps).
  { case_bool_decide as Hn.
    - destruct (parallel_positions env f ks cols num_procs ltac:(lia) Hperm)
        as [Hp _].
      by injection Hps0 as <-.
    - by injection Hps0 as <-. }
  assert (Hsel : ∀ k, k ∈ select ps0 ks ↔
            ∃ i r, row_at ks cols i = Some r ∧ f r = true ∧ row_key r = k).
  { intros k. rewrite (select_perm _ _ _ Hp), elem_of_select. split.
    - intros (i & Hi & Hki). apply Hps in Hi as (r & Hr & Hf).
      exists i, r. split; [done|]. split; [done|].
      unfold row_at in Hr. rewrite Hki in Hr. simpl in Hr. by injection Hr as <-.
    - intros (i & r & Hr & Hf & <-). exists i. split; [apply Hps; eauto|].
      unfold row_at in Hr. destruct (ks !! i) as [k|]; [|discriminate].
      simpl in Hr. by injection Hr as <-. }
  assert (Hsub : ∀ k, k ∈ select ps0 ks → k ∈ ks).
  { intros k (i & _ & Hi)%elem_of_select. by eapply list_elem_of_lookup_2. }
  match type of H with
  | squash _ ?fgf _ = _ =>
    destruct (squash_graph st1 st' fgf gf' update_inc_cols g)
      as (otn & h1 & roots1 & h2 & g' & merges
          & Hrw & Hen & Hnorm & Hgs & Hgr & Hks & Hnodes & Hbufs
          & Hsound & Hcomplete & Hframes);
      [..|exact H|]
  end.
  { by rewrite Hn1. }
  { simpl. by rewrite Hg1. }
  { by rewrite Hn1. }
  { simpl. rewrite Hk, Hn1. intros k Hk'.
    by apply (in_graph_valid (nodes st) g _ Hwf Hroots), Hkg, Hsub. }
  simpl in Hrw, Hks, Hsound, Hcomplete, Hframes.
  rewrite Hk in Hrw, Hks, Hsound, Hcomplete, Hframes.
  rewrite Hn1 in Hrw, Hcomplete, Hframes.
  exists (select ps0 ks), otn, h1, roots1, h2, g', merges.
  split; [exact Hsel|]. split; [exact Hrw|]. split; [exact Hen|].
  split; [exact Hnorm|]. split.
  { rewrite Hgr, Hgs. by rewrite lookup_app_r, Nat.sub_diag. }
  split.
  { intros y. split.
    - intros (_ & k & Hk' & ->)%Hsound.
      apply Hsel in Hk' as (i & r & Hr & Hf & <-). by exists i, r.
    - intros (i & r & Hr & Hf & ->).
      assert (Hin : row_key r ∈ select ps0 ks) by (apply Hsel; by exists i, r).
      apply Hcomplete; [done|]. by apply Hkg, Hsub. }
  split.
  { intros k. rewrite Hks, elem_of_unique. unfold remap_keys.
    rewrite list_elem_of_fmap. split.
    - intros (k0 & -> & Hk0). apply Hsel in Hk0 as (i & r & Hr & Hf & <-).
      by exists i, r.
    - intros (i & r & Hr & Hf & ->). exists (row_key r). split; [done|].
      apply Hsel. by exists i, r. }
  split.
  { intros i r Hr Hf. apply Hframes, Hsel. by exists i, r. }
  split; [intros x Hx; rewrite <- Hn1; apply Hnodes; by rewrite Hn1|].
  split; [rewrite Hgs, Hg1; by apply prefix_app_r|].
  intros b Hb. rewrite Hbufs by lia. by apply Hb1.
Qed.

Lemma X12_witness :
  ∃ st' gf' (old_to_new merges : gmap nat nat) g',
    gf_filter plain_env scenario_store scenario_gf (Callable main_or_bar)
              true true 2 "off" = Ok (st', gf')
    ∧ graphs st' !! graph gf' = Some g'
    ∧ (∀ y, in_graph (nodes st') g' y ↔
            ∃ i r, row_at (keys (dataframe scenario_gf))
                          [("time", [Num 1; Num 1; Num 2; Num 3]);
                           ("name", [Cat "main"; Cat "foo"; Cat "bar"; Cat "baz"])]
                          i = Some r
                   ∧ main_or_bar r = true
                   ∧ y = resolve merges
                           (default (node (row_key r))
                                    (old_to_new !! node (row_key r))))
    ∧ (∀ b, b < length (buffers scenario_store) →
            buffers st' !! b = buffers scenario_store !! b).
Proof.
  destruct (gf_filter plain_env scenario_store scenario_gf
              (Callable main_or_bar) true true 2 "off")
    as [[st' gf']|e] eqn:H; [|vm_compute in H; discriminate].
  exists st', gf'.
  destruct (X12_filter_then_squash plain_env scenario_store st'
              scenario_gf gf' main_or_bar true 2 "off"
              [("time", [Num 1; Num 1; Num 2; Num 3]);
               ("name", [Cat "main"; Cat "foo"; Cat "bar"; Cat "baz"])]
              (mkGraph [0]))
    as (kept & otn & h1 & roots1 & h2 & g' & merges
        & _ & _ & _ & _ & Hg & Hin & _ & _ & _ & _ & Hb); [..|exact H|].
  - apply wf_heapb_spec. reflexivity.
  - reflexivity.
  - intros r Hr. apply list_elem_of_singleton in Hr as ->. simpl. lia.
  - clear H. intros k Hk. simpl in Hk.
    repeat (apply elem_of_cons in Hk as [->|Hk]); try (by apply elem_of_nil in Hk);
      solve_in_graph 0.
  - reflexivity.
  - reflexivity.
  - exists otn, merges, g'. split; [reflexivity|]. split; [exact Hg|].
    split; [exact Hin|exact Hb].
Defined.

(** ** The values of the generated exclusive columns *)















(** ** [drop_index_levels] *)

Lemma positions_from_ext (p p' : Key → bool) (ks : list Key) :
  (∀ k, k ∈ ks → p k = p' k) →
  ∀ i, positions_from i p ks = positions_from i p' ks.
Proof.
  induction ks as [|k ks IH]; intros Hp i; simpl; [done|].
  rewrite (Hp k) by apply list_elem_of_here.
  rewrite (IH (λ k' Hk', Hp k' (list_elem_of_further _ _ _ Hk'))). done.
Qed.

Lemma positions_from_fmap (p : Key → bool) (f : Key → Key) (ks : list Key) :
  ∀ i, positions_from i p (f <$> ks) = positions_from i (p ∘ f) ks.
Proof.
  induction ks as [|k ks IH]; intros i; simpl; [done|]. by rewrite IH.
Qed.

(** The rows of a node, whatever their secondary levels. *)
Lemma group_by_node (ks : list Key) (k : Key) :
  dims k = [] →
  group_of k ((λ k', mkKey (node k') []) <$> ks)
  = positions (has_node (node k)) ks.
Proof.
  intros Hd. unfold group_of, positions. rewrite positions_from_fmap.
  apply positions_from_ext. intros k' _. simpl. unfold has_node.
  destruct k as [n d]. simpl in Hd. subst d. simpl.
  apply bool_decide_ext. split; [by intros [=]|by intros ->].
Qed.

(** X14 ([GraphFrame.drop_index_levels], lines 392-409): dropping the
    secondary index levels leaves one row for every node of the table and
    the node as the only index level.  In the row of a node, a registered
    metric holds [function] of the values of the rows of that node, in the
    order of the table, and any other column the value of the first of
    those rows.  The graph is left alone; without a level "node" the call
    raises [ValueError]. *)
Theorem X14_drop_index_levels (st st' : Store) (gf gf' : GraphFrame)
    (function : list cell → result cell) (cols : Columns) :
  df_cols st (dataframe gf) = Ok cols →
  drop_index_levels st gf function = Ok (st', gf') →
  "node" ∈ index_names (dataframe gf)
  ∧ index_names (dataframe gf') = ["node"]
  ∧ NoDup (keys (dataframe gf'))
  ∧ (∀ k, k ∈ keys (dataframe gf') ↔
          dims k = [] ∧ node k ∈ node <$> keys (dataframe gf))
  ∧ nodes st' = nodes st ∧ graphs st' = graphs st ∧ graph gf' = graph gf
  ∧ ∀ j k c vs,
      keys (dataframe gf') !! j = Some k →
      assoc c cols = Some vs →
      let group :=
        select (positions (has_node (node k)) (keys (dataframe gf))) vs in
      ∃ merged v,
        column st' (dataframe gf') c = Ok merged
        ∧ merged !! j = Some v
        ∧ (c ∈ exc_metrics gf ++ inc_metrics gf → function group = Ok v)
        ∧ (c ∉ exc_metrics gf ++ inc_metrics gf → head group = Some v).
Proof.
  intros Hcols H. unfold drop_index_levels in H.
  case_bool_decide as Hnode; [|discriminate]. split; [exact Hnode|].
  rewrite Hcols in H. unfold mbind at 1, result_bind at 1 in H.
  cbv beta iota in H.
  apply bind_Ok in H as ([gks gcols] & Hgrp & H).
  set (by_node := (λ k, mkKey (node k) []) <$> keys (dataframe gf)) in *.
  apply groupby_agg_spec in Hgrp as [-> Hagg].
  unfold sort_index in H.
  set (ps := sort_order (nodes st) (unique by_node)) in *.
  destruct (df_new _ _ _ _) as [st2 agg_df] eqn:Hnew.
  injection H as <- <-. simpl.
  assert (Hps : ps ≡ₚ seq 0 (length (unique by_node))) by apply sort_order_perm.
  assert (Hrange : ∀ i, i ∈ ps → i < length (unique by_node)).
  { intros i Hi. rewrite Hps in Hi. apply elem_of_seq in Hi. lia. }
  pose proof (λ c, column_df_new _ _ _ _ _ _ c Hnew) as Hcolnew.
  destruct (Hcolnew "") as (_ & Hkeys & Hidx).
  pose proof (df_new_frame _ _ _ _ _ _ Hnew) as [Hn Hg].
  assert (Hk : keys agg_df ≡ₚ unique by_node).
  { rewrite Hkeys. rewrite (select_perm _ _ _ Hps). by rewrite select_all. }
  assert (Hmem : ∀ k, k ∈ keys agg_df ↔
            dims k = [] ∧ node k ∈ node <$> keys (dataframe gf)).
  { intros k. rewrite Hk, elem_of_unique. unfold by_node.
    rewrite list_elem_of_fmap. split.
    - intros (k0 & -> & Hk0). split; [done|]. simpl.
      by apply list_elem_of_fmap_2.
    - intros [Hd (k0 & Hn0 & Hk0)%list_elem_of_fmap]. exists k0.
      split; [|done]. destruct k as [n d]. simpl in *. by subst. }
  split; [exact Hidx|]. split; [rewrite Hk; apply NoDup_unique|].
  split; [exact Hmem|]. repeat (split; [done|]).
  intros j k c vs Hj Hc.
  assert (Hdk : dims k = []).
  { apply (Hmem k). by eapply list_elem_of_lookup_2. }
  rewrite Hkeys in Hj.
  destruct (Hagg c vs Hc) as (vals & Hvals & Hall).
  rewrite select_lookup in Hj by exact Hrange.
  destruct (ps !! j) as [i|] eqn:Hpj; [|discriminate]. simpl in Hj.
  destruct (Forall2_lookup_l _ _ _ _ _ Hall Hj) as (v & Hv & Hagg_v).
  exists (select ps vals), v.
  split.
  { destruct (Hcolnew c) as (-> & _ & _).
    rewrite assoc_fmap_named, Hvals. reflexivity. }
  split.
  { rewrite select_lookup.
    - rewrite Hpj. simpl. exact Hv.
    - intros i' Hi'. rewrite <- (Forall2_length _ _ _ Hall). by apply Hrange. }
  unfold by_node in Hagg_v. rewrite (group_by_node _ k Hdk) in Hagg_v.
  split.
  - intros Hm. by rewrite bool_decide_eq_true_2 in Hagg_v by exact Hm.
  - intros Hm. rewrite bool_decide_eq_false_2 in Hagg_v by exact Hm.
    unfold first_value in Hagg_v.
    destruct (select _ vs) as [|x xs]; [discriminate|].
    by injection Hagg_v as <-.
Qed.

Lemma X14_witness :
  ∃ st' gf' merged,
    drop_index_levels ranks_store ranks_gf nansum = Ok (st', gf')
    ∧ index_names (dataframe gf') = ["node"]
    ∧ keys (dataframe gf') !! 0 = Some (mkKey 0 [])
    ∧ column st' (dataframe gf') "time" = Ok merged
    ∧ merged !! 0 = Some (Num 4).
Proof.
  assert (H : drop_index_levels ranks_store ranks_gf nansum = ranks_dropped)
    by (vm_compute; reflexivity).
  unfold ranks_dropped in H.
  match type of H with
  | _ = Ok (?s, ?g0) =>
    destruct (X14_drop_index_levels ranks_store s ranks_gf g0 nansum
                [("time", [Num 1; Num 3; Num 2; Num 4]);
                 ("name", [Cat "main"; Cat "main"; Cat "foo"; Cat "foo"])]
                eq_refl H)
      as (_ & Hidx & _ & _ & _ & _ & _ & Hcells);
    destruct (Hcells 0 (mkKey 0 []) "time" [Num 1; Num 3; Num 2; Num 4]
                eq_refl eq_refl) as (merged & v & Hm & Hv & Hsum & _);
    exists s, g0, merged
  end.
  split; [exact H|]. split; [exact Hidx|]. split; [reflexivity|].
  split; [exact Hm|]. rewrite Hv. f_equal.
  assert (Hs : nansum [Num 1; Num 3] = Ok v).
  { apply Hsum. clear. solve_elem. }
  clear - Hs. vm_compute in Hs. by injection Hs as <-.
Defined.

(** ** The rows stay in the graph *)

Lemma keys_in_graph_frame (st st' : Store) (gf gf' : GraphFrame) :
  same_graphs st st' → graph gf' = graph gf →
  (∀ k, k ∈ keys (dataframe gf') →
        ∃ k0, k0 ∈ keys (dataframe gf) ∧ node k0 = node k) →
  keys_in_graph st gf → keys_in_graph st' gf'.
Proof.
  intros [Hn Hg] Hgr Hk (g & Hlook & Hin). exists g.
  rewrite Hg, Hgr, Hn. split; [done|].
  intros k (k0 & Hk0 & <-)%Hk. by apply Hin.
Qed.

Lemma unify_rows_in_graph (st st' : Store) (a b a' b' : GraphFrame) :
  keys_in_graph st a →
  unify st a b = Ok (st', a', b') → keys_in_graph st' a'.
Proof.
  intros Ha H. unfold unify in H.
  destruct (decide (graph a = graph b)) as [Heq|Hne].
  { by injection H as <- <- <-. }
  apply bind_Ok in H as (g1 & _ & H).
  apply bind_Ok in H as (g2 & _ & H).
  apply bind_Ok in H as ([[h' ug] nm] & Hun & H).
  apply bind_Ok in H as (self_df & Hsdf & H).
  apply bind_Ok in H as (other_df & Hodf & H).
  apply bind_Ok in H as ([st2 self1] & Hins & H).
  injection H as <- <- <-.
  apply bind_Ok in Hsdf as (sks & Hsks & E). injection E as <-.
  apply bind_Ok in Hodf as (oks & Hoks & E). injection E as <-.
  destruct (insert_missing_rows_frame _ _ _ _ _ Hins)
    as (Hn & Hg & _ & _ & Hkeys).
  simpl in Hn, Hg, Hkeys.
  pose proof (graph_union_range _ _ _ _ _ _ Hun) as Hrange.
  pose proof (remap_in_range _ _ _ Hsks) as Hrs.
  pose proof (remap_in_range _ _ _ Hoks) as Hro.
  exists ug. split.
  { simpl. rewrite Hg. rewrite lookup_app_r by lia. by rewrite Nat.sub_diag. }
  simpl. intros k Hk. rewrite Hn.
  destruct (Hkeys k Hk) as [Hk'|Hk'].
  - destruct (Hrs k Hk') as [n Hnk]. eapply Hrange, Hnk.
  - destruct (Hro k Hk') as [n Hnk]. eapply Hrange, Hnk.
Qed.

Lemma operator_after_unify_rows (st st' : Store) (a b r : GraphFrame)
    (op : cell → cell → result cell) :
  keys_in_graph st a →
  ('(st1, self_copy, other_copy) ← unify st (copy a) (copy b);
   _operator st1 self_copy other_copy op) = Ok (st', r) →
  keys_in_graph st' r.
Proof.
  intros Ha H. apply bind_Ok in H as ([[st1 sc] oc] & Hun & H).
  apply unify_rows_in_graph in Hun; [|by rewrite copy_same].
  apply (operator_old 0) in H as (Hs & _ & ->); [|intros c i _; lia].
  by apply (keys_in_graph_frame st1 st' sc sc Hs eq_refl); [eauto|].
Qed.

Lemma filter_rows (Q : Type) (env : Env Q) (st st' : Store)
    (gf gf' : GraphFrame) (fo : filter_obj Q) (update_inc_cols : bool)
    (num_procs : nat) (mode : string) :
  gf_filter env st gf fo false update_inc_cols num_procs mode = Ok (st', gf') →
  same_graphs st st' ∧ graph gf' = graph gf
  ∧ ∀ k, k ∈ keys (dataframe gf') → k ∈ keys (dataframe gf).
Proof.
  intros H. unfold gf_filter in H.
  apply bind_Ok in H as (cols & _ & H).
  apply bind_Ok in H as (g & _ & H). apply bind_Ok in H as (ps & _ & H).
  destruct (bool_decide (length ps = 0)); [discriminate|].
  destruct (df_new _ _ _ _) as [st1 fdf] eqn:Hnew.
  apply bind_Ok in H as (gf0 & Hinit & E). injection E as <- <-.
  unfold GraphFrame_init in Hinit.
  destruct (bool_decide (_ ∈ _)); [|discriminate]. injection Hinit as <-.
  simpl. destruct (column_df_new _ _ _ _ _ _ "" Hnew) as (_ & Hk & _).
  split; [by eapply df_new_frame|]. split; [done|].
  intros k Hk'. rewrite Hk in Hk'.
  apply elem_of_select in Hk' as (i & _ & Hi). by eapply list_elem_of_lookup_2.
Qed.

Lemma drop_index_levels_rows (st st' : Store) (gf gf' : GraphFrame)
    (function : list cell → result cell) :
  drop_index_levels st gf function = Ok (st', gf') →
  same_graphs st st' ∧ graph gf' = graph gf
  ∧ ∀ k, k ∈ keys (dataframe gf') →
         ∃ k0, k0 ∈ keys (dataframe gf) ∧ node k0 = node k.
Proof.
  intros H. unfold drop_index_levels in H.
  case_bool_decide; [|discriminate].
  apply bind_Ok in H as (cols & _ & H).
  apply bind_Ok in H as ([gks gcols] & Hgrp & H).
  apply groupby_agg_spec in Hgrp as [-> _].
  unfold sort_index in H.
  destruct (df_new _ _ _ _) as [st2 agg_df] eqn:Hnew.
  injection H as <- <-. simpl.
  destruct (column_df_new _ _ _ _ _ _ "" Hnew) as (_ & Hk & _).
  split; [by eapply df_new_frame|]. split; [done|].
  intros k Hk'. rewrite Hk in Hk'.
  apply elem_of_select in Hk' as (i & _ & Hi).
  apply list_elem_of_lookup_2 in Hi. apply (proj1 (elem_of_unique _ _)) in Hi.
  apply list_elem_of_fmap in Hi as (k0 & -> & Hk0). by exists k0.
Qed.

(** X15 (the operations of [GraphFrame] on its table and its operators,
    lines 392-515, 757-875, 1412-1483): the operations keep the rows in
    the graph.  When every row of a GraphFrame is keyed by a node of its
    graph, the same holds of the GraphFrame that is left by
    [update_inclusive_columns], [generate_exclusive_columns],
    [drop_index_levels] and a [filter] without squash whose rows do not go
    through the queue of the worker processes (a filter by a query, or by
    a callable with [num_procs] at most 1), and of the result of [add],
    [sub], [mul] and [div] with any other GraphFrame. *)
Theorem X15_operations_keep_rows_in_graph {Q : Type} (env : Env Q)
    (st st' : Store) (gf gf' : GraphFrame) :
  keys_in_graph st gf →
  update_inclusive_columns st gf = Ok (st', gf')
  ∨ (live_columns st (dataframe gf)
     ∧ generate_exclusive_columns st gf = Ok (st', gf'))
  ∨ (∃ function, drop_index_levels st gf function = Ok (st', gf'))
  ∨ (∃ fo update_inc_cols num_procs mode,
       (∀ f, fo = Callable f → num_procs ≤ 1)
       ∧ gf_filter env st gf fo false update_inc_cols num_procs mode
         = Ok (st', gf'))
  ∨ (∃ other f,
       (f = add ∨ f = sub ∨ f = mul ∨ ∃ fdiv, f = div fdiv)
       ∧ f st gf other = Ok (st', gf')) →
  keys_in_graph st' gf'.
Proof.
  intros Hk [H|[[Hl H]|[[fn H]|[(fo & u & np & mode & _ & H)
                               |(other & f & Hf & H)]]]].
  - apply update_inclusive_columns_frame in H as (Hs & Hg & Hks).
    apply (keys_in_graph_frame st st' gf gf' Hs Hg); [|done].
    intros k Hk'. rewrite Hks in Hk'. by exists k.
  - apply generate_exclusive_frame in H as (Hs & Hg & Hks & _); [|done].
    apply (keys_in_graph_frame st st' gf gf' Hs Hg); [|done].
    intros k Hk'. rewrite Hks in Hk'. by exists k.
  - apply drop_index_levels_rows in H as (Hs & Hg & Hks).
    by apply (keys_in_graph_frame st st' gf gf' Hs Hg).
  - apply filter_rows in H as (Hs & Hg & Hks).
    apply (keys_in_graph_frame st st' gf gf' Hs Hg); [|done].
    intros k Hk'. exists k. split; [by apply Hks|done].
  - assert (Hop : ∃ op,
              ('(st1, self_copy, other_copy) ← unify st (copy gf) (copy other);
               _operator st1 self_copy other_copy op) = Ok (st', gf')).
    { destruct Hf as [->|[->|[->|[fdiv ->]]]]; eexists; exact H. }
    destruct Hop as [op Hop]. by eapply operator_after_unify_rows.
Qed.

Lemma X15_witness :
  ∃ st' gf',
    add two_store scenario_gf other_gf = Ok (st', gf')
    ∧ keys_in_graph st' gf'.
Proof.
  assert (H : add two_store scenario_gf other_gf = two_added)
    by (vm_compute; reflexivity).
  unfold two_added in H.
  match type of H with
  | _ = Ok (?s, ?g0) =>
    exists s, g0; split; [exact H|];
    apply (X15_operations_keep_rows_in_graph plain_env two_store s
             scenario_gf g0)
  end.
  - exists (mkGraph [0]). split; [reflexivity|].
    clear H. intros k Hk. simpl in Hk.
    repeat (apply elem_of_cons in Hk as [->|Hk]); try (by apply elem_of_nil in Hk);
      solve_in_graph 0.
  - right. right. right. right. exists other_gf, add.
    split; [by left|exact H].
Defined.
